(** * Expand / crop / validate pipeline of the defect-dataset tools

    A shallow embedding of [tools/expand.py], [tools/crop.py],
    [tools/process_allinone.py] and of the mask extraction of
    [tools/mask_and_label.py].

    Conventions of the embedding.
    - Python integers are [Z]; an image is a list of rows of 3-channel
      pixels, as a numpy array of shape (H, W, 3).  numpy arrays are
      rectangular; where a statement needs it, it says [rectangular].
    - Python floats (ratios and thresholds) are the rationals they stand
      for, in [Q].
    - The scripts are effectful: they draw random numbers, read and write
      image files, print and raise.  All of this is threaded through a
      [world] by a state-and-exception monad [M].
    - The random source is a tape of integers: [random.randint(a, b)]
      takes the next one, reduced into [a..b].  Every sequence of draws
      is the run on some tape.
    - A file is a decoded picture, an empty file, or something else
      that cannot be read.  [cv2.imwrite] is modelled where it writes
      what it is given: the picture has pixels, the extension has a
      writer that loses nothing, and the directory is there.  What a
      statement says a run leaves on disk, and that a run gets past its
      writes, is said under these conditions ([has_pixels],
      [writable_ext], [lossless_ext], [dir_ready]).
    - Names are ASCII where it matters ([is_ascii]): there [lower] and
      [isdigit] are [str.lower] and [str.isdigit].  Paths follow
      [posixpath]. *)

From Stdlib Require Import ZArith QArith String Ascii Lia.
From stdpp Require Import base gmap strings list pretty.

Open Scope Z_scope.

(** ** Pixels and grids *)

Abbreviation pixel := (Z * Z * Z)%type (only parsing).
Abbreviation image := (list (list pixel)) (only parsing).

Definition gray : pixel := (127, 127, 127).
Definition white : pixel := (255, 255, 255).
Definition black : pixel := (0, 0, 0).

(** [img.shape[:2]]; a grid without rows has width 0 here. *)
Definition height (img : image) : Z := Z.of_nat (length img).
Definition width (img : image) : Z :=
  match img with
  | [] => 0
  | row :: _ => Z.of_nat (length row)
  end.

(** Arrays are rectangular: every row has the width of the first. *)
Definition rectangular (img : image) : Prop :=
  Forall (fun row => Z.of_nat (length row) = width img) img.

(** [img[i][j]] for indices inside the grid. *)
Definition pixel_at (img : image) (i j : Z) : option pixel :=
  if (i <? 0) || (j <? 0) then None
  else row ← img !! Z.to_nat i; row !! Z.to_nat j.

(** [np.full((h, w, 3), c, dtype=np.uint8)] *)
Definition np_full (h w : Z) (c : pixel) : image :=
  replicate (Z.to_nat h) (replicate (Z.to_nat w) c).

(** [np.zeros_like(img)] *)
Definition np_zeros_like (img : image) : image :=
  map (map (fun _ => black)) img.

(** [np.all(img == [c, c, c], axis=-1)], one pixel. *)
Definition all_channels_eq (c : pixel) (p : pixel) : bool :=
  let '(p0, p1, p2) := p in
  let '(c0, c1, c2) := c in
  (p0 =? c0) && (p1 =? c1) && (p2 =? c2).

Definition np_all_eq (img : image) (c : pixel) : list (list bool) :=
  map (map (all_channels_eq c)) img.

(** [np.sum] and [np.any] of a boolean grid. *)
Definition count_true (row : list bool) : Z :=
  Z.of_nat (length (filter (fun b => b = true) row)).

Definition np_sum (m : list (list bool)) : Z :=
  foldr (fun row acc => count_true row + acc) 0 m.

Definition np_any (m : list (list bool)) : bool :=
  existsb (existsb (fun b => b)) m.

(** A bound of a Python slice, on an axis of length [n]: negative bounds
    count from the end, and everything is clipped to [0, n]. *)
Definition slice_bound (n i : Z) : Z :=
  if i <? 0 then Z.max 0 (i + n) else Z.min i n.

(** An index expression on one axis: [:] or [a:b]. *)
Inductive axis_sel : Type :=
| Whole
| Range (a b : Z).

(** First index and number of elements selected on an axis of length [n]. *)
Definition sel_span (n : Z) (s : axis_sel) : nat * nat :=
  match s with
  | Whole => (0%nat, Z.to_nat n)
  | Range a b =>
      let lo := slice_bound n a in
      let hi := slice_bound n b in
      (Z.to_nat lo, Z.to_nat (hi - lo))
  end.

Definition slice {A} (l : list A) (s : axis_sel) : list A :=
  let '(lo, len) := sel_span (Z.of_nat (length l)) s in
  take len (drop lo l).

(** [img[rs, cs]] *)
Definition getitem (img : image) (rs cs : axis_sel) : image :=
  map (fun row => slice row cs) (slice img rs).

(** Overwrite [len] elements of [l] from position [lo] with [src]. *)
Definition splice {A} (l : list A) (lo len : nat) (src : list A) : list A :=
  take lo l ++ src ++ drop (lo + len) l.

(** [canvas[rs, cs] = src].  numpy accepts the assignment when the
    selected block has the shape of [src] (shapes that differ are
    broadcast or refused; every assignment of these scripts has equal
    shapes, and an unequal one is reported here as the refusal). *)
Definition setitem (canvas : image) (rs cs : axis_sel) (src : image)
  : option image :=
  let '(r0, rn) := sel_span (height canvas) rs in
  let '(c0, cn) := sel_span (width canvas) cs in
  if (Z.of_nat rn =? height src) && (Z.of_nat cn =? width src) then
    Some (take r0 canvas
          ++ zip_with (fun crow srow => splice crow c0 cn srow)
                      (take rn (drop r0 canvas)) src
          ++ drop (r0 + rn) canvas)
  else None.

(** [cv2.cvtColor] between RGB and BGR swaps the outer channels. *)
Definition swap_rb (p : pixel) : pixel :=
  let '(a, b, c) := p in (c, b, a).

Definition cvtColor (img : image) : image := map (map swap_rb) img.

(** [int(n * ratio)]: truncation toward zero. *)
Definition int_mul (n : Z) (ratio : Q) : Z :=
  Z.quot (n * Qnum ratio) (Z.pos (Qden ratio)).

(** ** Paths and file names ([os.path], POSIX flavour) and [str] methods *)

Definition slash : ascii := "/"%char.
Definition dot : ascii := "."%char.

(** [s.rfind(c)], [-1] when [c] does not occur. *)
Fixpoint rfind_from (c : ascii) (s : string) (i last : Z) : Z :=
  match s with
  | EmptyString => last
  | String d s' => rfind_from c s' (i + 1) (if Ascii.eqb d c then i else last)
  end.

Definition rfind (c : ascii) (s : string) : Z := rfind_from c s 0 (-1).

(** [s[:i]] and [s[i:]] for [0 <= i]. *)
Definition str_take (i : Z) (s : string) : string :=
  substring 0 (Z.to_nat i) s.
Definition str_drop (i : Z) (s : string) : string :=
  substring (Z.to_nat i) (String.length s) s.

(** [os.path.basename] *)
Definition basename (p : string) : string := str_drop (rfind slash p + 1) p.

(** [os.path.splitext]: the extension starts at the last dot of the last
    component, unless that component has only leading dots before it. *)
Definition only_dots (s : string) : bool :=
  forallb (fun c => Ascii.eqb c dot) (list_ascii_of_string s).

Definition splitext (p : string) : string * string :=
  let sep_index := rfind slash p in
  let dot_index := rfind dot p in
  if sep_index <? dot_index then
    if only_dots (substring (Z.to_nat (sep_index + 1))
                            (Z.to_nat (dot_index - (sep_index + 1))) p)
    then (p, EmptyString)
    else (str_take dot_index p, str_drop dot_index p)
  else (p, EmptyString).

(** [os.path.join(a, b)] *)
Definition ends_with_slash (s : string) : bool :=
  match String.rev s with
  | String c _ => Ascii.eqb c slash
  | EmptyString => false
  end.

Definition path_join (a b : string) : string :=
  if String.prefix "/" b then b
  else if (String.length a =? 0)%nat || ends_with_slash a then a +:+ b
  else a +:+ "/" +:+ b.

(** [s.lower()], for a string of ASCII characters: only the letters
    [A] to [Z] change.  (On other strings [str.lower] can change the
    length; they are kept out by [is_ascii].) *)
Definition lower_ascii (c : ascii) : ascii :=
  let n := nat_of_ascii c in
  if ((65 <=? n) && (n <=? 90))%nat then ascii_of_nat (n + 32) else c.

Definition lower (s : string) : string :=
  string_of_list_ascii (map lower_ascii (list_ascii_of_string s)).

(** [sub in s] *)
Fixpoint contains (sub s : string) : bool :=
  String.prefix sub s ||
  match s with
  | EmptyString => false
  | String _ s' => contains sub s'
  end.

(** [s.split(sep)] for a non-empty [sep]: [skip] characters of a separator
    just matched are still to be passed, [cur] is the piece being read,
    last character first. *)
Fixpoint split_from (sep : string) (skip : nat) (cur : string) (s : string)
  : list string :=
  match s with
  | EmptyString => [String.rev cur]
  | String c s' =>
      match skip with
      | S k => split_from sep k cur s'
      | O =>
          if String.prefix sep s
          then String.rev cur
               :: split_from sep (String.length sep - 1) EmptyString s'
          else split_from sep 0 (String c cur) s'
      end
  end.

Definition split (sep s : string) : list string :=
  split_from sep 0 EmptyString s.

(** [s.isdigit()], for a string of ASCII characters: the digits are
    [0] to [9].  ([str.isdigit] takes other digits of Unicode too; they
    are kept out by [is_ascii].) *)
Definition isdigit (s : string) : bool :=
  negb (String.length s =? 0)%nat
  && forallb (fun c => let n := nat_of_ascii c in
                       ((48 <=? n) && (n <=? 57))%nat)
             (list_ascii_of_string s).

(** The extensions the crop scripts keep; any other becomes [.png]. *)
Definition known_exts : list string :=
  [".png"; ".jpg"; ".jpeg"; ".bmp"; ".tiff"]%string.

Definition output_ext (ext : string) : string :=
  if bool_decide (lower ext ∈ known_exts) then ext else ".png"%string.

(** ** The world of a run, and the monad of the scripts *)

(** What a path holds: a picture that [cv2.imread] decodes, a file
    that is not a picture, or a file without a byte. *)
Inductive file : Type :=
| Unreadable
| Picture (img : image)
| EmptyFile.

Inductive value_error : Type :=
| SizeMismatch              (* original and mask differ in size *)
| EmptyRange (a b : Z)      (* random.randint(a, b) with b < a *)
| ShapeRefused.             (* array assignment of unequal shapes *)

Inductive cv2_error : Type :=
| EmptyBuffer.              (* cv2.imdecode of a buffer without a byte *)

Inductive exn : Type :=
| FileNotFoundError (paths : list string)
| ValueError (why : value_error)
| NotADirectoryError (path : string)
| IsADirectoryError (path : string)
| Cv2Error (why : cv2_error).

(** One random crop together with what was measured on it. *)
Record candidate : Type := Candidate {
  start_x : Z;
  start_y : Z;
  side : Z;
  cropped_original : image;
  cropped_mask : image;
  defect_pixels_count : Z;
  defect_percentage : Q
}.

(** What the scripts print, by kind of line. *)
Inductive message : Type :=
| CropSizeTooLarge (crop_size : Z)
| ImageTooSmall (crop_size : Z)
| RatioOfCrop (i : Z) (ratio : Q)
| CropSaved (k : Z) (original_name mask_name : string)
| Failed (e : exn)
| Cropping (original_file mask_file : string)
| Processing (original_file mask_file : string)
| MaskMissing (mask_file : string)
| Expanded (original_name mask_name : string)
| ExpandedTooSmall (base_name : string) (w h crop_size : Z)
| Saved (name : string) (ratio : Q)
| Fatal (path : string) (e : exn)
| Handling (original_file : string)
| ReadFailed (path : string)
| LabelUnreadable (name : string)
| MaskUnreadable (name : string)
| ShapesDiffer
| ExtractFailed (e : exn).

(** What a run does to the outside, most recent first in [out].  [Drawn]
    marks the point where a crop candidate has been drawn and measured;
    it has no counterpart on the screen or on disk. *)
Inductive event : Type :=
| Printed (m : message)
| Imwrite (path : string) (img : image)
| Makedirs (dir : string)
| Drawn (c : candidate).

Record world : Type := World {
  tape : list Z;                        (* the random source *)
  disk : gmap string file;              (* files by path *)
  dirs : gset string;                   (* directories *)
  listing : gmap string (list string);  (* [os.listdir], taken once per run *)
  out : list event;
  processed_image_count : Z             (* the global of process_allinone *)
}.

(** Updates of one field. *)
Definition with_tape (t : list Z) (w : world) : world :=
  World t (disk w) (dirs w) (listing w) (out w) (processed_image_count w).
Definition with_disk (d : gmap string file) (w : world) : world :=
  World (tape w) d (dirs w) (listing w) (out w) (processed_image_count w).
Definition with_dirs (ds : gset string) (w : world) : world :=
  World (tape w) (disk w) ds (listing w) (out w) (processed_image_count w).
Definition with_out (o : list event) (w : world) : world :=
  World (tape w) (disk w) (dirs w) (listing w) o (processed_image_count w).
Definition with_count (n : Z) (w : world) : world :=
  World (tape w) (disk w) (dirs w) (listing w) (out w) n.

Inductive res (A : Type) : Type :=
| Ok (a : A)
| Raise (e : exn).
Arguments Ok {A} a.
Arguments Raise {A} e.

Definition M (A : Type) : Type := world -> res A * world.

Definition ret {A} (a : A) : M A := fun w => (Ok a, w).

Definition bind {A B} (m : M A) (f : A -> M B) : M B := fun w =>
  match m w with
  | (Ok a, w') => f a w'
  | (Raise e, w') => (Raise e, w')
  end.

Notation "x <- m ;; k" := (bind m (fun x => k))
  (at level 100, m at next level, right associativity).
Notation "m ;;; k" := (bind m (fun _ => k))
  (at level 100, right associativity).

Definition raise {A} (e : exn) : M A := fun w => (Raise e, w).

(** [try: body except ...: handler] where the handler takes every
    exception. *)
Definition try_except {A} (body : M A) (handler : exn -> M A) : M A :=
  fun w =>
    match body w with
    | (Ok a, w') => (Ok a, w')
    | (Raise e, w') => handler e w'
    end.

Definition emit (e : event) : M unit := fun w =>
  (Ok tt, with_out (e :: out w) w).

Definition print (m : message) : M unit := emit (Printed m).

(** The next integer of [a..b] on a tape, and the rest of the tape; a
    tape that has run out gives [a]. *)
Definition next_draw (a b : Z) (t : list Z) : Z * list Z :=
  match t with
  | [] => (a, [])
  | d :: t' => (a + d mod (b - a + 1), t')
  end.

(** [random.randint(a, b)]: an integer of [a..b], taken from the tape;
    raises on an empty range. *)
Definition random_randint (a b : Z) : M Z := fun w =>
  if b <? a then (Raise (ValueError (EmptyRange a b)), w)
  else
    let '(v, t) := next_draw a b (tape w) in
    (Ok v, with_tape t w).

(** [cv2.imread(path)]: [None] when the file is missing or not a
    picture. *)
Definition readable (w : world) (path : string) : option image :=
  match disk w !! path with
  | Some (Picture img) => Some img
  | _ => None
  end.

Definition cv2_imread (path : string) : M (option image) := fun w =>
  (Ok (readable w path), w).

(** [cv2.imwrite(path, img)], where it writes what it is given: [img]
    has pixels, the extension of [path] has a writer that loses nothing
    and the directory of [path] is there.  (Elsewhere the library
    differs: it raises on a picture without pixels and on an extension
    without a writer, it writes nothing and returns [False] when the
    directory is missing, and a [.jpg] is read back close to what was
    written, not equal to it.)  [Imwrite] records the call. *)
Definition cv2_imwrite (path : string) (img : image) : M unit := fun w =>
  (Ok tt, with_out (Imwrite path img :: out w)
            (with_disk (<[path := Picture img]> (disk w)) w)).

(** [os.path.exists], [os.path.isfile], [os.makedirs], [os.listdir] *)
Definition path_exists (p : string) : M bool := fun w =>
  (Ok (bool_decide (is_Some (disk w !! p)) || bool_decide (p ∈ dirs w)), w).

Definition path_isfile (p : string) : M bool := fun w =>
  (Ok (bool_decide (is_Some (disk w !! p))), w).

Definition makedirs (d : string) : M unit := fun w =>
  (Ok tt, with_out (Makedirs d :: out w) (with_dirs ({[d]} ∪ dirs w) w)).

(** [os.listdir(d)] raises unless [d] is a directory; a directory
    made during the run has no entry yet. *)
Definition listdir (d : string) : M (list string) := fun w =>
  if bool_decide (d ∈ dirs w) then (Ok (default [] (listing w !! d)), w)
  else if bool_decide (is_Some (disk w !! d))
  then (Raise (NotADirectoryError d), w)
  else (Raise (FileNotFoundError [d]), w).

(** [if not os.path.exists(d): os.makedirs(d)] *)
Definition ensure_dir (d : string) : M unit :=
  e <- path_exists d ;; if e then ret tt else makedirs d.

(** A [for] loop whose body may [break]; [s] holds the local variables
    the body updates. *)
Inductive ctl (S : Type) : Type :=
| Next (s : S)
| Break (s : S).
Arguments Next {S} s.
Arguments Break {S} s.

Fixpoint for_each {A S} (body : A -> S -> M (ctl S)) (xs : list A) (s : S)
  : M S :=
  match xs with
  | [] => ret s
  | x :: xs' =>
      c <- body x s ;;
      match c with
      | Next s' => for_each body xs' s'
      | Break s' => ret s'
      end
  end.

(** [range(n)] *)
Definition range (n : Z) : list Z := seqZ 0 n.

(** A list comprehension with a condition that looks at the world. *)
Fixpoint filter_m {A} (p : A -> M bool) (xs : list A) : M (list A) :=
  match xs with
  | [] => ret []
  | x :: xs' =>
      b <- p x ;;
      rest <- filter_m p xs' ;;
      ret (if b then x :: rest else rest)
  end.

(** An array assignment inside the monad: a refused one raises. *)
Definition assign (canvas : image) (rs cs : axis_sel) (src : image)
  : M image :=
  match setitem canvas rs cs src with
  | Some canvas' => ret canvas'
  | None => raise (ValueError ShapeRefused)
  end.

(** ** The crop candidate (crop.py 53-70, process_allinone.py 83-94) *)

(** [count / total_pixels if total_pixels > 0 else 0] *)
Definition defect_ratio (defect_pixels_count crop_size : Z) : Q :=
  let total_pixels := crop_size * crop_size in
  if 0 <? total_pixels
  then Qmake defect_pixels_count (Z.to_pos total_pixels)
  else 0%Q.

(** The number of pixels of the mask crop that are white on all three
    channels. *)
Definition count_defect_pixels (cropped_mask : image) : Z :=
  let is_defect_pixel := np_all_eq cropped_mask white in
  np_sum is_defect_pixel.

(** The crop at [(start_x, start_y)] and its measure. *)
Definition candidate_at (original_image mask_image : image)
    (crop_size start_x start_y : Z) : candidate :=
  let end_x := start_x + crop_size in
  let end_y := start_y + crop_size in
  let cropped_original :=
    getitem original_image (Range start_y end_y) (Range start_x end_x) in
  let cropped_mask :=
    getitem mask_image (Range start_y end_y) (Range start_x end_x) in
  let defect_pixels_count := count_defect_pixels cropped_mask in
  let defect_percentage := defect_ratio defect_pixels_count crop_size in
  Candidate start_x start_y crop_size cropped_original cropped_mask
            defect_pixels_count defect_percentage.

Definition draw_candidate (original_image mask_image : image)
    (crop_size max_x max_y : Z) : M candidate :=
  start_x <- random_randint 0 max_x ;;
  start_y <- random_randint 0 max_y ;;
  let c := candidate_at original_image mask_image crop_size start_x start_y in
  emit (Drawn c) ;;;
  ret c.

(** [defect_percentage >= defect_threshold] *)
Definition accept (defect_percentage defect_threshold : Q) : bool :=
  Qle_bool defect_threshold defect_percentage.

(** ** tools/crop.py *)

(** What [crop_image] does with an accepted candidate (lines 75-92);
    [valid_crop_counter] is the local it updates. *)
Definition save_crop (original_path output_original_dir
    output_mask_dir : string) (c : candidate) (valid_crop_counter : Z)
  : M (ctl Z) :=
  ensure_dir output_original_dir ;;;
  ensure_dir output_mask_dir ;;;
  let '(base_name, ext) := splitext (basename original_path) in
  let ext := output_ext ext in
  let output_original_name :=
    path_join output_original_dir
      (base_name +:+ "_cropped_" +:+ pretty (valid_crop_counter + 1)
       +:+ ext) in
  let output_mask_name :=
    path_join output_mask_dir
      (base_name +:+ "_cropped_" +:+ pretty (valid_crop_counter + 1)
       +:+ "_mask" +:+ ext) in
  cv2_imwrite output_original_name (cropped_original c) ;;;
  cv2_imwrite output_mask_name (cropped_mask c) ;;;
  print (CropSaved (valid_crop_counter + 1) output_original_name
                   output_mask_name) ;;;
  ret (Next (valid_crop_counter + 1)).

(** The body of the loop of [crop_image] (lines 46-92). *)
Definition crop_attempt (original_path output_original_dir
    output_mask_dir : string) (original_image mask_image : image)
    (original_width original_height crop_size : Z) (defect_threshold : Q)
    (i : Z) (valid_crop_counter : Z) : M (ctl Z) :=
  let max_x := original_width - crop_size in
  let max_y := original_height - crop_size in
  if (max_x <? 0) || (max_y <? 0) then
    print (ImageTooSmall crop_size) ;;;
    ret (Break valid_crop_counter)
  else
    c <- draw_candidate original_image mask_image crop_size max_x max_y ;;
    print (RatioOfCrop (i + 1) (defect_percentage c)) ;;;
    if accept (defect_percentage c) defect_threshold then
      save_crop original_path output_original_dir output_mask_dir c
                valid_crop_counter
    else ret (Next valid_crop_counter).

(** The [try] block of [crop_image] (lines 21-92). *)
Definition crop_image_try (original_path mask_path output_original_dir
    output_mask_dir : string) (crop_size_ratio defect_threshold : Q)
    (num_crops : Z) : M unit :=
  original_image <- cv2_imread original_path ;;
  mask_image <- cv2_imread mask_path ;;
  match original_image, mask_image with
  | None, _ => raise (FileNotFoundError [original_path])
  | Some _, None => raise (FileNotFoundError [mask_path])
  | Some original_image, Some mask_image =>
      let original_height := height original_image in
      let original_width := width original_image in
      let mask_height := height mask_image in
      let mask_width := width mask_image in
      if negb (original_width =? mask_width)
         || negb (original_height =? mask_height)
      then raise (ValueError SizeMismatch)
      else
        let shorter_side := Z.min original_width original_height in
        let crop_size := int_mul shorter_side crop_size_ratio in
        crop_size <-
          (if (original_width <? crop_size) || (original_height <? crop_size)
           then print (CropSizeTooLarge crop_size) ;;; ret shorter_side
           else ret crop_size) ;;
        let valid_crop_counter := 0 in
        for_each
          (crop_attempt original_path output_original_dir output_mask_dir
             original_image mask_image original_width original_height
             crop_size defect_threshold)
          (range num_crops) valid_crop_counter ;;;
        ret tt
  end.

(** [crop_image]: every exception of the block is caught and printed
    (lines 94-99). *)
Definition crop_image (original_path mask_path output_original_dir
    output_mask_dir : string) (crop_size_ratio defect_threshold : Q)
    (num_crops : Z) : M unit :=
  try_except
    (crop_image_try original_path mask_path output_original_dir
       output_mask_dir crop_size_ratio defect_threshold num_crops)
    (fun e => print (Failed e)).

(** The name of the mask of an expanded original (lines 122-132). *)
Definition mask_file_of (original_file : string) : string :=
  let '(base_name, ext) := splitext original_file in
  let mask_file_name_parts := split "_expanded_" base_name in
  match mask_file_name_parts with
  | part0 :: part1 :: _ =>
      let mask_base_name := part0 +:+ "_expanded_" +:+ part1 in
      mask_base_name +:+ "_mask" +:+ ext
  | _ => base_name +:+ "_mask" +:+ ext
  end.

(** The body of the loop of [batch_crop_images] (lines 121-141);
    [crop_image] is called with its default [crop_size_ratio]. *)
Definition batch_crop_step (expanded_original_dir expanded_mask_dir
    output_original_dir output_mask_dir : string) (defect_threshold : Q)
    (num_crops : Z) (original_file : string) (_ : unit) : M (ctl unit) :=
  let mask_file := mask_file_of original_file in
  let original_path := path_join expanded_original_dir original_file in
  let mask_path := path_join expanded_mask_dir mask_file in
  e <- path_exists mask_path ;;
  (if e then
     print (Cropping original_file mask_file) ;;;
     crop_image original_path mask_path output_original_dir output_mask_dir
                1%Q defect_threshold num_crops
   else print (MaskMissing mask_file)) ;;;
  ret (Next tt).

Definition batch_crop_images (expanded_original_dir expanded_mask_dir
    output_original_dir output_mask_dir : string) (defect_threshold : Q)
    (num_crops : Z) : M unit :=
  ensure_dir output_original_dir ;;;
  ensure_dir output_mask_dir ;;;
  names <- listdir expanded_original_dir ;;
  original_files <-
    filter_m (fun f =>
                is_file <- path_isfile (path_join expanded_original_dir f) ;;
                ret (is_file && negb (contains "_mask" f)))
             names ;;
  for_each
    (batch_crop_step expanded_original_dir expanded_mask_dir
       output_original_dir output_mask_dir defect_threshold num_crops)
    original_files tt.

(** ** tools/expand.py *)

(** One expansion of the pair (lines 29-62); the target side [l] is the
    constant of the script. *)
Definition expand_pad (original_image mask_image : image) (h w : Z)
  : M (image * image) :=
  let l := 512 in
  let new_width := w in
  let new_height := h in
  if h <? w then
    let padding_h := l - h in
    padding_top <- random_randint 0 padding_h ;;
    let padding_bottom := padding_h - padding_top in
    let new_height := l in
    expanded_original <-
      assign (np_full new_height new_width gray)
             (Range padding_top (padding_top + h)) Whole original_image ;;
    expanded_mask <-
      assign (np_full new_height new_width gray)
             (Range padding_top (padding_top + h)) Whole mask_image ;;
    ret (expanded_original, expanded_mask)
  else if w <? h then
    let padding_w := l - w in
    padding_left <- random_randint 0 padding_w ;;
    let padding_right := padding_w - padding_left in
    let new_width := l in
    expanded_original <-
      assign (np_full new_height new_width gray)
             Whole (Range padding_left (padding_left + w)) original_image ;;
    expanded_mask <-
      assign (np_full new_height new_width gray)
             Whole (Range padding_left (padding_left + w)) mask_image ;;
    ret (expanded_original, expanded_mask)
  else ret (original_image, mask_image).

(** The body of the loop of [expand_image] (lines 29-70). *)
Definition expand_step (original_path output_original_dir
    output_mask_dir : string) (original_image mask_image : image)
    (h w : Z) (i : Z) (_ : unit) : M (ctl unit) :=
  pair <- expand_pad original_image mask_image h w ;;
  let '(expanded_original, expanded_mask) := pair in
  let '(base_name, ext) := splitext (basename original_path) in
  let output_original_name :=
    path_join output_original_dir
      (base_name +:+ "_expanded_" +:+ pretty (i + 1) +:+ ext) in
  let output_mask_name :=
    path_join output_mask_dir
      (base_name +:+ "_expanded_" +:+ pretty (i + 1) +:+ "_mask" +:+ ext) in
  cv2_imwrite output_original_name (cvtColor expanded_original) ;;;
  cv2_imwrite output_mask_name (cvtColor expanded_mask) ;;;
  print (Expanded output_original_name output_mask_name) ;;;
  ret (Next tt).

Definition expand_image (original_path mask_path : string)
    (original_image mask_image : image) (num_expansions : Z)
    (output_original_dir output_mask_dir : string) : M unit :=
  let original_height := height original_image in
  let original_width := width original_image in
  let mask_height := height mask_image in
  let mask_width := width mask_image in
  if negb (original_width =? mask_width)
     || negb (original_height =? mask_height)
  then raise (ValueError SizeMismatch)
  else
    let h := original_height in
    let w := original_width in
    for_each
      (expand_step original_path output_original_dir output_mask_dir
         original_image mask_image h w)
      (range num_expansions) tt.

(** The [try] block of the loop of [batch_expand_images]
    (lines 101-108). *)
Definition expand_pair_try (original_path mask_path original_file
    mask_file : string) (num_expansions : Z)
    (output_original_dir output_mask_dir : string) : M unit :=
  original_image <- cv2_imread original_path ;;
  mask_image <- cv2_imread mask_path ;;
  match original_image, mask_image with
  | Some original_image, Some mask_image =>
      let original_image := cvtColor original_image in
      let mask_image := cvtColor mask_image in
      print (Processing original_file mask_file) ;;;
      expand_image original_path mask_path original_image mask_image
                   num_expansions output_original_dir output_mask_dir
  | _, _ => raise (FileNotFoundError [original_path; mask_path])
  end.

(** The body of the loop of [batch_expand_images] (lines 91-116): only
    files named by a number are taken, and each of the three handlers
    prints the exception. *)
Definition batch_expand_step (original_dir mask_suffix : string)
    (num_expansions : Z) (output_original_dir output_mask_dir : string)
    (original_file : string) (_ : unit) : M (ctl unit) :=
  let '(name, ext) := splitext original_file in
  if negb (isdigit name) then ret (Next tt)
  else
    let original_path := path_join original_dir original_file in
    let mask_file := name +:+ mask_suffix +:+ ext in
    let mask_path := path_join original_dir mask_file in
    e <- path_exists mask_path ;;
    (if e then
       try_except
         (expand_pair_try original_path mask_path original_file mask_file
            num_expansions output_original_dir output_mask_dir)
         (fun e => print (Failed e))
     else print (MaskMissing mask_file)) ;;;
    ret (Next tt).

Definition batch_expand_images (original_dir mask_suffix : string)
    (num_expansions : Z) (output_original_dir output_mask_dir : string)
  : M unit :=
  ensure_dir output_original_dir ;;;
  ensure_dir output_mask_dir ;;;
  names <- listdir original_dir ;;
  original_files <-
    filter_m (fun f => path_isfile (path_join original_dir f)) names ;;
  for_each
    (batch_expand_step original_dir mask_suffix num_expansions
       output_original_dir output_mask_dir)
    original_files tt.

(** ** tools/process_allinone.py *)

(** Step 1 of the loop of [process_image_pair] (lines 54-70). *)
Definition expand_to (original_image mask_image : image)
    (h w expansion_target_size : Z) : M (image * image) :=
  let padding_h := Z.max 0 (expansion_target_size - h) in
  let padding_w := Z.max 0 (expansion_target_size - w) in
  if (0 <? padding_h) || (0 <? padding_w) then
    padding_top <- random_randint 0 padding_h ;;
    padding_left <- random_randint 0 padding_w ;;
    let new_height := h + padding_h in
    let new_width := w + padding_w in
    let expanded_original := np_full new_height new_width gray in
    let expanded_mask := np_full new_height new_width gray in
    expanded_original <-
      assign expanded_original
             (Range padding_top (padding_top + h))
             (Range padding_left (padding_left + w)) original_image ;;
    expanded_mask <-
      assign expanded_mask
             (Range padding_top (padding_top + h))
             (Range padding_left (padding_left + w)) mask_image ;;
    ret (expanded_original, expanded_mask)
  else ret (original_image, mask_image).

(** [processed_image_count += 1], and its new value. *)
Definition next_image_number : M Z := fun w =>
  let n := processed_image_count w + 1 in
  (Ok n, with_count n w).

(** What [process_image_pair] does with an accepted candidate
    (lines 97-104). *)
Definition save_numbered (output_original_dir output_mask_dir ext : string)
    (c : candidate) : M (ctl unit) :=
  n <- next_image_number ;;
  let output_original_name :=
    path_join output_original_dir (pretty n +:+ ext) in
  let output_mask_name :=
    path_join output_mask_dir (pretty n +:+ "_mask" +:+ ext) in
  cv2_imwrite output_original_name (cropped_original c) ;;;
  cv2_imwrite output_mask_name (cropped_mask c) ;;;
  print (Saved (basename output_original_name) (defect_percentage c)) ;;;
  ret (Next tt).

(** Steps 2 and 3 for one crop (lines 80-104). *)
Definition pair_attempt (output_original_dir output_mask_dir ext : string)
    (expanded_original expanded_mask : image) (exp_w exp_h crop_size : Z)
    (defect_threshold : Q) (_ : Z) (_ : unit) : M (ctl unit) :=
  let max_x := exp_w - crop_size in
  let max_y := exp_h - crop_size in
  c <- draw_candidate expanded_original expanded_mask crop_size max_x max_y ;;
  if accept (defect_percentage c) defect_threshold then
    save_numbered output_original_dir output_mask_dir ext c
  else ret (Next tt).

(** The body of the outer loop (lines 51-104). *)
Definition augment_step (output_original_dir output_mask_dir base_name
    ext : string) (original_image mask_image : image)
    (original_height original_width : Z) (num_crops_per_aug : Z)
    (defect_threshold : Q) (expansion_target_size crop_size : Z)
    (i : Z) (_ : unit) : M (ctl unit) :=
  let h := original_height in
  let w := original_width in
  pair <- expand_to original_image mask_image h w expansion_target_size ;;
  let '(expanded_original, expanded_mask) := pair in
  let exp_h := height expanded_original in
  let exp_w := width expanded_original in
  if (exp_w <? crop_size) || (exp_h <? crop_size) then
    print (ExpandedTooSmall base_name exp_w exp_h crop_size) ;;;
    ret (Next tt)
  else
    for_each
      (pair_attempt output_original_dir output_mask_dir ext
         expanded_original expanded_mask exp_w exp_h crop_size
         defect_threshold)
      (range num_crops_per_aug) tt ;;;
    ret (Next tt).

Definition process_image_pair_try (original_path mask_path
    output_original_dir output_mask_dir : string)
    (num_augmentations num_crops_per_aug : Z) (defect_threshold : Q)
    (expansion_target_size crop_size : Z) : M unit :=
  original_image <- cv2_imread original_path ;;
  mask_image <- cv2_imread mask_path ;;
  match original_image, mask_image with
  | Some original_image, Some mask_image =>
      let original_height := height original_image in
      let original_width := width original_image in
      if negb ((original_height =? height mask_image)
               && (original_width =? width mask_image))
      then raise (ValueError SizeMismatch)
      else
        let '(base_name, ext) := splitext (basename original_path) in
        let ext := output_ext ext in
        for_each
          (augment_step output_original_dir output_mask_dir base_name ext
             original_image mask_image original_height original_width
             num_crops_per_aug defect_threshold expansion_target_size
             crop_size)
          (range num_augmentations) tt
  | _, _ => raise (FileNotFoundError [original_path; mask_path])
  end.

Definition process_image_pair (original_path mask_path output_original_dir
    output_mask_dir : string) (num_augmentations num_crops_per_aug : Z)
    (defect_threshold : Q) (expansion_target_size crop_size : Z) : M unit :=
  try_except
    (process_image_pair_try original_path mask_path output_original_dir
       output_mask_dir num_augmentations num_crops_per_aug defect_threshold
       expansion_target_size crop_size)
    (fun e => print (Fatal original_path e)).

(** The body of the loop of [batch_process_directory] (lines 126-140). *)
Definition batch_process_step (input_dir output_original_dir
    output_mask_dir mask_suffix : string)
    (num_augmentations num_crops_per_aug : Z) (defect_threshold : Q)
    (expansion_target_size crop_size : Z) (original_file : string)
    (_ : unit) : M (ctl unit) :=
  let '(name, ext) := splitext original_file in
  let original_path := path_join input_dir original_file in
  let mask_file := name +:+ mask_suffix +:+ ext in
  let mask_path := path_join input_dir mask_file in
  e <- path_exists mask_path ;;
  (if e then
     print (Handling original_file) ;;;
     process_image_pair original_path mask_path output_original_dir
       output_mask_dir num_augmentations num_crops_per_aug defect_threshold
       expansion_target_size crop_size
   else print (MaskMissing mask_file)) ;;;
  ret (Next tt).

Definition batch_process_directory (input_dir output_original_dir
    output_mask_dir mask_suffix : string)
    (num_augmentations num_crops_per_aug : Z) (defect_threshold : Q)
    (expansion_target_size crop_size : Z) : M unit :=
  ensure_dir output_original_dir ;;;
  ensure_dir output_mask_dir ;;;
  names <- listdir input_dir ;;
  original_files <-
    filter_m (fun f =>
                is_file <- path_isfile (path_join input_dir f) ;;
                ret (negb (contains mask_suffix f) && is_file))
             names ;;
  for_each
    (batch_process_step input_dir output_original_dir output_mask_dir
       mask_suffix num_augmentations num_crops_per_aug defect_threshold
       expansion_target_size crop_size)
    original_files tt.

(** ** tools/mask_and_label.py *)

(** [dst[m] = src[m]] for a boolean grid [m] of the shape of both. *)
Definition masked_copy (dst : image) (m : list (list bool)) (src : image)
  : image :=
  zip_with (fun mrow sd =>
              zip_with (fun (b : bool) (sp : pixel * pixel) =>
                          if b then sp.1 else sp.2)
                       mrow (zip sd.1 sd.2))
           m (zip src dst).

(** [dst[m] = c] *)
Definition masked_fill (dst : image) (m : list (list bool)) (c : pixel)
  : image :=
  zip_with (zip_with (fun (b : bool) (p : pixel) => if b then c else p))
           m dst.

(** [cv2.imdecode] of the bytes read from [filepath] (lines 132-135):
    a missing file and a directory cannot be opened, a buffer without a
    byte is refused, and other bytes that are no picture give [None]. *)
Definition read_and_decode (filepath : string) : M (option image) :=
  fun w =>
    match disk w !! filepath with
    | None =>
        if bool_decide (filepath ∈ dirs w)
        then (Raise (IsADirectoryError filepath), w)
        else (Raise (FileNotFoundError [filepath]), w)
    | Some EmptyFile => (Raise (Cv2Error EmptyBuffer), w)
    | Some Unreadable => (Ok None, w)
    | Some (Picture img) => (Ok (Some img), w)
    end.

(** The reader local to [extract_defect_mask] (lines 126-138): a file
    that [cv2.imread] refuses is decoded from its bytes, and every
    exception is printed. *)
Definition safe_imread (filepath : string) : M (option image) :=
  try_except
    (img <- cv2_imread filepath ;;
     match img with
     | Some img => ret (Some img)
     | None => read_and_decode filepath
     end)
    (fun e => print (ReadFailed filepath) ;;; ret None).

Definition extract_defect_mask (label_path mask_path : string)
    (defect_id : Z) : M (option image) :=
  try_except
    (label_img <- safe_imread label_path ;;
     match label_img with
     | None => print (LabelUnreadable (basename label_path)) ;;; ret None
     | Some label_img =>
         mask_img <- safe_imread mask_path ;;
         match mask_img with
         | None => print (MaskUnreadable (basename mask_path)) ;;; ret None
         | Some mask_img =>
             if negb ((height label_img =? height mask_img)
                      && (width label_img =? width mask_img))
             then print ShapesDiffer ;;; ret None
             else
               let defect_mask :=
                 np_all_eq label_img (defect_id, defect_id, defect_id) in
               if negb (np_any defect_mask) then ret None
               else
                 let new_mask := np_zeros_like mask_img in
                 let new_mask := masked_copy new_mask defect_mask mask_img in
                 ret (Some new_mask)
         end
     end)
    (fun e => print (ExtractFailed e) ;;; ret None).

Definition convert_to_gray_white (mask_img : image) : image :=
  let output_img := mask_img in
  let black_pixels := np_all_eq mask_img black in
  masked_fill output_img black_pixels gray.

(** ** Notions used by the statements *)

(** A picture as [cv2.imread] gives them: it has pixels. *)
Definition has_pixels (img : image) : Prop :=
  0 < height img /\ 0 < width img.

(** Every picture of the disk has pixels. *)
Definition pictures_have_pixels (w : world) : Prop :=
  forall path img, disk w !! path = Some (Picture img) -> has_pixels img.

(** The extensions for which [cv2.imwrite] has a writer, and those
    whose writer keeps every pixel; the library takes them in any case
    of letters. *)
Definition writable_ext (ext : string) : Prop :=
  lower ext ∈ ([".png"; ".jpg"; ".jpeg"; ".bmp"; ".tif"; ".tiff"]
               : list string).

Definition lossless_ext (ext : string) : Prop :=
  lower ext ∈ ([".png"; ".bmp"; ".tif"; ".tiff"] : list string).

(** A path component that [os.path.normpath] leaves alone. *)
Definition plain_component (comp : string) : Prop :=
  comp <> EmptyString /\ comp <> "."%string /\ comp <> ".."%string
  /\ slash ∉ list_ascii_of_string comp.

(** A directory that is there, or that [os.makedirs] makes: a new name
    in the working directory. *)
Definition dir_ready (w : world) (d : string) : Prop :=
  d ∈ dirs w \/ (plain_component d /\ disk w !! d = None).

(** [[f for f in os.listdir(dir) if os.path.isfile(os.path.join(dir, f))
    and keep(f)]], on the disk of [w]. *)
Definition listed_files (w : world) (dir : string) (keep : string -> bool)
  : list string :=
  filter (fun f => bool_decide (is_Some (disk w !! path_join dir f))
                   && keep f = true)
         (default [] (listing w !! dir)).

(** A name of ASCII characters. *)
Definition is_ascii (s : string) : Prop :=
  Forall (fun c => (nat_of_ascii c < 128)%nat) (list_ascii_of_string s).

(** The crop size [crop_image] works with: the shorter side times the
    ratio, or the shorter side when that product exceeds a side
    (crop.py 38-44). *)
Definition crop_size_of (original_width original_height : Z)
    (crop_size_ratio : Q) : Z :=
  let shorter_side := Z.min original_width original_height in
  let crop_size := int_mul shorter_side crop_size_ratio in
  if (original_width <? crop_size) || (original_height <? crop_size)
  then shorter_side
  else crop_size.

(** Two grids have the same [shape[:2]]. *)
Definition same_shape (a b : image) : Prop :=
  height a = height b /\ width a = width b.

(** Every pixel of a grid satisfies [P]. *)
Definition all_pixels (P : pixel -> Prop) (img : image) : Prop :=
  Forall (Forall P) img.

(** Everything a computation sends out satisfies [P], from any world,
    and whenever it returns [a], [Q a] holds. *)
Definition yields {A} (m : M A) (Q : A -> Prop) (P : event -> Prop) : Prop :=
  forall w, exists evs,
    out (m w).2 = evs ++ out w /\ Forall P evs
    /\ forall a, (m w).1 = Ok a -> Q a.

(** [img] with [top] and [bottom] gray rows and [left] and [right] gray
    columns around it. *)
Definition padded (top bottom left right : nat) (img : image) : image :=
  let blank := replicate (left + Z.to_nat (width img) + right) gray in
  replicate top blank
  ++ map (fun row => replicate left gray ++ row ++ replicate right gray) img
  ++ replicate bottom blank.

(** A candidate drawn inside the pair [(E_o, E_m)]: a window of side
    [crop_size] whose top-left corner leaves room for the whole window. *)
Definition drawn_within (E_o E_m : image) (crop_size : Z) (c : candidate)
  : Prop :=
  exists x y,
    0 <= x <= width E_o - crop_size
    /\ 0 <= y <= height E_o - crop_size
    /\ c = candidate_at E_o E_m crop_size x y.

(** Between [w] and [w'] nothing but the random source has moved. *)
Definition only_tape (w w' : world) : Prop :=
  disk w' = disk w /\ dirs w' = dirs w /\ listing w' = listing w
  /\ out w' = out w /\ processed_image_count w' = processed_image_count w.

(** [(E_o, E_m)] is the pair with gray margins that bring each side up
    to [L], the same margins for both. *)
Definition expansion_of (L : Z) (original_image mask_image E_o E_m : image)
  : Prop :=
  let padding_h := Z.max 0 (L - height original_image) in
  let padding_w := Z.max 0 (L - width original_image) in
  exists top left,
    0 <= top <= padding_h /\ 0 <= left <= padding_w
    /\ E_o = padded (Z.to_nat top) (Z.to_nat (padding_h - top))
                    (Z.to_nat left) (Z.to_nat (padding_w - left))
                    original_image
    /\ E_m = padded (Z.to_nat top) (Z.to_nat (padding_h - top))
                    (Z.to_nat left) (Z.to_nat (padding_w - left))
                    mask_image.

(** The top-left corner of [c] leaves room for the whole window of side
    [side c] inside a grid of the shape of [E]. *)
Definition in_bounds (E : image) (c : candidate) : Prop :=
  side c <= Z.min (height E) (width E)
  /\ 0 <= start_x c <= width E - side c
  /\ 0 <= start_y c <= height E - side c.

(** The two crops of [c] are the windows of [E_o] and of [E_m] at the
    same place. *)
Definition crops_of (E_o E_m : image) (c : candidate) : Prop :=
  let rows := Range (start_y c) (start_y c + side c) in
  let cols := Range (start_x c) (start_x c + side c) in
  cropped_original c = getitem E_o rows cols
  /\ cropped_mask c = getitem E_m rows cols.

(** The candidates of a sequence that a threshold accepts. *)
Definition accepted (defect_threshold : Q) (cands : list candidate)
  : list candidate :=
  filter (fun c => accept (defect_percentage c) defect_threshold = true) cands.

(** The pair cannot be processed: a file of it cannot be read, or the
    two grids differ in shape. *)
Definition pair_fails (w : world) (original_path mask_path : string) : Prop :=
  readable w original_path = None
  \/ readable w mask_path = None
  \/ exists original_image mask_image,
       readable w original_path = Some original_image
       /\ readable w mask_path = Some mask_image
       /\ ~ same_shape original_image mask_image.



(** Every pixel of [src] is found in [dst], [top] rows lower and [left]
    columns to the right. *)
Definition same_place (top left : Z) (src dst : image) : Prop :=
  forall i j p,
    pixel_at src i j = Some p ->
    pixel_at dst (top + i) (left + j) = Some p.

(** [crop] is the [n] by [n] block of [E] whose top-left corner is at
    column [x] of row [y]. *)
Definition window_at (x y n : Z) (E crop : image) : Prop :=
  forall i j,
    0 <= i < n -> 0 <= j < n ->
    pixel_at crop i j = pixel_at E (y + i) (x + j).

(** Original and mask went through the same expansion: the same
    offsets and the same canvas. *)
Definition expanded_alike (original_image mask_image E_o E_m : image)
  : Prop :=
  exists top left,
    0 <= top /\ 0 <= left
    /\ same_place top left original_image E_o
    /\ same_place top left mask_image E_m
    /\ same_shape E_o E_m.

(** Original and mask were cropped at the same place and size. *)
Definition cropped_alike (E_o E_m : image) (c : candidate) : Prop :=
  window_at (start_x c) (start_y c) (side c) E_o (cropped_original c)
  /\ window_at (start_x c) (start_y c) (side c) E_m (cropped_mask c).

(** The pictures written and the candidates drawn, among some events. *)
Definition written (evs : list event) : list image :=
  omap (fun e => match e with Imwrite _ img => Some img | _ => None end) evs.

Definition drawn (evs : list event) : list candidate :=
  omap (fun e => match e with Drawn c => Some c | _ => None end) evs.

(** [R] holds of every candidate drawn. *)
Definition drawn_event (R : candidate -> Prop) (e : event) : Prop :=
  match e with
  | Drawn c => R c
  | _ => True
  end.

(** The ratio of a candidate is a proportion; it is 0 without a white
    pixel in the mask crop, and 1 when a crop that is not empty is all
    white. *)
Definition ratio_ok (c : candidate) : Prop :=
  (0 <= defect_percentage c <= 1)%Q
  /\ (all_pixels (fun p => p <> white) (cropped_mask c) ->
      (defect_percentage c == 0)%Q)
  /\ (0 < side c -> all_pixels (fun p => p = white) (cropped_mask c) ->
      (defect_percentage c == 1)%Q).

(** ** A small pair on disk, to run the scripts on *)

Definition sample_image : image :=
  [[(10, 20, 30); (2, 2, 2); (3, 3, 3)];
   [(255, 255, 255); (5, 5, 5); (6, 6, 6)]].

Definition sample_mask : image :=
  [[(127, 127, 127); (255, 255, 255); (255, 255, 255)];
   [(255, 255, 255); (255, 255, 255); (127, 127, 127)]].

Definition sample_world (t : list Z) : world :=
  World t
        {["in/7.png" := Picture sample_image;
          "in/7_mask.png" := Picture sample_mask;
          "in/8.png" := Unreadable;
          "in/8_mask.png" := Picture sample_mask]}
        ∅ {["in" := ["7.png"; "7_mask.png"; "8.png"; "8_mask.png"]]} [] 0.

(** What [convert_to_gray_white] does to one pixel. *)
Definition gray_if_black (p : pixel) : pixel :=
  if decide (p = black) then gray else p.

(** ** What a run leaves behind *)

(** The files handed to [cv2.imwrite] and the numbers of the crops
    announced, among some events. *)
Definition files (evs : list event) : list (string * image) :=
  omap (fun e => match e with
                 | Imwrite path img => Some (path, img)
                 | _ => None
                 end) evs.

Definition saved_numbers (evs : list event) : list Z :=
  omap (fun e => match e with
                 | Printed (CropSaved k _ _) => Some k
                 | _ => None
                 end) evs.

(** The disk after some files have been written as they are, the first
    of the list first. *)
Definition write_all (fs : list (string * image)) (d : gmap string file)
  : gmap string file :=
  foldl (fun d f => <[f.1 := Picture f.2]> d) d fs.

(** The disk moved only where [evs] wrote. *)
Definition only_written (w w' : world) (evs : list event) : Prop :=
  forall path, path ∉ (files evs).*1 -> disk w' !! path = disk w !! path.

(** No file of [evs] went where a directory stands. *)
Definition no_dir_written (w : world) (evs : list event) : Prop :=
  forall path, path ∈ (files evs).*1 -> path ∉ dirs w.

(** The line of the reader of [extract_defect_mask] on a path that holds
    no picture: bytes that are no picture are decoded to nothing in
    silence; a missing file, a directory and a file without a byte raise
    in the reader, which prints its line. *)
Definition reader_line (w : world) (p : string) : list event :=
  match disk w !! p with
  | Some Unreadable => []
  | _ => [Printed (ReadFailed p)]
  end.

(** The line of the branch that leaves the loop of [crop_image]
    (crop.py 49-51). *)
Definition leaves_loop (e : event) : Prop :=
  exists crop_size, e = Printed (ImageTooSmall crop_size).

(** The names under which [crop_image] writes its crop number [k]
    (crop.py 80-86). *)
Definition cropped_original_name (original_path output_original_dir : string)
    (k : Z) : string :=
  let '(base_name, ext) := splitext (basename original_path) in
  let ext := output_ext ext in
  path_join output_original_dir
    (base_name +:+ "_cropped_" +:+ pretty k +:+ ext).

Definition cropped_mask_name (original_path output_mask_dir : string)
    (k : Z) : string :=
  let '(base_name, ext) := splitext (basename original_path) in
  let ext := output_ext ext in
  path_join output_mask_dir
    (base_name +:+ "_cropped_" +:+ pretty k +:+ "_mask" +:+ ext).

(** The two files of crop number [k], in the order they are written. *)
Definition crop_files (original_path output_original_dir
    output_mask_dir : string) (k : Z) (c : candidate)
  : list (string * image) :=
  [(cropped_original_name original_path output_original_dir k,
    cropped_original c);
   (cropped_mask_name original_path output_mask_dir k, cropped_mask c)].

(** The two files of image number [n] of [process_image_pair], in the
    order they are written (process_allinone.py 100-104). *)
Definition numbered_files (output_original_dir output_mask_dir ext : string)
    (n : Z) (c : candidate) : list (string * image) :=
  [(path_join output_original_dir (pretty n +:+ ext), cropped_original c);
   (path_join output_mask_dir (pretty n +:+ "_mask" +:+ ext),
    cropped_mask c)].

(** The line printed for an expansion that is smaller than the crop
    (process_allinone.py 75-77). *)
Definition too_small_line (e : event) : Prop :=
  exists base_name w h crop_size,
    e = Printed (ExpandedTooSmall base_name w h crop_size).

(** The names under which [expand_image] writes its expansion number [i]
    (expand.py 56-62), and its two files in the order they are
    written. *)
Definition expanded_original_name (original_path output_original_dir : string)
    (i : Z) : string :=
  let '(base_name, ext) := splitext (basename original_path) in
  path_join output_original_dir
    (base_name +:+ "_expanded_" +:+ pretty i +:+ ext).

Definition expanded_mask_name (original_path output_mask_dir : string)
    (i : Z) : string :=
  let '(base_name, ext) := splitext (basename original_path) in
  path_join output_mask_dir
    (base_name +:+ "_expanded_" +:+ pretty i +:+ "_mask" +:+ ext).

Definition expanded_files (original_path output_original_dir
    output_mask_dir : string) (i : Z) (pair : image * image)
  : list (string * image) :=
  [(expanded_original_name original_path output_original_dir i, pair.1);
   (expanded_mask_name original_path output_mask_dir i, pair.2)].

(** [(E_o, E_m)] is the pair with gray margins that bring its shorter
    side up to 512, the same margins for both; a square pair has none. *)
Definition expansion_512 (original_image mask_image E_o E_m : image) : Prop :=
  let h := height original_image in
  let w := width original_image in
  let padding_h := if h <? w then 512 - h else 0 in
  let padding_w := if w <? h then 512 - w else 0 in
  exists top left,
    0 <= top <= padding_h /\ 0 <= left <= padding_w
    /\ E_o = padded (Z.to_nat top) (Z.to_nat (padding_h - top))
                    (Z.to_nat left) (Z.to_nat (padding_w - left))
                    original_image
    /\ E_m = padded (Z.to_nat top) (Z.to_nat (padding_h - top))
                    (Z.to_nat left) (Z.to_nat (padding_w - left))
                    mask_image.

(** A pair on disk whose shorter side is above 512. *)
Definition large_world : world :=
  World []
        {["in/9.png" := Picture (np_full 513 514 gray);
          "in/9_mask.png" := Picture (np_full 513 514 gray)]}
        ∅ {["in" := ["9.png"; "9_mask.png"]]} [] 0.

(** The sample directory, listed. *)
Definition listed_world (t : list Z) : world :=
  with_dirs {["in"]} (sample_world t).

(** The two crops of a candidate, in the order they are written. *)
Definition both_crops (c : candidate) : list image :=
  [cropped_original c; cropped_mask c].

(** From [w] to [w'] the events [evs] happened, in this order, and the
    pictures written are the crops of the candidates accepted. *)
Definition wrote_accepted (defect_threshold : Q) (w w' : world)
    (evs : list event) : Prop :=
  out w' = reverse evs ++ out w
  /\ (files evs).*2
     = flat_map both_crops (accepted defect_threshold (drawn evs))
  /\ disk w' = write_all (files evs) (disk w).

(** The same, and the global count of images went up by the number of
    candidates accepted. *)
Definition counted_accepted (defect_threshold : Q) (w w' : world)
    (evs : list event) : Prop :=
  wrote_accepted defect_threshold w w' evs
  /\ processed_image_count w'
     = processed_image_count w
       + Z.of_nat (length (accepted defect_threshold (drawn evs))).

(** A character of a number in decimal. *)
Definition num_char (c : ascii) : Prop :=
  existsb (Ascii.eqb c) (list_ascii_of_string "-0123456789") = true.

(** An extension as the crop scripts write it: a dot, then no slash. *)
Definition ext_ok (e : string) : Prop :=
  exists r, list_ascii_of_string e = dot :: r /\ slash ∉ r.

(** From [w] to [w'] the events [evs] happened, in this order; the files
    written are the crops of some candidates, each with an extension,
    under the numbers that follow the global count of [w]; and the count
    went up by their number. *)
Definition numbered_run (output_original_dir output_mask_dir : string)
    (w w' : world) (evs : list event) : Prop :=
  exists ecs : list (string * candidate),
    Forall (fun ec => ext_ok ec.1) ecs
    /\ out w' = reverse evs ++ out w
    /\ files evs
       = concat (zip_with (fun n ec => numbered_files output_original_dir
                                         output_mask_dir ec.1 n ec.2)
                          (seqZ (processed_image_count w + 1)
                                (Z.of_nat (length ecs)))
                          ecs)
    /\ processed_image_count w'
       = processed_image_count w + Z.of_nat (length ecs)
    /\ disk w' = write_all (files evs) (disk w).

(** Events that are neither a file nor a candidate. *)
Definition quiet (e : event) : Prop :=
  match e with
  | Imwrite _ _ | Drawn _ => False
  | _ => True
  end.

(** [sep.join(parts)] *)
Definition str_join (sep : string) (parts : list string) : string :=
  match parts with
  | [] => EmptyString
  | part :: rest => foldl (fun acc q => acc +:+ sep +:+ q) part rest
  end.



(** ** tools/mask_and_label.py: the batch over a data set *)

(** [s.find(sub)], [-1] when [sub] does not occur. *)
Fixpoint find_from (sub s : string) (i : Z) : Z :=
  if String.prefix sub s then i
  else match s with
       | EmptyString => -1
       | String _ s' => find_from sub s' (i + 1)
       end.

Definition find (sub s : string) : Z := find_from sub s 0.

(** [os.path.normpath]: empty and [.] components go, a [..] takes away
    the component before it, and one or two leading slashes stay. *)
Definition normpath_step (initial_slashes : nat) (new_comps : list string)
    (comp : string) : list string :=
  if bool_decide (comp = EmptyString) || bool_decide (comp = ".") then
    new_comps
  else if negb (bool_decide (comp = ".."))
          || ((initial_slashes =? 0)%nat && bool_decide (new_comps = []))
          || (negb (bool_decide (new_comps = []))
              && bool_decide (last new_comps = Some ".."))
  then new_comps ++ [comp]
  else if negb (bool_decide (new_comps = []))
  then take (length new_comps - 1) new_comps
  else new_comps.

Definition normpath (path : string) : string :=
  if bool_decide (path = EmptyString) then "."
  else
    let initial_slashes :=
      if String.prefix "/" path then
        if String.prefix "//" path && negb (String.prefix "///" path)
        then 2%nat else 1%nat
      else 0%nat in
    let comps := split "/" path in
    let new_comps := foldl (normpath_step initial_slashes) [] comps in
    let path := str_join "/" new_comps in
    let path :=
      string_of_list_ascii (replicate initial_slashes slash) +:+ path in
    if bool_decide (path = EmptyString) then "." else path.

(** [safe_path_join] and [safe_listdir] (lines 7-49); names are [str]
    here, so nothing is decoded. *)
Definition safe_path_join (a b : string) : string :=
  let result := path_join a b in
  normpath result.

Definition safe_listdir (path : string) : M (list string) := listdir path.

(** One entry of the list [find_matching_files] returns. *)
Module FileSet.
Record t : Type := Make {
  base_name : string;
  mask_file : string;
  label_file : string;
  mask_path : string;
  label_path : string;
  ext : string
}.
End FileSet.

(** What [shutil.copy2] can raise besides the exceptions of the other
    scripts, and what travels as an exception in this batch. *)
Inductive os_error : Type :=
| SameFileError (path : string).

Inductive error : Type :=
| FromRun (e : exn)
| FromCopy (e : os_error).

(** What [find_matching_files] and [process_defect_masks] print, by kind
    of line, and the copies made. *)
Inductive note : Type :=
| MaskDirMissing (mask_dir : string)
| ListingFailed (e : error)
| LabelFileMissing (base_name : string)
| LabelFileWanted (label_file : string)
| SetFailed (mask_file : string) (e : error)
| MaskDirCreated (output_dir : string)
| OriginalDirCreated (output_original_image_dir : string)
| Scanning
| NothingMatches
| SetsFound (n : nat)
| DefectChosen (defect_id : Z)
| Rule
| SetHandled (base_name : string)
| SetSkipped (defect_id : Z) (base_name : string)
| OriginalCopied (original_image_name output_original_image_dir : string)
| CopyFailed (original_image_name : string) (e : error)
| OriginalNotFound (source_original_path : string)
| SaveFailed (e : error)
| MaskSaved (mask_file : string)
| MaskNotSaved (mask_file : string)
| MaskFailed (e : error)
| Finished
| CountProcessed (n : Z)
| CountSkipped (n : Z)
| CountErrors (n : Z)
| CountCopied (n : Z)
| CountNotFound (n : Z)
| MaskOutputDir (output_dir : string)
| OriginalOutputDir (output_original_image_dir : string)
| Copy2 (src dst : string).

(** The state of a run of the batch: the world of the other scripts,
    and beside it the notes of the batch, most recent first.  The lines
    of [extract_defect_mask] go to [out] of the world as before; the
    order between the two logs is not kept. *)
Record session : Type := Session {
  under : world;
  notes : list note
}.

Inductive outcome (A : Type) : Type :=
| Done (a : A)
| Thrown (e : error).
Arguments Done {A} a.
Arguments Thrown {A} e.

Definition B (A : Type) : Type := session -> outcome A * session.

Definition retB {A} (a : A) : B A := fun s => (Done a, s).

Definition bindB {A C} (m : B A) (f : A -> B C) : B C := fun s =>
  match m s with
  | (Done a, s') => f a s'
  | (Thrown e, s') => (Thrown e, s')
  end.

Notation "x <~ m ;; k" := (bindB m (fun x => k))
  (at level 100, m at next level, right associativity).
Notation "m ~;; k" := (bindB m (fun _ => k))
  (at level 100, right associativity).

Definition try_exceptB {A} (body : B A) (handler : error -> B A) : B A :=
  fun s =>
    match body s with
    | (Done a, s') => (Done a, s')
    | (Thrown e, s') => handler e s'
    end.

(** A computation of the other scripts, run on the world underneath. *)
Definition liftB {A} (m : M A) : B A := fun s =>
  match m (under s) with
  | (Ok a, w') => (Done a, Session w' (notes s))
  | (Raise e, w') => (Thrown (FromRun e), Session w' (notes s))
  end.

Definition say (n : note) : B unit := fun s =>
  (Done tt, Session (under s) (n :: notes s)).

Fixpoint for_eachB {A S} (body : A -> S -> B (ctl S)) (xs : list A) (s : S)
  : B S :=
  match xs with
  | [] => retB s
  | x :: xs' =>
      c <~ body x s ;;
      match c with
      | Next s' => for_eachB body xs' s'
      | Break s' => retB s'
      end
  end.

(** [shutil.copy2(src, dst)]: into [dst] when it is a directory; a file
    is not copied onto itself, and a directory is not copied.  As for
    [cv2.imwrite], the directory that receives the file is taken to be
    there: [process_defect_masks] makes its two output directories
    before its loop (lines 198-205). *)
Definition shutil_copy2 (src dst : string) : B unit := fun s =>
  let w := under s in
  let dst :=
    if bool_decide (dst ∈ dirs w) then path_join dst (basename src)
    else dst in
  match disk w !! src with
  | Some f =>
      if bool_decide (src = dst)
      then (Thrown (FromCopy (SameFileError src)), s)
      else (Done tt, Session (with_disk (<[dst := f]> (disk w)) w)
                             (Copy2 src dst :: notes s))
  | None =>
      if bool_decide (src ∈ dirs w)
      then (Thrown (FromRun (IsADirectoryError src)), s)
      else (Thrown (FromRun (FileNotFoundError [src])), s)
  end.

Definition mask_suffix_identifier : string := "_mask.".

(** The body of the loop of [find_matching_files] (lines 78-109). *)
Definition match_step (mask_dir label_dir : string) (mask_file : string)
    (matching_sets : list FileSet.t) : B (ctl (list FileSet.t)) :=
  try_exceptB
    (if contains mask_suffix_identifier (lower mask_file) then
       let mask_pos := find mask_suffix_identifier (lower mask_file) in
       let base_name := str_take mask_pos mask_file in
       let file_extension_part :=
         str_drop (mask_pos
                   + Z.of_nat (String.length mask_suffix_identifier))
                  mask_file in
       let image_ext := "." +:+ file_extension_part in
       let label_file := base_name +:+ "_label" +:+ image_ext in
       let mask_path := safe_path_join mask_dir mask_file in
       let label_path := safe_path_join label_dir label_file in
       e <~ liftB (path_exists label_path) ;;
       if e then
         retB (Next (matching_sets
                     ++ [FileSet.Make base_name mask_file label_file
                                      mask_path label_path image_ext]))
       else
         say (LabelFileMissing base_name) ~;;
         say (LabelFileWanted label_file) ~;;
         retB (Next matching_sets)
     else retB (Next matching_sets))
    (fun e => say (SetFailed mask_file e) ~;; retB (Next matching_sets)).

Definition find_matching_files (mask_dir label_dir : string)
  : B (list FileSet.t) :=
  let matching_sets := [] in
  e <~ liftB (path_exists mask_dir) ;;
  if negb e then
    say (MaskDirMissing mask_dir) ~;; retB matching_sets
  else
    mask_files <~
      try_exceptB
        (all_files <~ liftB (safe_listdir mask_dir) ;;
         mask_files <~
           liftB (filter_m
                    (fun f =>
                       is_file <- path_isfile (safe_path_join mask_dir f) ;;
                       ret (is_file
                            && contains mask_suffix_identifier (lower f)))
                    all_files) ;;
         retB (Some mask_files))
        (fun e => say (ListingFailed e) ~;; retB None) ;;
    match mask_files with
    | None => retB matching_sets
    | Some mask_files =>
        for_eachB (match_step mask_dir label_dir) mask_files matching_sets
    end.

(** The five counts of [process_defect_masks]. *)
Record counts : Type := Counts {
  processed_count : Z;
  skipped_count : Z;
  error_count : Z;
  copied_originals_count : Z;
  original_not_found_count : Z
}.

(** [cv2.imencode(ext, img)] and the bytes written to [filepath]
    (lines 265-267): what [cv2.imwrite] would have put there. *)
Definition write_encoded (ext filepath : string) (img : image) : M unit :=
  fun w => (Ok tt, with_disk (<[filepath := Picture img]> (disk w)) w).

(** The writer local to [process_defect_masks] (lines 259-271).  Where
    [cv2_imwrite] is the library's call, the call reports [True]: the
    second way of writing and the handler are reached only outside it
    (a directory that is missing, a picture without pixels, an
    extension without a writer), where the set is counted as an
    error. *)
Definition safe_imwrite (ext filepath : string) (img : image) : B bool :=
  try_exceptB
    (success <~ liftB (cv2_imwrite filepath img ;;; ret true) ;;
     if success then retB true
     else liftB (write_encoded ext filepath img) ~;; retB true)
    (fun e => say (SaveFailed e) ~;; retB false).

(** The body of the loop of [process_defect_masks] (lines 224-284). *)
Definition defect_step (output_dir : string) (defect_id : Z)
    (original_image_dir output_original_image_dir : string)
    (file_set : FileSet.t) (c : counts) : B (ctl counts) :=
  say (SetHandled (FileSet.base_name file_set)) ~;;
  processed_mask <~
    liftB (extract_defect_mask (FileSet.label_path file_set)
                               (FileSet.mask_path file_set) defect_id) ;;
  match processed_mask with
  | None =>
      say (SetSkipped defect_id (FileSet.base_name file_set)) ~;;
      retB (Next (Counts (processed_count c) (skipped_count c + 1)
                         (error_count c) (copied_originals_count c)
                         (original_not_found_count c)))
  | Some processed_mask =>
      let original_image_name :=
        FileSet.base_name file_set +:+ FileSet.ext file_set in
      let source_original_path :=
        safe_path_join original_image_dir original_image_name in
      let dest_original_path :=
        safe_path_join output_original_image_dir original_image_name in
      e <~ liftB (path_exists source_original_path) ;;
      c <~
        (if e then
           try_exceptB
             (shutil_copy2 source_original_path dest_original_path ~;;
              say (OriginalCopied original_image_name
                                  output_original_image_dir) ~;;
              retB (Counts (processed_count c) (skipped_count c)
                           (error_count c) (copied_originals_count c + 1)
                           (original_not_found_count c)))
             (fun e_copy =>
                say (CopyFailed original_image_name e_copy) ~;; retB c)
         else
           say (OriginalNotFound source_original_path) ~;;
           retB (Counts (processed_count c) (skipped_count c)
                        (error_count c) (copied_originals_count c)
                        (original_not_found_count c + 1))) ;;
      try_exceptB
        (let gray_white_mask := convert_to_gray_white processed_mask in
         let output_path :=
           safe_path_join output_dir (FileSet.mask_file file_set) in
         success <~ safe_imwrite (FileSet.ext file_set) output_path
                                 gray_white_mask ;;
         if success then
           say (MaskSaved (FileSet.mask_file file_set)) ~;;
           retB (Next (Counts (processed_count c + 1) (skipped_count c)
                              (error_count c) (copied_originals_count c)
                              (original_not_found_count c)))
         else
           say (MaskNotSaved (FileSet.mask_file file_set)) ~;;
           retB (Next (Counts (processed_count c) (skipped_count c)
                              (error_count c + 1) (copied_originals_count c)
                              (original_not_found_count c))))
        (fun e =>
           say (MaskFailed e) ~;;
           retB (Next (Counts (processed_count c) (skipped_count c)
                              (error_count c + 1) (copied_originals_count c)
                              (original_not_found_count c))))
  end.



(** The label file that [find_matching_files] looks for beside a mask
    file (lines 82-89). *)
Definition label_file_of (mask_file : string) : string :=
  let mask_pos := find mask_suffix_identifier (lower mask_file) in
  let base_name := str_take mask_pos mask_file in
  let file_extension_part :=
    str_drop (mask_pos + Z.of_nat (String.length mask_suffix_identifier))
             mask_file in
  let image_ext := "." +:+ file_extension_part in
  base_name +:+ "_label" +:+ image_ext.

(** A file set made from the mask file [FileSet.mask_file fs] of
    [mask_dir]: the name is cut around its marker, whatever the case of
    the letters of the marker, the label file is named after the part
    before it, and it exists. *)
Definition matched (w : world) (mask_dir label_dir : string)
    (fs : FileSet.t) : Prop :=
  FileSet.mask_path fs = safe_path_join mask_dir (FileSet.mask_file fs)
  /\ FileSet.label_path fs
     = safe_path_join label_dir (FileSet.label_file fs)
  /\ FileSet.label_file fs
     = FileSet.base_name fs +:+ "_label" +:+ FileSet.ext fs
  /\ (is_Some (disk w !! FileSet.label_path fs)
      \/ FileSet.label_path fs ∈ dirs w)
  /\ exists marker rest,
       FileSet.mask_file fs = FileSet.base_name fs +:+ marker +:+ rest
       /\ lower marker = mask_suffix_identifier
       /\ FileSet.ext fs = "." +:+ rest.



(** A small data set on disk. *)
Definition dataset_world : world :=
  World []
        {["m/a_mask.png" := Picture [[(255, 255, 255); (0, 0, 0)]];
          "l/a_label.png" := Picture [[(3, 3, 3); (1, 1, 1)]];
          "m/b_MASK.png" := Picture [[(255, 255, 255); (0, 0, 0)]];
          "o/a.png" := Picture [[(9, 9, 9); (8, 8, 8)]]]}
        {["m"; "l"; "o"; "out"; "oo"]}
        {["m" := ["a_mask.png"; "b_MASK.png"; "notes.txt"]]} [] 0.

(** * Properties *)

(** ** Pixels and element-wise operations *)

Lemma all_channels_eq_true c p : all_channels_eq c p = true <-> p = c.
Proof.
  destruct p as [[p0 p1] p2], c as [[c0 c1] c2]; simpl.
  rewrite !andb_true_iff, !Z.eqb_eq. split.
  - intros [[-> ->] ->]; reflexivity.
  - intros [= -> -> ->]; auto.
Qed.

Lemma all_channels_eq_decide c p :
  all_channels_eq c p = bool_decide (p = c).
Proof.
  apply eq_true_iff_eq. rewrite all_channels_eq_true, bool_decide_eq_true.
  reflexivity.
Qed.

Lemma map_fmap {A B} (f : A -> B) (l : list A) : map f l = f <$> l.
Proof. reflexivity. Qed.

Lemma zip_with_map_l_diag {A B C} (f : B -> A -> C) (g : A -> B) l :
  zip_with f (map g l) l = map (fun x => f (g x) x) l.
Proof. induction l as [|x l IH]; simpl; [|rewrite IH]; reflexivity. Qed.

Lemma pixel_at_map (f : pixel -> pixel) img i j :
  pixel_at (map (map f) img) i j = f <$> pixel_at img i j.
Proof.
  unfold pixel_at. destruct ((i <? 0) || (j <? 0)); [reflexivity|].
  rewrite map_fmap, list_lookup_fmap.
  destruct (img !! Z.to_nat i) as [row|]; simpl; [|reflexivity].
  rewrite map_fmap. apply list_lookup_fmap.
Qed.

Lemma convert_to_gray_white_map img :
  convert_to_gray_white img = map (map gray_if_black) img.
Proof.
  unfold convert_to_gray_white, masked_fill, np_all_eq.
  rewrite zip_with_map_l_diag. apply map_ext. intros row.
  rewrite zip_with_map_l_diag. apply map_ext. intros p.
  unfold gray_if_black. rewrite all_channels_eq_decide.
  destruct (decide (p = black)) as [Hp|Hp].
  - rewrite bool_decide_eq_true_2; auto.
  - rewrite bool_decide_eq_false_2; auto.
Qed.

Lemma gray_if_black_not_black p : gray_if_black p <> black.
Proof.
  unfold gray_if_black. destruct (decide (p = black)); [discriminate|auto].
Qed.

Lemma gray_if_black_idemp p : gray_if_black (gray_if_black p) = gray_if_black p.
Proof.
  unfold gray_if_black at 1.
  destruct (decide (gray_if_black p = black)) as [H|H]; [|reflexivity].
  destruct (gray_if_black_not_black _ H).
Qed.

(** C10.  [convert_to_gray_white] turns every pure-black pixel into gray
    and leaves every other pixel, and the shape, as they are; so its
    result has no pure-black pixel, and converting twice is converting
    once. *)
Theorem convert_to_gray_white_idempotent (img : image) :
  (forall i j, pixel_at (convert_to_gray_white img) i j
               = gray_if_black <$> pixel_at img i j)
  /\ (forall i j p, pixel_at img i j = Some p ->
        (p = black -> pixel_at (convert_to_gray_white img) i j = Some gray)
        /\ (p <> black -> pixel_at (convert_to_gray_white img) i j = Some p))
  /\ (forall i j, pixel_at (convert_to_gray_white img) i j <> Some black)
  /\ convert_to_gray_white (convert_to_gray_white img)
     = convert_to_gray_white img.
Proof.
  assert (Hat : forall i j, pixel_at (convert_to_gray_white img) i j
                            = gray_if_black <$> pixel_at img i j).
  { intros. rewrite convert_to_gray_white_map. apply pixel_at_map. }
  split; [exact Hat|]. split; [|split].
  - intros i j p Hp. rewrite Hat, Hp. simpl. unfold gray_if_black.
    split; intros Hb; destruct (decide (p = black)); congruence.
  - intros i j. rewrite Hat.
    destruct (pixel_at img i j) as [p|]; simpl; [|discriminate].
    intros [= H]. exact (gray_if_black_not_black _ H).
  - rewrite !convert_to_gray_white_map, map_map. apply map_ext. intros row.
    rewrite map_map. apply map_ext. intros p. apply gray_if_black_idemp.
Qed.

(** ** Extraction of one defect class (mask_and_label.py) *)

(** What [extract_defect_mask] keeps of one pixel. *)
Lemma masked_copy_row (t : pixel) (lrow mrow : list pixel) :
  zip_with (fun (b : bool) (sp : pixel * pixel) => if b then sp.1 else sp.2)
           (map (all_channels_eq t) lrow)
           (zip mrow (map (fun _ => black) mrow))
  = zip_with (fun l m => if decide (l = t) then m else black) lrow mrow.
Proof.
  revert mrow. induction lrow as [|l lrow IH]; intros [|m mrow]; simpl; auto.
  rewrite IH, all_channels_eq_decide. f_equal.
  destruct (decide (l = t)) as [H|H].
  - rewrite bool_decide_eq_true_2; auto.
  - rewrite bool_decide_eq_false_2; auto.
Qed.

Lemma masked_copy_zeros (t : pixel) (label_img mask_img : image) :
  masked_copy (np_zeros_like mask_img) (np_all_eq label_img t) mask_img
  = zip_with (zip_with (fun l m => if decide (l = t) then m else black))
             label_img mask_img.
Proof.
  unfold masked_copy, np_zeros_like, np_all_eq.
  revert mask_img.
  induction label_img as [|lrow label_img IH]; intros [|mrow mask_img];
    simpl; auto.
  rewrite IH, masked_copy_row. reflexivity.
Qed.

Lemma pixel_at_Some img i j p :
  pixel_at img i j = Some p <->
  0 <= i /\ 0 <= j /\
  exists row, img !! Z.to_nat i = Some row /\ row !! Z.to_nat j = Some p.
Proof.
  unfold pixel_at. destruct (i <? 0) eqn:Hi; simpl.
  { apply Z.ltb_lt in Hi. split; [discriminate|]. lia. }
  destruct (j <? 0) eqn:Hj; simpl.
  { apply Z.ltb_lt in Hj. split; [discriminate|]. lia. }
  apply Z.ltb_ge in Hi, Hj.
  destruct (img !! Z.to_nat i) as [row|]; simpl.
  - split; [eauto|]. intros (_ & _ & row' & [= <-] & H). exact H.
  - split; [discriminate|]. intros (_ & _ & row' & [=] & _).
Qed.

Lemma pixel_at_zip_with (f : pixel -> pixel -> pixel) (a b : image) i j :
  pixel_at (zip_with (zip_with f) a b) i j
  = match pixel_at a i j, pixel_at b i j with
    | Some x, Some y => Some (f x y)
    | _, _ => None
    end.
Proof.
  unfold pixel_at. destruct ((i <? 0) || (j <? 0)); [reflexivity|].
  rewrite lookup_zip_with.
  destruct (a !! Z.to_nat i) as [ra|]; simpl; [|reflexivity].
  destruct (b !! Z.to_nat i) as [rb|]; simpl.
  - rewrite lookup_zip_with.
    destruct (ra !! Z.to_nat j); simpl; [|reflexivity].
    destruct (rb !! Z.to_nat j); reflexivity.
  - destruct (ra !! Z.to_nat j); reflexivity.
Qed.

Lemma existsb_lookup {A} (f : A -> bool) (l : list A) :
  existsb f l = true <-> exists (i : nat) x, l !! i = Some x /\ f x = true.
Proof.
  rewrite existsb_exists. split.
  - intros (x & Hin & Hx). apply list_elem_of_In, list_elem_of_lookup in Hin.
    destruct Hin as [i Hi]. eauto.
  - intros (i & x & Hi & Hx). exists x. split; [|exact Hx].
    apply list_elem_of_In, list_elem_of_lookup. eauto.
Qed.

(** [np.any] of the comparison with a colour finds the pixels of that
    colour. *)
Lemma np_any_all_eq (img : image) (t : pixel) :
  np_any (np_all_eq img t) = true <-> exists i j, pixel_at img i j = Some t.
Proof.
  unfold np_any, np_all_eq. rewrite existsb_lookup. split.
  - intros (i & brow & Hi & Hex).
    rewrite map_fmap, list_lookup_fmap in Hi.
    destruct (img !! i) as [row|] eqn:Hrow; [|discriminate].
    injection Hi as <-.
    apply existsb_lookup in Hex. destruct Hex as (j & b & Hj & ->).
    rewrite map_fmap, list_lookup_fmap in Hj.
    destruct (row !! j) as [p|] eqn:Hp; [|discriminate].
    injection Hj as Hj. apply all_channels_eq_true in Hj. subst p.
    exists (Z.of_nat i), (Z.of_nat j). apply pixel_at_Some.
    rewrite !Nat2Z.id. repeat split; [lia|lia|eauto].
  - intros (i & j & H). apply pixel_at_Some in H.
    destruct H as (_ & _ & row & Hrow & Hp).
    exists (Z.to_nat i), (map (all_channels_eq t) row). split.
    + rewrite map_fmap, list_lookup_fmap, Hrow. reflexivity.
    + apply existsb_lookup. exists (Z.to_nat j), true. split; [|reflexivity].
      rewrite map_fmap, list_lookup_fmap, Hp. simpl. f_equal.
      apply all_channels_eq_true. reflexivity.
Qed.

(** C9.  On a label grid and a mask grid of the same shape,
    [extract_defect_mask] returns nothing exactly when no label pixel is
    [(id, id, id)]; otherwise it returns a grid that has the mask's
    pixel wherever the label pixel is [(id, id, id)] and black
    everywhere else, and [convert_to_gray_white] then turns each
    pure-black pixel of it into gray. *)
Theorem extract_defect_mask_spec (label_path mask_path : string)
    (defect_id : Z) (w : world) (label_img mask_img : image) :
  disk w !! label_path = Some (Picture label_img) ->
  disk w !! mask_path = Some (Picture mask_img) ->
  same_shape label_img mask_img ->
  let target : pixel := (defect_id, defect_id, defect_id) in
  exists result,
    extract_defect_mask label_path mask_path defect_id w = (Ok result, w)
    /\ (result = None <-> forall i j, pixel_at label_img i j <> Some target)
    /\ forall new_mask, result = Some new_mask ->
         forall i j l m,
           pixel_at label_img i j = Some l ->
           pixel_at mask_img i j = Some m ->
           let kept := if decide (l = target) then m else black in
           pixel_at new_mask i j = Some kept
           /\ pixel_at (convert_to_gray_white new_mask) i j
              = Some (if decide (kept = black) then gray else kept).
Proof.
  intros Hl Hm [Hh Hw] target.
  assert (Hread : forall p img,
            disk w !! p = Some (Picture img) ->
            safe_imread p w = (Ok (Some img), w)).
  { intros p img Hp.
    unfold safe_imread, try_except, bind, cv2_imread, readable.
    rewrite Hp. reflexivity. }
  unfold extract_defect_mask, try_except, bind.
  rewrite (Hread _ _ Hl), (Hread _ _ Hm). unfold ret.
  apply Z.eqb_eq in Hh, Hw. rewrite Hh, Hw. simpl.
  fold target.
  destruct (np_any (np_all_eq label_img target)) eqn:Hany; simpl.
  - eexists. split; [reflexivity|]. split.
    + split; [discriminate|]. intros Hno.
      apply np_any_all_eq in Hany. destruct Hany as (i & j & Hij).
      destruct (Hno i j Hij).
    + intros new_mask [= <-] i j l m Hpl Hpm.
      set (kept := if decide (l = target) then m else black).
      assert (Hk : pixel_at
                (masked_copy (np_zeros_like mask_img)
                             (np_all_eq label_img target) mask_img) i j
              = Some kept).
      { rewrite masked_copy_zeros, pixel_at_zip_with, Hpl, Hpm.
        reflexivity. }
      split; [exact Hk|].
      rewrite convert_to_gray_white_map, pixel_at_map, Hk. reflexivity.
  - eexists. split; [reflexivity|]. split; [|discriminate].
    split; [|reflexivity]. intros _ i j Hij.
    assert (np_any (np_all_eq label_img target) = true) as Ht
      by (apply np_any_all_eq; eauto).
    congruence.
Qed.

Lemma extract_defect_mask_spec_witness :
  exists result,
    extract_defect_mask "l.png" "m.png" 3
      (World [] {["l.png" := Picture [[(3, 3, 3); (1, 1, 1)]];
                 "m.png" := Picture [[(255, 255, 255); (0, 0, 0)]]]}
             ∅ ∅ [] 0)
    = (Ok result,
       World [] {["l.png" := Picture [[(3, 3, 3); (1, 1, 1)]];
                 "m.png" := Picture [[(255, 255, 255); (0, 0, 0)]]]}
             ∅ ∅ [] 0)
    /\ result <> None.
Proof.
  destruct (extract_defect_mask_spec "l.png" "m.png" 3
              (World [] {["l.png" := Picture [[(3, 3, 3); (1, 1, 1)]];
                         "m.png" := Picture [[(255, 255, 255); (0, 0, 0)]]]}
                     ∅ ∅ [] 0)
              [[(3, 3, 3); (1, 1, 1)]] [[(255, 255, 255); (0, 0, 0)]])
    as (result & Hrun & Hnone & _).
  - reflexivity.
  - reflexivity.
  - split; reflexivity.
  - exists result. split; [exact Hrun|].
    intros Hr. destruct Hnone as [Hnone _].
    apply (Hnone Hr 0 0). reflexivity.
Defined.

(** ** Slices *)

Lemma sel_span_range (n a len : Z) :
  0 <= a -> 0 <= len -> a + len <= n ->
  sel_span n (Range a (a + len)) = (Z.to_nat a, Z.to_nat len).
Proof.
  intros Ha Hlen Hn. unfold sel_span, slice_bound.
  destruct (a <? 0) eqn:E1; [apply Z.ltb_lt in E1; lia|].
  destruct (a + len <? 0) eqn:E2; [apply Z.ltb_lt in E2; lia|].
  f_equal; f_equal; lia.
Qed.

Lemma slice_range {A} (l : list A) (a len : Z) :
  0 <= a -> 0 <= len -> a + len <= Z.of_nat (length l) ->
  slice l (Range a (a + len)) = take (Z.to_nat len) (drop (Z.to_nat a) l).
Proof.
  intros Ha Hlen Hn. unfold slice. rewrite sel_span_range by lia.
  reflexivity.
Qed.

Lemma slice_range_length {A} (l : list A) (a len : Z) :
  0 <= a -> 0 <= len -> a + len <= Z.of_nat (length l) ->
  length (slice l (Range a (a + len))) = Z.to_nat len.
Proof.
  intros Ha Hlen Hn. rewrite slice_range by lia.
  rewrite length_take, length_drop. lia.
Qed.

Lemma slice_range_lookup {A} (l : list A) (a len : Z) (i : nat) :
  0 <= a -> 0 <= len -> a + len <= Z.of_nat (length l) ->
  (i < Z.to_nat len)%nat ->
  slice l (Range a (a + len)) !! i = l !! (Z.to_nat a + i)%nat.
Proof.
  intros Ha Hlen Hn Hi. rewrite slice_range by lia.
  rewrite lookup_take_lt by lia. apply lookup_drop.
Qed.

Lemma rectangular_rows (img : image) (i : nat) (row : list pixel) :
  rectangular img -> img !! i = Some row ->
  Z.of_nat (length row) = width img.
Proof.
  intros Hr Hi. unfold rectangular in Hr.
  rewrite Forall_lookup in Hr. exact (Hr i row Hi).
Qed.

(** The window [img[y:y+n, x:x+n]] of a rectangular grid, when it lies
    inside the grid: its shape and its pixels. *)
Lemma getitem_window_shape (img : image) (x y n : Z) :
  rectangular img ->
  0 <= n -> 0 <= x -> x + n <= width img -> 0 <= y -> y + n <= height img ->
  length (getitem img (Range y (y + n)) (Range x (x + n))) = Z.to_nat n
  /\ Forall (fun row => length row = Z.to_nat n)
            (getitem img (Range y (y + n)) (Range x (x + n))).
Proof.
  intros Hr Hn Hx Hxw Hy Hyh. unfold getitem, height in *. split.
  - rewrite length_map. apply slice_range_length; lia.
  - rewrite Forall_forall. intros row Hin.
    rewrite map_fmap in Hin. apply list_elem_of_fmap in Hin.
    destruct Hin as (src & -> & Hin).
    rewrite slice_range in Hin by lia.
    apply list_elem_of_lookup in Hin. destruct Hin as [i Hi].
    apply lookup_take_Some in Hi. destruct Hi as [Hi _].
    rewrite lookup_drop in Hi.
    apply slice_range_length; try lia.
    rewrite (rectangular_rows img _ src Hr Hi). lia.
Qed.

Lemma getitem_window_pixel (img : image) (x y n i j : Z) :
  rectangular img ->
  0 <= n -> 0 <= x -> x + n <= width img -> 0 <= y -> y + n <= height img ->
  0 <= i < n -> 0 <= j < n ->
  pixel_at (getitem img (Range y (y + n)) (Range x (x + n))) i j
  = pixel_at img (y + i) (x + j).
Proof.
  intros Hr Hn Hx Hxw Hy Hyh Hi Hj. unfold pixel_at, getitem, height in *.
  destruct (i <? 0) eqn:E1; [apply Z.ltb_lt in E1; lia|].
  destruct (j <? 0) eqn:E2; [apply Z.ltb_lt in E2; lia|].
  destruct (y + i <? 0) eqn:E3; [apply Z.ltb_lt in E3; lia|].
  destruct (x + j <? 0) eqn:E4; [apply Z.ltb_lt in E4; lia|].
  simpl. rewrite map_fmap, list_lookup_fmap.
  rewrite slice_range_lookup by lia.
  replace (Z.to_nat y + Z.to_nat i)%nat with (Z.to_nat (y + i)) by lia.
  destruct (img !! Z.to_nat (y + i)) as [row|] eqn:Hrow; simpl; [|reflexivity].
  pose proof (rectangular_rows img _ row Hr Hrow) as Hlen.
  rewrite slice_range_lookup by lia.
  f_equal. lia.
Qed.

(** ** Counting defect pixels *)

Lemma count_true_le (row : list bool) : 0 <= count_true row <= Z.of_nat (length row).
Proof.
  unfold count_true. pose proof (length_filter (fun b => b = true) row). lia.
Qed.

Lemma count_true_all_eq (c : pixel) (row : list pixel) :
  (Forall (fun p => p = c) row ->
   count_true (map (all_channels_eq c) row) = Z.of_nat (length row))
  /\ (Forall (fun p => p <> c) row ->
      count_true (map (all_channels_eq c) row) = 0).
Proof.
  unfold count_true. induction row as [|p row [IH1 IH2]]; [split; reflexivity|].
  split; intros H; inversion H as [|? ? Hp Hrow]; subst; simpl.
  - rewrite filter_cons_True.
    2:{ apply all_channels_eq_true. reflexivity. }
    simpl length. rewrite !Nat2Z.inj_succ, IH1 by assumption. reflexivity.
  - rewrite filter_cons_False.
    2:{ rewrite all_channels_eq_true. congruence. }
    apply IH2. assumption.
Qed.

Lemma np_sum_nonneg (m : list (list bool)) : 0 <= np_sum m.
Proof.
  induction m as [|row m IH]; simpl; [lia|].
  pose proof (count_true_le row). lia.
Qed.

Lemma np_sum_le (m : list (list bool)) (rows cols : nat) :
  (length m <= rows)%nat -> Forall (fun row => (length row <= cols)%nat) m ->
  np_sum m <= Z.of_nat rows * Z.of_nat cols.
Proof.
  revert rows. induction m as [|row m IH]; intros rows Hlen Hall; simpl.
  - lia.
  - inversion Hall as [|? ? Hrow Hm]; subst. simpl in Hlen.
    destruct rows as [|rows]; [lia|].
    specialize (IH rows ltac:(lia) Hm).
    pose proof (count_true_le row). lia.
Qed.

Lemma count_defect_pixels_all (img : image) (n : nat) :
  length img = n -> Forall (fun row => length row = n) img ->
  all_pixels (fun p => p = white) img ->
  count_defect_pixels img = Z.of_nat n * Z.of_nat n.
Proof.
  unfold count_defect_pixels, np_all_eq, all_pixels.
  generalize n at 2 4 as cols. intros cols. revert n.
  induction img as [|row img IH]; intros n Hlen Hcols Hall; simpl in *.
  - subst n. lia.
  - inversion Hcols as [|? ? Hrow Hrest]; subst.
    inversion Hall as [|? ? Hw Hwrest]; subst.
    rewrite (proj1 (count_true_all_eq white row) Hw).
    rewrite (IH (length img) eq_refl Hrest Hwrest). lia.
Qed.

Lemma count_defect_pixels_none (img : image) :
  all_pixels (fun p => p <> white) img -> count_defect_pixels img = 0.
Proof.
  unfold count_defect_pixels, np_all_eq, all_pixels.
  induction img as [|row img IH]; intros Hall; simpl; [reflexivity|].
  inversion Hall as [|? ? Hrow Hrest]; subst.
  rewrite (proj2 (count_true_all_eq white row) Hrow), IH by assumption.
  reflexivity.
Qed.

Lemma count_defect_pixels_bounds (img : image) (n : nat) :
  (length img <= n)%nat -> Forall (fun row => (length row <= n)%nat) img ->
  0 <= count_defect_pixels img <= Z.of_nat n * Z.of_nat n.
Proof.
  intros Hlen Hcols. unfold count_defect_pixels, np_all_eq. split.
  - apply np_sum_nonneg.
  - apply np_sum_le.
    + rewrite length_map. exact Hlen.
    + rewrite Forall_forall. intros brow Hin.
      rewrite map_fmap in Hin. apply list_elem_of_fmap in Hin.
      destruct Hin as (row & -> & Hin). rewrite length_map.
      rewrite Forall_forall in Hcols. apply Hcols. exact Hin.
Qed.

(** The ratio as a rational number. *)
Lemma defect_ratio_bounds (count n : Z) :
  0 <= count <= n * n -> (0 <= defect_ratio count n <= 1)%Q.
Proof.
  intros Hc. unfold defect_ratio.
  destruct (0 <? n * n) eqn:E.
  - apply Z.ltb_lt in E. unfold Qle. simpl.
    rewrite Z2Pos.id by lia. lia.
  - unfold Qle. simpl. lia.
Qed.

Lemma defect_ratio_zero (n : Z) : (defect_ratio 0 n == 0)%Q.
Proof.
  unfold defect_ratio. destruct (0 <? n * n); reflexivity.
Qed.

Lemma defect_ratio_full (n : Z) : 0 < n -> (defect_ratio (n * n) n == 1)%Q.
Proof.
  intros Hn. unfold defect_ratio.
  destruct (0 <? n * n) eqn:E.
  - apply Z.ltb_lt in E. unfold Qeq. simpl. rewrite Z2Pos.id by lia. lia.
  - apply Z.ltb_ge in E. nia.
Qed.

(** ** Reasoning about runs *)

Lemma bind_ok {A B} (m : M A) (f : A -> M B) w a w1 :
  m w = (Ok a, w1) -> bind m f w = f a w1.
Proof. intros H. unfold bind. rewrite H. reflexivity. Qed.

Lemma yields_ret {A} (a : A) (Q : A -> Prop) P : Q a -> yields (ret a) Q P.
Proof.
  intros HQ w. exists []. simpl. repeat split; [constructor|].
  intros a' [= <-]. exact HQ.
Qed.

Lemma yields_bind {A B} (m : M A) (f : A -> M B) (Q1 : A -> Prop)
    (Q2 : B -> Prop) P :
  yields m Q1 P -> (forall a, Q1 a -> yields (f a) Q2 P) ->
  yields (bind m f) Q2 P.
Proof.
  intros Hm Hf w. destruct (Hm w) as (evs1 & Ho1 & HP1 & Ha1).
  unfold bind. destruct (m w) as [[a|e] w1]; simpl in *.
  - destruct (Hf a (Ha1 a eq_refl) w1) as (evs2 & Ho2 & HP2 & Ha2).
    exists (evs2 ++ evs1). rewrite Ho2, Ho1, app_assoc.
    repeat split; [apply Forall_app; auto|exact Ha2].
  - exists evs1. repeat split; auto. discriminate.
Qed.

Lemma yields_emit e P : P e -> yields (emit e) (fun _ => True) P.
Proof.
  intros He w. exists [e]. simpl. repeat split; auto.
Qed.

Lemma yields_print m (P : event -> Prop) :
  P (Printed m) -> yields (print m) (fun _ => True) P.
Proof. apply yields_emit. Qed.

Lemma yields_silent {A} (m : M A) (Q : A -> Prop) P :
  (forall w, out (m w).2 = out w /\ forall a, (m w).1 = Ok a -> Q a) ->
  yields m Q P.
Proof.
  intros H w. destruct (H w) as [Ho Ha]. exists []. simpl.
  repeat split; auto.
Qed.

Lemma yields_random_randint a b P :
  yields (random_randint a b) (fun v => a <= v <= b) P.
Proof.
  apply yields_silent. intros w. unfold random_randint, next_draw.
  destruct (b <? a) eqn:E; simpl; [split; [reflexivity|discriminate]|].
  apply Z.ltb_ge in E.
  destruct (tape w) as [|d t]; simpl; (split; [reflexivity|]);
    intros v [= <-]; [lia|].
  pose proof (Z.mod_pos_bound d (b - a + 1)). lia.
Qed.

Lemma yields_cv2_imwrite path img (P : event -> Prop) :
  P (Imwrite path img) -> yields (cv2_imwrite path img) (fun _ => True) P.
Proof.
  intros He w. exists [Imwrite path img]. simpl. repeat split; auto.
Qed.

Lemma yields_ensure_dir d (P : event -> Prop) :
  P (Makedirs d) -> yields (ensure_dir d) (fun _ => True) P.
Proof.
  intros He w. unfold ensure_dir, bind, path_exists.
  destruct (_ || _); simpl.
  - exists []. simpl. repeat split; auto.
  - exists [Makedirs d]. simpl. repeat split; auto.
Qed.

Lemma yields_next_image_number P :
  yields next_image_number (fun _ => True) P.
Proof. apply yields_silent. intros w. simpl. auto. Qed.

Lemma yields_for_each {A S} (body : A -> S -> M (ctl S)) xs s P :
  (forall x s, yields (body x s) (fun _ => True) P) ->
  yields (for_each body xs s) (fun _ => True) P.
Proof.
  intros Hbody. revert s. induction xs as [|x xs IH]; intros s; simpl.
  - apply yields_ret. exact I.
  - eapply yields_bind; [apply Hbody|]. intros [s'|s'] _.
    + apply IH.
    + apply yields_ret. exact I.
Qed.

(** Every candidate that [draw_candidate] draws lies within the bounds
    it is given. *)
Lemma yields_draw_candidate E_o E_m crop_size R :
  (forall c, drawn_within E_o E_m crop_size c -> R c) ->
  yields (draw_candidate E_o E_m crop_size (width E_o - crop_size)
                         (height E_o - crop_size))
         (drawn_within E_o E_m crop_size) (drawn_event R).
Proof.
  intros HR. unfold draw_candidate.
  eapply yields_bind; [apply yields_random_randint|]. intros x Hx.
  eapply yields_bind; [apply yields_random_randint|]. intros y Hy.
  assert (Hc : drawn_within E_o E_m crop_size
                 (candidate_at E_o E_m crop_size x y))
    by (exists x, y; auto).
  eapply yields_bind; [apply yields_emit; simpl; auto|].
  intros _ _. apply yields_ret. exact Hc.
Qed.

Ltac yields_quiet :=
  repeat first
    [ apply yields_ret; exact I
    | apply yields_print; exact I
    | apply yields_cv2_imwrite; exact I
    | apply yields_ensure_dir; exact I
    | apply yields_next_image_number
    | eapply yields_bind; [|intros ? _] ].

Lemma yields_crop_attempt original_path output_original_dir output_mask_dir
    original_image mask_image crop_size defect_threshold i valid_crop_counter
    R :
  (forall c, drawn_within original_image mask_image crop_size c -> R c) ->
  yields (crop_attempt original_path output_original_dir output_mask_dir
            original_image mask_image (width original_image)
            (height original_image) crop_size defect_threshold i
            valid_crop_counter)
         (fun _ => True) (drawn_event R).
Proof.
  intros HR. unfold crop_attempt.
  destruct (_ || _).
  - yields_quiet.
  - eapply yields_bind; [apply (yields_draw_candidate _ _ _ R HR)|].
    intros c _.
    eapply yields_bind; [apply yields_print; exact I|]. intros _ _.
    destruct (accept _ _); [|apply yields_ret; exact I].
    unfold save_crop. destruct (splitext _) as [base_name ext].
    yields_quiet.
Qed.

(** The candidates of a run of [crop_image] on a readable pair: all are
    drawn within the pair read, with one crop size that is at most the
    shorter side. *)
Lemma crop_image_draws original_path mask_path output_original_dir
    output_mask_dir crop_size_ratio defect_threshold num_crops w
    original_image mask_image :
  disk w !! original_path = Some (Picture original_image) ->
  disk w !! mask_path = Some (Picture mask_image) ->
  exists crop_size evs,
    crop_size <= Z.min (width original_image) (height original_image)
    /\ (0 <= Qnum crop_size_ratio -> 0 <= crop_size)
    /\ out (crop_image original_path mask_path output_original_dir
              output_mask_dir crop_size_ratio defect_threshold num_crops w).2
       = evs ++ out w
    /\ Forall (drawn_event (fun c =>
                 same_shape original_image mask_image
                 /\ drawn_within original_image mask_image crop_size c)) evs.
Proof.
  intros Ho Hm.
  unfold crop_image, try_except, crop_image_try, bind, cv2_imread, readable.
  rewrite Ho, Hm. simpl.
  set (W := width original_image). set (H := height original_image).
  destruct (negb (W =? width mask_image) || negb (H =? height mask_image))
    eqn:Eshape; simpl.
  { exists (Z.min W H), [Printed (Failed (ValueError SizeMismatch))].
    repeat split; [lia| |repeat constructor].
    intros _. unfold W, H, width, height.
    destruct original_image; lia. }
  apply orb_false_elim in Eshape. destruct Eshape as [E1 E2].
  apply negb_false_iff, Z.eqb_eq in E1, E2.
  assert (Hshape : same_shape original_image mask_image) by (split; auto).
  set (c0 := int_mul (Z.min W H) crop_size_ratio).
  assert (Hc0 : 0 <= Qnum crop_size_ratio -> 0 <= c0).
  { intros Hr. unfold c0, int_mul. apply Z.quot_pos; [|lia].
    apply Z.mul_nonneg_nonneg; [|exact Hr].
    unfold W, H, width, height. destruct original_image; lia. }
  assert (Hmin : 0 <= Z.min W H).
  { unfold W, H, width, height. destruct original_image; lia. }
  destruct ((W <? c0) || (H <? c0)) eqn:Ebig; simpl.
  - pose proof (yields_for_each
        (crop_attempt original_path output_original_dir output_mask_dir
           original_image mask_image W H (Z.min W H) defect_threshold)
        (range num_crops) 0
        (drawn_event (fun c => same_shape original_image mask_image
           /\ drawn_within original_image mask_image (Z.min W H) c))) as Hloop.
    specialize (Hloop ltac:(intros; apply yields_crop_attempt; auto)
                      (with_out (Printed (CropSizeTooLarge c0) :: out w) w)).
    destruct Hloop as (evs & Hout & HP & _).
    destruct (for_each _ _ _ _) as [[r|e] w'] eqn:Erun; simpl in *.
    + exists (Z.min W H), (evs ++ [Printed (CropSizeTooLarge c0)]).
      repeat split; [lia|auto| |].
      * rewrite <- app_assoc. exact Hout.
      * apply Forall_app. split; [exact HP|repeat constructor].
    + exists (Z.min W H), (Printed (Failed e) :: evs ++ [Printed (CropSizeTooLarge c0)]).
      repeat split; [lia|auto| |].
      * simpl. rewrite <- app_assoc. simpl. f_equal. exact Hout.
      * constructor; [exact I|].
        apply Forall_app. split; [exact HP|repeat constructor].
  - apply orb_false_elim in Ebig. destruct Ebig as [E3 E4].
    apply Z.ltb_ge in E3, E4.
    pose proof (yields_for_each
        (crop_attempt original_path output_original_dir output_mask_dir
           original_image mask_image W H c0 defect_threshold)
        (range num_crops) 0
        (drawn_event (fun c => same_shape original_image mask_image
           /\ drawn_within original_image mask_image c0 c))) as Hloop.
    specialize (Hloop ltac:(intros; apply yields_crop_attempt; auto) w).
    destruct Hloop as (evs & Hout & HP & _).
    destruct (for_each _ _ _ _) as [[r|e] w'] eqn:Erun; simpl in *.
    + exists c0, evs. repeat split; [lia|auto|auto|auto].
    + exists c0, (Printed (Failed e) :: evs).
      repeat split; [lia|auto| |].
      * rewrite Hout. reflexivity.
      * constructor; [exact I|exact HP].
Qed.

(** ** Pasting into a gray canvas *)

Lemma zip_with_replicate_l {A B C} (f : A -> B -> C) (x : A) (l : list B) :
  zip_with f (replicate (length l) x) l = map (f x) l.
Proof. induction l as [|y l IH]; simpl; [|rewrite IH]; reflexivity. Qed.

Lemma splice_replicate (W c0 cn : nat) (c : pixel) (srow : list pixel) :
  (c0 + cn <= W)%nat ->
  splice (replicate W c) c0 cn srow
  = replicate c0 c ++ srow ++ replicate (W - c0 - cn) c.
Proof.
  intros Hle. unfold splice.
  rewrite take_replicate, drop_replicate.
  replace (c0 `min` W)%nat with c0 by lia.
  replace (W - (c0 + cn))%nat with (W - c0 - cn)%nat by lia.
  reflexivity.
Qed.

Lemma paste_replicate (H W r0 rn c0 cn : nat) (c : pixel) (src : image) :
  length src = rn -> (r0 + rn <= H)%nat -> (c0 + cn <= W)%nat ->
  take r0 (replicate H (replicate W c))
  ++ zip_with (fun crow srow => splice crow c0 cn srow)
              (take rn (drop r0 (replicate H (replicate W c)))) src
  ++ drop (r0 + rn) (replicate H (replicate W c))
  = replicate r0 (replicate W c)
    ++ map (fun srow => replicate c0 c ++ srow ++ replicate (W - c0 - cn) c)
           src
    ++ replicate (H - r0 - rn) (replicate W c).
Proof.
  intros Hlen Hr Hc.
  rewrite !drop_replicate, !take_replicate.
  replace (r0 `min` H)%nat with r0 by lia.
  replace (rn `min` (H - r0))%nat with (length src) by lia.
  rewrite zip_with_replicate_l.
  replace (H - (r0 + rn))%nat with (H - r0 - rn)%nat by lia.
  f_equal. f_equal. apply map_ext. intros srow.
  apply splice_replicate. exact Hc.
Qed.

Lemma height_np_full (H W : Z) c : 0 <= H -> height (np_full H W c) = H.
Proof. intros. unfold height, np_full. rewrite length_replicate. lia. Qed.

Lemma width_np_full (H W : Z) c :
  0 < H -> 0 <= W -> width (np_full H W c) = W.
Proof.
  intros HH HW. unfold width, np_full.
  destruct (Z.to_nat H) as [|n] eqn:E; [lia|]. simpl.
  rewrite length_replicate. lia.
Qed.

Lemma height_nonneg (img : image) : 0 <= height img.
Proof. unfold height. lia. Qed.

Lemma width_nonneg (img : image) : 0 <= width img.
Proof. unfold width. destruct img; lia. Qed.

(** An assignment of [src] to a block of its own shape in a gray canvas
    gives [src] with gray margins. *)
Lemma setitem_np_full (Hc Wc : Z) (rs cs : axis_sel) (src : image)
    (r0 rn c0 cn : nat) :
  sel_span (height (np_full Hc Wc gray)) rs = (r0, rn) ->
  sel_span (width (np_full Hc Wc gray)) cs = (c0, cn) ->
  Z.of_nat rn = height src -> Z.of_nat cn = width src ->
  (r0 + rn <= Z.to_nat Hc)%nat -> (c0 + cn <= Z.to_nat Wc)%nat ->
  setitem (np_full Hc Wc gray) rs cs src
  = Some (padded r0 (Z.to_nat Hc - r0 - rn) c0 (Z.to_nat Wc - c0 - cn) src).
Proof.
  intros Hrs Hcs Hrn Hcn Hrle Hcle. unfold setitem. rewrite Hrs, Hcs.
  rewrite (proj2 (Z.eqb_eq _ _) Hrn), (proj2 (Z.eqb_eq _ _) Hcn). simpl.
  f_equal. unfold np_full, padded.
  rewrite paste_replicate; [|unfold height in Hrn; lia|lia|lia].
  replace (c0 + Z.to_nat (width src) + (Z.to_nat Wc - c0 - cn))%nat
    with (Z.to_nat Wc) by lia.
  reflexivity.
Qed.

(** Shape and pixels of a padded grid. *)
Lemma height_padded top bottom left right (img : image) :
  height (padded top bottom left right img)
  = Z.of_nat top + height img + Z.of_nat bottom.
Proof.
  unfold height, padded. rewrite !length_app, length_map, !length_replicate.
  lia.
Qed.

Lemma rectangular_padded top bottom left right (img : image) :
  rectangular img ->
  Forall (fun row => Z.of_nat (length row)
                     = Z.of_nat left + width img + Z.of_nat right)
         (padded top bottom left right img).
Proof.
  intros Hr. unfold padded. pose proof (width_nonneg img) as Hw.
  rewrite !Forall_app. repeat split.
  - apply Forall_replicate. rewrite length_replicate. lia.
  - rewrite map_fmap, Forall_fmap. eapply Forall_impl; [exact Hr|].
    intros row Hrow. unfold compose. cbv beta in *.
    rewrite !length_app, !length_replicate. lia.
  - apply Forall_replicate. rewrite length_replicate. lia.
Qed.

Lemma width_padded top bottom left right (img : image) :
  rectangular img -> 0 < height (padded top bottom left right img) ->
  width (padded top bottom left right img)
  = Z.of_nat left + width img + Z.of_nat right.
Proof.
  intros Hr Hh. pose proof (rectangular_padded top bottom left right img Hr) as H.
  destruct (padded top bottom left right img) as [|row rest] eqn:E.
  - unfold height in Hh. simpl in Hh. lia.
  - inversion H; subst. simpl. assumption.
Qed.

Lemma padded_rectangular top bottom left right (img : image) :
  rectangular img -> rectangular (padded top bottom left right img).
Proof.
  intros Hr. unfold rectangular.
  pose proof (rectangular_padded top bottom left right img Hr) as H.
  destruct (padded top bottom left right img) as [|row rest] eqn:E;
    [constructor|].
  assert (Hw : width (row :: rest)
               = Z.of_nat left + width img + Z.of_nat right).
  { inversion H; subst. simpl. assumption. }
  rewrite Hw. exact H.
Qed.

Lemma pixel_at_padded top bottom left right (img : image) i j p :
  pixel_at img i j = Some p ->
  pixel_at (padded top bottom left right img)
           (Z.of_nat top + i) (Z.of_nat left + j) = Some p.
Proof.
  intros Hp. apply pixel_at_Some in Hp.
  destruct Hp as (Hi & Hj & row & Hrow & Hpix).
  apply pixel_at_Some. repeat split; [lia|lia|].
  exists (replicate left gray ++ row ++ replicate right gray). split.
  - unfold padded.
    rewrite lookup_app_r; rewrite length_replicate; [|lia].
    rewrite lookup_app_l.
    2:{ rewrite length_map. apply lookup_lt_Some in Hrow. lia. }
    rewrite map_fmap, list_lookup_fmap.
    replace (Z.to_nat (Z.of_nat top + i) - top)%nat with (Z.to_nat i) by lia.
    rewrite Hrow. reflexivity.
  - rewrite lookup_app_r; rewrite length_replicate; [|lia].
    rewrite lookup_app_l.
    2:{ apply lookup_lt_Some in Hpix. lia. }
    replace (Z.to_nat (Z.of_nat left + j) - left)%nat with (Z.to_nat j) by lia.
    exact Hpix.
Qed.

Lemma padded_0 (img : image) : padded 0 0 0 0 img = img.
Proof.
  unfold padded. simpl. rewrite app_nil_r.
  induction img as [|row img IH]; simpl; [reflexivity|].
  rewrite app_nil_r. f_equal. exact IH.
Qed.

(** ** The two expansions *)

Lemma only_tape_refl w : only_tape w w.
Proof. repeat split. Qed.

Lemma only_tape_trans w1 w2 w3 :
  only_tape w1 w2 -> only_tape w2 w3 -> only_tape w1 w3.
Proof.
  unfold only_tape. intros (-> & -> & -> & -> & ->) (-> & -> & -> & -> & ->).
  repeat split.
Qed.

Lemma random_randint_run (a b : Z) (w : world) :
  a <= b ->
  exists v w', random_randint a b w = (Ok v, w')
               /\ a <= v <= b /\ only_tape w w'.
Proof.
  intros Hab. unfold random_randint, next_draw.
  destruct (b <? a) eqn:E; [apply Z.ltb_lt in E; lia|].
  destruct (tape w) as [|d t].
  - exists a, (with_tape [] w). repeat split; lia.
  - exists (a + d mod (b - a + 1)), (with_tape t w).
    pose proof (Z.mod_pos_bound d (b - a + 1)).
    repeat split; lia.
Qed.

Lemma random_randint_empty (a b : Z) (w : world) :
  b < a -> random_randint a b w = (Raise (ValueError (EmptyRange a b)), w).
Proof.
  intros Hab. unfold random_randint.
  destruct (b <? a) eqn:E; [reflexivity|apply Z.ltb_ge in E; lia].
Qed.

(** A tape that makes [random.randint(0, b)] return [v]. *)
Lemma random_randint_choose (b v : Z) (w : world) :
  0 <= v <= b ->
  random_randint 0 b (with_tape (v :: tape w) w) = (Ok v, w).
Proof.
  intros Hv. unfold random_randint.
  destruct (b <? 0) eqn:E; [apply Z.ltb_lt in E; lia|].
  simpl. rewrite Z.mod_small by lia. destruct w; reflexivity.
Qed.

Lemma assign_np_full_block (Hc Wc h wd top left : Z) (src : image) w :
  h = height src -> wd = width src ->
  0 <= top -> top + h <= Hc -> 0 <= left -> left + wd <= Wc -> 0 < Hc ->
  assign (np_full Hc Wc gray) (Range top (top + h)) (Range left (left + wd))
         src w
  = (Ok (padded (Z.to_nat top) (Z.to_nat (Hc - top - h))
                (Z.to_nat left) (Z.to_nat (Wc - left - wd)) src), w).
Proof.
  intros -> -> Ht Hth Hl Hlw HHc.
  pose proof (height_nonneg src). pose proof (width_nonneg src).
  unfold assign.
  rewrite (setitem_np_full Hc Wc _ _ src (Z.to_nat top)
             (Z.to_nat (height src)) (Z.to_nat left) (Z.to_nat (width src))).
  - unfold ret. repeat f_equal; lia.
  - rewrite height_np_full by lia. apply sel_span_range; lia.
  - rewrite width_np_full by lia. apply sel_span_range; lia.
  - lia.
  - lia.
  - lia.
  - lia.
Qed.

Lemma assign_np_full_rows (Hc h wd top : Z) (src : image) w :
  h = height src -> wd = width src ->
  0 <= top -> top + h <= Hc -> 0 < Hc ->
  assign (np_full Hc wd gray) (Range top (top + h)) Whole src w
  = (Ok (padded (Z.to_nat top) (Z.to_nat (Hc - top - h)) 0 0 src), w).
Proof.
  intros -> -> Ht Hth HHc.
  pose proof (height_nonneg src). pose proof (width_nonneg src).
  unfold assign.
  rewrite (setitem_np_full Hc (width src) _ _ src (Z.to_nat top)
             (Z.to_nat (height src)) 0 (Z.to_nat (width src))).
  - unfold ret. repeat f_equal; lia.
  - rewrite height_np_full by lia. apply sel_span_range; lia.
  - rewrite width_np_full by lia. reflexivity.
  - lia.
  - lia.
  - lia.
  - lia.
Qed.

Lemma assign_np_full_cols (Wc h wd left : Z) (src : image) w :
  h = height src -> wd = width src ->
  0 <= left -> left + wd <= Wc -> 0 < h ->
  assign (np_full h Wc gray) Whole (Range left (left + wd)) src w
  = (Ok (padded 0 0 (Z.to_nat left) (Z.to_nat (Wc - left - wd)) src), w).
Proof.
  intros -> -> Hl Hlw Hh.
  pose proof (width_nonneg src).
  unfold assign.
  rewrite (setitem_np_full (height src) Wc _ _ src 0
             (Z.to_nat (height src)) (Z.to_nat left) (Z.to_nat (width src))).
  - unfold ret. repeat f_equal; lia.
  - rewrite height_np_full by lia. reflexivity.
  - rewrite width_np_full by lia. apply sel_span_range; lia.
  - lia.
  - lia.
  - lia.
  - lia.
Qed.

(** [expand_pad] on a pair whose height is the shorter side, at most
    512: gray rows above and below, [lead] of them above. *)
Lemma expand_pad_rows (original_image mask_image : image) (w : world) :
  same_shape original_image mask_image ->
  height original_image < width original_image ->
  height original_image <= 512 ->
  exists lead w',
    0 <= lead <= 512 - height original_image
    /\ only_tape w w'
    /\ expand_pad original_image mask_image (height original_image)
                  (width original_image) w
       = (Ok (padded (Z.to_nat lead)
                     (Z.to_nat (512 - height original_image - lead)) 0 0
                     original_image,
              padded (Z.to_nat lead)
                     (Z.to_nat (512 - height original_image - lead)) 0 0
                     mask_image), w').
Proof.
  intros [Hh Hw] Hlt Hle. unfold expand_pad.
  rewrite (proj2 (Z.ltb_lt _ _) Hlt).
  destruct (random_randint_run 0 (512 - height original_image) w)
    as (lead & w' & Hrun & Hlead & Hquiet); [lia|].
  exists lead, w'. split; [exact Hlead|]. split; [exact Hquiet|].
  unfold bind. rewrite Hrun.
  rewrite (assign_np_full_rows 512 _ _ lead original_image) by (auto; lia).
  rewrite (assign_np_full_rows 512 _ _ lead mask_image) by (auto; lia).
  unfold ret.
  replace (512 - lead - height original_image)
    with (512 - height original_image - lead) by lia.
  reflexivity.
Qed.

(** The same on the width, when it is the shorter side. *)
Lemma expand_pad_cols (original_image mask_image : image) (w : world) :
  same_shape original_image mask_image ->
  width original_image < height original_image ->
  width original_image <= 512 ->
  exists lead w',
    0 <= lead <= 512 - width original_image
    /\ only_tape w w'
    /\ expand_pad original_image mask_image (height original_image)
                  (width original_image) w
       = (Ok (padded 0 0 (Z.to_nat lead)
                     (Z.to_nat (512 - width original_image - lead))
                     original_image,
              padded 0 0 (Z.to_nat lead)
                     (Z.to_nat (512 - width original_image - lead))
                     mask_image), w').
Proof.
  intros [Hh Hw] Hlt Hle. unfold expand_pad.
  pose proof (width_nonneg original_image) as Hw0.
  rewrite (proj2 (Z.ltb_ge _ _)) by lia.
  rewrite (proj2 (Z.ltb_lt _ _) Hlt).
  destruct (random_randint_run 0 (512 - width original_image) w)
    as (lead & w' & Hrun & Hlead & Hquiet); [lia|].
  exists lead, w'. split; [exact Hlead|]. split; [exact Hquiet|].
  unfold bind. rewrite Hrun.
  rewrite (assign_np_full_cols 512 _ _ lead original_image) by (auto; lia).
  rewrite (assign_np_full_cols 512 _ _ lead mask_image) by (auto; lia).
  unfold ret.
  replace (512 - lead - width original_image)
    with (512 - width original_image - lead) by lia.
  reflexivity.
Qed.

(** [expand_to]: gray margins that bring each side up to the target,
    split at a random place; the pair itself when both sides reach it. *)
Lemma expand_to_run (original_image mask_image : image) (L : Z) (w : world) :
  same_shape original_image mask_image ->
  let h := height original_image in
  let wd := width original_image in
  let padding_h := Z.max 0 (L - h) in
  let padding_w := Z.max 0 (L - wd) in
  exists top left w',
    0 <= top <= padding_h /\ 0 <= left <= padding_w
    /\ only_tape w w'
    /\ expand_to original_image mask_image h wd L w
       = (Ok (padded (Z.to_nat top) (Z.to_nat (padding_h - top))
                     (Z.to_nat left) (Z.to_nat (padding_w - left))
                     original_image,
              padded (Z.to_nat top) (Z.to_nat (padding_h - top))
                     (Z.to_nat left) (Z.to_nat (padding_w - left))
                     mask_image), w').
Proof.
  intros [Hh Hw] h wd padding_h padding_w. unfold expand_to.
  fold h wd. fold padding_h padding_w.
  pose proof (height_nonneg original_image) as Hh0.
  pose proof (width_nonneg original_image) as Hw0. fold h in Hh0. fold wd in Hw0.
  destruct ((0 <? padding_h) || (0 <? padding_w)) eqn:Epad.
  - destruct (random_randint_run 0 padding_h w)
      as (top & w1 & Hrun1 & Htop & Hq1); [lia|].
    destruct (random_randint_run 0 padding_w w1)
      as (left & w2 & Hrun2 & Hleft & Hq2); [lia|].
    exists top, left, w2. split; [exact Htop|]. split; [exact Hleft|].
    split; [eapply only_tape_trans; eauto|].
    assert (Hpos : 0 < h + padding_h).
    { apply orb_true_iff in Epad.
      destruct Epad as [E|E]; apply Z.ltb_lt in E; [lia|].
      assert (0 < L) by lia.
      destruct (Z.eq_dec h 0) as [Hz|Hz]; [|lia].
      unfold padding_h. lia. }
    unfold bind. rewrite Hrun1, Hrun2.
    rewrite (assign_np_full_block (h + padding_h) (wd + padding_w) h wd
               top left original_image) by (auto; lia).
    rewrite (assign_np_full_block (h + padding_h) (wd + padding_w) h wd
               top left mask_image) by (auto; unfold h, wd; lia).
    unfold ret.
    replace (h + padding_h - top - h) with (padding_h - top) by lia.
    replace (wd + padding_w - left - wd) with (padding_w - left) by lia.
    reflexivity.
  - apply orb_false_elim in Epad. destruct Epad as [E1 E2].
    apply Z.ltb_ge in E1, E2.
    exists 0, 0, w. split; [lia|]. split; [lia|].
    split; [apply only_tape_refl|].
    replace padding_h with 0 by lia. replace padding_w with 0 by lia.
    simpl. rewrite !padded_0. reflexivity.
Qed.

(** ** Runs of [process_image_pair] *)

Lemma yields_expand_to (original_image mask_image : image) (L : Z) P :
  same_shape original_image mask_image ->
  yields (expand_to original_image mask_image (height original_image)
                    (width original_image) L)
         (fun pair => expansion_of L original_image mask_image pair.1 pair.2)
         P.
Proof.
  intros Hshape. apply yields_silent. intros w.
  destruct (expand_to_run original_image mask_image L w Hshape)
    as (top & left & w' & Htop & Hleft & Hq & Hrun).
  rewrite Hrun. simpl. split; [apply Hq|].
  intros pair [= <-]. exists top, left. simpl. auto.
Qed.

Lemma yields_pair_attempt output_original_dir output_mask_dir ext E_o E_m
    crop_size defect_threshold i s R :
  (forall c, drawn_within E_o E_m crop_size c -> R c) ->
  yields (pair_attempt output_original_dir output_mask_dir ext E_o E_m
            (width E_o) (height E_o) crop_size defect_threshold i s)
         (fun _ => True) (drawn_event R).
Proof.
  intros HR. unfold pair_attempt.
  eapply yields_bind; [apply (yields_draw_candidate _ _ _ R HR)|].
  intros c _. unfold save_numbered. destruct (accept _ _); yields_quiet.
Qed.

Lemma yields_augment_step output_original_dir output_mask_dir base_name ext
    original_image mask_image num_crops_per_aug defect_threshold L crop_size
    i s :
  same_shape original_image mask_image ->
  yields (augment_step output_original_dir output_mask_dir base_name ext
            original_image mask_image (height original_image)
            (width original_image) num_crops_per_aug defect_threshold L
            crop_size i s)
         (fun _ => True)
         (drawn_event (fun c => exists E_o E_m,
            expansion_of L original_image mask_image E_o E_m
            /\ drawn_within E_o E_m crop_size c)).
Proof.
  intros Hshape. unfold augment_step.
  eapply yields_bind; [apply yields_expand_to; exact Hshape|].
  intros [E_o E_m] Hexp. simpl in Hexp.
  destruct (_ || _); [yields_quiet|].
  eapply yields_bind; [|intros _ _; apply yields_ret; exact I].
  apply yields_for_each. intros j s'.
  apply yields_pair_attempt. intros c Hc. exists E_o, E_m. auto.
Qed.

(** The candidates of a run of [process_image_pair] on a readable pair:
    each is drawn within an expansion of the pair read. *)
Lemma process_image_pair_draws original_path mask_path output_original_dir
    output_mask_dir num_augmentations num_crops_per_aug defect_threshold
    L crop_size w original_image mask_image :
  disk w !! original_path = Some (Picture original_image) ->
  disk w !! mask_path = Some (Picture mask_image) ->
  exists evs,
    out (process_image_pair original_path mask_path output_original_dir
           output_mask_dir num_augmentations num_crops_per_aug
           defect_threshold L crop_size w).2
    = evs ++ out w
    /\ Forall (drawn_event (fun c =>
         same_shape original_image mask_image
         /\ exists E_o E_m,
              expansion_of L original_image mask_image E_o E_m
              /\ drawn_within E_o E_m crop_size c)) evs.
Proof.
  intros Ho Hm.
  unfold process_image_pair, try_except, process_image_pair_try, bind,
    cv2_imread, readable.
  rewrite Ho, Hm. simpl.
  destruct (negb _) eqn:Eshape; simpl.
  { exists [Printed (Fatal original_path (ValueError SizeMismatch))].
    split; [reflexivity|repeat constructor]. }
  apply negb_false_iff, andb_true_iff in Eshape.
  destruct Eshape as [E1 E2]. apply Z.eqb_eq in E1, E2.
  assert (Hshape : same_shape original_image mask_image) by (split; auto).
  destruct (splitext (basename original_path)) as [base_name ext].
  pose proof (yields_for_each
      (augment_step output_original_dir output_mask_dir base_name
         (output_ext ext) original_image mask_image (height original_image)
         (width original_image) num_crops_per_aug defect_threshold L
         crop_size)
      (range num_augmentations) tt
      (drawn_event (fun c =>
         same_shape original_image mask_image
         /\ exists E_o E_m,
              expansion_of L original_image mask_image E_o E_m
              /\ drawn_within E_o E_m crop_size c))) as Hloop.
  assert (Hbody : forall x s,
    yields (augment_step output_original_dir output_mask_dir base_name
              (output_ext ext) original_image mask_image
              (height original_image) (width original_image)
              num_crops_per_aug defect_threshold L crop_size x s)
           (fun _ => True)
           (drawn_event (fun c =>
              same_shape original_image mask_image
              /\ exists E_o E_m,
                   expansion_of L original_image mask_image E_o E_m
                   /\ drawn_within E_o E_m crop_size c))).
  { intros x s w0.
    destruct (yields_augment_step output_original_dir output_mask_dir
                base_name (output_ext ext) original_image mask_image
                num_crops_per_aug defect_threshold L crop_size x s Hshape w0)
      as (evs & Hout & HP & _).
    exists evs. repeat split; [exact Hout|].
    eapply Forall_impl; [exact HP|].
    intros [ | | |c]; simpl; auto. }
  destruct (Hloop Hbody w) as (evs & Hout & HP & _).
  destruct (for_each _ _ _ _) as [[r|e] w'] eqn:Erun; simpl in *.
  - exists evs. split; [exact Hout|exact HP].
  - exists (Printed (Fatal original_path e) :: evs). split.
    + simpl. f_equal. exact Hout.
    + constructor; [exact I|exact HP].
Qed.

(** ** Candidates *)

Lemma drawn_event_elem R evs c :
  Forall (drawn_event R) evs -> Drawn c ∈ evs -> R c.
Proof.
  intros Hall Hin. rewrite Forall_forall in Hall. exact (Hall _ Hin).
Qed.

Lemma drawn_within_in_bounds E_o E_m crop_size c :
  drawn_within E_o E_m crop_size c ->
  side c = crop_size /\ in_bounds E_o c /\ crops_of E_o E_m c.
Proof.
  intros (x & y & Hx & Hy & ->). unfold in_bounds, crops_of. simpl.
  repeat split; lia.
Qed.

Lemma drawn_within_ratio_ok E_o E_m crop_size c :
  rectangular E_m -> same_shape E_o E_m -> 0 <= crop_size ->
  drawn_within E_o E_m crop_size c -> ratio_ok c.
Proof.
  intros Hrect [Hh Hw] Hcs (x & y & Hx & Hy & ->).
  destruct (getitem_window_shape E_m x y crop_size Hrect)
    as [Hrows Hcols]; try lia.
  unfold ratio_ok, candidate_at. simpl.
  set (crop := getitem E_m (Range y (y + crop_size)) (Range x (x + crop_size)))
    in *.
  assert (Hn : Z.of_nat (Z.to_nat crop_size) = crop_size) by lia.
  split; [|split].
  - apply defect_ratio_bounds.
    replace (crop_size * crop_size)
      with (Z.of_nat (Z.to_nat crop_size) * Z.of_nat (Z.to_nat crop_size))
      by lia.
    apply count_defect_pixels_bounds; [lia|].
    eapply Forall_impl; [exact Hcols|]. intros row Hrow. simpl in Hrow. lia.
  - intros Hnone. rewrite count_defect_pixels_none by exact Hnone.
    apply defect_ratio_zero.
  - intros Hpos Hall.
    rewrite (count_defect_pixels_all crop (Z.to_nat crop_size) Hrows Hcols Hall).
    rewrite Hn. apply defect_ratio_full. exact Hpos.
Qed.

Lemma expansion_shapes L original_image mask_image E_o E_m :
  rectangular original_image -> rectangular mask_image ->
  same_shape original_image mask_image ->
  expansion_of L original_image mask_image E_o E_m ->
  rectangular E_o /\ rectangular E_m /\ same_shape E_o E_m.
Proof.
  intros Hro Hrm [Hh Hw] (top & left & Htop & Hleft & -> & ->).
  split; [apply padded_rectangular; exact Hro|].
  split; [apply padded_rectangular; exact Hrm|].
  assert (Hheq : forall t b l r,
            height (padded t b l r original_image)
            = height (padded t b l r mask_image)).
  { intros. rewrite !height_padded. lia. }
  split; [apply Hheq|].
  match goal with
  | |- width (padded ?t ?b ?l ?r _) = _ =>
      specialize (Hheq t b l r);
      destruct (Z.eq_dec (height (padded t b l r original_image)) 0) as [Hz|Hz]
  end.
  - rewrite Hz in Hheq.
    match goal with
    | |- width ?a = width ?b =>
        remember a as E1 eqn:HE1; remember b as E2 eqn:HE2;
        clear HE1 HE2; destruct E1; destruct E2;
        unfold height in Hz, Hheq; simpl in *; lia
    end.
  - pose proof (height_nonneg
        (padded (Z.to_nat top)
           (Z.to_nat (Z.max 0 (L - height original_image) - top))
           (Z.to_nat left)
           (Z.to_nat (Z.max 0 (L - width original_image) - left))
           original_image)).
    rewrite !width_padded by (auto; lia). lia.
Qed.

(** C2.  For a pair of height H and width W, every crop candidate that
    [crop_image] draws has a side of at most [min(H, W)] and a top-left
    corner with [0 <= x <= W - side] and [0 <= y <= H - side], and its
    crops are the windows there; every candidate that
    [process_image_pair] draws has the crop size asked for and lies in
    the same way within the expanded pair it is cut from. *)
Theorem crop_candidates_in_bounds :
  (forall original_path mask_path output_original_dir output_mask_dir
          crop_size_ratio defect_threshold num_crops w
          original_image mask_image,
     disk w !! original_path = Some (Picture original_image) ->
     disk w !! mask_path = Some (Picture mask_image) ->
     exists evs,
       out (crop_image original_path mask_path output_original_dir
              output_mask_dir crop_size_ratio defect_threshold num_crops w).2
       = evs ++ out w
       /\ forall c, Drawn c ∈ evs ->
            in_bounds original_image c
            /\ crops_of original_image mask_image c)
  /\ (forall original_path mask_path output_original_dir output_mask_dir
             num_augmentations num_crops_per_aug defect_threshold
             expansion_target_size crop_size w original_image mask_image,
        disk w !! original_path = Some (Picture original_image) ->
        disk w !! mask_path = Some (Picture mask_image) ->
        exists evs,
          out (process_image_pair original_path mask_path output_original_dir
                 output_mask_dir num_augmentations num_crops_per_aug
                 defect_threshold expansion_target_size crop_size w).2
          = evs ++ out w
          /\ forall c, Drawn c ∈ evs ->
               side c = crop_size
               /\ exists E_o E_m,
                    expansion_of expansion_target_size original_image
                                 mask_image E_o E_m
                    /\ in_bounds E_o c /\ crops_of E_o E_m c).
Proof.
  split.
  - intros original_path mask_path output_original_dir output_mask_dir
      crop_size_ratio defect_threshold num_crops w original_image mask_image
      Ho Hm.
    destruct (crop_image_draws original_path mask_path output_original_dir
                output_mask_dir crop_size_ratio defect_threshold num_crops w
                original_image mask_image Ho Hm)
      as (crop_size & evs & _ & _ & Hout & Hall).
    exists evs. split; [exact Hout|]. intros c Hc.
    destruct (drawn_event_elem _ _ _ Hall Hc) as [_ Hin].
    apply drawn_within_in_bounds in Hin. tauto.
  - intros original_path mask_path output_original_dir output_mask_dir
      num_augmentations num_crops_per_aug defect_threshold
      expansion_target_size crop_size w original_image mask_image Ho Hm.
    destruct (process_image_pair_draws original_path mask_path
                output_original_dir output_mask_dir num_augmentations
                num_crops_per_aug defect_threshold expansion_target_size
                crop_size w original_image mask_image Ho Hm)
      as (evs & Hout & Hall).
    exists evs. split; [exact Hout|]. intros c Hc.
    destruct (drawn_event_elem _ _ _ Hall Hc) as (_ & E_o & E_m & Hexp & Hin).
    apply drawn_within_in_bounds in Hin. destruct Hin as (Hs & Hb & Hcr).
    split; [exact Hs|]. exists E_o, E_m. auto.
Qed.

Lemma crop_candidates_in_bounds_witness :
  in_bounds sample_image (candidate_at sample_image sample_mask 2 1 0)
  /\ exists E_o E_m,
       expansion_of 4 sample_image sample_mask E_o E_m
       /\ in_bounds E_o (candidate_at E_o E_m 3 1 0).
Proof.
  split.
  - destruct (proj1 crop_candidates_in_bounds "in/7.png" "in/7_mask.png"
                "out" "out_mask" 1%Q (2 # 10000)%Q 1 (sample_world [1; 0])
                sample_image sample_mask eq_refl eq_refl)
      as (evs & Hout & Hall).
    apply Hall. simpl in Hout. rewrite app_nil_r in Hout. rewrite <- Hout.
    vm_compute. do 6 apply list_elem_of_further. apply list_elem_of_here.
  - destruct (proj2 crop_candidates_in_bounds "in/7.png" "in/7_mask.png"
                "out" "out_mask" 1 1 (2 # 10000)%Q 4 3
                (sample_world [1; 1; 1; 0])
                sample_image sample_mask eq_refl eq_refl)
      as (evs & Hout & Hall).
    simpl in Hout. rewrite app_nil_r in Hout.
    destruct (Hall (candidate_at
                      (padded 1 1 1 0 sample_image)
                      (padded 1 1 1 0 sample_mask) 3 1 0))
      as (_ & E_o & E_m & Hexp & Hb & Hc).
    + rewrite <- Hout. vm_compute.
      do 3 apply list_elem_of_further. apply list_elem_of_here.
    + exists E_o, E_m. split; [exact Hexp|].
      destruct Hc as [Hc1 Hc2]. destruct Hb as (Hb1 & Hb2 & Hb3).
      simpl in Hb1, Hb2, Hb3. unfold in_bounds. simpl. lia.
Defined.

(** C3, as the code has it.  For a crop size that is not negative, every
    candidate drawn by [crop_image] or by [process_image_pair] has a
    defect ratio in [0, 1]; the ratio is 0 when no pixel of the mask
    crop is white, and it is 1 when the crop size is positive and every
    pixel of the mask crop is white.  (For a crop size of 0 the ratio is
    0 by the guard on the division.) *)
Theorem defect_ratio_of_candidates :
  (forall original_path mask_path output_original_dir output_mask_dir
          crop_size_ratio defect_threshold num_crops w
          original_image mask_image,
     disk w !! original_path = Some (Picture original_image) ->
     disk w !! mask_path = Some (Picture mask_image) ->
     rectangular mask_image ->
     (0 <= crop_size_ratio)%Q ->
     exists evs,
       out (crop_image original_path mask_path output_original_dir
              output_mask_dir crop_size_ratio defect_threshold num_crops w).2
       = evs ++ out w
       /\ forall c, Drawn c ∈ evs -> ratio_ok c)
  /\ (forall original_path mask_path output_original_dir output_mask_dir
             num_augmentations num_crops_per_aug defect_threshold
             expansion_target_size crop_size w original_image mask_image,
        disk w !! original_path = Some (Picture original_image) ->
        disk w !! mask_path = Some (Picture mask_image) ->
        rectangular original_image -> rectangular mask_image ->
        0 <= crop_size ->
        exists evs,
          out (process_image_pair original_path mask_path output_original_dir
                 output_mask_dir num_augmentations num_crops_per_aug
                 defect_threshold expansion_target_size crop_size w).2
          = evs ++ out w
          /\ forall c, Drawn c ∈ evs -> ratio_ok c).
Proof.
  split.
  - intros original_path mask_path output_original_dir output_mask_dir
      crop_size_ratio defect_threshold num_crops w original_image mask_image
      Ho Hm Hrect Hratio.
    destruct (crop_image_draws original_path mask_path output_original_dir
                output_mask_dir crop_size_ratio defect_threshold num_crops w
                original_image mask_image Ho Hm)
      as (crop_size & evs & _ & Hpos & Hout & Hall).
    exists evs. split; [exact Hout|]. intros c Hc.
    destruct (drawn_event_elem _ _ _ Hall Hc) as [Hshape Hin].
    apply (drawn_within_ratio_ok original_image mask_image crop_size);
      auto.
    apply Hpos. unfold Qle in Hratio. simpl in Hratio. lia.
  - intros original_path mask_path output_original_dir output_mask_dir
      num_augmentations num_crops_per_aug defect_threshold
      expansion_target_size crop_size w original_image mask_image Ho Hm
      Hro Hrm Hcs.
    destruct (process_image_pair_draws original_path mask_path
                output_original_dir output_mask_dir num_augmentations
                num_crops_per_aug defect_threshold expansion_target_size
                crop_size w original_image mask_image Ho Hm)
      as (evs & Hout & Hall).
    exists evs. split; [exact Hout|]. intros c Hc.
    destruct (drawn_event_elem _ _ _ Hall Hc)
      as (Hshape & E_o & E_m & Hexp & Hin).
    destruct (expansion_shapes _ _ _ _ _ Hro Hrm Hshape Hexp)
      as (_ & HrE & HsE).
    apply (drawn_within_ratio_ok E_o E_m crop_size); auto.
Qed.

Lemma sample_mask_rectangular : rectangular sample_mask.
Proof. repeat constructor. Qed.

Lemma sample_image_rectangular : rectangular sample_image.
Proof. repeat constructor. Qed.

Lemma defect_ratio_of_candidates_witness :
  ratio_ok (candidate_at sample_image sample_mask 2 1 0)
  /\ ratio_ok (candidate_at (padded 1 1 1 0 sample_image)
                            (padded 1 1 1 0 sample_mask) 3 1 0).
Proof.
  split.
  - destruct (proj1 defect_ratio_of_candidates "in/7.png" "in/7_mask.png"
                "out" "out_mask" 1%Q (2 # 10000)%Q 1 (sample_world [1; 0])
                sample_image sample_mask eq_refl eq_refl
                sample_mask_rectangular)
      as (evs & Hout & Hall).
    + unfold Qle. simpl. lia.
    + apply Hall. simpl in Hout. rewrite app_nil_r in Hout. rewrite <- Hout.
      vm_compute. do 6 apply list_elem_of_further. apply list_elem_of_here.
  - destruct (proj2 defect_ratio_of_candidates "in/7.png" "in/7_mask.png"
                "out" "out_mask" 1 1 (2 # 10000)%Q 4 3
                (sample_world [1; 1; 1; 0])
                sample_image sample_mask eq_refl eq_refl
                sample_image_rectangular sample_mask_rectangular)
      as (evs & Hout & Hall).
    + lia.
    + apply Hall. simpl in Hout. rewrite app_nil_r in Hout. rewrite <- Hout.
      vm_compute. do 3 apply list_elem_of_further. apply list_elem_of_here.
Defined.

(** C3 as stated fails on an empty crop: with a crop size of 0,
    [process_image_pair] draws a candidate whose mask crop has no pixel
    at all, so every pixel of it is white, and whose ratio is 0. *)
Lemma defect_ratio_empty_crop_counterexample :
  exists c,
    Drawn c ∈ out (process_image_pair "in/7.png" "in/7_mask.png" "out"
                     "out_mask" 1 1 (2 # 10000)%Q 4 0 (sample_world [])).2
    /\ all_pixels (fun p => p = white) (cropped_mask c)
    /\ ~ (defect_percentage c == 1)%Q.
Proof.
  exists (candidate_at (padded 0 2 0 1 sample_image)
                       (padded 0 2 0 1 sample_mask) 0 0 0).
  split; [|split].
  - vm_compute. apply list_elem_of_here.
  - vm_compute. constructor.
  - vm_compute. discriminate.
Qed.

(** A negative crop size is outside the theorem for a reason: the
    bounds of the slices then count from the end, the crop has more
    pixels than [crop_size * crop_size], and the ratio can exceed 1. *)
Lemma defect_ratio_negative_crop_size :
  exists c,
    Drawn c ∈ out (process_image_pair "in/7.png" "in/7_mask.png" "out"
                     "out_mask" 1 1 (2 # 10000)%Q 4 (-1)
                     (sample_world [])).2
    /\ (1 < defect_percentage c)%Q.
Proof.
  exists (candidate_at (padded 0 2 0 1 sample_image)
                       (padded 0 2 0 1 sample_mask) (-1) 0 0).
  split.
  - vm_compute. do 3 apply list_elem_of_further. apply list_elem_of_here.
  - vm_compute. reflexivity.
Qed.

(** ** One attempt *)

Lemma draw_candidate_run E_o E_m crop_size (w : world) :
  crop_size <= width E_o -> crop_size <= height E_o ->
  exists c w1,
    draw_candidate E_o E_m crop_size (width E_o - crop_size)
                   (height E_o - crop_size) w = (Ok c, w1)
    /\ drawn_within E_o E_m crop_size c
    /\ disk w1 = disk w /\ dirs w1 = dirs w
    /\ processed_image_count w1 = processed_image_count w
    /\ out w1 = Drawn c :: out w.
Proof.
  intros Hw Hh. unfold draw_candidate, bind.
  destruct (random_randint_run 0 (width E_o - crop_size) w)
    as (x & w1 & Hrun1 & Hx & Hq1); [lia|].
  destruct (random_randint_run 0 (height E_o - crop_size) w1)
    as (y & w2 & Hrun2 & Hy & Hq2); [lia|].
  rewrite Hrun1, Hrun2. simpl.
  destruct (only_tape_trans _ _ _ Hq1 Hq2) as (Hd & Hdirs & _ & Hout & Hn).
  eexists _, _. split; [reflexivity|]. simpl.
  split; [exists x, y; auto|].
  rewrite Hd, Hdirs, Hn, Hout. auto.
Qed.

Lemma crop_attempt_run original_path output_original_dir output_mask_dir
    E_o E_m crop_size (w : world) :
  crop_size <= width E_o -> crop_size <= height E_o ->
  exists c w1,
    drawn_within E_o E_m crop_size c
    /\ disk w1 = disk w /\ dirs w1 = dirs w
    /\ processed_image_count w1 = processed_image_count w
    /\ out w1 = Drawn c :: out w
    /\ forall defect_threshold i valid_crop_counter,
         crop_attempt original_path output_original_dir output_mask_dir
           E_o E_m (width E_o) (height E_o) crop_size defect_threshold i
           valid_crop_counter w
         = (if accept (defect_percentage c) defect_threshold
            then save_crop original_path output_original_dir
                           output_mask_dir c valid_crop_counter
            else ret (Next valid_crop_counter))
             (with_out (Printed (RatioOfCrop (i + 1) (defect_percentage c))
                        :: out w1) w1).
Proof.
  intros Hw Hh.
  destruct (draw_candidate_run E_o E_m crop_size w Hw Hh)
    as (c & w1 & Hrun & Hin & Hd & Hdirs & Hn & Hout).
  exists c, w1. repeat split; auto.
  intros defect_threshold i k. unfold crop_attempt.
  rewrite (proj2 (orb_false_iff _ _)) by (split; apply Z.ltb_ge; lia).
  unfold bind at 1. rewrite Hrun.
  unfold bind, print, emit. simpl. reflexivity.
Qed.

Lemma pair_attempt_run output_original_dir output_mask_dir ext
    E_o E_m crop_size (w : world) :
  crop_size <= width E_o -> crop_size <= height E_o ->
  exists c w1,
    drawn_within E_o E_m crop_size c
    /\ disk w1 = disk w /\ dirs w1 = dirs w
    /\ processed_image_count w1 = processed_image_count w
    /\ out w1 = Drawn c :: out w
    /\ forall defect_threshold i s,
         pair_attempt output_original_dir output_mask_dir ext E_o E_m
           (width E_o) (height E_o) crop_size defect_threshold i s w
         = (if accept (defect_percentage c) defect_threshold
            then save_numbered output_original_dir output_mask_dir ext c
            else ret (Next tt)) w1.
Proof.
  intros Hw Hh.
  destruct (draw_candidate_run E_o E_m crop_size w Hw Hh)
    as (c & w1 & Hrun & Hin & Hd & Hdirs & Hn & Hout).
  exists c, w1. repeat split; auto.
  intros defect_threshold i s. unfold pair_attempt.
  unfold bind at 1. rewrite Hrun. reflexivity.
Qed.

(** An accepted candidate is written twice, under the next number. *)
Lemma save_crop_run original_path output_original_dir output_mask_dir c
    valid_crop_counter (w : world) :
  exists original_name mask_name made w',
    save_crop original_path output_original_dir output_mask_dir c
              valid_crop_counter w
    = (Ok (Next (valid_crop_counter + 1)), w')
    /\ tape w' = tape w
    /\ Forall (fun e => exists d, e = Makedirs d) made
    /\ out w' = Printed (CropSaved (valid_crop_counter + 1) original_name
                                 mask_name)
                :: Imwrite mask_name (cropped_mask c)
                :: Imwrite original_name (cropped_original c)
                :: made ++ out w.
Proof.
  unfold save_crop. destruct (splitext _) as [base_name ext].
  unfold ensure_dir, bind, path_exists. simpl.
  destruct (_ || _); simpl; destruct (_ || _); simpl.
  - eexists _, _, [], _. split; [reflexivity|]. split; [reflexivity|].
    split; [constructor|]. reflexivity.
  - eexists _, _, [_], _. split; [reflexivity|]. split; [reflexivity|].
    split; [repeat constructor; eauto|]. reflexivity.
  - eexists _, _, [_], _. split; [reflexivity|]. split; [reflexivity|].
    split; [repeat constructor; eauto|]. reflexivity.
  - eexists _, _, [_; _], _. split; [reflexivity|]. split; [reflexivity|].
    split; [repeat constructor; eauto|]. reflexivity.
Qed.

Lemma save_numbered_run output_original_dir output_mask_dir ext c
    (w : world) :
  exists original_name mask_name w',
    save_numbered output_original_dir output_mask_dir ext c w
    = (Ok (Next tt), w')
    /\ processed_image_count w' = processed_image_count w + 1
    /\ out w' = Printed (Saved (basename original_name) (defect_percentage c))
                :: Imwrite mask_name (cropped_mask c)
                :: Imwrite original_name (cropped_original c)
                :: out w.
Proof.
  unfold save_numbered, bind, next_image_number. simpl.
  eexists _, _, _. split; [reflexivity|]. split; reflexivity.
Qed.

(** ** Acceptance *)

Lemma accept_true (r t : Q) : accept r t = true <-> (t <= r)%Q.
Proof. unfold accept. apply Qle_bool_iff. Qed.


Lemma accept_mono (r t1 t2 : Q) :
  (t1 <= t2)%Q -> accept r t2 = true -> accept r t1 = true.
Proof.
  rewrite !accept_true. intros H12 H2. eapply Qle_trans; eauto.
Qed.

Lemma filter_sublist_mono {A} (P Q : A -> Prop)
    `{!forall x, Decision (P x)} `{!forall x, Decision (Q x)} (l : list A) :
  (forall x, P x -> Q x) -> filter P l `sublist_of` filter Q l.
Proof.
  intros HPQ. induction l as [|x l IH]; [constructor|].
  destruct (decide (P x)) as [HP|HP].
  - rewrite (filter_cons_True P) by exact HP.
    rewrite (filter_cons_True Q) by auto.
    apply sublist_skip. exact IH.
  - rewrite (filter_cons_False P) by exact HP.
    destruct (decide (Q x)) as [HQ|HQ].
    + rewrite (filter_cons_True Q) by exact HQ.
      apply sublist_cons. exact IH.
    + rewrite (filter_cons_False Q) by exact HQ. exact IH.
Qed.

(** ** Two runs on one tape, at two thresholds *)

(** The candidate drawn is a function of the tape. *)
Lemma draw_candidate_tape E_o E_m crop_size max_x max_y (w : world) :
  0 <= max_x -> 0 <= max_y ->
  exists c t,
    forall w', tape w' = tape w ->
      draw_candidate E_o E_m crop_size max_x max_y w'
      = (Ok c, with_out (Drawn c :: out w') (with_tape t w')).
Proof.
  intros Hx Hy.
  destruct (next_draw 0 max_x (tape w)) as [x t1] eqn:E1.
  destruct (next_draw 0 max_y t1) as [y t2] eqn:E2.
  exists (candidate_at E_o E_m crop_size x y), t2. intros w' Htape.
  unfold draw_candidate, bind, random_randint.
  rewrite (proj2 (Z.ltb_ge _ _) Hx), (proj2 (Z.ltb_ge _ _) Hy).
  rewrite Htape, E1. simpl. rewrite E2. reflexivity.
Qed.

Lemma makedirs_only made :
  Forall (fun e => exists d, e = Makedirs d) made ->
  written made = [] /\ drawn made = [].
Proof.
  induction 1 as [|e made [d ->] _ [IH1 IH2]]; [split; reflexivity|].
  unfold written, drawn in *. simpl. auto.
Qed.

Lemma crop_attempt_two_runs original_path output_original_dir
    output_mask_dir E_o E_m W H crop_size t1 t2 i k1 k2 (w1 w2 : world) :
  (t1 <= t2)%Q -> tape w1 = tape w2 ->
  exists r1 r2 w1' w2' e1 e2,
    crop_attempt original_path output_original_dir output_mask_dir E_o E_m
                 W H crop_size t1 i k1 w1 = (Ok r1, w1')
    /\ crop_attempt original_path output_original_dir output_mask_dir E_o
                    E_m W H crop_size t2 i k2 w2 = (Ok r2, w2')
    /\ ((exists a b, r1 = Next a /\ r2 = Next b)
        \/ (exists a b, r1 = Break a /\ r2 = Break b))
    /\ out w1' = e1 ++ out w1 /\ out w2' = e2 ++ out w2
    /\ drawn e1 = drawn e2
    /\ written e2 `sublist_of` written e1
    /\ tape w1' = tape w2'.
Proof.
  intros H12 Htape. unfold crop_attempt.
  destruct ((W - crop_size <? 0) || (H - crop_size <? 0)) eqn:Eguard.
  - unfold bind, print, emit, ret. simpl.
    eexists _, _, _, _, [_], [_].
    split; [reflexivity|]. split; [reflexivity|].
    split; [right; eauto|]. split; [reflexivity|]. split; [reflexivity|].
    split; [reflexivity|]. split; [reflexivity|exact Htape].
  - apply orb_false_elim in Eguard. destruct Eguard as [Ex Ey].
    apply Z.ltb_ge in Ex, Ey.
    destruct (draw_candidate_tape E_o E_m crop_size _ _ w1 Ex Ey)
      as (c & t & Hdraw).
    rewrite (bind_ok _ _ _ _ _ (Hdraw w1 eq_refl)).
    rewrite (bind_ok _ _ _ _ _ (Hdraw w2 (eq_sym Htape))).
    unfold bind, print, emit. cbv beta iota.
    destruct (accept (defect_percentage c) t2) eqn:E2.
    + rewrite (accept_mono _ _ _ H12 E2).
      match goal with
      | |- context [save_crop ?p ?a ?b ?c0 k1 ?w0] =>
          destruct (save_crop_run p a b c0 k1 w0)
            as (n1 & m1 & made1 & w1' & Hs1 & Ht1 & Hm1 & Ho1)
      end.
      match goal with
      | |- context [save_crop ?p ?a ?b ?c0 k2 ?w0] =>
          destruct (save_crop_run p a b c0 k2 w0)
            as (n2 & m2 & made2 & w2' & Hs2 & Ht2 & Hm2 & Ho2)
      end.
      rewrite Hs1, Hs2. simpl in *.
      destruct (makedirs_only _ Hm1) as [Hw1 Hd1].
      destruct (makedirs_only _ Hm2) as [Hw2 Hd2].
      eexists _, _, w1', w2',
        (_ :: _ :: _ :: made1 ++ [_; _]), (_ :: _ :: _ :: made2 ++ [_; _]).
      split; [reflexivity|]. split; [reflexivity|].
      split; [left; eauto|].
      split; [rewrite Ho1; simpl; rewrite <- app_assoc; reflexivity|].
      split; [rewrite Ho2; simpl; rewrite <- app_assoc; reflexivity|].
      unfold written, drawn in *. simpl.
      rewrite !omap_app, Hw1, Hw2, Hd1, Hd2. simpl.
      split; [reflexivity|]. split; [reflexivity|]. congruence.
    + destruct (accept (defect_percentage c) t1) eqn:E1.
      * match goal with
        | |- context [save_crop ?p ?a ?b ?c0 k1 ?w0] =>
            destruct (save_crop_run p a b c0 k1 w0)
              as (n1 & m1 & made1 & w1' & Hs1 & Ht1 & Hm1 & Ho1)
        end.
        rewrite Hs1. simpl in *.
        destruct (makedirs_only _ Hm1) as [Hw1 Hd1].
        eexists _, _, w1', _, (_ :: _ :: _ :: made1 ++ [_; _]), [_; _].
        split; [reflexivity|]. split; [reflexivity|].
        split; [left; eauto|].
        split; [rewrite Ho1; simpl; rewrite <- app_assoc; reflexivity|].
        split; [reflexivity|].
        unfold written, drawn in *. simpl.
        rewrite !omap_app, Hw1, Hd1. simpl.
        split; [reflexivity|]. split; [apply sublist_nil_l|].
        rewrite Ht1. reflexivity.
      * simpl. eexists _, _, _, _, [_; _], [_; _].
        split; [reflexivity|]. split; [reflexivity|].
        split; [left; eauto|]. split; [reflexivity|].
        split; [reflexivity|]. split; [reflexivity|].
        split; reflexivity.
Qed.

Lemma crop_loop_two_runs original_path output_original_dir output_mask_dir
    E_o E_m W H crop_size t1 t2 (xs : list Z) :
  (t1 <= t2)%Q ->
  forall k1 k2 (w1 w2 : world),
    tape w1 = tape w2 ->
    exists k1' k2' w1' w2' e1 e2,
      for_each (crop_attempt original_path output_original_dir
                  output_mask_dir E_o E_m W H crop_size t1) xs k1 w1
      = (Ok k1', w1')
      /\ for_each (crop_attempt original_path output_original_dir
                     output_mask_dir E_o E_m W H crop_size t2) xs k2 w2
         = (Ok k2', w2')
      /\ out w1' = e1 ++ out w1 /\ out w2' = e2 ++ out w2
      /\ drawn e1 = drawn e2
      /\ written e2 `sublist_of` written e1.
Proof.
  intros H12. induction xs as [|i xs IH]; intros k1 k2 w1 w2 Htape.
  - exists k1, k2, w1, w2, [], []. simpl. unfold ret.
    repeat split; reflexivity.
  - destruct (crop_attempt_two_runs original_path output_original_dir
                output_mask_dir E_o E_m W H crop_size t1 t2 i k1 k2 w1 w2
                H12 Htape)
      as (r1 & r2 & w1a & w2a & e1 & e2 & Hr1 & Hr2 & Hctl & Ho1 & Ho2
          & Hd & Hw & Ht).
    simpl. rewrite (bind_ok _ _ _ _ _ Hr1), (bind_ok _ _ _ _ _ Hr2).
    destruct Hctl as [(a & b & -> & ->)|(a & b & -> & ->)].
    + destruct (IH a b w1a w2a Ht)
        as (k1' & k2' & w1' & w2' & f1 & f2 & Hl1 & Hl2 & Hp1 & Hp2
            & Hfd & Hfw).
      exists k1', k2', w1', w2', (f1 ++ e1), (f2 ++ e2).
      split; [exact Hl1|]. split; [exact Hl2|].
      split; [rewrite Hp1, Ho1, app_assoc; reflexivity|].
      split; [rewrite Hp2, Ho2, app_assoc; reflexivity|].
      unfold written, drawn in *. rewrite !omap_app.
      split; [congruence|]. apply sublist_app; assumption.
    + exists a, b, w1a, w2a, e1, e2. unfold ret.
      repeat split; assumption.
Qed.

(** For one tape, [crop_image] draws the same candidates at every
    threshold, and the crops it writes at a threshold are among those
    it writes at a lower one, in the same order. *)
Lemma crop_image_two_runs original_path mask_path output_original_dir
    output_mask_dir crop_size_ratio t1 t2 num_crops (w : world) :
  (t1 <= t2)%Q ->
  exists e1 e2,
    out (crop_image original_path mask_path output_original_dir
           output_mask_dir crop_size_ratio t1 num_crops w).2 = e1 ++ out w
    /\ out (crop_image original_path mask_path output_original_dir
              output_mask_dir crop_size_ratio t2 num_crops w).2
       = e2 ++ out w
    /\ drawn e1 = drawn e2
    /\ written e2 `sublist_of` written e1.
Proof.
  intros H12.
  unfold crop_image, try_except, crop_image_try, bind, cv2_imread.
  destruct (readable w original_path) as [original_image|]; simpl.
  2:{ exists [Printed (Failed (FileNotFoundError [original_path]))],
             [Printed (Failed (FileNotFoundError [original_path]))].
      repeat split; reflexivity. }
  destruct (readable w mask_path) as [mask_image|]; simpl.
  2:{ exists [Printed (Failed (FileNotFoundError [mask_path]))],
             [Printed (Failed (FileNotFoundError [mask_path]))].
      repeat split; reflexivity. }
  destruct (negb _ || negb _); simpl.
  { exists [Printed (Failed (ValueError SizeMismatch))],
           [Printed (Failed (ValueError SizeMismatch))].
    repeat split; reflexivity. }
  set (W := width original_image). set (H := height original_image).
  set (c0 := int_mul (Z.min W H) crop_size_ratio).
  destruct ((W <? c0) || (H <? c0)); simpl.
  - destruct (crop_loop_two_runs original_path output_original_dir
                output_mask_dir original_image mask_image W H (Z.min W H)
                t1 t2 (range num_crops) H12 0 0
                (with_out (Printed (CropSizeTooLarge c0) :: out w) w)
                (with_out (Printed (CropSizeTooLarge c0) :: out w) w)
                eq_refl)
      as (k1' & k2' & w1' & w2' & e1 & e2 & Hl1 & Hl2 & Hp1 & Hp2
          & Hd & Hw).
    rewrite Hl1, Hl2. simpl in *.
    exists (e1 ++ [Printed (CropSizeTooLarge c0)]),
           (e2 ++ [Printed (CropSizeTooLarge c0)]).
    split; [rewrite <- app_assoc; exact Hp1|].
    split; [rewrite <- app_assoc; exact Hp2|].
    unfold written, drawn in *. rewrite !omap_app. simpl.
    rewrite !app_nil_r. split; assumption.
  - destruct (crop_loop_two_runs original_path output_original_dir
                output_mask_dir original_image mask_image W H c0
                t1 t2 (range num_crops) H12 0 0 w w eq_refl)
      as (k1' & k2' & w1' & w2' & e1 & e2 & Hl1 & Hl2 & Hp1 & Hp2
          & Hd & Hw).
    rewrite Hl1, Hl2. simpl.
    exists e1, e2. repeat split; assumption.
Qed.

(** C4.  A candidate is accepted exactly when its defect ratio is at
    least the threshold: [crop_image] saves it under the next number,
    and [process_image_pair] advances its global number, exactly then.
    Acceptance is monotone: of a fixed sequence of candidates, those
    accepted at a threshold are accepted at every lower one; an
    attempt that saves at a threshold does the same at every lower
    one; and on one random tape a whole run of [crop_image] draws the
    same candidates at both thresholds and writes, at the higher one,
    crops that are among those of the lower one.  What is said of a
    save of [crop_image] is said of a crop that has pixels (a positive
    crop size) and of output directories that are there or can be
    made: the save of an empty crop is refused by [cv2.imwrite], and
    the run stops there. *)
Theorem acceptance_monotone :
  (forall r t, accept r t = true <-> (t <= r)%Q)
  /\ (forall (cands : list candidate) t1 t2,
        (t1 <= t2)%Q -> accepted t2 cands `sublist_of` accepted t1 cands)
  /\ (forall original_path output_original_dir output_mask_dir E_o E_m
             crop_size i valid_crop_counter w,
        0 < crop_size ->
        crop_size <= width E_o -> crop_size <= height E_o ->
        dir_ready w output_original_dir -> dir_ready w output_mask_dir ->
        exists c,
          drawn_within E_o E_m crop_size c
          /\ (forall t,
                (crop_attempt original_path output_original_dir
                   output_mask_dir E_o E_m (width E_o) (height E_o)
                   crop_size t i valid_crop_counter w).1
                = Ok (Next (valid_crop_counter + 1))
                <-> (t <= defect_percentage c)%Q)
          /\ (forall t1 t2,
                (t1 <= t2)%Q -> (t2 <= defect_percentage c)%Q ->
                crop_attempt original_path output_original_dir
                  output_mask_dir E_o E_m (width E_o) (height E_o)
                  crop_size t1 i valid_crop_counter w
                = crop_attempt original_path output_original_dir
                    output_mask_dir E_o E_m (width E_o) (height E_o)
                    crop_size t2 i valid_crop_counter w))
  /\ (forall output_original_dir output_mask_dir ext E_o E_m crop_size i s w,
        crop_size <= width E_o -> crop_size <= height E_o ->
        exists c,
          drawn_within E_o E_m crop_size c
          /\ (forall t,
                processed_image_count
                  (pair_attempt output_original_dir output_mask_dir ext
                     E_o E_m (width E_o) (height E_o) crop_size t i s w).2
                = processed_image_count w + 1
                <-> (t <= defect_percentage c)%Q)
          /\ (forall t1 t2,
                (t1 <= t2)%Q -> (t2 <= defect_percentage c)%Q ->
                pair_attempt output_original_dir output_mask_dir ext
                  E_o E_m (width E_o) (height E_o) crop_size t1 i s w
                = pair_attempt output_original_dir output_mask_dir ext
                    E_o E_m (width E_o) (height E_o) crop_size t2 i s w))
  /\ (forall original_path mask_path output_original_dir output_mask_dir
             crop_size_ratio t1 t2 num_crops w,
        (t1 <= t2)%Q ->
        dir_ready w output_original_dir -> dir_ready w output_mask_dir ->
        (forall original_image,
           readable w original_path = Some original_image ->
           0 < crop_size_of (width original_image) (height original_image)
                            crop_size_ratio) ->
        exists e1 e2,
          out (crop_image original_path mask_path output_original_dir
                 output_mask_dir crop_size_ratio t1 num_crops w).2
          = e1 ++ out w
          /\ out (crop_image original_path mask_path output_original_dir
                    output_mask_dir crop_size_ratio t2 num_crops w).2
             = e2 ++ out w
          /\ drawn e1 = drawn e2
          /\ written e2 `sublist_of` written e1).
Proof.
  split; [exact accept_true|]. split; [|split; [|split]].
  - intros cands t1 t2 H12. unfold accepted.
    apply filter_sublist_mono. intros c. apply accept_mono. exact H12.
  - intros original_path output_original_dir output_mask_dir E_o E_m
      crop_size i k w _ Hw Hh _ _.
    destruct (crop_attempt_run original_path output_original_dir
                output_mask_dir E_o E_m crop_size w Hw Hh)
      as (c & w1 & Hin & _ & _ & _ & _ & Hrun).
    exists c. split; [exact Hin|]. split.
    + intros t. rewrite Hrun, <- accept_true.
      destruct (accept (defect_percentage c) t) eqn:Eacc.
      * destruct (save_crop_run original_path output_original_dir
                    output_mask_dir c k
                    (with_out (Printed (RatioOfCrop (i + 1)
                                        (defect_percentage c)) :: out w1) w1))
          as (n1 & n2 & made & w' & Hsave & _ & _).
        rewrite Hsave. simpl. tauto.
      * simpl. split; [|discriminate]. intros [= Hk]. lia.
    + intros t1 t2 H12 H2. rewrite !Hrun.
      apply accept_true in H2.
      rewrite H2, (accept_mono _ _ _ H12 H2). reflexivity.
  - intros output_original_dir output_mask_dir ext E_o E_m crop_size i s w
      Hw Hh.
    destruct (pair_attempt_run output_original_dir output_mask_dir ext
                E_o E_m crop_size w Hw Hh)
      as (c & w1 & Hin & _ & _ & Hn & _ & Hrun).
    exists c. split; [exact Hin|]. split.
    + intros t. rewrite Hrun, <- accept_true.
      destruct (accept (defect_percentage c) t) eqn:Eacc.
      * destruct (save_numbered_run output_original_dir output_mask_dir
                    ext c w1) as (n1 & n2 & w' & Hsave & Hcount & _).
        rewrite Hsave. simpl. rewrite Hcount, Hn. tauto.
      * simpl. rewrite Hn. split; [lia|discriminate].
    + intros t1 t2 H12 H2. rewrite !Hrun.
      apply accept_true in H2.
      rewrite H2, (accept_mono _ _ _ H12 H2). reflexivity.
  - intros. apply crop_image_two_runs. assumption.
Qed.

Lemma acceptance_monotone_witness :
  accepted (1 # 2)%Q [candidate_at sample_image sample_mask 2 1 0;
                      candidate_at sample_image sample_mask 2 0 0]
  `sublist_of`
  accepted (2 # 10000)%Q [candidate_at sample_image sample_mask 2 1 0;
                          candidate_at sample_image sample_mask 2 0 0].
Proof.
  apply (proj1 (proj2 acceptance_monotone)).
  unfold Qle. simpl. lia.
Defined.






(** ** Failures of one pair inside a batch *)

Lemma ensure_dir_returns (d : string) (w : world) :
  exists w', ensure_dir d w = (Ok tt, w').
Proof.
  unfold ensure_dir, bind, path_exists. simpl.
  destruct (_ || _); simpl; unfold ret, makedirs; eauto.
Qed.

(** A block whose handler only prints never lets an exception out. *)
Lemma try_except_print_returns (body : M unit) (line : exn -> message)
    (w : world) :
  exists w', try_except body (fun e => print (line e)) w = (Ok tt, w').
Proof.
  unfold try_except. destruct (body w) as [[[]|e] w1]; [eauto|].
  unfold print, emit. eauto.
Qed.

Lemma for_each_returns {A} (body : A -> unit -> M (ctl unit)) :
  (forall x w, exists w', body x tt w = (Ok (Next tt), w')) ->
  forall xs w, exists w', for_each body xs tt w = (Ok tt, w').
Proof.
  intros Hbody xs. induction xs as [|x xs IH]; intros w; simpl.
  - unfold ret. eauto.
  - destruct (Hbody x w) as [w1 Hstep].
    rewrite (bind_ok _ _ _ _ _ Hstep). apply IH.
Qed.

Lemma filter_m_returns {A} (p : A -> M bool) (xs : list A) :
  (forall x w, exists b, p x w = (Ok b, w)) ->
  forall w, exists ys, filter_m p xs w = (Ok ys, w).
Proof.
  intros Hp. induction xs as [|x xs IH]; intros w; simpl.
  - unfold ret. eauto.
  - destruct (Hp x w) as [b Hb]. destruct (IH w) as [ys Hys].
    unfold bind. rewrite Hb, Hys. unfold ret. eauto.
Qed.

(** Making a directory that is missing moves nothing else. *)
Lemma ensure_dir_keeps (d : string) (w : world) :
  exists w',
    ensure_dir d w = (Ok tt, w')
    /\ disk w' = disk w /\ tape w' = tape w /\ listing w' = listing w
    /\ processed_image_count w' = processed_image_count w
    /\ (forall x, x ∈ dirs w -> x ∈ dirs w').
Proof.
  unfold ensure_dir, bind, path_exists. simpl.
  destruct (_ || _); simpl; unfold ret, makedirs.
  - exists w. repeat split; auto.
  - eexists. split; [reflexivity|]. simpl. repeat split; auto.
    intros x Hx. apply elem_of_union. right. exact Hx.
Qed.

Lemma listdir_there (d : string) (w : world) :
  d ∈ dirs w -> listdir d w = (Ok (default [] (listing w !! d)), w).
Proof.
  intros Hd. unfold listdir. rewrite (bool_decide_eq_true_2 _ Hd).
  reflexivity.
Qed.

(** A condition that only looks at the world filters like [filter]. *)
Lemma filter_m_pure {A} (p : A -> M bool) (q : A -> bool) (xs : list A)
    (w : world) :
  (forall x, p x w = (Ok (q x), w)) ->
  filter_m p xs w = (Ok (filter (fun x => q x = true) xs), w).
Proof.
  intros Hp. induction xs as [|x xs IH]; [reflexivity|].
  simpl filter_m. unfold bind at 1. rewrite Hp.
  unfold bind at 1. rewrite IH. unfold ret.
  destruct (q x) eqn:E.
  - rewrite filter_cons_True by exact E. reflexivity.
  - rewrite filter_cons_False by (rewrite E; discriminate). reflexivity.
Qed.

(** A batch is the two directories, the listing, and the loop over the
    files kept. *)
Lemma batch_is_loop (d1 d2 dir : string) (keep : string -> bool)
    (p : string -> M bool) (body : string -> unit -> M (ctl unit))
    (w : world) :
  (forall x w,
     p x w = (Ok (bool_decide (is_Some (disk w !! path_join dir x))
                  && keep x), w)) ->
  dir ∈ dirs w ->
  exists w0,
    disk w0 = disk w /\ tape w0 = tape w /\ listing w0 = listing w
    /\ processed_image_count w0 = processed_image_count w
    /\ (ensure_dir d1 ;;; ensure_dir d2 ;;;
        names <- listdir dir ;;
        files <- filter_m p names ;;
        for_each body files tt) w
       = for_each body (listed_files w dir keep) tt w0.
Proof.
  intros Hp Hdir.
  destruct (ensure_dir_keeps d1 w) as (w1 & H1 & Hd1 & Ht1 & Hl1 & Hc1 & Hs1).
  rewrite (bind_ok _ _ _ _ _ H1).
  destruct (ensure_dir_keeps d2 w1) as (w2 & H2 & Hd2 & Ht2 & Hl2 & Hc2 & Hs2).
  rewrite (bind_ok _ _ _ _ _ H2).
  rewrite (bind_ok _ _ _ _ _ (listdir_there dir w2 (Hs2 _ (Hs1 _ Hdir)))).
  rewrite (bind_ok _ _ _ _ _
             (filter_m_pure p _ (default [] (listing w2 !! dir)) w2
                            (fun x => Hp x w2))).
  exists w2. unfold listed_files.
  rewrite Hd2, Hd1, Hl2, Hl1.
  repeat split; congruence.
Qed.

Lemma crop_image_fails original_path mask_path output_original_dir
    output_mask_dir crop_size_ratio defect_threshold num_crops (w : world) :
  pair_fails w original_path mask_path ->
  exists e,
    crop_image original_path mask_path output_original_dir output_mask_dir
               crop_size_ratio defect_threshold num_crops w
    = (Ok tt, with_out (Printed (Failed e) :: out w) w).
Proof.
  intros Hfail.
  unfold crop_image, try_except, crop_image_try, bind, cv2_imread.
  destruct Hfail as [Ho|[Hm|(o & m & Ho & Hm & Hshape)]].
  - rewrite Ho. simpl. eauto.
  - rewrite Hm. simpl. destruct (readable w original_path); simpl; eauto.
  - rewrite Ho, Hm. simpl.
    destruct (negb (width o =? width m) || negb (height o =? height m))
      eqn:E; simpl; [eauto|].
    apply orb_false_elim in E. destruct E as [E1 E2].
    apply negb_false_iff, Z.eqb_eq in E1, E2.
    destruct Hshape. split; auto.
Qed.

Lemma process_image_pair_fails original_path mask_path output_original_dir
    output_mask_dir num_augmentations num_crops_per_aug defect_threshold
    expansion_target_size crop_size (w : world) :
  pair_fails w original_path mask_path ->
  exists e,
    process_image_pair original_path mask_path output_original_dir
      output_mask_dir num_augmentations num_crops_per_aug defect_threshold
      expansion_target_size crop_size w
    = (Ok tt, with_out (Printed (Fatal original_path e) :: out w) w).
Proof.
  intros Hfail.
  unfold process_image_pair, try_except, process_image_pair_try, bind,
    cv2_imread.
  destruct Hfail as [Ho|[Hm|(o & m & Ho & Hm & Hshape)]].
  - rewrite Ho. simpl. eauto.
  - rewrite Hm. simpl. destruct (readable w original_path); simpl; eauto.
  - rewrite Ho, Hm. simpl.
    destruct (negb ((height o =? height m) && (width o =? width m)))
      eqn:E; simpl; [eauto|].
    apply negb_false_iff, andb_true_iff in E. destruct E as [E1 E2].
    apply Z.eqb_eq in E1, E2.
    destruct Hshape. split; auto.
Qed.

Lemma height_cvtColor (img : image) : height (cvtColor img) = height img.
Proof. unfold height, cvtColor. rewrite length_map. reflexivity. Qed.

Lemma width_cvtColor (img : image) : width (cvtColor img) = width img.
Proof.
  unfold width, cvtColor. destruct img as [|row img]; simpl; [reflexivity|].
  rewrite length_map. reflexivity.
Qed.

Lemma expand_pair_fails original_path mask_path original_file mask_file
    num_expansions output_original_dir output_mask_dir (w : world) :
  pair_fails w original_path mask_path ->
  exists report,
    ((exists e, report = [Printed (Failed e)])
     \/ exists e, report = [Printed (Failed e);
                            Printed (Processing original_file mask_file)])
    /\ try_except
         (expand_pair_try original_path mask_path original_file mask_file
            num_expansions output_original_dir output_mask_dir)
         (fun e => print (Failed e)) w
       = (Ok tt, with_out (report ++ out w) w).
Proof.
  intros Hfail.
  unfold try_except, expand_pair_try, bind, cv2_imread.
  destruct Hfail as [Ho|[Hm|(o & m & Ho & Hm & Hshape)]].
  - rewrite Ho. simpl. eexists. split; [left; eauto|reflexivity].
  - rewrite Hm. simpl.
    destruct (readable w original_path); simpl;
      (eexists; split; [left; eauto|reflexivity]).
  - rewrite Ho, Hm. simpl. unfold expand_image.
    rewrite !height_cvtColor, !width_cvtColor.
    destruct (negb (width o =? width m) || negb (height o =? height m))
      eqn:E; simpl.
    + eexists. split; [right; eauto|reflexivity].
    + apply orb_false_elim in E. destruct E as [E1 E2].
      apply negb_false_iff, Z.eqb_eq in E1, E2.
      destruct Hshape. split; auto.
Qed.

(** C7.  In each of the three batches ([batch_crop_images],
    [batch_process_directory], [batch_expand_images]), a pair with an
    unreadable file or with grids of different shapes is reported and
    skipped: its step returns normally, it changes nothing but the log,
    and the loop goes on with the rest of the files.  When the
    directory to list is there and the output directories are there or
    can be made, the batch is that loop over the files listed, and it
    returns normally: no pair makes it end on an exception.
    ([batch_expand_images] passes over a file whose name is not a
    number without a word.) *)
Theorem bad_pair_is_skipped :
  (forall expanded_original_dir expanded_mask_dir output_original_dir
          output_mask_dir defect_threshold num_crops,
     let step := batch_crop_step expanded_original_dir expanded_mask_dir
                   output_original_dir output_mask_dir defect_threshold
                   num_crops in
     (forall original_file rest w,
        let original_path := path_join expanded_original_dir original_file in
        let mask_file := mask_file_of original_file in
        let mask_path := path_join expanded_mask_dir mask_file in
        pair_fails w original_path mask_path ->
        exists report,
          (report = [Printed (MaskMissing mask_file)]
           \/ exists e, report = [Printed (Failed e);
                                  Printed (Cropping original_file mask_file)])
          /\ step original_file tt w
             = (Ok (Next tt), with_out (report ++ out w) w)
          /\ for_each step (original_file :: rest) tt w
             = for_each step rest tt (with_out (report ++ out w) w))
     /\ forall w,
          expanded_original_dir ∈ dirs w ->
          dir_ready w output_original_dir -> dir_ready w output_mask_dir ->
          exists w0 w',
            disk w0 = disk w /\ tape w0 = tape w
            /\ let original_files :=
                 listed_files w expanded_original_dir
                              (fun f => negb (contains "_mask" f)) in
               batch_crop_images expanded_original_dir expanded_mask_dir
                 output_original_dir output_mask_dir defect_threshold
                 num_crops w
               = for_each step original_files tt w0
               /\ for_each step original_files tt w0 = (Ok tt, w'))
  /\ (forall input_dir output_original_dir output_mask_dir mask_suffix
             num_augmentations num_crops_per_aug defect_threshold
             expansion_target_size crop_size,
        let step := batch_process_step input_dir output_original_dir
                      output_mask_dir mask_suffix num_augmentations
                      num_crops_per_aug defect_threshold
                      expansion_target_size crop_size in
        (forall original_file rest w,
           let original_path := path_join input_dir original_file in
           let mask_file := (splitext original_file).1 +:+ mask_suffix
                            +:+ (splitext original_file).2 in
           let mask_path := path_join input_dir mask_file in
           pair_fails w original_path mask_path ->
           exists report,
             (report = [Printed (MaskMissing mask_file)]
              \/ exists e, report = [Printed (Fatal original_path e);
                                     Printed (Handling original_file)])
             /\ step original_file tt w
                = (Ok (Next tt), with_out (report ++ out w) w)
             /\ for_each step (original_file :: rest) tt w
                = for_each step rest tt (with_out (report ++ out w) w))
        /\ forall w,
             input_dir ∈ dirs w ->
             dir_ready w output_original_dir ->
             dir_ready w output_mask_dir ->
             exists w0 w',
               disk w0 = disk w /\ tape w0 = tape w
               /\ let original_files :=
                    listed_files w input_dir
                                 (fun f => negb (contains mask_suffix f)) in
                  batch_process_directory input_dir output_original_dir
                    output_mask_dir mask_suffix num_augmentations
                    num_crops_per_aug defect_threshold expansion_target_size
                    crop_size w
                  = for_each step original_files tt w0
                  /\ for_each step original_files tt w0 = (Ok tt, w'))
  /\ (forall original_dir mask_suffix num_expansions output_original_dir
             output_mask_dir,
        let step := batch_expand_step original_dir mask_suffix num_expansions
                      output_original_dir output_mask_dir in
        (forall original_file rest w,
           let original_path := path_join original_dir original_file in
           let mask_file := (splitext original_file).1 +:+ mask_suffix
                            +:+ (splitext original_file).2 in
           let mask_path := path_join original_dir mask_file in
           pair_fails w original_path mask_path ->
           exists report,
             (isdigit (splitext original_file).1 = true ->
              report = [Printed (MaskMissing mask_file)]
              \/ (exists e, report = [Printed (Failed e)])
              \/ exists e, report = [Printed (Failed e);
                                     Printed (Processing original_file
                                                       mask_file)])
             /\ step original_file tt w
                = (Ok (Next tt), with_out (report ++ out w) w)
             /\ for_each step (original_file :: rest) tt w
                = for_each step rest tt (with_out (report ++ out w) w))
        /\ forall w,
             original_dir ∈ dirs w ->
             dir_ready w output_original_dir ->
             dir_ready w output_mask_dir ->
             exists w0 w',
               disk w0 = disk w /\ tape w0 = tape w
               /\ let original_files :=
                    listed_files w original_dir (fun _ => true) in
                  batch_expand_images original_dir mask_suffix
                    num_expansions output_original_dir output_mask_dir w
                  = for_each step original_files tt w0
                  /\ for_each step original_files tt w0 = (Ok tt, w')).
Proof.
  split; [|split].
  - intros expanded_original_dir expanded_mask_dir output_original_dir
      output_mask_dir defect_threshold num_crops step.
    assert (Hreturns : forall x w, exists w', step x tt w = (Ok (Next tt), w')).
    { intros x w. unfold step, batch_crop_step.
      rewrite (bind_ok _ _ _ _ _ (eq_refl : path_exists _ w = (_, w))).
      destruct (_ || _).
      - unfold bind at 1. unfold bind at 1. unfold print, emit.
        unfold crop_image.
        match goal with
        | |- context [try_except ?b ?h ?w0] =>
            destruct (try_except_print_returns b Failed w0) as [w' Hrun];
            rewrite Hrun
        end.
        unfold ret. eauto.
      - unfold bind, print, emit, ret. eauto. }
    split.
    + intros original_file rest w original_path mask_file mask_path Hfail.
      assert (Hstep : exists report,
        (report = [Printed (MaskMissing mask_file)]
         \/ exists e, report = [Printed (Failed e);
                                Printed (Cropping original_file mask_file)])
        /\ step original_file tt w
           = (Ok (Next tt), with_out (report ++ out w) w)).
      { unfold step, batch_crop_step, bind, path_exists.
        fold mask_file. fold original_path. fold mask_path. simpl.
        destruct (_ || _); simpl.
        - destruct (crop_image_fails original_path mask_path
                      output_original_dir output_mask_dir 1%Q
                      defect_threshold num_crops
                      (with_out (Printed (Cropping original_file mask_file)
                                 :: out w) w) Hfail) as [e He].
          rewrite He. simpl. eexists. split; [right; eauto|]. reflexivity.
        - eexists. split; [left; reflexivity|]. reflexivity. }
      destruct Hstep as (report & Hrep & Hstep).
      exists report. split; [exact Hrep|]. split; [exact Hstep|].
      simpl. rewrite (bind_ok _ _ _ _ _ Hstep). reflexivity.
    + intros w Hdir _ _.
      destruct (batch_is_loop output_original_dir output_mask_dir
                  expanded_original_dir (fun f => negb (contains "_mask" f))
                  (fun f =>
                     is_file <- path_isfile
                                  (path_join expanded_original_dir f) ;;
                     ret (is_file && negb (contains "_mask" f)))
                  step w (fun x w0 => eq_refl) Hdir)
        as (w0 & Hd0 & Ht0 & _ & _ & Hbatch).
      destruct (for_each_returns step Hreturns
                  (listed_files w expanded_original_dir
                                (fun f => negb (contains "_mask" f))) w0)
        as [w' Hloop].
      exists w0, w'. split; [exact Hd0|]. split; [exact Ht0|].
      split; [exact Hbatch|exact Hloop].
  - intros input_dir output_original_dir output_mask_dir mask_suffix
      num_augmentations num_crops_per_aug defect_threshold
      expansion_target_size crop_size step.
    assert (Hreturns : forall x w, exists w', step x tt w = (Ok (Next tt), w')).
    { intros x w. unfold step, batch_process_step.
      destruct (splitext x) as [name ext].
      rewrite (bind_ok _ _ _ _ _ (eq_refl : path_exists _ w = (_, w))).
      destruct (_ || _).
      - unfold bind at 1. unfold bind at 1. unfold print, emit.
        unfold process_image_pair.
        match goal with
        | |- context [try_except ?b ?h ?w0] =>
            destruct (try_except_print_returns b
                        (Fatal (path_join input_dir x)) w0) as [w' Hrun];
            rewrite Hrun
        end.
        unfold ret. eauto.
      - unfold bind, print, emit, ret. eauto. }
    split.
    + intros original_file rest w original_path mask_file mask_path Hfail.
      assert (Hstep : exists report,
        (report = [Printed (MaskMissing mask_file)]
         \/ exists e, report = [Printed (Fatal original_path e);
                                Printed (Handling original_file)])
        /\ step original_file tt w
           = (Ok (Next tt), with_out (report ++ out w) w)).
      { unfold step, batch_process_step.
        unfold mask_path, mask_file, original_path in *.
        destruct (splitext original_file) as [name ext]. simpl in *.
        unfold bind, path_exists. simpl.
        destruct (_ || _); simpl.
        - destruct (process_image_pair_fails
                      (path_join input_dir original_file)
                      (path_join input_dir (name +:+ mask_suffix +:+ ext))
                      output_original_dir output_mask_dir num_augmentations
                      num_crops_per_aug defect_threshold
                      expansion_target_size crop_size
                      (with_out (Printed (Handling original_file) :: out w) w)
                      Hfail) as [e He].
          rewrite He. simpl. eexists. split; [right; eauto|]. reflexivity.
        - eexists. split; [left; reflexivity|]. reflexivity. }
      destruct Hstep as (report & Hrep & Hstep).
      exists report. split; [exact Hrep|]. split; [exact Hstep|].
      simpl. rewrite (bind_ok _ _ _ _ _ Hstep). reflexivity.
    + intros w Hdir _ _.
      destruct (batch_is_loop output_original_dir output_mask_dir
                  input_dir (fun f => negb (contains mask_suffix f))
                  (fun f =>
                     is_file <- path_isfile (path_join input_dir f) ;;
                     ret (negb (contains mask_suffix f) && is_file))
                  step w
                  (fun x w0 => f_equal (fun b => (Ok b, w0))
                                       (andb_comm _ _)) Hdir)
        as (w0 & Hd0 & Ht0 & _ & _ & Hbatch).
      destruct (for_each_returns step Hreturns
                  (listed_files w input_dir
                                (fun f => negb (contains mask_suffix f))) w0)
        as [w' Hloop].
      exists w0, w'. split; [exact Hd0|]. split; [exact Ht0|].
      split; [exact Hbatch|exact Hloop].
  - intros original_dir mask_suffix num_expansions output_original_dir
      output_mask_dir step.
    assert (Hreturns : forall x w, exists w', step x tt w = (Ok (Next tt), w')).
    { intros x w. unfold step, batch_expand_step.
      destruct (splitext x) as [name ext].
      destruct (negb (isdigit name)); [unfold ret; eauto|].
      rewrite (bind_ok _ _ _ _ _ (eq_refl : path_exists _ w = (_, w))).
      destruct (_ || _).
      - unfold bind at 1.
        match goal with
        | |- context [try_except ?b ?h ?w0] =>
            destruct (try_except_print_returns b Failed w0) as [w' Hrun];
            rewrite Hrun
        end.
        unfold ret. eauto.
      - unfold bind, print, emit, ret. eauto. }
    split.
    + intros original_file rest w original_path mask_file mask_path Hfail.
      assert (Hstep : exists report,
        (isdigit (splitext original_file).1 = true ->
         report = [Printed (MaskMissing mask_file)]
         \/ (exists e, report = [Printed (Failed e)])
         \/ exists e, report = [Printed (Failed e);
                                Printed (Processing original_file mask_file)])
        /\ step original_file tt w
           = (Ok (Next tt), with_out (report ++ out w) w)).
      { unfold step, batch_expand_step.
        unfold mask_path, mask_file, original_path in *.
        destruct (splitext original_file) as [name ext]. simpl in *.
        destruct (isdigit name); simpl.
        - unfold bind at 1. unfold path_exists at 1. simpl.
          destruct (_ || _); simpl.
          + destruct (expand_pair_fails
                        (path_join original_dir original_file)
                        (path_join original_dir
                                   (name +:+ mask_suffix +:+ ext))
                        original_file (name +:+ mask_suffix +:+ ext)
                        num_expansions output_original_dir output_mask_dir
                        w Hfail) as (report & Hrep & Hrun).
            unfold bind. rewrite Hrun. simpl.
            exists report. split; [intros _; right; exact Hrep|reflexivity].
          + eexists. split; [intros _; left; reflexivity|]. reflexivity.
        - exists []. split; [discriminate|].
          unfold ret. simpl. destruct w; reflexivity. }
      destruct Hstep as (report & Hrep & Hstep).
      exists report. split; [exact Hrep|]. split; [exact Hstep|].
      simpl. rewrite (bind_ok _ _ _ _ _ Hstep). reflexivity.
    + intros w Hdir _ _.
      destruct (batch_is_loop output_original_dir output_mask_dir
                  original_dir (fun _ => true)
                  (fun f => path_isfile (path_join original_dir f))
                  step w
                  (fun x w0 => f_equal (fun b => (Ok b, w0))
                                       (eq_sym (andb_true_r _))) Hdir)
        as (w0 & Hd0 & Ht0 & _ & _ & Hbatch).
      destruct (for_each_returns step Hreturns
                  (listed_files w original_dir (fun _ => true)) w0)
        as [w' Hloop].
      exists w0, w'. split; [exact Hd0|]. split; [exact Ht0|].
      split; [exact Hbatch|exact Hloop].
Qed.

Lemma bad_pair_is_skipped_witness :
  exists report,
    for_each (batch_crop_step "in" "in" "out" "out_mask" (2 # 10000)%Q 1)
             ["8.png"; "7.png"] tt (sample_world [1; 0])
    = for_each (batch_crop_step "in" "in" "out" "out_mask" (2 # 10000)%Q 1)
               ["7.png"] tt
               (with_out (report ++ out (sample_world [1; 0]))
                         (sample_world [1; 0])).
Proof.
  destruct (proj1 (proj1 bad_pair_is_skipped "in" "in" "out" "out_mask"
                     (2 # 10000)%Q 1)
              "8.png" ["7.png"] (sample_world [1; 0]))
    as (report & _ & _ & Hloop).
  - left. reflexivity.
  - exists report. exact Hloop.
Defined.

(** ** Alignment of original and mask *)

Lemma padded_same_shape top bottom left right (a b : image) :
  rectangular a -> rectangular b -> same_shape a b ->
  same_shape (padded top bottom left right a) (padded top bottom left right b).
Proof.
  intros Ha Hb [Hh Hw].
  assert (Hheq : height (padded top bottom left right a)
                 = height (padded top bottom left right b)).
  { rewrite !height_padded. lia. }
  split; [exact Hheq|].
  destruct (Z.eq_dec (height (padded top bottom left right a)) 0) as [Hz|Hz].
  - rewrite Hz in Hheq.
    remember (padded top bottom left right a) as E1 eqn:HE1.
    remember (padded top bottom left right b) as E2 eqn:HE2.
    clear HE1 HE2. destruct E1; destruct E2;
      unfold height in Hz, Hheq; simpl in *; lia.
  - pose proof (height_nonneg (padded top bottom left right a)).
    rewrite !width_padded by (auto; lia). lia.
Qed.

Lemma padded_same_place top bottom left right (img : image) :
  same_place (Z.of_nat top) (Z.of_nat left) img
             (padded top bottom left right img).
Proof. intros i j p Hp. apply pixel_at_padded. exact Hp. Qed.

Lemma padded_expanded_alike top bottom left right (a b : image) :
  rectangular a -> rectangular b -> same_shape a b ->
  expanded_alike a b (padded top bottom left right a)
                 (padded top bottom left right b).
Proof.
  intros Ha Hb Hs. exists (Z.of_nat top), (Z.of_nat left).
  split; [lia|]. split; [lia|].
  split; [apply padded_same_place|].
  split; [apply padded_same_place|].
  apply padded_same_shape; assumption.
Qed.

Lemma expanded_alike_refl (a b : image) :
  same_shape a b -> expanded_alike a b a b.
Proof.
  intros Hs. exists 0, 0. split; [lia|]. split; [lia|].
  split; [|split; [|exact Hs]]; intros i j p Hp; exact Hp.
Qed.

Lemma drawn_within_cropped_alike E_o E_m crop_size c :
  rectangular E_o -> rectangular E_m -> same_shape E_o E_m ->
  drawn_within E_o E_m crop_size c -> cropped_alike E_o E_m c.
Proof.
  intros Ho Hm [Hh Hw] (x & y & Hx & Hy & ->).
  unfold cropped_alike, window_at. simpl.
  split; intros i j Hi Hj; apply getitem_window_pixel; auto; lia.
Qed.

Lemma expansion_expanded_alike L original_image mask_image E_o E_m :
  rectangular original_image -> rectangular mask_image ->
  same_shape original_image mask_image ->
  expansion_of L original_image mask_image E_o E_m ->
  expanded_alike original_image mask_image E_o E_m.
Proof.
  intros Ho Hm Hs (top & left & _ & _ & -> & ->).
  apply padded_expanded_alike; assumption.
Qed.

(** C5.  Through the whole pipeline the mask goes where the original
    goes.  Both expansions put original and mask at the same offsets of
    canvases of the same shape; and every candidate drawn by
    [crop_image] or [process_image_pair] has its two crops cut at the
    same (x, y) and with the same side, from the pair read or from one
    expansion of it. *)
Theorem mask_follows_original :
  (forall original_image mask_image w E_o E_m w',
     rectangular original_image -> rectangular mask_image ->
     same_shape original_image mask_image ->
     expand_pad original_image mask_image (height original_image)
                (width original_image) w = (Ok (E_o, E_m), w') ->
     expanded_alike original_image mask_image E_o E_m)
  /\ (forall original_image mask_image L w,
        rectangular original_image -> rectangular mask_image ->
        same_shape original_image mask_image ->
        exists E_o E_m w',
          expand_to original_image mask_image (height original_image)
                    (width original_image) L w = (Ok (E_o, E_m), w')
          /\ expanded_alike original_image mask_image E_o E_m)
  /\ (forall original_path mask_path output_original_dir output_mask_dir
             crop_size_ratio defect_threshold num_crops w
             original_image mask_image,
        disk w !! original_path = Some (Picture original_image) ->
        disk w !! mask_path = Some (Picture mask_image) ->
        rectangular original_image -> rectangular mask_image ->
        exists evs,
          out (crop_image original_path mask_path output_original_dir
                 output_mask_dir crop_size_ratio defect_threshold
                 num_crops w).2
          = evs ++ out w
          /\ forall c, Drawn c ∈ evs ->
               cropped_alike original_image mask_image c)
  /\ (forall original_path mask_path output_original_dir output_mask_dir
             num_augmentations num_crops_per_aug defect_threshold
             expansion_target_size crop_size w original_image mask_image,
        disk w !! original_path = Some (Picture original_image) ->
        disk w !! mask_path = Some (Picture mask_image) ->
        rectangular original_image -> rectangular mask_image ->
        exists evs,
          out (process_image_pair original_path mask_path output_original_dir
                 output_mask_dir num_augmentations num_crops_per_aug
                 defect_threshold expansion_target_size crop_size w).2
          = evs ++ out w
          /\ forall c, Drawn c ∈ evs ->
               exists E_o E_m,
                 expanded_alike original_image mask_image E_o E_m
                 /\ cropped_alike E_o E_m c).
Proof.
  split; [|split; [|split]].
  - intros original_image mask_image w E_o E_m w' Ho Hm Hs Hrun.
    destruct (Z.lt_trichotomy (height original_image) (width original_image))
      as [Hlt|[Heq|Hgt]].
    + destruct (Z_le_gt_dec (height original_image) 512) as [Hle|Hbig].
      * destruct (expand_pad_rows original_image mask_image w Hs Hlt Hle)
          as (lead & w1 & _ & _ & Hrun').
        rewrite Hrun' in Hrun. injection Hrun as <- <- _.
        apply padded_expanded_alike; assumption.
      * unfold expand_pad in Hrun.
        rewrite (proj2 (Z.ltb_lt _ _) Hlt) in Hrun.
        unfold bind in Hrun.
        rewrite random_randint_empty in Hrun by lia. discriminate.
    + unfold expand_pad in Hrun. rewrite Heq, Z.ltb_irrefl in Hrun.
      injection Hrun as <- <- _. apply expanded_alike_refl. exact Hs.
    + destruct (Z_le_gt_dec (width original_image) 512) as [Hle|Hbig].
      * destruct (expand_pad_cols original_image mask_image w Hs
                    ltac:(lia) Hle)
          as (lead & w1 & _ & _ & Hrun').
        rewrite Hrun' in Hrun. injection Hrun as <- <- _.
        apply padded_expanded_alike; assumption.
      * unfold expand_pad in Hrun.
        rewrite (proj2 (Z.ltb_ge _ _)) in Hrun by lia.
        rewrite (proj2 (Z.ltb_lt _ _)) in Hrun by lia.
        unfold bind in Hrun.
        rewrite random_randint_empty in Hrun by lia. discriminate.
  - intros original_image mask_image L w Ho Hm Hs.
    destruct (expand_to_run original_image mask_image L w Hs)
      as (top & left & w' & _ & _ & _ & Hrun).
    eexists _, _, w'. split; [exact Hrun|].
    apply padded_expanded_alike; assumption.
  - intros original_path mask_path output_original_dir output_mask_dir
      crop_size_ratio defect_threshold num_crops w original_image mask_image
      Ho Hm Hro Hrm.
    destruct (crop_image_draws original_path mask_path output_original_dir
                output_mask_dir crop_size_ratio defect_threshold num_crops w
                original_image mask_image Ho Hm)
      as (crop_size & evs & _ & _ & Hout & Hall).
    exists evs. split; [exact Hout|]. intros c Hc.
    destruct (drawn_event_elem _ _ _ Hall Hc) as [Hshape Hin].
    eapply drawn_within_cropped_alike; eauto.
  - intros original_path mask_path output_original_dir output_mask_dir
      num_augmentations num_crops_per_aug defect_threshold
      expansion_target_size crop_size w original_image mask_image Ho Hm
      Hro Hrm.
    destruct (process_image_pair_draws original_path mask_path
                output_original_dir output_mask_dir num_augmentations
                num_crops_per_aug defect_threshold expansion_target_size
                crop_size w original_image mask_image Ho Hm)
      as (evs & Hout & Hall).
    exists evs. split; [exact Hout|]. intros c Hc.
    destruct (drawn_event_elem _ _ _ Hall Hc)
      as (Hshape & E_o & E_m & Hexp & Hin).
    destruct (expansion_shapes _ _ _ _ _ Hro Hrm Hshape Hexp)
      as (HrEo & HrEm & HsE).
    exists E_o, E_m. split.
    + eapply expansion_expanded_alike; eauto.
    + eapply drawn_within_cropped_alike; eauto.
Qed.

Lemma mask_follows_original_witness :
  expanded_alike sample_image sample_mask
                 (padded 1 509 0 0 sample_image)
                 (padded 1 509 0 0 sample_mask).
Proof.
  apply (proj1 mask_follows_original sample_image sample_mask
               (sample_world [1]) _ _ (sample_world [])).
  - exact sample_image_rectangular.
  - exact sample_mask_rectangular.
  - split; reflexivity.
  - vm_compute. reflexivity.
Defined.

(** ** Padding amounts *)

(** With [lead] drawn, [expand_pad] puts [lead] gray rows above and the
    rest of the padding below. *)
Lemma expand_pad_rows_at (original_image mask_image : image) (w w' : world)
    (lead : Z) :
  same_shape original_image mask_image ->
  height original_image < width original_image ->
  random_randint 0 (512 - height original_image) w = (Ok lead, w') ->
  0 <= lead <= 512 - height original_image ->
  expand_pad original_image mask_image (height original_image)
             (width original_image) w
  = (Ok (padded (Z.to_nat lead)
                (Z.to_nat (512 - height original_image - lead)) 0 0
                original_image,
         padded (Z.to_nat lead)
                (Z.to_nat (512 - height original_image - lead)) 0 0
                mask_image), w').
Proof.
  intros [Hh Hw] Hlt Hrun Hlead. unfold expand_pad.
  rewrite (proj2 (Z.ltb_lt _ _) Hlt).
  unfold bind. rewrite Hrun.
  rewrite (assign_np_full_rows 512 _ _ lead original_image) by (auto; lia).
  rewrite (assign_np_full_rows 512 _ _ lead mask_image) by (auto; lia).
  unfold ret.
  replace (512 - lead - height original_image)
    with (512 - height original_image - lead) by lia.
  reflexivity.
Qed.

Lemma expand_pad_cols_at (original_image mask_image : image) (w w' : world)
    (lead : Z) :
  same_shape original_image mask_image ->
  width original_image < height original_image ->
  random_randint 0 (512 - width original_image) w = (Ok lead, w') ->
  0 <= lead <= 512 - width original_image ->
  expand_pad original_image mask_image (height original_image)
             (width original_image) w
  = (Ok (padded 0 0 (Z.to_nat lead)
                (Z.to_nat (512 - width original_image - lead))
                original_image,
         padded 0 0 (Z.to_nat lead)
                (Z.to_nat (512 - width original_image - lead))
                mask_image), w').
Proof.
  intros [Hh Hw] Hlt Hrun Hlead. unfold expand_pad.
  pose proof (width_nonneg original_image) as Hw0.
  rewrite (proj2 (Z.ltb_ge _ _)) by lia.
  rewrite (proj2 (Z.ltb_lt _ _) Hlt).
  unfold bind. rewrite Hrun.
  rewrite (assign_np_full_cols 512 _ _ lead original_image) by (auto; lia).
  rewrite (assign_np_full_cols 512 _ _ lead mask_image) by (auto; lia).
  unfold ret.
  replace (512 - lead - width original_image)
    with (512 - width original_image - lead) by lia.
  reflexivity.
Qed.

Lemma expand_to_identity (original_image mask_image : image) (L : Z)
    (w : world) :
  L <= height original_image -> L <= width original_image ->
  expand_to original_image mask_image (height original_image)
            (width original_image) L w
  = (Ok (original_image, mask_image), w).
Proof.
  intros Hh Hw. unfold expand_to.
  rewrite !Z.max_l by lia. reflexivity.
Qed.

(** C1, as the code has it.  [expand_image] pads to the side 512: when
    the height h is the shorter side and h <= 512, it pads only the
    height, by 512 - h, with [lead] gray rows above for a [lead] drawn
    from 0..padding (each value can be drawn) and padding - lead below;
    the canvas has height h + padding and the width of the input; the
    same holds on the width when it is the shorter side.  The expansion
    of [process_image_pair] pads each axis by max(0, L - its length),
    both axes in one step, with the same kind of split; when L is at
    most both lengths it draws nothing and passes the pair through
    unchanged, and it never fails. *)
Theorem expand_padding_amounts :
  (forall original_image mask_image w,
     rectangular original_image ->
     same_shape original_image mask_image ->
     let h := height original_image in
     let wd := width original_image in
     let padding := 512 - h in
     h < wd -> h <= 512 ->
     (exists lead w',
        0 <= lead <= padding /\ only_tape w w'
        /\ expand_pad original_image mask_image h wd w
           = (Ok (padded (Z.to_nat lead) (Z.to_nat (padding - lead)) 0 0
                         original_image,
                  padded (Z.to_nat lead) (Z.to_nat (padding - lead)) 0 0
                         mask_image), w'))
     /\ forall lead,
          0 <= lead <= padding ->
          expand_pad original_image mask_image h wd
                     (with_tape (lead :: tape w) w)
          = (Ok (padded (Z.to_nat lead) (Z.to_nat (padding - lead)) 0 0
                        original_image,
                 padded (Z.to_nat lead) (Z.to_nat (padding - lead)) 0 0
                        mask_image), w)
          /\ height (padded (Z.to_nat lead) (Z.to_nat (padding - lead)) 0 0
                            original_image) = h + padding
          /\ width (padded (Z.to_nat lead) (Z.to_nat (padding - lead)) 0 0
                           original_image) = wd)
  /\ (forall original_image mask_image w,
        rectangular original_image ->
        same_shape original_image mask_image ->
        let h := height original_image in
        let wd := width original_image in
        let padding := 512 - wd in
        wd < h -> wd <= 512 ->
        (exists lead w',
           0 <= lead <= padding /\ only_tape w w'
           /\ expand_pad original_image mask_image h wd w
              = (Ok (padded 0 0 (Z.to_nat lead) (Z.to_nat (padding - lead))
                            original_image,
                     padded 0 0 (Z.to_nat lead) (Z.to_nat (padding - lead))
                            mask_image), w'))
        /\ forall lead,
             0 <= lead <= padding ->
             expand_pad original_image mask_image h wd
                        (with_tape (lead :: tape w) w)
             = (Ok (padded 0 0 (Z.to_nat lead) (Z.to_nat (padding - lead))
                           original_image,
                    padded 0 0 (Z.to_nat lead) (Z.to_nat (padding - lead))
                           mask_image), w)
             /\ height (padded 0 0 (Z.to_nat lead)
                               (Z.to_nat (padding - lead)) original_image)
                = h
             /\ width (padded 0 0 (Z.to_nat lead)
                              (Z.to_nat (padding - lead)) original_image)
                = wd + padding)
  /\ (forall original_image mask_image L w,
        rectangular original_image ->
        same_shape original_image mask_image ->
        let h := height original_image in
        let wd := width original_image in
        let padding_h := Z.max 0 (L - h) in
        let padding_w := Z.max 0 (L - wd) in
        (exists top left w',
           0 <= top <= padding_h /\ 0 <= left <= padding_w
           /\ only_tape w w'
           /\ expand_to original_image mask_image h wd L w
              = (Ok (padded (Z.to_nat top) (Z.to_nat (padding_h - top))
                            (Z.to_nat left) (Z.to_nat (padding_w - left))
                            original_image,
                     padded (Z.to_nat top) (Z.to_nat (padding_h - top))
                            (Z.to_nat left) (Z.to_nat (padding_w - left))
                            mask_image), w')
           /\ height (padded (Z.to_nat top) (Z.to_nat (padding_h - top))
                             (Z.to_nat left) (Z.to_nat (padding_w - left))
                             original_image) = h + padding_h)
        /\ (L <= h -> L <= wd ->
            padding_h = 0 /\ padding_w = 0
            /\ expand_to original_image mask_image h wd L w
               = (Ok (original_image, mask_image), w))).
Proof.
  split; [|split].
  - intros original_image mask_image w Hr Hs h wd padding Hlt Hle.
    split.
    + destruct (expand_pad_rows original_image mask_image w Hs Hlt Hle)
        as (lead & w' & Hlead & Hq & Hrun).
      exists lead, w'. auto.
    + intros lead Hlead.
      split; [|split].
      * apply expand_pad_rows_at; auto.
        apply random_randint_choose. exact Hlead.
      * rewrite height_padded. unfold padding, h in *. lia.
      * pose proof (height_nonneg original_image).
        rewrite width_padded; [lia|exact Hr|].
        rewrite height_padded. unfold padding, h in *. lia.
  - intros original_image mask_image w Hr Hs h wd padding Hlt Hle.
    pose proof (width_nonneg original_image) as Hw0.
    split.
    + destruct (expand_pad_cols original_image mask_image w Hs Hlt Hle)
        as (lead & w' & Hlead & Hq & Hrun).
      exists lead, w'. auto.
    + intros lead Hlead.
      split; [|split].
      * apply expand_pad_cols_at; auto.
        apply random_randint_choose. exact Hlead.
      * rewrite height_padded. unfold h. lia.
      * rewrite width_padded; [unfold padding, wd in *; lia|exact Hr|].
        rewrite height_padded. unfold h, wd in *. lia.
  - intros original_image mask_image L w Hr Hs h wd padding_h padding_w.
    split.
    + destruct (expand_to_run original_image mask_image L w Hs)
        as (top & left & w' & Htop & Hleft & Hq & Hrun).
      exists top, left, w'.
      split; [exact Htop|]. split; [exact Hleft|]. split; [exact Hq|].
      split; [exact Hrun|].
      rewrite height_padded. unfold h, padding_h in *. lia.
    + intros Hh Hw. unfold padding_h, padding_w.
      split; [lia|]. split; [lia|].
      apply expand_to_identity; assumption.
Qed.

Lemma expand_padding_amounts_witness :
  expand_pad sample_image sample_mask 2 3 (sample_world [7])
  = (Ok (padded 7 503 0 0 sample_image, padded 7 503 0 0 sample_mask),
     sample_world [])
  /\ expand_to sample_image sample_mask 2 3 2 (sample_world [7])
     = (Ok (sample_image, sample_mask), sample_world [7]).
Proof.
  split.
  - destruct (proj1 expand_padding_amounts sample_image sample_mask
                (sample_world []) sample_image_rectangular
                (conj eq_refl eq_refl)) as [_ Hany].
    + reflexivity.
    + unfold sample_image, height. simpl. lia.
    + destruct (Hany 7) as [Hrun _].
      * unfold sample_image, height. simpl. lia.
      * exact Hrun.
  - destruct (proj2 (proj2 expand_padding_amounts) sample_image sample_mask
                2 (sample_world [7]) sample_image_rectangular
                (conj eq_refl eq_refl)) as [_ Hid].
    destruct Hid as (_ & _ & Hrun).
    + unfold sample_image, height. simpl. lia.
    + unfold sample_image, width. simpl. lia.
    + exact Hrun.
Defined.

(** C1 as stated fails on [process_image_pair]: with a height of 2, a
    width of 3 and a target of 4, the height is the shorter side, and
    the expansion pads the width too. *)
Lemma expand_to_pads_both_axes :
  exists E_o E_m w',
    expand_to sample_image sample_mask (height sample_image)
              (width sample_image) 4 (sample_world [1; 1])
    = (Ok (E_o, E_m), w')
    /\ height sample_image < width sample_image
    /\ width E_o <> width sample_image.
Proof.
  eexists _, _, _. split; [vm_compute; reflexivity|].
  split; [reflexivity|vm_compute; discriminate].
Qed.

(** [expand_image] itself stops on a pair whose shorter side is above
    512: the range of the draw is empty. *)
Lemma expand_image_above_512_raises :
  (expand_image "in/9.png" "in/9_mask.png" (np_full 513 514 gray)
                (np_full 513 514 gray) 1 "out" "out_mask"
                (sample_world [])).1
  = Raise (ValueError (EmptyRange 0 (-1))).
Proof. vm_compute. reflexivity. Qed.

(** ** Square inputs *)

Lemma expand_pad_square (original_image mask_image : image) (w : world) :
  height original_image = width original_image ->
  expand_pad original_image mask_image (height original_image)
             (width original_image) w
  = (Ok (original_image, mask_image), w).
Proof.
  intros Heq. unfold expand_pad. rewrite Heq, Z.ltb_irrefl. reflexivity.
Qed.




(** * Further properties *)

(** ** The whole loop of [crop_image] *)

Lemma drawn_app evs1 evs2 : drawn (evs1 ++ evs2) = drawn evs1 ++ drawn evs2.
Proof. apply omap_app. Qed.

Lemma files_app evs1 evs2 : files (evs1 ++ evs2) = files evs1 ++ files evs2.
Proof. apply omap_app. Qed.

Lemma saved_numbers_app evs1 evs2 :
  saved_numbers (evs1 ++ evs2) = saved_numbers evs1 ++ saved_numbers evs2.
Proof. apply omap_app. Qed.

Lemma write_all_app fs1 fs2 d :
  write_all (fs1 ++ fs2) d = write_all fs2 (write_all fs1 d).
Proof. apply foldl_app. Qed.

(** Writing leaves the other paths alone. *)
Lemma write_all_frame (fs : list (string * image)) (d : gmap string file)
    (path : string) :
  path ∉ fs.*1 -> write_all fs d !! path = d !! path.
Proof.
  revert d. induction fs as [|f fs IH]; intros d Hno; [reflexivity|].
  simpl in Hno. apply not_elem_of_cons in Hno. destruct Hno as [Hne Hno].
  unfold write_all. simpl. fold (write_all fs (<[f.1 := Picture f.2]> d)).
  rewrite (IH _ Hno). apply lookup_insert_ne. auto.
Qed.

Lemma only_written_of (w w' : world) (evs : list event) :
  disk w' = write_all (files evs) (disk w) -> only_written w w' evs.
Proof. intros H path Hno. rewrite H. apply write_all_frame. exact Hno. Qed.

Lemma accepted_cons_true t c cs :
  accept (defect_percentage c) t = true ->
  accepted t (c :: cs) = c :: accepted t cs.
Proof. intros H. unfold accepted. apply filter_cons_True. exact H. Qed.

Lemma accepted_cons_false t c cs :
  accept (defect_percentage c) t = false ->
  accepted t (c :: cs) = accepted t cs.
Proof.
  intros H. unfold accepted. apply filter_cons_False. rewrite H. discriminate.
Qed.

Lemma seqZ_succ_length {A} (m : Z) (l : list A) :
  seqZ m (Z.of_nat (S (length l)))
  = m :: seqZ (m + 1) (Z.of_nat (length l)).
Proof.
  rewrite seqZ_cons by lia. f_equal. f_equal; lia.
Qed.

(** What [ensure_dir] does. *)
Lemma ensure_dir_run d (w : world) :
  exists made w',
    ensure_dir d w = (Ok tt, w')
    /\ Forall (fun e => exists d', e = Makedirs d') made
    /\ out w' = reverse made ++ out w
    /\ disk w' = disk w /\ tape w' = tape w
    /\ processed_image_count w' = processed_image_count w.
Proof.
  unfold ensure_dir, bind, path_exists. destruct (_ || _); simpl.
  - exists [], w. repeat split; constructor.
  - eexists [Makedirs d], _. split; [reflexivity|].
    split; [repeat constructor; eauto|]. repeat split.
Qed.

Lemma makedirs_silent made :
  Forall (fun e => exists d, e = Makedirs d) made ->
  drawn made = [] /\ files made = [] /\ saved_numbers made = []
  /\ Forall (fun e => ~ leaves_loop e) made.
Proof.
  induction 1 as [|e made [d ->] _ (IH1 & IH2 & IH3 & IH4)].
  - repeat split; constructor.
  - repeat split; simpl; auto.
    constructor; [|exact IH4]. intros [cs Hcs]. discriminate.
Qed.

(** An accepted candidate of [crop_image]: both crops go to disk under
    the next number. *)
Lemma save_crop_files original_path output_original_dir output_mask_dir c
    valid_crop_counter (w : world) :
  exists evs w',
    save_crop original_path output_original_dir output_mask_dir c
              valid_crop_counter w
    = (Ok (Next (valid_crop_counter + 1)), w')
    /\ out w' = reverse evs ++ out w
    /\ drawn evs = []
    /\ files evs = crop_files original_path output_original_dir
                              output_mask_dir (valid_crop_counter + 1) c
    /\ saved_numbers evs = [valid_crop_counter + 1]
    /\ Forall (fun e => ~ leaves_loop e) evs
    /\ disk w' = write_all (files evs) (disk w).
Proof.
  unfold save_crop, crop_files, cropped_original_name, cropped_mask_name.
  destruct (splitext _) as [base_name ext].
  destruct (ensure_dir_run output_original_dir w)
    as (made1 & w1 & Hrun1 & Hmade1 & Hout1 & Hdisk1 & _).
  destruct (ensure_dir_run output_mask_dir w1)
    as (made2 & w2 & Hrun2 & Hmade2 & Hout2 & Hdisk2 & _).
  destruct (makedirs_silent _ Hmade1) as (Ha1 & Ha2 & Ha3 & Ha4).
  destruct (makedirs_silent _ Hmade2) as (Hb1 & Hb2 & Hb3 & Hb4).
  rewrite (bind_ok _ _ _ _ _ Hrun1), (bind_ok _ _ _ _ _ Hrun2).
  unfold bind, cv2_imwrite, print, emit, ret. simpl.
  eexists (made1 ++ made2 ++ [Imwrite _ (cropped_original c);
                              Imwrite _ (cropped_mask c);
                              Printed (CropSaved _ _ _)]), _.
  split; [reflexivity|]. simpl.
  split.
  { rewrite Hout2, Hout1, !reverse_app. simpl. rewrite <- !app_assoc.
    reflexivity. }
  rewrite !drawn_app, !files_app, !saved_numbers_app.
  rewrite Ha1, Ha2, Ha3, Hb1, Hb2, Hb3. simpl.
  repeat split.
  - rewrite !Forall_app. split; [exact Ha4|]. split; [exact Hb4|].
    repeat constructor; intros [cs Hcs]; discriminate.
  - rewrite Hdisk2, Hdisk1. reflexivity.
Qed.

(** The loop of [crop_image] with a crop size that fits: one candidate per
    turn, the accepted ones written and numbered from the counter on. *)
Lemma crop_loop_trace original_path output_original_dir output_mask_dir
    E_o E_m crop_size defect_threshold :
  crop_size <= width E_o -> crop_size <= height E_o ->
  forall (xs : list Z) k w, exists k' w' evs,
    for_each (crop_attempt original_path output_original_dir output_mask_dir
                E_o E_m (width E_o) (height E_o) crop_size defect_threshold)
             xs k w = (Ok k', w')
    /\ out w' = reverse evs ++ out w
    /\ length (drawn evs) = length xs
    /\ Forall (drawn_within E_o E_m crop_size) (drawn evs)
    /\ files evs
       = concat (zip_with (crop_files original_path output_original_dir
                                      output_mask_dir)
                   (seqZ (k + 1)
                      (Z.of_nat (length (accepted defect_threshold
                                                  (drawn evs)))))
                   (accepted defect_threshold (drawn evs)))
    /\ saved_numbers evs
       = seqZ (k + 1)
              (Z.of_nat (length (accepted defect_threshold (drawn evs))))
    /\ Forall (fun e => ~ leaves_loop e) evs
    /\ disk w' = write_all (files evs) (disk w).
Proof.
  intros Hw Hh. induction xs as [|x xs IH]; intros k w.
  - exists k, w, []. simpl. repeat split; constructor.
  - destruct (crop_attempt_run original_path output_original_dir
                output_mask_dir E_o E_m crop_size w Hw Hh)
      as (c & w1 & Hin & Hdisk1 & _ & _ & Hout1 & Hrun).
    simpl for_each. unfold bind at 1. rewrite Hrun.
    set (r := Printed (RatioOfCrop (x + 1) (defect_percentage c))).
    set (w1' := with_out _ w1).
    assert (Hout1' : out w1' = reverse [Drawn c; r] ++ out w).
    { unfold w1'. simpl. rewrite Hout1. reflexivity. }
    assert (Hdisk1' : disk w1' = disk w) by exact Hdisk1.
    destruct (accept (defect_percentage c) defect_threshold) eqn:Eacc.
    + destruct (save_crop_files original_path output_original_dir
                  output_mask_dir c k w1')
        as (evs1 & w2 & Hsave & Hout2 & Hs1 & Hs2 & Hs3 & Hs4 & Hs5).
      rewrite Hsave.
      destruct (IH (k + 1) w2) as (k' & w' & evs & Hloop & Hout & Hn & Hall
                                    & Hfs & Hnum & Hno & Hdisk).
      exists k', w', ([Drawn c; r] ++ evs1 ++ evs).
      split; [exact Hloop|].
      split.
      { rewrite Hout, Hout2, Hout1', !reverse_app, <- !app_assoc.
        reflexivity. }
      rewrite !drawn_app, !files_app, !saved_numbers_app, Hs1.
      change (drawn [Drawn c; r]) with [c].
      change (files [Drawn c; r]) with (@nil (string * image)).
      change (saved_numbers [Drawn c; r]) with (@nil Z).
      simpl app. rewrite (accepted_cons_true _ _ _ Eacc).
      change (length (c :: accepted defect_threshold (drawn evs)))
        with (S (length (accepted defect_threshold (drawn evs)))).
      rewrite seqZ_succ_length.
      split; [simpl; rewrite Hn; reflexivity|].
      split; [constructor; assumption|].
      split; [simpl; rewrite Hs2, Hfs; reflexivity|].
      split; [rewrite Hs3, Hnum; reflexivity|].
      split.
      { constructor; [intros [cs Hcs]; discriminate|].
        constructor; [intros [cs Hcs]; discriminate|].
        apply Forall_app. split; assumption. }
      rewrite write_all_app, Hdisk, Hs5, Hdisk1'. reflexivity.
    + unfold ret at 1.
      destruct (IH k w1') as (k' & w' & evs & Hloop & Hout & Hn & Hall
                               & Hfs & Hnum & Hno & Hdisk).
      exists k', w', ([Drawn c; r] ++ evs).
      split; [exact Hloop|].
      split; [rewrite Hout, Hout1', reverse_app, <- app_assoc; reflexivity|].
      rewrite !drawn_app, !files_app, !saved_numbers_app.
      change (drawn [Drawn c; r]) with [c].
      change (files [Drawn c; r]) with (@nil (string * image)).
      change (saved_numbers [Drawn c; r]) with (@nil Z).
      simpl app. rewrite (accepted_cons_false _ _ _ Eacc).
      split; [simpl; rewrite Hn; reflexivity|].
      split; [constructor; assumption|].
      split; [exact Hfs|]. split; [exact Hnum|].
      split.
      { constructor; [intros [cs Hcs]; discriminate|].
        constructor; [intros [cs Hcs]; discriminate|]. exact Hno. }
      rewrite Hdisk, Hdisk1'. reflexivity.
Qed.

(** A whole run of [crop_image] on a readable pair of one shape. *)
Lemma crop_image_trace original_path mask_path output_original_dir
    output_mask_dir crop_size_ratio defect_threshold num_crops w
    original_image mask_image :
  disk w !! original_path = Some (Picture original_image) ->
  disk w !! mask_path = Some (Picture mask_image) ->
  same_shape original_image mask_image ->
  exists w' evs,
    crop_image original_path mask_path output_original_dir output_mask_dir
               crop_size_ratio defect_threshold num_crops w = (Ok tt, w')
    /\ out w' = reverse evs ++ out w
    /\ length (drawn evs) = Z.to_nat num_crops
    /\ Forall (drawn_within original_image mask_image
                (crop_size_of (width original_image) (height original_image)
                              crop_size_ratio))
              (drawn evs)
    /\ files evs
       = concat (zip_with (crop_files original_path output_original_dir
                                      output_mask_dir)
                   (seqZ 1 (Z.of_nat (length (accepted defect_threshold
                                                       (drawn evs)))))
                   (accepted defect_threshold (drawn evs)))
    /\ saved_numbers evs
       = seqZ 1 (Z.of_nat (length (accepted defect_threshold (drawn evs))))
    /\ Forall (fun e => ~ leaves_loop e) evs
    /\ disk w' = write_all (files evs) (disk w).
Proof.
  intros Ho Hm [Hh Hw].
  unfold crop_image, try_except, crop_image_try, bind, cv2_imread, readable.
  rewrite Ho, Hm. simpl.
  rewrite <- Hh, <- Hw, !Z.eqb_refl. simpl.
  set (W := width original_image). set (H := height original_image).
  unfold crop_size_of. fold W H.
  set (c0 := int_mul (Z.min W H) crop_size_ratio).
  destruct ((W <? c0) || (H <? c0)) eqn:Ebig; simpl.
  - destruct (crop_loop_trace original_path output_original_dir
                output_mask_dir original_image mask_image (Z.min W H)
                defect_threshold ltac:(unfold W; lia) ltac:(unfold H; lia)
                (range num_crops) 0
                (with_out (Printed (CropSizeTooLarge c0) :: out w) w))
      as (k' & w' & evs & Hloop & Hout & Hn & Hall & Hfs & Hnum & Hno
          & Hdisk).
    fold W H in Hloop. rewrite Hloop. simpl.
    exists w', (Printed (CropSizeTooLarge c0) :: evs).
    split; [reflexivity|].
    split; [rewrite Hout, reverse_cons, <- app_assoc; reflexivity|].
    change (drawn (Printed (CropSizeTooLarge c0) :: evs)) with (drawn evs).
    change (files (Printed (CropSizeTooLarge c0) :: evs)) with (files evs).
    change (saved_numbers (Printed (CropSizeTooLarge c0) :: evs))
      with (saved_numbers evs).
    split; [rewrite Hn; unfold range; apply length_seqZ|].
    split; [exact Hall|].
    split; [exact Hfs|]. split; [exact Hnum|].
    split; [|exact Hdisk].
    constructor; [intros [cs Hcs]; discriminate|exact Hno].
  - apply orb_false_elim in Ebig. destruct Ebig as [E3 E4].
    apply Z.ltb_ge in E3, E4.
    destruct (crop_loop_trace original_path output_original_dir
                output_mask_dir original_image mask_image c0
                defect_threshold E3 E4 (range num_crops) 0 w)
      as (k' & w' & evs & Hloop & Hout & Hn & Hall & Hfs & Hnum & Hno
          & Hdisk).
    fold W H in Hloop. rewrite Hloop. simpl.
    exists w', evs.
    split; [reflexivity|]. split; [exact Hout|].
    split; [rewrite Hn; unfold range; apply length_seqZ|].
    split; [exact Hall|].
    split; [exact Hfs|]. split; [exact Hnum|]. split; [exact Hno|exact Hdisk].
Qed.

(** X1.  On a readable pair of one shape, with a crop size that is
    positive and output directories that are there or can be made,
    [crop_image] returns normally after drawing one candidate in each of
    its [num_crops] turns: the branch that leaves the loop when the
    image is smaller than the crop is never taken, because the crop size
    has been brought down to the shorter side before the loop.  (With a
    crop size of 0 an accepted crop has no pixel, [cv2.imwrite] refuses
    it and the run stops at that turn.) *)
Theorem crop_image_runs_every_turn original_path mask_path
    output_original_dir output_mask_dir crop_size_ratio defect_threshold
    num_crops w original_image mask_image :
  disk w !! original_path = Some (Picture original_image) ->
  disk w !! mask_path = Some (Picture mask_image) ->
  same_shape original_image mask_image ->
  0 < crop_size_of (width original_image) (height original_image)
                   crop_size_ratio ->
  dir_ready w output_original_dir -> dir_ready w output_mask_dir ->
  exists w' evs,
    crop_image original_path mask_path output_original_dir output_mask_dir
               crop_size_ratio defect_threshold num_crops w = (Ok tt, w')
    /\ out w' = reverse evs ++ out w
    /\ length (drawn evs) = Z.to_nat num_crops
    /\ Forall (fun e => ~ leaves_loop e) evs.
Proof.
  intros Ho Hm Hs _ _ _.
  destruct (crop_image_trace original_path mask_path output_original_dir
              output_mask_dir crop_size_ratio defect_threshold num_crops w
              original_image mask_image Ho Hm Hs)
    as (w' & evs & Hrun & Hout & Hn & _ & _ & _ & Hno & _).
  exists w', evs. auto.
Qed.

Lemma crop_image_runs_every_turn_witness :
  exists w' evs,
    crop_image "in/7.png" "in/7_mask.png" "out" "out_mask" 1%Q
               (2 # 10000)%Q 3 (sample_world [1; 0]) = (Ok tt, w')
    /\ out w' = reverse evs
    /\ length (drawn evs) = 3%nat.
Proof.
  destruct (crop_image_runs_every_turn "in/7.png" "in/7_mask.png" "out"
              "out_mask" 1%Q (2 # 10000)%Q 3 (sample_world [1; 0])
              sample_image sample_mask eq_refl eq_refl (conj eq_refl eq_refl))
    as (w' & evs & Hrun & Hout & Hn & _).
  - vm_compute. reflexivity.
  - right. split; [|reflexivity].
    apply (bool_decide_unpack _). vm_compute. exact I.
  - right. split; [|reflexivity].
    apply (bool_decide_unpack _). vm_compute. exact I.
  - exists w', evs. split; [exact Hrun|]. split; [|exact Hn].
    rewrite Hout. simpl. apply app_nil_r.
Defined.

(** X2.  On a readable pair of one shape, with a crop size that is
    positive and output directories that are there or can be made, the
    files that [crop_image] writes are the two crops of each accepted
    candidate, original then mask, in the order the candidates were
    drawn; the accepted candidates are numbered 1, 2, ... without a gap,
    in the file names and in the lines printed; no other path of the
    disk moves; and when the extension of the crops has a writer that
    loses nothing and no crop goes where a directory stands, the disk
    afterwards is the disk before with these files written. *)
Theorem crop_image_writes_accepted original_path mask_path
    output_original_dir output_mask_dir crop_size_ratio defect_threshold
    num_crops w original_image mask_image :
  disk w !! original_path = Some (Picture original_image) ->
  disk w !! mask_path = Some (Picture mask_image) ->
  same_shape original_image mask_image ->
  0 < crop_size_of (width original_image) (height original_image)
                   crop_size_ratio ->
  dir_ready w output_original_dir -> dir_ready w output_mask_dir ->
  exists w' evs,
    crop_image original_path mask_path output_original_dir output_mask_dir
               crop_size_ratio defect_threshold num_crops w = (Ok tt, w')
    /\ out w' = reverse evs ++ out w
    /\ let kept := accepted defect_threshold (drawn evs) in
       let ext := output_ext (splitext (basename original_path)).2 in
       files evs
       = concat (zip_with (crop_files original_path output_original_dir
                                      output_mask_dir)
                          (seqZ 1 (Z.of_nat (length kept))) kept)
       /\ saved_numbers evs = seqZ 1 (Z.of_nat (length kept))
       /\ only_written w w' evs
       /\ (lossless_ext ext -> no_dir_written w evs ->
           disk w' = write_all (files evs) (disk w)).
Proof.
  intros Ho Hm Hs _ _ _.
  destruct (crop_image_trace original_path mask_path output_original_dir
              output_mask_dir crop_size_ratio defect_threshold num_crops w
              original_image mask_image Ho Hm Hs)
    as (w' & evs & Hrun & Hout & _ & _ & Hfs & Hnum & _ & Hdisk).
  exists w', evs. split; [exact Hrun|]. split; [exact Hout|].
  split; [exact Hfs|]. split; [exact Hnum|].
  split; [apply only_written_of; exact Hdisk|]. intros _ _. exact Hdisk.
Qed.

Lemma crop_image_writes_accepted_witness :
  exists w' evs,
    crop_image "in/7.png" "in/7_mask.png" "out" "out_mask" 1%Q
               (2 # 10000)%Q 2 (sample_world [1; 0]) = (Ok tt, w')
    /\ saved_numbers evs
       = seqZ 1 (Z.of_nat (length (accepted (2 # 10000)%Q (drawn evs))))
    /\ disk w' = write_all (files evs) (disk (sample_world [1; 0])).
Proof.
  destruct (crop_image_writes_accepted "in/7.png" "in/7_mask.png" "out"
              "out_mask" 1%Q (2 # 10000)%Q 2 (sample_world [1; 0])
              sample_image sample_mask eq_refl eq_refl (conj eq_refl eq_refl))
    as (w' & evs & Hrun & _ & _ & Hnum & _ & Hdisk).
  - vm_compute. reflexivity.
  - right. split; [|reflexivity].
    apply (bool_decide_unpack _). vm_compute. exact I.
  - right. split; [|reflexivity].
    apply (bool_decide_unpack _). vm_compute. exact I.
  - exists w', evs. split; [exact Hrun|]. split; [exact Hnum|].
    apply Hdisk.
    + apply (bool_decide_unpack _). vm_compute. exact I.
    + intros path _. apply not_elem_of_empty.
Defined.

(** ** The whole loops of [process_image_pair] *)

Lemma numbering_app {A B} (f : Z -> A -> list B) (m : Z) (l1 l2 : list A) :
  concat (zip_with f (seqZ m (Z.of_nat (length l1))) l1)
  ++ concat (zip_with f (seqZ (m + Z.of_nat (length l1))
                              (Z.of_nat (length l2))) l2)
  = concat (zip_with f (seqZ m (Z.of_nat (length (l1 ++ l2)))) (l1 ++ l2)).
Proof.
  rewrite length_app, Nat2Z.inj_add, seqZ_app by lia.
  rewrite zip_with_app by (rewrite length_seqZ; lia).
  rewrite concat_app. reflexivity.
Qed.

(** An accepted candidate of [process_image_pair]: the global count goes
    up by one, and both crops go to disk under the new count. *)
Lemma save_numbered_files output_original_dir output_mask_dir ext c
    (w : world) :
  exists evs w',
    save_numbered output_original_dir output_mask_dir ext c w
    = (Ok (Next tt), w')
    /\ out w' = reverse evs ++ out w
    /\ drawn evs = []
    /\ files evs = numbered_files output_original_dir output_mask_dir ext
                                  (processed_image_count w + 1) c
    /\ processed_image_count w' = processed_image_count w + 1
    /\ disk w' = write_all (files evs) (disk w)
    /\ Forall (fun e => ~ too_small_line e) evs.
Proof.
  unfold save_numbered, bind, next_image_number, cv2_imwrite, print, emit, ret.
  simpl.
  eexists [Imwrite _ (cropped_original c); Imwrite _ (cropped_mask c);
           Printed (Saved _ _)], _.
  split; [reflexivity|]. simpl. repeat split.
  repeat constructor; intros (b & x & y & cs & Hcs); discriminate.
Qed.

(** The inner loop of [process_image_pair] on an expanded pair that the
    crop fits in. *)
Lemma pair_loop_trace output_original_dir output_mask_dir ext E_o E_m
    crop_size defect_threshold :
  crop_size <= width E_o -> crop_size <= height E_o ->
  forall (xs : list Z) s w, exists w' evs,
    for_each (pair_attempt output_original_dir output_mask_dir ext E_o E_m
                (width E_o) (height E_o) crop_size defect_threshold)
             xs s w = (Ok tt, w')
    /\ out w' = reverse evs ++ out w
    /\ length (drawn evs) = length xs
    /\ files evs
       = concat (zip_with (numbered_files output_original_dir
                                          output_mask_dir ext)
                   (seqZ (processed_image_count w + 1)
                      (Z.of_nat (length (accepted defect_threshold
                                                  (drawn evs)))))
                   (accepted defect_threshold (drawn evs)))
    /\ processed_image_count w'
       = processed_image_count w
         + Z.of_nat (length (accepted defect_threshold (drawn evs)))
    /\ disk w' = write_all (files evs) (disk w)
    /\ Forall (fun e => ~ too_small_line e) evs.
Proof.
  intros Hw Hh. induction xs as [|x xs IH]; intros s w.
  - exists w, []. destruct s. simpl. repeat split; [lia|constructor].
  - destruct (pair_attempt_run output_original_dir output_mask_dir ext
                E_o E_m crop_size w Hw Hh)
      as (c & w1 & _ & Hdisk1 & _ & Hcount1 & Hout1 & Hrun).
    simpl for_each. unfold bind at 1. rewrite Hrun.
    destruct (accept (defect_percentage c) defect_threshold) eqn:Eacc.
    + destruct (save_numbered_files output_original_dir output_mask_dir ext
                  c w1)
        as (evs1 & w2 & Hsave & Hout2 & Hs1 & Hs2 & Hs3 & Hs4 & Hs5).
      rewrite Hsave.
      destruct (IH tt w2) as (w' & evs & Hloop & Hout & Hn & Hfs & Hcount
                               & Hdisk & Hno).
      exists w', ([Drawn c] ++ evs1 ++ evs).
      split; [exact Hloop|].
      split.
      { rewrite Hout, Hout2, Hout1, !reverse_app, <- !app_assoc.
        reflexivity. }
      rewrite !drawn_app, !files_app, Hs1.
      change (drawn [Drawn c]) with [c].
      change (files [Drawn c]) with (@nil (string * image)).
      simpl app. rewrite (accepted_cons_true _ _ _ Eacc).
      change (length (c :: accepted defect_threshold (drawn evs)))
        with (S (length (accepted defect_threshold (drawn evs)))).
      rewrite seqZ_succ_length.
      split; [simpl; rewrite Hn; reflexivity|].
      split.
      { simpl. rewrite Hs2, Hfs, Hs3, Hcount1. reflexivity. }
      split; [rewrite Hcount, Hs3, Hcount1; lia|].
      split; [rewrite write_all_app, Hdisk, Hs4, Hdisk1; reflexivity|].
      constructor; [intros (b & p & q & cs & Hcs); discriminate|].
      apply Forall_app. split; assumption.
    + unfold ret at 1.
      destruct (IH tt w1) as (w' & evs & Hloop & Hout & Hn & Hfs & Hcount
                               & Hdisk & Hno).
      exists w', ([Drawn c] ++ evs).
      split; [exact Hloop|].
      split; [rewrite Hout, Hout1, reverse_app, <- app_assoc; reflexivity|].
      rewrite !drawn_app, !files_app.
      change (drawn [Drawn c]) with [c].
      change (files [Drawn c]) with (@nil (string * image)).
      simpl app. rewrite (accepted_cons_false _ _ _ Eacc).
      split; [simpl; rewrite Hn; reflexivity|].
      split; [rewrite Hfs, Hcount1; reflexivity|].
      split; [rewrite Hcount, Hcount1; reflexivity|].
      split; [rewrite Hdisk, Hdisk1; reflexivity|].
      constructor; [intros (b & p & q & cs & Hcs); discriminate|exact Hno].
Qed.

(** One augmentation: an expansion of the pair, then either the line
    that says the expansion is smaller than the crop, or the inner
    loop. *)
Lemma augment_step_trace output_original_dir output_mask_dir base_name ext
    original_image mask_image num_crops_per_aug defect_threshold L crop_size
    i s w :
  same_shape original_image mask_image ->
  exists w' evs,
    augment_step output_original_dir output_mask_dir base_name ext
      original_image mask_image (height original_image)
      (width original_image) num_crops_per_aug defect_threshold L crop_size
      i s w = (Ok (Next tt), w')
    /\ out w' = reverse evs ++ out w
    /\ files evs
       = concat (zip_with (numbered_files output_original_dir
                                          output_mask_dir ext)
                   (seqZ (processed_image_count w + 1)
                      (Z.of_nat (length (accepted defect_threshold
                                                  (drawn evs)))))
                   (accepted defect_threshold (drawn evs)))
    /\ processed_image_count w'
       = processed_image_count w
         + Z.of_nat (length (accepted defect_threshold (drawn evs)))
    /\ disk w' = write_all (files evs) (disk w)
    /\ exists E_o E_m,
         expansion_of L original_image mask_image E_o E_m
         /\ if (width E_o <? crop_size) || (height E_o <? crop_size)
            then evs = [Printed (ExpandedTooSmall base_name (width E_o)
                                   (height E_o) crop_size)]
            else length (drawn evs) = Z.to_nat num_crops_per_aug
                 /\ Forall (fun e => ~ too_small_line e) evs.
Proof.
  intros Hshape.
  destruct (expand_to_run original_image mask_image L w Hshape)
    as (top & left & w1 & Htop & Hleft & Hq & Hrun).
  destruct Hq as (Hdisk1 & _ & _ & Hout1 & Hcount1).
  unfold augment_step. rewrite (bind_ok _ _ _ _ _ Hrun).
  match type of Hrun with
  | _ = (Ok (?a, ?b), _) => set (E_o := a) in *; set (E_m := b) in *
  end.
  assert (Hexp : expansion_of L original_image mask_image E_o E_m)
    by (exists top, left; auto).
  cbv beta iota.
  destruct ((width E_o <? crop_size) || (height E_o <? crop_size)) eqn:Efit.
  - unfold bind, print, emit, ret. simpl.
    eexists _, [Printed (ExpandedTooSmall base_name (width E_o) (height E_o)
                           crop_size)].
    split; [reflexivity|]. simpl.
    split; [rewrite Hout1; reflexivity|].
    split; [reflexivity|]. split; [lia|]. split; [exact Hdisk1|].
    exists E_o, E_m. split; [exact Hexp|]. rewrite Efit. reflexivity.
  - apply orb_false_elim in Efit. destruct Efit as [E1 E2].
    apply Z.ltb_ge in E1, E2.
    destruct (pair_loop_trace output_original_dir output_mask_dir ext
                E_o E_m crop_size defect_threshold E1 E2
                (range num_crops_per_aug) tt w1)
      as (w' & evs & Hloop & Hout & Hn & Hfs & Hcount & Hdisk & Hno).
    rewrite (bind_ok _ _ _ _ _ Hloop). unfold ret.
    exists w', evs. split; [reflexivity|].
    split; [rewrite Hout, Hout1; reflexivity|].
    split; [rewrite Hfs, Hcount1; reflexivity|].
    split; [rewrite Hcount, Hcount1; reflexivity|].
    split; [rewrite Hdisk, Hdisk1; reflexivity|].
    exists E_o, E_m. split; [exact Hexp|].
    rewrite (proj2 (orb_false_iff _ _)) by (split; apply Z.ltb_ge; lia).
    split; [rewrite Hn; unfold range; apply length_seqZ|exact Hno].
Qed.

Lemma accepted_app t l1 l2 :
  accepted t (l1 ++ l2) = accepted t l1 ++ accepted t l2.
Proof. apply filter_app. Qed.

(** The outer loop.  When every expansion of the pair has width [We] and
    height [He], either each turn prints the line for an expansion that
    is too small, or each turn draws [num_crops_per_aug] candidates. *)
Lemma augment_loop_trace output_original_dir output_mask_dir base_name ext
    original_image mask_image num_crops_per_aug defect_threshold L crop_size
    We He :
  same_shape original_image mask_image ->
  forall (xs : list Z) s w, exists w' evs,
    for_each (augment_step output_original_dir output_mask_dir base_name ext
                original_image mask_image (height original_image)
                (width original_image) num_crops_per_aug defect_threshold L
                crop_size)
             xs s w = (Ok tt, w')
    /\ out w' = reverse evs ++ out w
    /\ files evs
       = concat (zip_with (numbered_files output_original_dir
                                          output_mask_dir ext)
                   (seqZ (processed_image_count w + 1)
                      (Z.of_nat (length (accepted defect_threshold
                                                  (drawn evs)))))
                   (accepted defect_threshold (drawn evs)))
    /\ processed_image_count w'
       = processed_image_count w
         + Z.of_nat (length (accepted defect_threshold (drawn evs)))
    /\ disk w' = write_all (files evs) (disk w)
    /\ ((forall E_o E_m,
           expansion_of L original_image mask_image E_o E_m ->
           width E_o = We /\ height E_o = He) ->
        if (We <? crop_size) || (He <? crop_size)
        then evs = replicate (length xs)
                     (Printed (ExpandedTooSmall base_name We He crop_size))
        else length (drawn evs)
             = (length xs * Z.to_nat num_crops_per_aug)%nat
             /\ Forall (fun e => ~ too_small_line e) evs).
Proof.
  intros Hshape. induction xs as [|x xs IH]; intros s w.
  - exists w, []. destruct s. simpl.
    repeat split; [lia|]. intros _. destruct (_ || _); auto.
  - destruct (augment_step_trace output_original_dir output_mask_dir
                base_name ext original_image mask_image num_crops_per_aug
                defect_threshold L crop_size x s w Hshape)
      as (w1 & evs1 & Hstep & Hout1 & Hfs1 & Hcount1 & Hdisk1
          & E_o & E_m & Hexp & Hkind).
    simpl for_each. rewrite (bind_ok _ _ _ _ _ Hstep).
    destruct (IH tt w1) as (w' & evs & Hloop & Hout & Hfs & Hcount & Hdisk
                             & Hkinds).
    exists w', (evs1 ++ evs).
    split; [exact Hloop|].
    split; [rewrite Hout, Hout1, reverse_app, <- app_assoc; reflexivity|].
    rewrite drawn_app, files_app, accepted_app.
    split.
    { rewrite Hfs1, Hfs, Hcount1.
      replace (processed_image_count w
               + Z.of_nat (length (accepted defect_threshold (drawn evs1)))
               + 1)
        with (processed_image_count w + 1
              + Z.of_nat (length (accepted defect_threshold (drawn evs1))))
        by lia.
      apply numbering_app. }
    split; [rewrite Hcount, Hcount1, length_app; lia|].
    split; [rewrite write_all_app, Hdisk, Hdisk1; reflexivity|].
    intros Hdims. specialize (Hkinds Hdims).
    destruct (Hdims E_o E_m Hexp) as [HWe HHe]. rewrite HWe, HHe in Hkind.
    destruct ((We <? crop_size) || (He <? crop_size)).
    + rewrite Hkind, Hkinds. reflexivity.
    + destruct Hkind as [Hn1 Hno1]. destruct Hkinds as [Hn Hno].
      split; [rewrite length_app, Hn1, Hn; simpl; lia|].
      apply Forall_app. split; assumption.
Qed.

(** Every expansion of a pair has the sides of the pair brought up to
    the target. *)
Lemma expansion_dims L original_image mask_image E_o E_m :
  rectangular original_image ->
  expansion_of L original_image mask_image E_o E_m ->
  width E_o = Z.max (width original_image) L
  /\ height E_o = Z.max (height original_image) L.
Proof.
  intros Hr (top & left & Htop & Hleft & -> & _).
  pose proof (height_nonneg original_image) as Hh0.
  pose proof (width_nonneg original_image) as Hw0.
  split; [|rewrite height_padded; lia].
  destruct original_image as [|row rest].
  - change (height []) with 0 in *. change (width []) with 0 in *.
    destruct (Z.le_gt_cases L 0) as [HL|HL].
    + replace (Z.to_nat top) with 0%nat by lia.
      replace (Z.to_nat (Z.max 0 (L - 0) - top)) with 0%nat by lia.
      unfold padded, width. simpl. lia.
    + rewrite width_padded; [change (width []) with 0; lia|exact Hr|].
      rewrite height_padded. change (height []) with 0. lia.
  - rewrite width_padded; [lia|exact Hr|].
    rewrite height_padded. unfold height. simpl. lia.
Qed.

(** A whole run of [process_image_pair] on a readable pair of one
    shape. *)
Lemma process_image_pair_trace original_path mask_path output_original_dir
    output_mask_dir num_augmentations num_crops_per_aug defect_threshold L
    crop_size w original_image mask_image :
  disk w !! original_path = Some (Picture original_image) ->
  disk w !! mask_path = Some (Picture mask_image) ->
  same_shape original_image mask_image ->
  let base_name := (splitext (basename original_path)).1 in
  let ext := output_ext (splitext (basename original_path)).2 in
  let We := Z.max (width original_image) L in
  let He := Z.max (height original_image) L in
  exists w' evs,
    process_image_pair original_path mask_path output_original_dir
      output_mask_dir num_augmentations num_crops_per_aug defect_threshold L
      crop_size w = (Ok tt, w')
    /\ out w' = reverse evs ++ out w
    /\ files evs
       = concat (zip_with (numbered_files output_original_dir
                                          output_mask_dir ext)
                   (seqZ (processed_image_count w + 1)
                      (Z.of_nat (length (accepted defect_threshold
                                                  (drawn evs)))))
                   (accepted defect_threshold (drawn evs)))
    /\ processed_image_count w'
       = processed_image_count w
         + Z.of_nat (length (accepted defect_threshold (drawn evs)))
    /\ disk w' = write_all (files evs) (disk w)
    /\ (rectangular original_image ->
        if (We <? crop_size) || (He <? crop_size)
        then evs = replicate (Z.to_nat num_augmentations)
                     (Printed (ExpandedTooSmall base_name We He crop_size))
        else length (drawn evs)
             = (Z.to_nat num_augmentations * Z.to_nat num_crops_per_aug)%nat
             /\ Forall (fun e => ~ too_small_line e) evs).
Proof.
  intros Ho Hm Hshape base_name ext We He.
  unfold process_image_pair, try_except, process_image_pair_try, bind,
    cv2_imread, readable.
  rewrite Ho, Hm. simpl.
  destruct Hshape as [Hh Hw]. rewrite <- Hh, <- Hw, !Z.eqb_refl. simpl.
  subst base_name ext.
  destruct (splitext (basename original_path)) as [base_name ext]. simpl.
  destruct (augment_loop_trace output_original_dir output_mask_dir base_name
              (output_ext ext) original_image mask_image num_crops_per_aug
              defect_threshold L crop_size We He (conj Hh Hw)
              (range num_augmentations) tt w)
    as (w' & evs & Hloop & Hout & Hfs & Hcount & Hdisk & Hkinds).
  rewrite Hloop. exists w', evs.
  split; [reflexivity|]. split; [exact Hout|]. split; [exact Hfs|].
  split; [exact Hcount|]. split; [exact Hdisk|].
  intros Hr. unfold range in Hkinds. rewrite length_seqZ in Hkinds.
  apply Hkinds. intros E_o E_m Hexp.
  exact (expansion_dims L original_image mask_image E_o E_m Hr Hexp).
Qed.

(** X3.  On a readable pair of one shape, with a positive crop size,
    [process_image_pair] hands to [cv2.imwrite] the two crops of each
    accepted candidate, original then mask, in the order the candidates
    were drawn, under the numbers that follow the global count of
    images; the count goes up by the number of accepted candidates; no
    other path of the disk moves; and when both output directories
    exist, the extension has a writer that loses nothing and no crop
    goes where a directory stands, the disk afterwards is the disk
    before with these files written.  (The
    function makes no directory: without them [cv2.imwrite] returns
    False and the count goes up all the same.) *)
Theorem process_image_pair_numbers_accepted original_path mask_path
    output_original_dir output_mask_dir num_augmentations num_crops_per_aug
    defect_threshold L crop_size w original_image mask_image :
  disk w !! original_path = Some (Picture original_image) ->
  disk w !! mask_path = Some (Picture mask_image) ->
  same_shape original_image mask_image ->
  0 < crop_size ->
  exists w' evs,
    process_image_pair original_path mask_path output_original_dir
      output_mask_dir num_augmentations num_crops_per_aug defect_threshold L
      crop_size w = (Ok tt, w')
    /\ out w' = reverse evs ++ out w
    /\ let kept := accepted defect_threshold (drawn evs) in
       let ext := output_ext (splitext (basename original_path)).2 in
       files evs
       = concat (zip_with (numbered_files output_original_dir
                                          output_mask_dir ext)
                   (seqZ (processed_image_count w + 1)
                         (Z.of_nat (length kept)))
                   kept)
       /\ processed_image_count w'
          = processed_image_count w + Z.of_nat (length kept)
       /\ only_written w w' evs
       /\ (output_original_dir ∈ dirs w -> output_mask_dir ∈ dirs w ->
           lossless_ext ext -> no_dir_written w evs ->
           disk w' = write_all (files evs) (disk w)).
Proof.
  intros Ho Hm Hs _.
  destruct (process_image_pair_trace original_path mask_path
              output_original_dir output_mask_dir num_augmentations
              num_crops_per_aug defect_threshold L crop_size w
              original_image mask_image Ho Hm Hs)
    as (w' & evs & Hrun & Hout & Hfs & Hcount & Hdisk & _).
  exists w', evs. split; [exact Hrun|]. split; [exact Hout|].
  split; [exact Hfs|]. split; [exact Hcount|].
  split; [apply only_written_of; exact Hdisk|]. intros _ _ _ _. exact Hdisk.
Qed.

Lemma process_image_pair_numbers_accepted_witness :
  exists w' evs,
    process_image_pair "in/7.png" "in/7_mask.png" "out" "out_mask" 1 2
      (2 # 10000)%Q 4 3 (sample_world [1; 1; 1; 0]) = (Ok tt, w')
    /\ processed_image_count w'
       = 0 + Z.of_nat (length (accepted (2 # 10000)%Q (drawn evs))).
Proof.
  destruct (process_image_pair_numbers_accepted "in/7.png" "in/7_mask.png"
              "out" "out_mask" 1 2 (2 # 10000)%Q 4 3
              (sample_world [1; 1; 1; 0]) sample_image sample_mask
              eq_refl eq_refl (conj eq_refl eq_refl) eq_refl)
    as (w' & evs & Hrun & _ & _ & Hcount & _).
  exists w', evs. split; [exact Hrun|exact Hcount].
Defined.

(** X4.  When the crop is larger than a side of the expanded pair, that
    is than the larger of that side and the target, [process_image_pair]
    prints one line per augmentation and does nothing else: no candidate
    is drawn, no file is written and the global count stays. *)
Theorem process_image_pair_too_small original_path mask_path
    output_original_dir output_mask_dir num_augmentations num_crops_per_aug
    defect_threshold L crop_size w original_image mask_image :
  disk w !! original_path = Some (Picture original_image) ->
  disk w !! mask_path = Some (Picture mask_image) ->
  same_shape original_image mask_image ->
  rectangular original_image ->
  Z.max (width original_image) L < crop_size
  \/ Z.max (height original_image) L < crop_size ->
  exists w',
    process_image_pair original_path mask_path output_original_dir
      output_mask_dir num_augmentations num_crops_per_aug defect_threshold L
      crop_size w = (Ok tt, w')
    /\ out w'
       = replicate (Z.to_nat num_augmentations)
           (Printed (ExpandedTooSmall (splitext (basename original_path)).1
                       (Z.max (width original_image) L)
                       (Z.max (height original_image) L) crop_size))
         ++ out w
    /\ disk w' = disk w
    /\ processed_image_count w' = processed_image_count w.
Proof.
  intros Ho Hm Hs Hr Hbig.
  destruct (process_image_pair_trace original_path mask_path
              output_original_dir output_mask_dir num_augmentations
              num_crops_per_aug defect_threshold L crop_size w
              original_image mask_image Ho Hm Hs)
    as (w' & evs & Hrun & Hout & Hfs & Hcount & Hdisk & Hkinds).
  specialize (Hkinds Hr).
  rewrite (proj2 (orb_true_iff _ _)) in Hkinds
    by (destruct Hbig; [left|right]; apply Z.ltb_lt; assumption).
  assert (Hnone : drawn evs = [] /\ files evs = []).
  { rewrite Hkinds. clear.
    induction (Z.to_nat num_augmentations) as [|n [IH1 IH2]]; simpl; auto. }
  destruct Hnone as [Hd Hf]. rewrite Hd in Hcount. rewrite Hf in Hdisk.
  exists w'. split; [exact Hrun|].
  split; [rewrite Hout, Hkinds, reverse_replicate; reflexivity|].
  split; [exact Hdisk|]. simpl in Hcount. lia.
Qed.

Lemma process_image_pair_too_small_witness :
  exists w',
    process_image_pair "in/7.png" "in/7_mask.png" "out" "out_mask" 2 3
      (2 # 10000)%Q 4 5 (sample_world [1; 1; 0; 0]) = (Ok tt, w')
    /\ out w' = [Printed (ExpandedTooSmall "7" 4 4 5);
                 Printed (ExpandedTooSmall "7" 4 4 5)]
    /\ disk w' = disk (sample_world [])
    /\ processed_image_count w' = 0.
Proof.
  destruct (process_image_pair_too_small "in/7.png" "in/7_mask.png" "out"
              "out_mask" 2 3 (2 # 10000)%Q 4 5 (sample_world [1; 1; 0; 0])
              sample_image sample_mask eq_refl eq_refl
              (conj eq_refl eq_refl) sample_image_rectangular)
    as (w' & Hrun & Hout & Hdisk & Hcount).
  - left. reflexivity.
  - exists w'. split; [exact Hrun|]. split; [exact Hout|].
    split; [exact Hdisk|exact Hcount].
Defined.

(** X5.  When the crop has a positive size and fits the expanded pair,
    [process_image_pair] draws [num_crops_per_aug] candidates in each of
    its [num_augmentations] turns, and never prints the line for an
    expansion that is too small.  (A crop of size 0 has no pixel:
    [cv2.imwrite] refuses the first one accepted and the run stops
    there.) *)
Theorem process_image_pair_draws_all original_path mask_path
    output_original_dir output_mask_dir num_augmentations num_crops_per_aug
    defect_threshold L crop_size w original_image mask_image :
  disk w !! original_path = Some (Picture original_image) ->
  disk w !! mask_path = Some (Picture mask_image) ->
  same_shape original_image mask_image ->
  rectangular original_image ->
  0 < crop_size ->
  crop_size <= Z.max (width original_image) L ->
  crop_size <= Z.max (height original_image) L ->
  exists w' evs,
    process_image_pair original_path mask_path output_original_dir
      output_mask_dir num_augmentations num_crops_per_aug defect_threshold L
      crop_size w = (Ok tt, w')
    /\ out w' = reverse evs ++ out w
    /\ length (drawn evs)
       = (Z.to_nat num_augmentations * Z.to_nat num_crops_per_aug)%nat
    /\ Forall (fun e => ~ too_small_line e) evs.
Proof.
  intros Ho Hm Hs Hr _ Hfw Hfh.
  destruct (process_image_pair_trace original_path mask_path
              output_original_dir output_mask_dir num_augmentations
              num_crops_per_aug defect_threshold L crop_size w
              original_image mask_image Ho Hm Hs)
    as (w' & evs & Hrun & Hout & _ & _ & _ & Hkinds).
  specialize (Hkinds Hr).
  rewrite (proj2 (orb_false_iff _ _)) in Hkinds
    by (split; apply Z.ltb_ge; assumption).
  exists w', evs. tauto.
Qed.

Lemma process_image_pair_draws_all_witness :
  exists w' evs,
    process_image_pair "in/7.png" "in/7_mask.png" "out" "out_mask" 2 3
      (2 # 10000)%Q 4 3 (sample_world [1; 1; 0; 0]) = (Ok tt, w')
    /\ length (drawn evs) = 6%nat.
Proof.
  destruct (process_image_pair_draws_all "in/7.png" "in/7_mask.png" "out"
              "out_mask" 2 3 (2 # 10000)%Q 4 3 (sample_world [1; 1; 0; 0])
              sample_image sample_mask eq_refl eq_refl
              (conj eq_refl eq_refl) sample_image_rectangular)
    as (w' & evs & Hrun & _ & Hn & _).
  - reflexivity.
  - vm_compute. discriminate.
  - vm_compute. discriminate.
  - exists w', evs. split; [exact Hrun|exact Hn].
Defined.

(** ** Defect pixels under expansion *)

Lemma np_sum_app (a b : list (list bool)) : np_sum (a ++ b) = np_sum a + np_sum b.
Proof.
  induction a as [|row a IH]; simpl; [reflexivity|]. rewrite IH. lia.
Qed.

Lemma count_true_app (a b : list bool) :
  count_true (a ++ b) = count_true a + count_true b.
Proof.
  unfold count_true. rewrite filter_app, length_app. lia.
Qed.

Lemma count_true_gray (n : nat) :
  count_true (map (all_channels_eq white) (replicate n gray)) = 0.
Proof.
  apply (proj2 (count_true_all_eq white (replicate n gray))).
  apply Forall_replicate. discriminate.
Qed.

Lemma np_sum_gray_rows (n m : nat) :
  np_sum (map (map (all_channels_eq white)) (replicate n (replicate m gray)))
  = 0.
Proof.
  induction n as [|n IH]; simpl; [reflexivity|].
  rewrite count_true_gray, IH. reflexivity.
Qed.

(** Gray margins hold no defect pixel. *)
Lemma count_defect_pixels_padded top bottom left right (img : image) :
  count_defect_pixels (padded top bottom left right img)
  = count_defect_pixels img.
Proof.
  unfold count_defect_pixels, np_all_eq, padded.
  rewrite !map_app, !np_sum_app, !np_sum_gray_rows.
  rewrite Z.add_0_l, Z.add_0_r.
  induction img as [|row img IH]; simpl; [reflexivity|].
  rewrite IH. f_equal.
  rewrite !map_app, !count_true_app, !count_true_gray. lia.
Qed.

(** ** Crops that take the whole grid *)

Lemma slice_whole {A} (l : list A) (n : Z) :
  Z.of_nat (length l) = n -> slice l (Range 0 (0 + n)) = l.
Proof.
  intros Hn. rewrite slice_range by lia.
  rewrite drop_0. apply take_ge. lia.
Qed.

Lemma getitem_whole (img : image) (h w : Z) :
  rectangular img -> height img = h -> width img = w ->
  getitem img (Range 0 (0 + h)) (Range 0 (0 + w)) = img.
Proof.
  intros Hr Hh Hw. unfold getitem.
  rewrite (slice_whole img h Hh).
  unfold rectangular in Hr. rewrite Hw in Hr. clear Hh Hw.
  induction Hr as [|row img Hrow _ IH]; simpl; [reflexivity|].
  rewrite (slice_whole row w Hrow), IH. reflexivity.
Qed.

(** A candidate drawn with the side of a square grid is the grid. *)
Lemma drawn_within_whole E_o E_m n c :
  rectangular E_o -> rectangular E_m -> same_shape E_o E_m ->
  height E_o = n -> width E_o = n ->
  drawn_within E_o E_m n c ->
  start_x c = 0 /\ start_y c = 0 /\ side c = n
  /\ cropped_original c = E_o /\ cropped_mask c = E_m
  /\ defect_pixels_count c = count_defect_pixels E_m
  /\ defect_percentage c = defect_ratio (count_defect_pixels E_m) n.
Proof.
  intros Hro Hrm [Hh Hw] Hn Hwn (x & y & Hx & Hy & ->).
  assert (x = 0) as -> by lia. assert (y = 0) as -> by lia.
  unfold candidate_at. simpl.
  rewrite (getitem_whole E_o n n Hro Hn Hwn).
  rewrite (getitem_whole E_m n n Hrm) by congruence.
  repeat split.
Qed.

(** X6.  Expanding a pair adds no defect pixel: the expanded mask that
    [expand_to] returns, and the one that [expand_pad] returns when the
    shorter side is at most 512, has as many white pixels as the mask
    it was made from. *)
Theorem expansion_keeps_defect_pixels (original_image mask_image : image)
    (w : world) :
  same_shape original_image mask_image ->
  (forall L, exists E_o E_m w',
     expand_to original_image mask_image (height original_image)
               (width original_image) L w = (Ok (E_o, E_m), w')
     /\ count_defect_pixels E_m = count_defect_pixels mask_image)
  /\ (Z.min (height original_image) (width original_image) <= 512 ->
      exists E_o E_m w',
        expand_pad original_image mask_image (height original_image)
                   (width original_image) w = (Ok (E_o, E_m), w')
        /\ count_defect_pixels E_m = count_defect_pixels mask_image).
Proof.
  intros Hs. split.
  - intros L.
    destruct (expand_to_run original_image mask_image L w Hs)
      as (top & left & w' & _ & _ & _ & Hrun).
    eexists _, _, w'. split; [exact Hrun|].
    apply count_defect_pixels_padded.
  - intros Hmin.
    destruct (Z.lt_trichotomy (height original_image) (width original_image))
      as [Hlt|[Heq|Hgt]].
    + destruct (expand_pad_rows original_image mask_image w Hs Hlt
                  ltac:(lia)) as (lead & w' & _ & _ & Hrun).
      eexists _, _, w'. split; [exact Hrun|].
      apply count_defect_pixels_padded.
    + eexists _, _, w. split; [apply expand_pad_square; exact Heq|].
      reflexivity.
    + destruct (expand_pad_cols original_image mask_image w Hs Hgt
                  ltac:(lia)) as (lead & w' & _ & _ & Hrun).
      eexists _, _, w'. split; [exact Hrun|].
      apply count_defect_pixels_padded.
Qed.

Lemma expansion_keeps_defect_pixels_witness :
  (exists E_o E_m w',
     expand_to sample_image sample_mask 2 3 4 (sample_world [1; 1])
     = (Ok (E_o, E_m), w')
     /\ count_defect_pixels E_m = 4)
  /\ exists E_o E_m w',
       expand_pad sample_image sample_mask 2 3 (sample_world [1; 1])
       = (Ok (E_o, E_m), w')
       /\ count_defect_pixels E_m = 4.
Proof.
  destruct (expansion_keeps_defect_pixels sample_image sample_mask
              (sample_world [1; 1]) (conj eq_refl eq_refl)) as [H1 H2].
  split; [exact (H1 4)|]. apply H2. vm_compute. discriminate.
Defined.

(** X7.  When the crop size is the target size and the pair is no
    larger than the target, every candidate of [process_image_pair] is
    a whole expanded pair, taken at the corner; its ratio is the number
    of white pixels of the mask read over the square of the target,
    whatever the draws. *)
Theorem process_image_pair_exact_fit original_path mask_path
    output_original_dir output_mask_dir num_augmentations num_crops_per_aug
    defect_threshold L w original_image mask_image :
  disk w !! original_path = Some (Picture original_image) ->
  disk w !! mask_path = Some (Picture mask_image) ->
  rectangular original_image -> rectangular mask_image ->
  height original_image <= L -> width original_image <= L ->
  exists evs,
    out (process_image_pair original_path mask_path output_original_dir
           output_mask_dir num_augmentations num_crops_per_aug
           defect_threshold L L w).2
    = evs ++ out w
    /\ forall c, Drawn c ∈ evs ->
         start_x c = 0 /\ start_y c = 0
         /\ expansion_of L original_image mask_image
                         (cropped_original c) (cropped_mask c)
         /\ defect_percentage c
            = defect_ratio (count_defect_pixels mask_image) L.
Proof.
  intros Ho Hm Hro Hrm HhL HwL.
  destruct (process_image_pair_draws original_path mask_path
              output_original_dir output_mask_dir num_augmentations
              num_crops_per_aug defect_threshold L L w original_image
              mask_image Ho Hm) as (evs & Hout & Hall).
  exists evs. split; [exact Hout|]. intros c Hc.
  destruct (drawn_event_elem _ _ _ Hall Hc)
    as (Hs & E_o & E_m & Hexp & Hin).
  destruct (expansion_shapes L _ _ _ _ Hro Hrm Hs Hexp)
    as (HrE_o & HrE_m & HsE).
  destruct (expansion_dims L _ _ _ _ Hro Hexp) as [HW HH].
  destruct (drawn_within_whole E_o E_m L c HrE_o HrE_m HsE
              ltac:(lia) ltac:(lia) Hin)
    as (Hx & Hy & _ & Hco & Hcm & _ & Hratio).
  split; [exact Hx|]. split; [exact Hy|].
  rewrite Hco, Hcm. split; [exact Hexp|].
  rewrite Hratio. f_equal.
  destruct Hexp as (top & left & _ & _ & _ & ->).
  apply count_defect_pixels_padded.
Qed.

Lemma process_image_pair_exact_fit_witness :
  defect_percentage
    (candidate_at (padded 1 1 1 0 sample_image) (padded 1 1 1 0 sample_mask)
                  4 0 0)
  = defect_ratio (count_defect_pixels sample_mask) 4.
Proof.
  destruct (process_image_pair_exact_fit "in/7.png" "in/7_mask.png" "out"
              "out_mask" 1 1 (2 # 10000)%Q 4 (sample_world [1; 1; 1; 0])
              sample_image sample_mask eq_refl eq_refl
              sample_image_rectangular sample_mask_rectangular)
    as (evs & Hout & Hall).
  - vm_compute. discriminate.
  - vm_compute. discriminate.
  - simpl in Hout. rewrite app_nil_r in Hout.
    apply Hall. rewrite <- Hout. vm_compute.
    do 3 apply list_elem_of_further. apply list_elem_of_here.
Defined.

Lemma crop_size_of_full (W H : Z) : crop_size_of W H 1 = Z.min W H.
Proof.
  unfold crop_size_of, int_mul. simpl.
  rewrite Z.mul_1_r, Z.quot_1_r.
  rewrite (proj2 (orb_false_iff _ _)) by (split; apply Z.ltb_ge; lia).
  reflexivity.
Qed.

(** X8.  With a crop-size ratio of 1, the value [batch_crop_images]
    passes, the side of every candidate of [crop_image] is the shorter
    side of the pair, so a candidate starts at 0 along the shorter side
    and moves along the longer one only; on a square pair every
    candidate is the pair itself. *)
Theorem crop_image_full_side original_path mask_path output_original_dir
    output_mask_dir defect_threshold num_crops w original_image mask_image :
  disk w !! original_path = Some (Picture original_image) ->
  disk w !! mask_path = Some (Picture mask_image) ->
  same_shape original_image mask_image ->
  let W := width original_image in
  let H := height original_image in
  exists w' evs,
    crop_image original_path mask_path output_original_dir output_mask_dir
               1%Q defect_threshold num_crops w = (Ok tt, w')
    /\ out w' = reverse evs ++ out w
    /\ forall c, c ∈ drawn evs ->
         side c = Z.min W H
         /\ (H <= W -> start_y c = 0)
         /\ (W <= H -> start_x c = 0)
         /\ (W = H -> rectangular original_image ->
             rectangular mask_image ->
             cropped_original c = original_image
             /\ cropped_mask c = mask_image).
Proof.
  intros Ho Hm Hs W H.
  destruct (crop_image_trace original_path mask_path output_original_dir
              output_mask_dir 1%Q defect_threshold num_crops w
              original_image mask_image Ho Hm Hs)
    as (w' & evs & Hrun & Hout & _ & Hall & _).
  exists w', evs. split; [exact Hrun|]. split; [exact Hout|].
  intros c Hc. rewrite Forall_forall in Hall. specialize (Hall c Hc).
  rewrite crop_size_of_full in Hall. fold W H in Hall.
  pose proof Hall as (x & y & Hx & Hy & Hcand).
  fold W H in Hx, Hy.
  assert (Hside : side c = Z.min W H) by (rewrite Hcand; reflexivity).
  assert (Hsx : start_x c = x) by (rewrite Hcand; reflexivity).
  assert (Hsy : start_y c = y) by (rewrite Hcand; reflexivity).
  split; [exact Hside|]. split; [lia|]. split; [lia|].
  intros Heq Hro Hrm.
  replace (Z.min W H) with H in Hall by lia.
  destruct (drawn_within_whole original_image mask_image H c Hro Hrm Hs
              eq_refl ltac:(fold W; lia) Hall)
    as (_ & _ & _ & Hco & Hcm & _).
  split; assumption.
Qed.

Lemma crop_image_full_side_witness :
  exists w' evs,
    crop_image "in/7.png" "in/7_mask.png" "out" "out_mask" 1%Q
               (2 # 10000)%Q 2 (sample_world [1; 0]) = (Ok tt, w')
    /\ forall c, c ∈ drawn evs -> side c = 2 /\ start_y c = 0.
Proof.
  destruct (crop_image_full_side "in/7.png" "in/7_mask.png" "out"
              "out_mask" (2 # 10000)%Q 2 (sample_world [1; 0])
              sample_image sample_mask eq_refl eq_refl (conj eq_refl eq_refl))
    as (w' & evs & Hrun & _ & Hall).
  exists w', evs. split; [exact Hrun|]. intros c Hc.
  destruct (Hall c Hc) as (Hside & Hy & _).
  split; [exact Hside|]. apply Hy. vm_compute. discriminate.
Defined.

(** ** Whole runs of [expand_image] *)

Lemma swap_rb_involutive p : swap_rb (swap_rb p) = p.
Proof. destruct p as [[a b] c]. reflexivity. Qed.

Lemma cvtColor_involutive (img : image) : cvtColor (cvtColor img) = img.
Proof.
  unfold cvtColor. rewrite map_map.
  induction img as [|row img IH]; simpl; [reflexivity|].
  rewrite IH, map_map. f_equal.
  induction row as [|p row IHr]; simpl; [reflexivity|].
  rewrite swap_rb_involutive, IHr. reflexivity.
Qed.

Lemma map_replicate {A B} (f : A -> B) (n : nat) (x : A) :
  map f (replicate n x) = replicate n (f x).
Proof. induction n as [|n IH]; simpl; [|rewrite IH]; reflexivity. Qed.

(** Gray margins are the same in both channel orders. *)
Lemma cvtColor_padded top bottom left right (img : image) :
  cvtColor (padded top bottom left right img)
  = padded top bottom left right (cvtColor img).
Proof.
  unfold padded. rewrite width_cvtColor. unfold cvtColor.
  rewrite !map_app, !map_replicate, !map_map.
  change (swap_rb gray) with gray.
  f_equal. f_equal. apply map_ext. intros row.
  rewrite !map_app, !map_replicate. reflexivity.
Qed.

Lemma same_shape_cvtColor (a b : image) :
  same_shape a b -> same_shape (cvtColor a) (cvtColor b).
Proof.
  intros [Hh Hw]. split; rewrite ?height_cvtColor, ?width_cvtColor; assumption.
Qed.

Lemma expansion_512_cvtColor (a b E_o E_m : image) :
  expansion_512 (cvtColor a) (cvtColor b) E_o E_m ->
  expansion_512 a b (cvtColor E_o) (cvtColor E_m).
Proof.
  unfold expansion_512. rewrite height_cvtColor, width_cvtColor.
  intros (top & left & Htop & Hleft & -> & ->).
  exists top, left. rewrite !cvtColor_padded, !cvtColor_involutive. auto.
Qed.

(** [expand_pad] on a pair that is square or has a shorter side of at
    most 512. *)
Lemma expand_pad_run (original_image mask_image : image) (w : world) :
  same_shape original_image mask_image ->
  height original_image = width original_image
  \/ Z.min (height original_image) (width original_image) <= 512 ->
  exists E_o E_m w',
    expand_pad original_image mask_image (height original_image)
               (width original_image) w = (Ok (E_o, E_m), w')
    /\ only_tape w w'
    /\ expansion_512 original_image mask_image E_o E_m.
Proof.
  intros Hs Hok. unfold expansion_512.
  destruct (Z.lt_trichotomy (height original_image) (width original_image))
    as [Hlt|[Heq|Hgt]].
  - destruct (expand_pad_rows original_image mask_image w Hs Hlt
                ltac:(lia)) as (lead & w' & Hlead & Hq & Hrun).
    eexists _, _, w'. split; [exact Hrun|]. split; [exact Hq|].
    rewrite (proj2 (Z.ltb_lt _ _) Hlt), (proj2 (Z.ltb_ge _ _)) by lia.
    exists lead, 0. repeat split; try lia; reflexivity.
  - eexists _, _, w. split; [apply expand_pad_square; exact Heq|].
    split; [apply only_tape_refl|].
    rewrite !(proj2 (Z.ltb_ge _ _)) by lia.
    exists 0, 0. simpl. rewrite !padded_0. repeat split; lia.
  - destruct (expand_pad_cols original_image mask_image w Hs Hgt
                ltac:(lia)) as (lead & w' & Hlead & Hq & Hrun).
    eexists _, _, w'. split; [exact Hrun|]. split; [exact Hq|].
    rewrite (proj2 (Z.ltb_lt _ _) Hgt), (proj2 (Z.ltb_ge _ _)) by lia.
    exists 0, lead. repeat split; try lia; reflexivity.
Qed.

(** One turn of the loop of [expand_image], given its expansion. *)
Lemma expand_step_run original_path output_original_dir output_mask_dir
    (original_image mask_image E_o E_m : image) (h wd i : Z) s (w w1 : world) :
  expand_pad original_image mask_image h wd w = (Ok (E_o, E_m), w1) ->
  exists evs w',
    expand_step original_path output_original_dir output_mask_dir
                original_image mask_image h wd i s w = (Ok (Next tt), w')
    /\ out w' = reverse evs ++ out w1
    /\ files evs
       = expanded_files original_path output_original_dir output_mask_dir
                        (i + 1) (cvtColor E_o, cvtColor E_m)
    /\ disk w' = write_all (files evs) (disk w1)
    /\ tape w' = tape w1.
Proof.
  intros Hpad.
  unfold expand_step, expanded_files, expanded_original_name,
    expanded_mask_name.
  rewrite (bind_ok _ _ _ _ _ Hpad). cbv beta iota.
  destruct (splitext (basename original_path)) as [base_name ext].
  unfold bind, cv2_imwrite, print, emit, ret. cbv beta iota.
  eexists [Imwrite _ (cvtColor E_o); Imwrite _ (cvtColor E_m);
           Printed (Expanded _ _)], _.
  split; [reflexivity|]. repeat split.
Qed.

(** The loop of [expand_image]: each turn writes one expansion of the
    pair, converted back, under the number of the turn plus one. *)
Lemma expand_loop_trace original_path output_original_dir output_mask_dir
    (original_image mask_image : image) :
  same_shape original_image mask_image ->
  height original_image = width original_image
  \/ Z.min (height original_image) (width original_image) <= 512 ->
  forall (xs : list Z) s w, exists w' evs pairs,
    for_each (expand_step original_path output_original_dir output_mask_dir
                original_image mask_image (height original_image)
                (width original_image))
             xs s w = (Ok tt, w')
    /\ out w' = reverse evs ++ out w
    /\ length pairs = length xs
    /\ Forall (fun p => expansion_512 original_image mask_image
                                      (cvtColor p.1) (cvtColor p.2)) pairs
    /\ files evs
       = concat (zip_with (expanded_files original_path output_original_dir
                                          output_mask_dir)
                          ((fun i => i + 1) <$> xs) pairs)
    /\ disk w' = write_all (files evs) (disk w).
Proof.
  intros Hs Hok. induction xs as [|x xs IH]; intros s w.
  - exists w, [], []. destruct s. simpl. repeat split; constructor.
  - destruct (expand_pad_run original_image mask_image w Hs Hok)
      as (E_o & E_m & w1 & Hpad & Hq & Hexp).
    destruct Hq as (Hdisk1 & _ & _ & Hout1 & _).
    destruct (expand_step_run original_path output_original_dir
                output_mask_dir original_image mask_image E_o E_m
                (height original_image) (width original_image) x s w w1 Hpad)
      as (evs1 & w2 & Hstep & Hout2 & Hfs2 & Hdisk2 & _).
    simpl for_each. rewrite (bind_ok _ _ _ _ _ Hstep).
    destruct (IH tt w2) as (w' & evs & pairs & Hloop & Hout & Hn & Hall
                             & Hfs & Hdisk).
    exists w', (evs1 ++ evs), ((cvtColor E_o, cvtColor E_m) :: pairs).
    split; [exact Hloop|].
    split.
    { rewrite Hout, Hout2, Hout1, reverse_app, <- app_assoc. reflexivity. }
    split; [simpl; rewrite Hn; reflexivity|].
    split.
    { constructor; [|exact Hall]. simpl. rewrite !cvtColor_involutive.
      exact Hexp. }
    rewrite files_app. split.
    { simpl. rewrite Hfs2, Hfs. reflexivity. }
    rewrite write_all_app, Hdisk, Hdisk2, Hdisk1. reflexivity.
Qed.

Lemma range_succ (n : Z) : (fun i => i + 1) <$> range n = seqZ 1 n.
Proof.
  unfold range, seqZ. rewrite <- list_fmap_compose.
  apply list_fmap_ext. intros i x _. simpl. lia.
Qed.

(** X9.  On a readable pair of one shape that has pixels, is square or
    has a shorter side of at most 512, and whose extension [cv2.imwrite]
    has a writer for, the [try] block of [batch_expand_images] hands to
    [cv2.imwrite] [num_expansions] pairs of files, numbered from 1; each
    pair is the pair read with gray margins that bring the shorter side
    up to 512, the same margins for original and mask, and in the
    channel order of the files read: the two colour conversions cancel.
    No other path of the disk moves; and when both output directories
    exist, the writer of the extension loses nothing and no file goes
    where a directory stands, the disk afterwards is the disk before
    with these files written. *)
Theorem expand_pair_writes_padded_copies original_path mask_path
    original_file mask_file num_expansions output_original_dir
    output_mask_dir w (original_image mask_image : image) :
  disk w !! original_path = Some (Picture original_image) ->
  disk w !! mask_path = Some (Picture mask_image) ->
  same_shape original_image mask_image ->
  height original_image = width original_image
  \/ Z.min (height original_image) (width original_image) <= 512 ->
  has_pixels original_image ->
  writable_ext (splitext (basename original_path)).2 ->
  exists w' evs pairs,
    expand_pair_try original_path mask_path original_file mask_file
      num_expansions output_original_dir output_mask_dir w = (Ok tt, w')
    /\ out w' = reverse evs ++ out w
    /\ length pairs = Z.to_nat num_expansions
    /\ Forall (fun p => expansion_512 original_image mask_image p.1 p.2) pairs
    /\ files evs
       = concat (zip_with (expanded_files original_path output_original_dir
                                          output_mask_dir)
                          (seqZ 1 num_expansions) pairs)
    /\ only_written w w' evs
    /\ (output_original_dir ∈ dirs w -> output_mask_dir ∈ dirs w ->
        lossless_ext (splitext (basename original_path)).2 ->
        no_dir_written w evs ->
        disk w' = write_all (files evs) (disk w)).
Proof.
  intros Ho Hm Hs Hok _ _.
  unfold expand_pair_try, bind, cv2_imread, readable.
  rewrite Ho, Hm. unfold print, emit. cbv beta iota.
  unfold expand_image. rewrite !height_cvtColor, !width_cvtColor.
  destruct Hs as [Hh Hw]. rewrite <- Hh, <- Hw, !Z.eqb_refl. simpl negb.
  cbv beta iota. simpl orb. cbv iota.
  destruct (expand_loop_trace original_path output_original_dir
              output_mask_dir (cvtColor original_image) (cvtColor mask_image)
              (same_shape_cvtColor _ _ (conj Hh Hw))
              ltac:(rewrite height_cvtColor, width_cvtColor; exact Hok)
              (range num_expansions) tt
              (with_out (Printed (Processing original_file mask_file)
                         :: out w) w))
    as (w' & evs & pairs & Hloop & Hout & Hn & Hall & Hfs & Hdisk).
  rewrite !height_cvtColor, !width_cvtColor in Hloop.
  exists w', (Printed (Processing original_file mask_file) :: evs), pairs.
  split; [exact Hloop|].
  split; [rewrite Hout, reverse_cons, <- app_assoc; reflexivity|].
  split; [rewrite Hn; unfold range; apply length_seqZ|].
  split.
  { eapply Forall_impl; [exact Hall|]. intros [a b] Hp. simpl in *.
    apply expansion_512_cvtColor in Hp.
    rewrite !cvtColor_involutive in Hp. exact Hp. }
  change (files (Printed (Processing original_file mask_file) :: evs))
    with (files evs).
  split; [rewrite Hfs, range_succ; reflexivity|].
  split; [|intros _ _ _ _; exact Hdisk].
  intros path Hno. rewrite Hdisk. apply write_all_frame. exact Hno.
Qed.

Lemma expand_pair_writes_padded_copies_witness :
  exists w' evs,
    expand_pair_try "in/7.png" "in/7_mask.png" "7.png" "7_mask.png" 2
                    "out" "out_mask" (sample_world [3; 4]) = (Ok tt, w')
    /\ out w' = reverse evs
    /\ length (files evs) = 4%nat.
Proof.
  destruct (expand_pair_writes_padded_copies "in/7.png" "in/7_mask.png"
              "7.png" "7_mask.png" 2 "out" "out_mask" (sample_world [3; 4])
              sample_image sample_mask eq_refl eq_refl
              (conj eq_refl eq_refl))
    as (w' & evs & pairs & Hrun & Hout & Hn & _ & Hfs & _).
  - right. vm_compute. discriminate.
  - split; reflexivity.
  - apply (bool_decide_unpack _). vm_compute. exact I.
  - exists w', evs. split; [exact Hrun|].
    split; [rewrite Hout; apply app_nil_r|].
    rewrite Hfs. destruct pairs as [|p1 [|p2 [|p3 pairs]]]; try discriminate.
    reflexivity.
Defined.

(** [expand_image] on a pair that is not square and whose shorter side
    is above 512: the first draw has an empty range. *)
Lemma expand_image_raises original_path mask_path
    (original_image mask_image : image) num_expansions output_original_dir
    output_mask_dir (w : world) :
  same_shape original_image mask_image ->
  height original_image <> width original_image ->
  512 < Z.min (height original_image) (width original_image) ->
  0 < num_expansions ->
  expand_image original_path mask_path original_image mask_image
               num_expansions output_original_dir output_mask_dir w
  = (Raise (ValueError
              (EmptyRange 0 (512 - Z.min (height original_image)
                                         (width original_image)))), w).
Proof.
  intros [Hh Hw] Hne Hbig Hn. unfold expand_image.
  rewrite <- Hh, <- Hw, !Z.eqb_refl. simpl.
  unfold range. rewrite seqZ_cons by lia. simpl for_each.
  unfold bind at 1. unfold expand_step at 1. unfold bind at 1.
  unfold expand_pad.
  destruct (Z.lt_trichotomy (height original_image) (width original_image))
    as [Hlt|[Heq|Hgt]]; [|contradiction|].
  - rewrite (proj2 (Z.ltb_lt _ _) Hlt). unfold bind at 1.
    rewrite random_randint_empty by lia.
    rewrite Z.min_l by lia. reflexivity.
  - rewrite (proj2 (Z.ltb_ge _ _)) by lia.
    rewrite (proj2 (Z.ltb_lt _ _) Hgt). unfold bind at 1.
    rewrite random_randint_empty by lia.
    rewrite Z.min_r by lia. reflexivity.
Qed.

(** X10.  On a pair of one shape that is not square and whose shorter
    side is above 512, [expand_image] raises at its first draw, the
    range of which is empty, before anything is written; in
    [batch_expand_images] the pair is announced, the error is printed,
    no file is written and the loop goes on. *)
Theorem expand_image_above_512 original_dir mask_suffix original_file
    num_expansions output_original_dir output_mask_dir (w : world)
    (original_image mask_image : image) :
  let name := (splitext original_file).1 in
  let ext := (splitext original_file).2 in
  let original_path := path_join original_dir original_file in
  let mask_file := name +:+ mask_suffix +:+ ext in
  let mask_path := path_join original_dir mask_file in
  let shorter_side :=
    Z.min (height original_image) (width original_image) in
  isdigit name = true ->
  disk w !! original_path = Some (Picture original_image) ->
  disk w !! mask_path = Some (Picture mask_image) ->
  same_shape original_image mask_image ->
  height original_image <> width original_image ->
  512 < shorter_side ->
  0 < num_expansions ->
  expand_image original_path mask_path (cvtColor original_image)
               (cvtColor mask_image) num_expansions output_original_dir
               output_mask_dir w
  = (Raise (ValueError (EmptyRange 0 (512 - shorter_side))), w)
  /\ batch_expand_step original_dir mask_suffix num_expansions
                       output_original_dir output_mask_dir original_file tt w
     = (Ok (Next tt),
        with_out (Printed (Failed (ValueError
                                     (EmptyRange 0 (512 - shorter_side))))
                  :: Printed (Processing original_file mask_file)
                  :: out w) w).
Proof.
  intros name ext original_path mask_file mask_path shorter_side
    Hdigit Ho Hm Hs Hne Hbig Hn.
  assert (Hraise : forall w0,
    expand_image original_path mask_path (cvtColor original_image)
                 (cvtColor mask_image) num_expansions output_original_dir
                 output_mask_dir w0
    = (Raise (ValueError (EmptyRange 0 (512 - shorter_side))), w0)).
  { intros w0.
    rewrite expand_image_raises;
      rewrite ?height_cvtColor, ?width_cvtColor; auto.
    apply same_shape_cvtColor. exact Hs. }
  split; [apply Hraise|].
  unfold batch_expand_step.
  subst name ext original_path mask_file mask_path.
  destruct (splitext original_file) as [name ext]. cbn [fst snd] in *.
  rewrite Hdigit. change (negb true) with false. cbv beta iota.
  assert (Hex : path_exists
                  (path_join original_dir (name +:+ mask_suffix +:+ ext)) w
                = (Ok true, w)).
  { unfold path_exists. rewrite Hm, bool_decide_eq_true_2 by eauto.
    reflexivity. }
  rewrite (bind_ok _ _ _ _ _ Hex). cbv beta iota.
  unfold bind at 1, try_except, expand_pair_try.
  unfold bind at 1 2, cv2_imread, readable. rewrite Ho, Hm.
  unfold bind at 1, print at 1, emit. cbv beta iota.
  rewrite Hraise. unfold print, emit, ret. reflexivity.
Qed.

Lemma expand_image_above_512_witness :
  batch_expand_step "in" "_mask" 1 "out" "out_mask" "9.png" tt large_world
  = (Ok (Next tt),
     with_out [Printed (Failed (ValueError (EmptyRange 0 (-1))));
               Printed (Processing "9.png" "9_mask.png")] large_world).
Proof.
  apply (expand_image_above_512 "in" "_mask" "9.png" 1 "out" "out_mask"
           large_world (np_full 513 514 gray) (np_full 513 514 gray)).
  - reflexivity.
  - reflexivity.
  - reflexivity.
  - split; reflexivity.
  - vm_compute. discriminate.
  - vm_compute. reflexivity.
  - reflexivity.
Defined.

(** ** What [extract_defect_mask] refuses *)

Lemma safe_imread_none filepath (w : world) :
  readable w filepath = None ->
  safe_imread filepath w
  = (Ok None, with_out (reader_line w filepath ++ out w) w).
Proof.
  intros Hr.
  unfold safe_imread, try_except, bind, cv2_imread, read_and_decode,
    reader_line.
  rewrite Hr. unfold readable in Hr.
  destruct (disk w !! filepath) as [[|img|]|] eqn:E; try discriminate.
  - destruct w; reflexivity.
  - reflexivity.
  - destruct (bool_decide _); reflexivity.
Qed.

Lemma safe_imread_some filepath (w : world) img :
  readable w filepath = Some img -> safe_imread filepath w = (Ok (Some img), w).
Proof.
  intros Hr. unfold safe_imread, try_except, bind, cv2_imread.
  rewrite Hr. reflexivity.
Qed.

(** X11.  [extract_defect_mask] returns nothing, without raising and
    without touching the disk, when the label cannot be read, when the
    mask cannot be read, and when the two differ in shape; it prints the
    line of the case, after the line of the reader when the reader
    raised: the file is missing, is a directory or has no byte. *)
Theorem extract_defect_mask_refuses (label_path mask_path : string)
    (defect_id : Z) (w : world) :
  (readable w label_path = None ->
   extract_defect_mask label_path mask_path defect_id w
   = (Ok None,
      with_out (Printed (LabelUnreadable (basename label_path))
                :: reader_line w label_path ++ out w) w))
  /\ (forall label_img,
        readable w label_path = Some label_img ->
        readable w mask_path = None ->
        extract_defect_mask label_path mask_path defect_id w
        = (Ok None,
           with_out (Printed (MaskUnreadable (basename mask_path))
                     :: reader_line w mask_path ++ out w) w))
  /\ (forall label_img mask_img,
        readable w label_path = Some label_img ->
        readable w mask_path = Some mask_img ->
        ~ same_shape label_img mask_img ->
        extract_defect_mask label_path mask_path defect_id w
        = (Ok None, with_out (Printed ShapesDiffer :: out w) w)).
Proof.
  unfold extract_defect_mask, try_except. split; [|split].
  - intros Hl. unfold bind at 1. rewrite (safe_imread_none _ _ Hl).
    reflexivity.
  - intros label_img Hl Hm. unfold bind at 1.
    rewrite (safe_imread_some _ _ _ Hl). cbv beta iota.
    unfold bind at 1. rewrite (safe_imread_none _ _ Hm). reflexivity.
  - intros label_img mask_img Hl Hm Hshape. unfold bind at 1.
    rewrite (safe_imread_some _ _ _ Hl). cbv beta iota.
    unfold bind at 1. rewrite (safe_imread_some _ _ _ Hm). cbv beta iota.
    destruct ((height label_img =? height mask_img)
              && (width label_img =? width mask_img)) eqn:E.
    + apply andb_true_iff in E. destruct E as [E1 E2].
      apply Z.eqb_eq in E1, E2. destruct Hshape. split; assumption.
    + reflexivity.
Qed.

Lemma extract_defect_mask_refuses_witness :
  extract_defect_mask "in/8.png" "in/8_mask.png" 3 (sample_world [])
  = (Ok None, with_out [Printed (LabelUnreadable "8.png")] (sample_world []))
  /\ extract_defect_mask "in/7.png" "in/9.png" 3 (sample_world [])
     = (Ok None,
        with_out [Printed (MaskUnreadable "9.png");
                  Printed (ReadFailed "in/9.png")] (sample_world [])).
Proof.
  destruct (extract_defect_mask_refuses "in/8.png" "in/8_mask.png" 3
              (sample_world [])) as (H1 & _ & _).
  destruct (extract_defect_mask_refuses "in/7.png" "in/9.png" 3
              (sample_world [])) as (_ & H2 & _).
  split; [exact (H1 eq_refl)|exact (H2 sample_image eq_refl eq_refl)].
Defined.

(** ** Whole batches *)

Lemma wrote_accepted_refl t w : wrote_accepted t w w [].
Proof. repeat split. Qed.

Lemma wrote_accepted_trans t w1 w2 w3 evs1 evs2 :
  wrote_accepted t w1 w2 evs1 -> wrote_accepted t w2 w3 evs2 ->
  wrote_accepted t w1 w3 (evs1 ++ evs2).
Proof.
  intros (Ho1 & Hf1 & Hd1) (Ho2 & Hf2 & Hd2). unfold wrote_accepted.
  rewrite Ho2, Ho1, reverse_app, <- app_assoc.
  rewrite files_app, drawn_app, accepted_app, fmap_app, flat_map_app.
  rewrite Hf1, Hf2, write_all_app, Hd2, Hd1. auto.
Qed.

Lemma counted_accepted_refl t w : counted_accepted t w w [].
Proof. split; [apply wrote_accepted_refl|simpl; lia]. Qed.

Lemma counted_accepted_trans t w1 w2 w3 evs1 evs2 :
  counted_accepted t w1 w2 evs1 -> counted_accepted t w2 w3 evs2 ->
  counted_accepted t w1 w3 (evs1 ++ evs2).
Proof.
  intros [H1 Hc1] [H2 Hc2]. split.
  - eapply wrote_accepted_trans; eassumption.
  - rewrite drawn_app, accepted_app, length_app. lia.
Qed.

Lemma quiet_silent evs : Forall quiet evs -> files evs = [] /\ drawn evs = [].
Proof.
  induction 1 as [|e evs He _ [IH1 IH2]]; [split; reflexivity|].
  destruct e; simpl in *; try contradiction; auto.
Qed.

Lemma counted_accepted_quiet t w w' evs :
  Forall quiet evs -> out w' = reverse evs ++ out w ->
  disk w' = disk w -> processed_image_count w' = processed_image_count w ->
  counted_accepted t w w' evs.
Proof.
  intros Hq Ho Hd Hc. destruct (quiet_silent evs Hq) as [Hf Hdr].
  unfold counted_accepted, wrote_accepted. rewrite Hf, Hdr. simpl.
  repeat split; auto. lia.
Qed.

(** A loop whose turns each keep a relation that composes keeps it. *)
Lemma for_each_trace {A} (body : A -> unit -> M (ctl unit))
    (R : world -> world -> list event -> Prop) :
  (forall w, R w w []) ->
  (forall w1 w2 w3 evs1 evs2,
     R w1 w2 evs1 -> R w2 w3 evs2 -> R w1 w3 (evs1 ++ evs2)) ->
  (forall x w, exists w' evs, body x tt w = (Ok (Next tt), w') /\ R w w' evs) ->
  forall xs w, exists w' evs, for_each body xs tt w = (Ok tt, w') /\ R w w' evs.
Proof.
  intros Hrefl Htrans Hbody. induction xs as [|x xs IH]; intros w.
  - exists w, []. split; [reflexivity|apply Hrefl].
  - destruct (Hbody x w) as (w1 & evs1 & Hstep & HR1).
    destruct (IH w1) as (w' & evs & Hloop & HR).
    exists w', (evs1 ++ evs). simpl for_each.
    rewrite (bind_ok _ _ _ _ _ Hstep). split; [exact Hloop|].
    eapply Htrans; eassumption.
Qed.

(** A pair can be processed, or it fails. *)
Lemma pair_ok_or_fails (w : world) original_path mask_path :
  (exists original_image mask_image,
     disk w !! original_path = Some (Picture original_image)
     /\ disk w !! mask_path = Some (Picture mask_image)
     /\ same_shape original_image mask_image)
  \/ pair_fails w original_path mask_path.
Proof.
  unfold pair_fails, readable.
  destruct (disk w !! original_path) as [[|o|]|]; auto.
  destruct (disk w !! mask_path) as [[|m|]|]; auto.
  destruct (Z.eq_dec (height o) (height m)) as [Hh|Hh];
    [destruct (Z.eq_dec (width o) (width m)) as [Hw|Hw]|].
  - left. exists o, m. repeat split; assumption.
  - right. right. right. exists o, m. repeat split. intros [_ H]. auto.
  - right. right. right. exists o, m. repeat split. intros [H _]. auto.
Qed.

Lemma numbered_files_pictures od om ext (cs : list candidate) (m : Z) :
  (concat (zip_with (numbered_files od om ext)
                    (seqZ m (Z.of_nat (length cs))) cs)).*2
  = flat_map both_crops cs.
Proof.
  revert m. induction cs as [|c cs IH]; intros m; [reflexivity|].
  change (length (c :: cs)) with (S (length cs)).
  rewrite seqZ_succ_length. simpl. rewrite IH. reflexivity.
Qed.

Lemma crop_files_pictures op od om (cs : list candidate) (m : Z) :
  (concat (zip_with (crop_files op od om)
                    (seqZ m (Z.of_nat (length cs))) cs)).*2
  = flat_map both_crops cs.
Proof.
  revert m. induction cs as [|c cs IH]; intros m; [reflexivity|].
  change (length (c :: cs)) with (S (length cs)).
  rewrite seqZ_succ_length. simpl. rewrite IH. reflexivity.
Qed.

Lemma wrote_accepted_quiet t w w' evs :
  Forall quiet evs -> out w' = reverse evs ++ out w -> disk w' = disk w ->
  wrote_accepted t w w' evs.
Proof.
  intros Hq Ho Hd. destruct (quiet_silent evs Hq) as [Hf Hdr].
  unfold wrote_accepted. rewrite Hf, Hdr. simpl. auto.
Qed.

(** [process_image_pair] on any pair. *)
Lemma process_image_pair_any original_path mask_path output_original_dir
    output_mask_dir num_augmentations num_crops_per_aug defect_threshold L
    crop_size (w : world) :
  exists w' evs,
    process_image_pair original_path mask_path output_original_dir
      output_mask_dir num_augmentations num_crops_per_aug defect_threshold L
      crop_size w = (Ok tt, w')
    /\ counted_accepted defect_threshold w w' evs.
Proof.
  destruct (pair_ok_or_fails w original_path mask_path)
    as [(o & m & Ho & Hm & Hs)|Hfail].
  - destruct (process_image_pair_trace original_path mask_path
                output_original_dir output_mask_dir num_augmentations
                num_crops_per_aug defect_threshold L crop_size w o m Ho Hm Hs)
      as (w' & evs & Hrun & Hout & Hfs & Hcount & Hdisk & _).
    exists w', evs. split; [exact Hrun|].
    split; [|exact Hcount]. split; [exact Hout|]. split; [|exact Hdisk].
    rewrite Hfs. apply numbered_files_pictures.
  - destruct (process_image_pair_fails original_path mask_path
                output_original_dir output_mask_dir num_augmentations
                num_crops_per_aug defect_threshold L crop_size w Hfail)
      as [e Hrun].
    eexists _, [Printed (Fatal original_path e)]. split; [exact Hrun|].
    apply counted_accepted_quiet; repeat constructor.
Qed.

(** [crop_image] on any pair. *)
Lemma crop_image_any original_path mask_path output_original_dir
    output_mask_dir crop_size_ratio defect_threshold num_crops (w : world) :
  exists w' evs,
    crop_image original_path mask_path output_original_dir output_mask_dir
               crop_size_ratio defect_threshold num_crops w = (Ok tt, w')
    /\ wrote_accepted defect_threshold w w' evs.
Proof.
  destruct (pair_ok_or_fails w original_path mask_path)
    as [(o & m & Ho & Hm & Hs)|Hfail].
  - destruct (crop_image_trace original_path mask_path output_original_dir
                output_mask_dir crop_size_ratio defect_threshold num_crops w
                o m Ho Hm Hs)
      as (w' & evs & Hrun & Hout & _ & _ & Hfs & _ & _ & Hdisk).
    exists w', evs. split; [exact Hrun|].
    split; [exact Hout|]. split; [|exact Hdisk].
    rewrite Hfs. apply crop_files_pictures.
  - destruct (crop_image_fails original_path mask_path output_original_dir
                output_mask_dir crop_size_ratio defect_threshold num_crops w
                Hfail) as [e Hrun].
    eexists _, [Printed (Failed e)]. split; [exact Hrun|].
    apply wrote_accepted_quiet; repeat constructor.
Qed.

Lemma batch_process_step_any input_dir output_original_dir output_mask_dir
    mask_suffix num_augmentations num_crops_per_aug defect_threshold L
    crop_size original_file (w : world) :
  exists w' evs,
    batch_process_step input_dir output_original_dir output_mask_dir
      mask_suffix num_augmentations num_crops_per_aug defect_threshold L
      crop_size original_file tt w = (Ok (Next tt), w')
    /\ counted_accepted defect_threshold w w' evs.
Proof.
  unfold batch_process_step.
  destruct (splitext original_file) as [name ext].
  unfold bind at 1, path_exists. destruct (_ || _); cbv beta iota.
  - unfold bind at 1 2, print at 1, emit. cbv beta iota.
    match goal with
    | |- context [process_image_pair ?a ?b ?c ?d ?e ?f ?g ?h ?i ?w0] =>
        destruct (process_image_pair_any a b c d e f g h i w0)
          as (w' & evs & Hrun & HR)
    end.
    rewrite Hrun. exists w', (Printed (Handling original_file) :: evs).
    split; [reflexivity|].
    apply (counted_accepted_trans _ w
             (with_out (Printed (Handling original_file) :: out w) w) w'
             [Printed (Handling original_file)] evs); [|exact HR].
    apply counted_accepted_quiet; repeat constructor.
  - unfold bind, print, emit, ret. cbv beta iota.
    eexists _, [Printed (MaskMissing _)]. split; [reflexivity|].
    apply counted_accepted_quiet; repeat constructor.
Qed.

Lemma batch_crop_step_any expanded_original_dir expanded_mask_dir
    output_original_dir output_mask_dir defect_threshold num_crops
    original_file (w : world) :
  exists w' evs,
    batch_crop_step expanded_original_dir expanded_mask_dir
      output_original_dir output_mask_dir defect_threshold num_crops
      original_file tt w = (Ok (Next tt), w')
    /\ wrote_accepted defect_threshold w w' evs.
Proof.
  unfold batch_crop_step.
  unfold bind at 1, path_exists. destruct (_ || _); cbv beta iota.
  - unfold bind at 1 2, print at 1, emit. cbv beta iota.
    match goal with
    | |- context [crop_image ?a ?b ?c ?d ?e ?f ?g ?w0] =>
        destruct (crop_image_any a b c d e f g w0) as (w' & evs & Hrun & HR)
    end.
    rewrite Hrun.
    exists w', (Printed (Cropping original_file (mask_file_of original_file))
                :: evs).
    split; [reflexivity|].
    apply (wrote_accepted_trans _ w
             (with_out (Printed (Cropping original_file
                                   (mask_file_of original_file)) :: out w) w)
             w'
             [Printed (Cropping original_file (mask_file_of original_file))]
             evs); [|exact HR].
    apply wrote_accepted_quiet; repeat constructor.
  - unfold bind, print, emit, ret. cbv beta iota.
    eexists _, [Printed (MaskMissing _)]. split; [reflexivity|].
    apply wrote_accepted_quiet; repeat constructor.
Qed.

Lemma makedirs_quiet made :
  Forall (fun e => exists d, e = Makedirs d) made -> Forall quiet made.
Proof.
  intros H. eapply Forall_impl; [exact H|]. intros e [d ->]. exact I.
Qed.

Lemma ensure_dir_dirs d (w w' : world) :
  ensure_dir d w = (Ok tt, w') -> forall x, x ∈ dirs w -> x ∈ dirs w'.
Proof.
  intros H. destruct (ensure_dir_keeps d w) as (w0 & H0 & _ & _ & _ & _ & Hs).
  rewrite H in H0. injection H0 as ->. exact Hs.
Qed.

(** Every picture of a disk has pixels when each of its entries does. *)
Lemma pictures_have_pixels_by_entries (w : world) :
  forallb (fun kf : string * file =>
             match kf.2 with
             | Picture img => (0 <? height img) && (0 <? width img)
             | _ => true
             end) (map_to_list (disk w)) = true ->
  pictures_have_pixels w.
Proof.
  intros H path img Hl. rewrite forallb_forall in H.
  apply elem_of_map_to_list, list_elem_of_In in Hl.
  specialize (H _ Hl). simpl in H. apply andb_true_iff in H.
  destruct H as [Hh Hw]. apply Z.ltb_lt in Hh, Hw. split; assumption.
Qed.

(** X12.  A whole run of [batch_process_directory] on an input directory
    that exists, with output directories that are there or can be made
    and a positive crop size, whatever the directory holds: it returns
    normally; the pictures it hands to [cv2.imwrite] are the two crops
    of each accepted candidate, original then mask, in the order the
    candidates were drawn over all pairs; the global count of images
    ends at its start plus the number of accepted candidates, pairs that
    fail adding nothing; and no path of the disk moves but those
    written. *)
Theorem batch_process_directory_counts input_dir output_original_dir
    output_mask_dir mask_suffix num_augmentations num_crops_per_aug
    defect_threshold expansion_target_size crop_size (w : world) :
  input_dir ∈ dirs w ->
  dir_ready w output_original_dir -> dir_ready w output_mask_dir ->
  0 < crop_size ->
  exists w' evs,
    batch_process_directory input_dir output_original_dir output_mask_dir
      mask_suffix num_augmentations num_crops_per_aug defect_threshold
      expansion_target_size crop_size w = (Ok tt, w')
    /\ out w' = reverse evs ++ out w
    /\ let kept := accepted defect_threshold (drawn evs) in
       (files evs).*2 = flat_map both_crops kept
       /\ processed_image_count w'
          = processed_image_count w + Z.of_nat (length kept)
       /\ only_written w w' evs.
Proof.
  intros Hdir _ _ _. unfold batch_process_directory.
  destruct (ensure_dir_run output_original_dir w)
    as (made1 & w1 & Hrun1 & Hmade1 & Hout1 & Hdisk1 & _ & Hcount1).
  destruct (ensure_dir_run output_mask_dir w1)
    as (made2 & w2 & Hrun2 & Hmade2 & Hout2 & Hdisk2 & _ & Hcount2).
  rewrite (bind_ok _ _ _ _ _ Hrun1), (bind_ok _ _ _ _ _ Hrun2).
  rewrite (bind_ok _ _ _ _ _
             (listdir_there input_dir w2
                (ensure_dir_dirs _ _ _ Hrun2 _
                   (ensure_dir_dirs _ _ _ Hrun1 _ Hdir)))).
  match goal with
  | |- context [filter_m ?p ?names] =>
      destruct (filter_m_returns p names) with (w := w2) as [ys Hys]
  end.
  { intros x w0. unfold bind, path_isfile, ret. eauto. }
  rewrite (bind_ok _ _ _ _ _ Hys).
  destruct (for_each_trace
              (batch_process_step input_dir output_original_dir
                 output_mask_dir mask_suffix num_augmentations
                 num_crops_per_aug defect_threshold expansion_target_size
                 crop_size)
              (counted_accepted defect_threshold)
              (counted_accepted_refl _) (counted_accepted_trans _)
              (batch_process_step_any _ _ _ _ _ _ _ _ _) ys w2)
    as (w' & evs & Hloop & HR).
  assert (H1 : counted_accepted defect_threshold w w1 made1).
  { apply counted_accepted_quiet; auto using makedirs_quiet. }
  assert (H2 : counted_accepted defect_threshold w1 w2 made2).
  { apply counted_accepted_quiet; auto using makedirs_quiet. }
  pose proof (counted_accepted_trans _ _ _ _ _ _ H1
                (counted_accepted_trans _ _ _ _ _ _ H2 HR))
    as ((Hout & Hfs & Hdisk) & Hcount).
  exists w', (made1 ++ made2 ++ evs). split; [exact Hloop|].
  split; [exact Hout|]. split; [exact Hfs|]. split; [exact Hcount|].
  apply only_written_of. exact Hdisk.
Qed.

Lemma batch_process_directory_counts_witness :
  exists w' evs,
    batch_process_directory "in" "out" "out_mask" "_mask" 1 2 (2 # 10000)%Q
      4 3 (listed_world [1; 1; 1; 0]) = (Ok tt, w')
    /\ processed_image_count w'
       = 0 + Z.of_nat (length (accepted (2 # 10000)%Q (drawn evs))).
Proof.
  destruct (batch_process_directory_counts "in" "out" "out_mask" "_mask" 1 2
              (2 # 10000)%Q 4 3 (listed_world [1; 1; 1; 0]))
    as (w' & evs & Hrun & _ & _ & Hcount & _).
  - apply (bool_decide_unpack _). vm_compute. exact I.
  - right. split; [|reflexivity].
    apply (bool_decide_unpack _). vm_compute. exact I.
  - right. split; [|reflexivity].
    apply (bool_decide_unpack _). vm_compute. exact I.
  - reflexivity.
  - exists w', evs. split; [exact Hrun|exact Hcount].
Defined.

(** X13.  A whole run of [batch_crop_images] on a directory of originals
    that exists, with output directories that are there or can be made
    and pictures that have pixels, whatever the directories hold: it
    returns normally; the pictures it hands to [cv2.imwrite] are the two
    crops of each accepted candidate, original then mask, in the order
    the candidates were drawn over all pairs, pairs that fail adding
    nothing; and no path of the disk moves but those written. *)
Theorem batch_crop_images_writes_accepted expanded_original_dir
    expanded_mask_dir output_original_dir output_mask_dir defect_threshold
    num_crops (w : world) :
  expanded_original_dir ∈ dirs w ->
  dir_ready w output_original_dir -> dir_ready w output_mask_dir ->
  pictures_have_pixels w ->
  exists w' evs,
    batch_crop_images expanded_original_dir expanded_mask_dir
      output_original_dir output_mask_dir defect_threshold num_crops w
    = (Ok tt, w')
    /\ out w' = reverse evs ++ out w
    /\ (files evs).*2
       = flat_map both_crops (accepted defect_threshold (drawn evs))
    /\ only_written w w' evs.
Proof.
  intros Hdir _ _ _. unfold batch_crop_images.
  destruct (ensure_dir_run output_original_dir w)
    as (made1 & w1 & Hrun1 & Hmade1 & Hout1 & Hdisk1 & _).
  destruct (ensure_dir_run output_mask_dir w1)
    as (made2 & w2 & Hrun2 & Hmade2 & Hout2 & Hdisk2 & _).
  rewrite (bind_ok _ _ _ _ _ Hrun1), (bind_ok _ _ _ _ _ Hrun2).
  rewrite (bind_ok _ _ _ _ _
             (listdir_there expanded_original_dir w2
                (ensure_dir_dirs _ _ _ Hrun2 _
                   (ensure_dir_dirs _ _ _ Hrun1 _ Hdir)))).
  match goal with
  | |- context [filter_m ?p ?names] =>
      destruct (filter_m_returns p names) with (w := w2) as [ys Hys]
  end.
  { intros x w0. unfold bind, path_isfile, ret. eauto. }
  rewrite (bind_ok _ _ _ _ _ Hys).
  destruct (for_each_trace
              (batch_crop_step expanded_original_dir expanded_mask_dir
                 output_original_dir output_mask_dir defect_threshold
                 num_crops)
              (wrote_accepted defect_threshold)
              (wrote_accepted_refl _) (wrote_accepted_trans _)
              (batch_crop_step_any _ _ _ _ _ _) ys w2)
    as (w' & evs & Hloop & HR).
  assert (H1 : wrote_accepted defect_threshold w w1 made1).
  { apply wrote_accepted_quiet; auto using makedirs_quiet. }
  assert (H2 : wrote_accepted defect_threshold w1 w2 made2).
  { apply wrote_accepted_quiet; auto using makedirs_quiet. }
  pose proof (wrote_accepted_trans _ _ _ _ _ _ H1
                (wrote_accepted_trans _ _ _ _ _ _ H2 HR))
    as (Hout & Hfs & Hdisk).
  exists w', (made1 ++ made2 ++ evs). split; [exact Hloop|].
  split; [exact Hout|]. split; [exact Hfs|].
  apply only_written_of. exact Hdisk.
Qed.

Lemma batch_crop_images_writes_accepted_witness :
  exists w' evs,
    batch_crop_images "in" "in" "out" "out_mask" (2 # 10000)%Q 2
                      (listed_world [1; 0]) = (Ok tt, w')
    /\ (files evs).*2
       = flat_map both_crops (accepted (2 # 10000)%Q (drawn evs)).
Proof.
  destruct (batch_crop_images_writes_accepted "in" "in" "out" "out_mask"
              (2 # 10000)%Q 2 (listed_world [1; 0]))
    as (w' & evs & Hrun & _ & Hfs & _).
  - apply (bool_decide_unpack _). vm_compute. exact I.
  - right. split; [|reflexivity].
    apply (bool_decide_unpack _). vm_compute. exact I.
  - right. split; [|reflexivity].
    apply (bool_decide_unpack _). vm_compute. exact I.
  - apply pictures_have_pixels_by_entries. vm_compute. reflexivity.
  - exists w', evs. split; [exact Hrun|exact Hfs].
Defined.

(** ** Strings as lists of characters *)

Lemma chars_app (a b : string) :
  list_ascii_of_string (a +:+ b)
  = list_ascii_of_string a ++ list_ascii_of_string b.
Proof.
  induction a as [|c a IH]; [reflexivity|].
  change (String c a +:+ b) with (String c (a +:+ b)). simpl.
  rewrite IH. reflexivity.
Qed.

Lemma chars_inj (a b : string) :
  list_ascii_of_string a = list_ascii_of_string b -> a = b.
Proof.
  intros H. rewrite <- (string_of_list_ascii_of_string a),
    <- (string_of_list_ascii_of_string b), H. reflexivity.
Qed.

Lemma length_chars (s : string) :
  String.length s = length (list_ascii_of_string s).
Proof. induction s as [|c s IH]; simpl; [|rewrite IH]; reflexivity. Qed.

Lemma substring_chars (n m : nat) (s : string) :
  list_ascii_of_string (substring n m s)
  = take m (drop n (list_ascii_of_string s)).
Proof.
  revert n m. induction s as [|c s IH]; intros n m.
  - destruct n, m; reflexivity.
  - destruct n as [|n].
    + destruct m as [|m]; [reflexivity|]. simpl. rewrite IH. reflexivity.
    + simpl. apply IH.
Qed.

Lemma str_take_chars (i : Z) (s : string) :
  list_ascii_of_string (str_take i s)
  = take (Z.to_nat i) (list_ascii_of_string s).
Proof. unfold str_take. rewrite substring_chars. reflexivity. Qed.

Lemma str_drop_chars (i : Z) (s : string) :
  list_ascii_of_string (str_drop i s)
  = drop (Z.to_nat i) (list_ascii_of_string s).
Proof.
  unfold str_drop. rewrite substring_chars, length_chars.
  apply take_ge. rewrite length_drop. lia.
Qed.

Lemma rev_app_chars (s1 s2 : string) :
  list_ascii_of_string (String.rev_app s1 s2)
  = reverse (list_ascii_of_string s1) ++ list_ascii_of_string s2.
Proof.
  revert s2. induction s1 as [|c s1 IH]; intros s2; [reflexivity|].
  simpl. rewrite IH, reverse_cons, <- app_assoc. reflexivity.
Qed.

Lemma rev_chars (s : string) :
  list_ascii_of_string (String.rev s) = reverse (list_ascii_of_string s).
Proof. unfold String.rev. rewrite rev_app_chars. apply app_nil_r. Qed.

(** [rfind]: the place of the last occurrence. *)
Lemma rfind_from_none (c : ascii) (s : string) (i last : Z) :
  c ∉ list_ascii_of_string s -> rfind_from c s i last = last.
Proof.
  revert i last. induction s as [|d s IH]; intros i last Hc; [reflexivity|].
  simpl in *. apply not_elem_of_cons in Hc. destruct Hc as [Hne Hc].
  rewrite IH by exact Hc.
  destruct (Ascii.eqb_spec d c) as [->|_]; [contradiction|reflexivity].
Qed.

Lemma rfind_from_last (c : ascii) (s : string) (l1 l2 : list ascii)
    (i last : Z) :
  list_ascii_of_string s = l1 ++ c :: l2 -> c ∉ l2 ->
  rfind_from c s i last = i + Z.of_nat (length l1).
Proof.
  revert s i last. induction l1 as [|d l1 IH]; intros s i last Hs Hc.
  - destruct s as [|d s]; [discriminate|]. simpl in *.
    injection Hs as -> Hs. rewrite Ascii.eqb_refl.
    rewrite rfind_from_none by (rewrite Hs; exact Hc). lia.
  - destruct s as [|d' s]; [discriminate|]. simpl in Hs.
    injection Hs as -> Hs. simpl rfind_from.
    rewrite (IH s _ _ Hs Hc). simpl length. lia.
Qed.

Lemma rfind_none (c : ascii) (s : string) :
  c ∉ list_ascii_of_string s -> rfind c s = -1.
Proof. apply rfind_from_none. Qed.

Lemma rfind_last (c : ascii) (s : string) (l1 l2 : list ascii) :
  list_ascii_of_string s = l1 ++ c :: l2 -> c ∉ l2 ->
  rfind c s = Z.of_nat (length l1).
Proof.
  intros Hs Hc. unfold rfind. rewrite (rfind_from_last c s l1 l2 0 (-1) Hs Hc).
  lia.
Qed.

(** A string without [c], or its split at the last [c]. *)
Lemma last_occurrence (c : ascii) (s : string) :
  (c ∉ list_ascii_of_string s)
  \/ exists l1 l2, list_ascii_of_string s = l1 ++ c :: l2 /\ c ∉ l2.
Proof.
  destruct (decide (c ∈ list_ascii_of_string s)) as [Hin|Hout]; [|auto].
  right. apply list_elem_of_split_r in Hin.
  destruct Hin as (l1 & l2 & Hs & Hc). eauto.
Qed.

(** [basename]: what follows the last slash. *)
Lemma basename_chars (p : string) :
  ((slash ∉ list_ascii_of_string p) /\ basename p = p)
  \/ exists l1, list_ascii_of_string p
                = l1 ++ slash :: list_ascii_of_string (basename p)
                /\ slash ∉ list_ascii_of_string (basename p).
Proof.
  destruct (last_occurrence slash p) as [Hno|(l1 & l2 & Hp & Hno)].
  - left. split; [exact Hno|]. unfold basename.
    rewrite (rfind_none _ _ Hno). apply chars_inj.
    rewrite str_drop_chars. reflexivity.
  - right. exists l1.
    assert (Hb : list_ascii_of_string (basename p) = l2).
    { unfold basename. rewrite (rfind_last _ _ _ _ Hp Hno).
      rewrite str_drop_chars, Hp.
      replace (Z.to_nat (Z.of_nat (length l1) + 1)) with (length l1 + 1)%nat
        by lia.
      rewrite cons_middle, app_assoc.
      apply drop_app_length'. rewrite length_app. simpl. lia. }
    rewrite Hb. auto.
Qed.

Lemma basename_no_slash (p : string) :
  slash ∉ list_ascii_of_string (basename p).
Proof.
  destruct (basename_chars p) as [[Hno ->]|(l1 & _ & Hno)]; assumption.
Qed.

Lemma basename_last (p : string) (l1 l2 : list ascii) :
  list_ascii_of_string p = l1 ++ slash :: l2 -> slash ∉ l2 ->
  list_ascii_of_string (basename p) = l2.
Proof.
  intros Hp Hno. unfold basename. rewrite (rfind_last _ _ _ _ Hp Hno).
  rewrite str_drop_chars, Hp.
  replace (Z.to_nat (Z.of_nat (length l1) + 1)) with (length l1 + 1)%nat
    by lia.
  rewrite cons_middle, app_assoc.
  apply drop_app_length'. rewrite length_app. simpl. lia.
Qed.

Lemma basename_slash_free (p : string) :
  slash ∉ list_ascii_of_string p -> basename p = p.
Proof.
  intros Hno. unfold basename. rewrite (rfind_none _ _ Hno).
  apply chars_inj. rewrite str_drop_chars. reflexivity.
Qed.

Lemma prefix_slash_free (x : string) :
  slash ∉ list_ascii_of_string x -> String.prefix "/" x = false.
Proof.
  destruct x as [|c x]; [reflexivity|]. intros Hno. simpl in Hno.
  apply not_elem_of_cons in Hno. destruct Hno as [Hne _].
  change (String.prefix "/" (String c x))
    with (if ascii_dec "/" c then String.prefix EmptyString x else false).
  destruct (ascii_dec "/" c) as [<-|_]; [|reflexivity].
  destruct Hne. reflexivity.
Qed.

Lemma ends_with_slash_chars (d : string) :
  ends_with_slash d = true ->
  exists l0, list_ascii_of_string d = l0 ++ [slash].
Proof.
  unfold ends_with_slash. destruct (String.rev d) as [|c r] eqn:E;
    [discriminate|].
  intros Hc. apply Ascii.eqb_eq in Hc. subst c.
  exists (reverse (list_ascii_of_string r)).
  apply (f_equal list_ascii_of_string) in E. rewrite rev_chars in E.
  simpl in E. apply (f_equal reverse) in E.
  rewrite reverse_involutive, reverse_cons in E. exact E.
Qed.

(** Joining a directory and a name without a slash: the name is put
    after a prefix that only depends on the directory, and is found
    again by [basename]. *)
Lemma path_join_slash_free (d : string) :
  exists pre, forall x,
    slash ∉ list_ascii_of_string x ->
    list_ascii_of_string (path_join d x) = pre ++ list_ascii_of_string x
    /\ basename (path_join d x) = x.
Proof.
  unfold path_join.
  destruct ((String.length d =? 0)%nat || ends_with_slash d) eqn:E.
  - apply orb_true_iff in E. destruct E as [E|E].
    + apply Nat.eqb_eq in E. destruct d; [|discriminate].
      exists []. intros x Hx. rewrite (prefix_slash_free _ Hx).
      split; [reflexivity|]. apply basename_slash_free. exact Hx.
    + destruct (ends_with_slash_chars _ E) as [l0 Hd].
      exists (list_ascii_of_string d). intros x Hx.
      rewrite (prefix_slash_free _ Hx), chars_app.
      split; [reflexivity|]. apply chars_inj.
      apply (basename_last _ l0); [|exact Hx].
      rewrite chars_app, Hd, <- app_assoc. reflexivity.
  - exists (list_ascii_of_string d ++ [slash]). intros x Hx.
    rewrite (prefix_slash_free _ Hx), !chars_app, <- app_assoc.
    split; [reflexivity|]. apply chars_inj.
    apply (basename_last _ (list_ascii_of_string d)); [|exact Hx].
    rewrite !chars_app. reflexivity.
Qed.

Lemma rfind_lower_bound (c : ascii) (s : string) : -1 <= rfind c s.
Proof.
  destruct (last_occurrence c s) as [Hno|(l1 & l2 & Hs & Hno)].
  - rewrite (rfind_none _ _ Hno). lia.
  - rewrite (rfind_last _ _ _ _ Hs Hno). lia.
Qed.

(** [splitext]: the two parts make the path, and the extension is empty
    or starts at the last dot. *)
Lemma splitext_spec (p : string) :
  p = (splitext p).1 +:+ (splitext p).2
  /\ ((splitext p).2 = EmptyString
      \/ exists l2, list_ascii_of_string (splitext p).2 = dot :: l2
                    /\ dot ∉ l2).
Proof.
  assert (Hnil : p = p +:+ EmptyString).
  { apply chars_inj. rewrite chars_app. simpl. rewrite app_nil_r.
    reflexivity. }
  unfold splitext.
  destruct (rfind slash p <? rfind dot p) eqn:E; [|simpl; auto].
  destruct (only_dots _); [simpl; auto|]. simpl.
  apply Z.ltb_lt in E. pose proof (rfind_lower_bound slash p) as Hlow.
  destruct (last_occurrence dot p) as [Hno|(l1 & l2 & Hp & Hno)].
  { rewrite (rfind_none _ _ Hno) in E. lia. }
  rewrite (rfind_last _ _ _ _ Hp Hno).
  split.
  - apply chars_inj. rewrite chars_app, str_take_chars, str_drop_chars.
    rewrite take_drop. reflexivity.
  - right. exists l2. split; [|exact Hno].
    rewrite str_drop_chars, Hp, Nat2Z.id, drop_app_length. reflexivity.
Qed.

(** The characters of a number. *)
Lemma pretty_N_char_num (d : N) : num_char (pretty_N_char d).
Proof.
  unfold pretty_N_char. repeat case_match; reflexivity.
Qed.

Lemma pretty_N_go_num (x : N) (s : string) :
  Forall num_char (list_ascii_of_string s) ->
  Forall num_char (list_ascii_of_string (pretty_N_go x s)).
Proof.
  revert s. induction (N.lt_wf_0 x) as [x _ IH]. intros s Hs.
  destruct (N.eq_dec x 0%N) as [->|Hx].
  - rewrite pretty_N_go_0. exact Hs.
  - rewrite pretty_N_go_step by lia. apply IH.
    + apply N.div_lt; lia.
    + simpl. constructor; [apply pretty_N_char_num|exact Hs].
Qed.

Lemma pretty_Z_num (z : Z) :
  Forall num_char (list_ascii_of_string (pretty z)).
Proof.
  assert (HN : forall x : N, Forall num_char (list_ascii_of_string (pretty x))).
  { intros x. unfold pretty, pretty_N.
    destruct (decide (x = 0%N)); [repeat constructor|].
    apply pretty_N_go_num. constructor. }
  destruct z as [|p|p]; unfold pretty, pretty_Z.
  - repeat constructor.
  - apply HN.
  - rewrite chars_app. apply Forall_app. split; [repeat constructor|apply HN].
Qed.

(** Two splits of one list at the first element outside [P] agree. *)
Lemma span_unique {A} (P : A -> Prop) (l1 l2 r1 r2 : list A) (a b : A) :
  Forall P l1 -> Forall P l2 -> ~ P a -> ~ P b ->
  l1 ++ a :: r1 = l2 ++ b :: r2 -> l1 = l2 /\ a = b /\ r1 = r2.
Proof.
  intros H1. revert l2. induction H1 as [|x l1 Hx _ IH]; intros l2 H2 Ha Hb.
  - destruct H2 as [|y l2 Hy _]; simpl.
    + intros [= -> ->]. auto.
    + intros [= -> _]. contradiction.
  - destruct H2 as [|y l2 Hy H2]; simpl.
    + intros [= <- _]. contradiction.
    + intros [= -> Heq]. destruct (IH l2 H2 Ha Hb Heq) as (-> & -> & ->).
      auto.
Qed.

(** Extensions. *)
Lemma lower_ascii_dot (c : ascii) : lower_ascii c = dot -> c = dot.
Proof.
  destruct c as [[] [] [] [] [] [] [] []]; vm_compute; congruence.
Qed.

Lemma lower_chars (e : string) :
  list_ascii_of_string (lower e) = map lower_ascii (list_ascii_of_string e).
Proof. unfold lower. apply list_ascii_of_string_of_list_ascii. Qed.

Lemma lower_chars_no_slash (l target : list ascii) :
  map lower_ascii l = target -> slash ∉ target -> slash ∉ l.
Proof.
  intros <- Hno Hin. apply Hno. rewrite map_fmap.
  apply list_elem_of_fmap. exists slash. split; [reflexivity|exact Hin].
Qed.

Lemma lower_chars_dot (l t : list ascii) :
  map lower_ascii l = dot :: t ->
  exists r, l = dot :: r /\ map lower_ascii r = t.
Proof.
  destruct l as [|c r]; [discriminate|]. simpl. intros [= Hc Hr].
  apply lower_ascii_dot in Hc. subst c. eauto.
Qed.

Lemma lower_known (e : string) : lower e ∈ known_exts -> ext_ok e.
Proof.
  intros Hin. unfold known_exts in Hin.
  repeat (apply elem_of_cons in Hin; destruct Hin as [Hin|Hin]);
    [..|apply elem_of_nil in Hin; contradiction];
    apply (f_equal list_ascii_of_string) in Hin;
    rewrite lower_chars in Hin; simpl in Hin;
    apply lower_chars_dot in Hin; destruct Hin as (r & He & Hr);
    exists r; (split; [exact He|]);
    apply (lower_chars_no_slash _ _ Hr);
    intros H;
    repeat (apply elem_of_cons in H; destruct H as [H|H]; [discriminate|]);
    apply elem_of_nil in H; exact H.
Qed.

Lemma output_ext_ok (e : string) : ext_ok (output_ext e).
Proof.
  unfold output_ext. case_bool_decide as H; [apply lower_known; exact H|].
  exists (list_ascii_of_string "png"). split; [reflexivity|].
  intros Hin.
  repeat (apply elem_of_cons in Hin; destruct Hin as [Hin|Hin];
          [discriminate|]).
  apply elem_of_nil in Hin. exact Hin.
Qed.

(** ** Names of the files written *)

Lemma num_char_not_slash (c : ascii) : num_char c -> c <> slash.
Proof. intros H ->. discriminate H. Qed.

Lemma pretty_no_slash (n : Z) : slash ∉ list_ascii_of_string (pretty n).
Proof.
  intros Hin. pose proof (pretty_Z_num n) as Hnum.
  rewrite Forall_forall in Hnum.
  exact (num_char_not_slash _ (Hnum _ Hin) eq_refl).
Qed.

Lemma ext_ok_no_slash (e : string) :
  ext_ok e -> slash ∉ list_ascii_of_string e.
Proof.
  intros (r & He & Hr). rewrite He. apply not_elem_of_cons.
  split; [discriminate|exact Hr].
Qed.

(** A numbered name: some characters without a slash, a number, and a
    tail that starts outside the characters of numbers. *)
Lemma numbered_name_no_slash (pre : string) (n : Z) (tail : string) :
  slash ∉ list_ascii_of_string pre ->
  slash ∉ list_ascii_of_string tail ->
  slash ∉ list_ascii_of_string (pre +:+ pretty n +:+ tail).
Proof.
  intros Hpre Htail. rewrite !chars_app, !not_elem_of_app.
  auto using pretty_no_slash.
Qed.

Lemma numbered_name_eq (d d' pre : string) (n n' : Z) (tail tail' : string)
    (a a' : ascii) (r r' : list ascii) :
  slash ∉ list_ascii_of_string pre ->
  list_ascii_of_string tail = a :: r -> ~ num_char a -> slash ∉ a :: r ->
  list_ascii_of_string tail' = a' :: r' -> ~ num_char a' -> slash ∉ a' :: r' ->
  path_join d (pre +:+ pretty n +:+ tail)
  = path_join d' (pre +:+ pretty n' +:+ tail') ->
  n = n' /\ a = a'.
Proof.
  intros Hpre Ht Ha Hr Ht' Ha' Hr' Heq.
  destruct (path_join_slash_free d) as [p1 H1].
  destruct (path_join_slash_free d') as [p2 H2].
  assert (Hx : slash ∉ list_ascii_of_string (pre +:+ pretty n +:+ tail))
    by (apply numbered_name_no_slash; [exact Hpre|rewrite Ht; exact Hr]).
  assert (Hx' : slash ∉ list_ascii_of_string (pre +:+ pretty n' +:+ tail'))
    by (apply numbered_name_no_slash; [exact Hpre|rewrite Ht'; exact Hr']).
  apply (f_equal basename) in Heq.
  rewrite (proj2 (H1 _ Hx)), (proj2 (H2 _ Hx')) in Heq.
  apply String.app_inj in Heq.
  apply (f_equal list_ascii_of_string) in Heq.
  rewrite !chars_app, Ht, Ht' in Heq.
  destruct (span_unique num_char _ _ _ _ _ _ (pretty_Z_num n)
              (pretty_Z_num n') Ha Ha' Heq) as (Hn & Haa & _).
  split; [|exact Haa].
  apply chars_inj in Hn. apply (inj pretty). exact Hn.
Qed.

(** The tails of the two names of a crop. *)
Lemma tail_original (e : string) :
  ext_ok e ->
  exists r, list_ascii_of_string e = dot :: r /\ slash ∉ dot :: r.
Proof.
  intros (r & He & Hr). exists r. split; [exact He|].
  apply not_elem_of_cons. split; [discriminate|exact Hr].
Qed.

Lemma tail_mask (e : string) :
  ext_ok e ->
  exists r, list_ascii_of_string ("_mask" +:+ e) = "_"%char :: r
            /\ slash ∉ "_"%char :: r.
Proof.
  intros He. pose proof (ext_ok_no_slash _ He) as Hno.
  exists (list_ascii_of_string ("mask" +:+ e)). split; [reflexivity|].
  rewrite chars_app. simpl.
  repeat (apply not_elem_of_cons; split; [discriminate|]). exact Hno.
Qed.

Lemma dot_not_num : ~ num_char dot.
Proof. discriminate. Qed.

Lemma underscore_not_num : ~ num_char "_"%char.
Proof. discriminate. Qed.

(** Names under different numbers differ, and the name of an original
    is never the name of a mask. *)
Lemma names_differ (d d' pre : string) (n n' : Z) (e e' : string) :
  slash ∉ list_ascii_of_string pre -> ext_ok e -> ext_ok e' ->
  (path_join d (pre +:+ pretty n +:+ e)
   = path_join d' (pre +:+ pretty n' +:+ e') -> n = n')
  /\ (path_join d (pre +:+ pretty n +:+ "_mask" +:+ e)
      = path_join d' (pre +:+ pretty n' +:+ "_mask" +:+ e') -> n = n')
  /\ path_join d (pre +:+ pretty n +:+ e)
     <> path_join d' (pre +:+ pretty n' +:+ "_mask" +:+ e').
Proof.
  intros Hpre He He'.
  destruct (tail_original e He) as (r1 & Ht1 & Hr1).
  destruct (tail_original e' He') as (r2 & Ht2 & Hr2).
  destruct (tail_mask e He) as (r3 & Ht3 & Hr3).
  destruct (tail_mask e' He') as (r4 & Ht4 & Hr4).
  split; [|split].
  - intros Heq.
    exact (proj1 (numbered_name_eq d d' pre n n' e e' _ _ _ _ Hpre Ht1
                    dot_not_num Hr1 Ht2 dot_not_num Hr2 Heq)).
  - intros Heq.
    exact (proj1 (numbered_name_eq d d' pre n n' _ _ _ _ _ _ Hpre Ht3
                    underscore_not_num Hr3 Ht4 underscore_not_num Hr4 Heq)).
  - intros Heq.
    pose proof (proj2 (numbered_name_eq d d' pre n n' _ _ _ _ _ _ Hpre Ht1
                         dot_not_num Hr1 Ht4 underscore_not_num Hr4 Heq)) as H.
    discriminate H.
Qed.

(** The disk after writes under names that are all different. *)
Lemma write_all_other (fs : list (string * image)) (d : gmap string file)
    (p : string) :
  p ∉ fs.*1 -> write_all fs d !! p = d !! p.
Proof.
  revert d. induction fs as [|f fs IH]; intros d Hp; [reflexivity|].
  simpl in Hp. apply not_elem_of_cons in Hp. destruct Hp as [Hne Hp].
  unfold write_all in *. simpl. rewrite IH by exact Hp.
  apply lookup_insert_ne. auto.
Qed.

Lemma write_all_lookup (fs : list (string * image)) (d : gmap string file)
    (p : string) (img : image) :
  NoDup fs.*1 -> (p, img) ∈ fs -> write_all fs d !! p = Some (Picture img).
Proof.
  revert d. induction fs as [|f fs IH]; intros d Hnd Hin.
  - apply elem_of_nil in Hin. contradiction.
  - simpl in Hnd. apply NoDup_cons in Hnd. destruct Hnd as [Hf Hnd].
    apply elem_of_cons in Hin. destruct Hin as [<-|Hin].
    + unfold write_all. simpl. fold (write_all fs (<[p:=Picture img]> d)).
      rewrite write_all_other by exact Hf. apply lookup_insert_eq.
    + unfold write_all. simpl. apply IH; assumption.
Qed.

(** Pairs of names under consecutive numbers. *)
Lemma numbered_pairs_elem {A} (Q : A -> Prop) (f g : Z -> A -> string)
    (l : list A) (m : Z) (p : string) :
  Forall Q l ->
  p ∈ concat (zip_with (fun n a => [f n a; g n a])
                       (seqZ m (Z.of_nat (length l))) l) ->
  exists n a, m <= n /\ Q a /\ (p = f n a \/ p = g n a).
Proof.
  intros HQ. revert m. induction HQ as [|a l Ha _ IH]; intros m Hin.
  - apply elem_of_nil in Hin. contradiction.
  - change (length (a :: l)) with (S (length l)) in Hin.
    rewrite seqZ_succ_length in Hin. simpl in Hin.
    apply elem_of_cons in Hin. destruct Hin as [->|Hin].
    { exists m, a. split; [lia|]. auto. }
    apply elem_of_cons in Hin. destruct Hin as [->|Hin].
    { exists m, a. split; [lia|]. auto. }
    destruct (IH (m + 1) Hin) as (n & b & Hn & Hb & Hp).
    exists n, b. split; [lia|]. auto.
Qed.

Lemma numbered_pairs_NoDup {A} (Q : A -> Prop) (f g : Z -> A -> string)
    (l : list A) (m : Z) :
  (forall n n' a a', Q a -> Q a' -> f n a = f n' a' -> n = n') ->
  (forall n n' a a', Q a -> Q a' -> g n a = g n' a' -> n = n') ->
  (forall n n' a a', Q a -> Q a' -> f n a <> g n' a') ->
  Forall Q l ->
  NoDup (concat (zip_with (fun n a => [f n a; g n a])
                          (seqZ m (Z.of_nat (length l))) l)).
Proof.
  intros Hf Hg Hfg HQ. revert m.
  induction HQ as [|a l Ha HQ IH]; intros m; [constructor|].
  change (length (a :: l)) with (S (length l)).
  rewrite seqZ_succ_length. simpl.
  apply NoDup_cons. split.
  - intros Hin. apply elem_of_cons in Hin. destruct Hin as [Heq|Hin].
    + exact (Hfg _ _ _ _ Ha Ha Heq).
    + destruct (numbered_pairs_elem Q f g l (m + 1) _ HQ Hin)
        as (n & b & Hn & Hb & [Hp|Hp]).
      * pose proof (Hf _ _ _ _ Ha Hb Hp). lia.
      * exact (Hfg _ _ _ _ Ha Hb Hp).
  - apply NoDup_cons. split; [|apply IH].
    intros Hin.
    destruct (numbered_pairs_elem Q f g l (m + 1) _ HQ Hin)
      as (n & b & Hn & Hb & [Hp|Hp]).
    + symmetry in Hp. exact (Hfg _ _ _ _ Hb Ha Hp).
    + pose proof (Hg _ _ _ _ Ha Hb Hp). lia.
Qed.

Lemma fst_concat_zip_with {A B C} (F : Z -> A -> list (B * C))
    (ns : list Z) (l : list A) :
  (concat (zip_with F ns l)).*1
  = concat (zip_with (fun n a => (F n a).*1) ns l).
Proof.
  revert l. induction ns as [|n ns IH]; intros [|a l]; try reflexivity.
  simpl. rewrite fmap_app, IH. reflexivity.
Qed.

(** The files of a numbered run have names that are all different. *)
Lemma numbered_names_NoDup output_original_dir output_mask_dir
    (ecs : list (string * candidate)) (m : Z) :
  Forall (fun ec => ext_ok ec.1) ecs ->
  NoDup (concat (zip_with (fun n ec => numbered_files output_original_dir
                                         output_mask_dir ec.1 n ec.2)
                          (seqZ m (Z.of_nat (length ecs))) ecs)).*1.
Proof.
  intros Hok. rewrite fst_concat_zip_with.
  apply (numbered_pairs_NoDup (fun ec => ext_ok ec.1)
           (fun n ec => path_join output_original_dir (pretty n +:+ ec.1))
           (fun n ec => path_join output_mask_dir
                          (pretty n +:+ "_mask" +:+ ec.1)));
    [| | |exact Hok].
  - intros n n' a a' Ha Ha'.
    exact (proj1 (names_differ output_original_dir output_original_dir
                    EmptyString n n' a.1 a'.1 (not_elem_of_nil _) Ha Ha')).
  - intros n n' a a' Ha Ha'.
    exact (proj1 (proj2 (names_differ output_mask_dir output_mask_dir
                           EmptyString n n' a.1 a'.1 (not_elem_of_nil _)
                           Ha Ha'))).
  - intros n n' a a' Ha Ha'.
    exact (proj2 (proj2 (names_differ output_original_dir output_mask_dir
                           EmptyString n n' a.1 a'.1 (not_elem_of_nil _)
                           Ha Ha'))).
Qed.

(** Numbered runs compose. *)
Lemma numbered_run_refl od om w : numbered_run od om w w [].
Proof. exists []. simpl. repeat split; [constructor|lia]. Qed.

Lemma numbered_run_trans od om w1 w2 w3 evs1 evs2 :
  numbered_run od om w1 w2 evs1 -> numbered_run od om w2 w3 evs2 ->
  numbered_run od om w1 w3 (evs1 ++ evs2).
Proof.
  intros (ecs1 & Hok1 & Ho1 & Hf1 & Hc1 & Hd1)
         (ecs2 & Hok2 & Ho2 & Hf2 & Hc2 & Hd2).
  exists (ecs1 ++ ecs2).
  split; [apply Forall_app; auto|].
  split; [rewrite Ho2, Ho1, reverse_app, <- app_assoc; reflexivity|].
  split.
  { rewrite files_app, Hf1, Hf2, Hc1.
    replace (processed_image_count w1 + Z.of_nat (length ecs1) + 1)
      with (processed_image_count w1 + 1 + Z.of_nat (length ecs1)) by lia.
    apply numbering_app. }
  split; [rewrite Hc2, Hc1, length_app; lia|].
  rewrite files_app, write_all_app, Hd2, Hd1. reflexivity.
Qed.

Lemma numbered_run_quiet od om w w' evs :
  Forall quiet evs -> out w' = reverse evs ++ out w ->
  disk w' = disk w -> processed_image_count w' = processed_image_count w ->
  numbered_run od om w w' evs.
Proof.
  intros Hq Ho Hd Hc. destruct (quiet_silent evs Hq) as [Hf _].
  exists []. rewrite Hf. simpl. split; [constructor|].
  split; [exact Ho|]. split; [reflexivity|]. split; [lia|exact Hd].
Qed.

Lemma process_image_pair_numbered original_path mask_path
    output_original_dir output_mask_dir num_augmentations num_crops_per_aug
    defect_threshold L crop_size (w : world) :
  exists w' evs,
    process_image_pair original_path mask_path output_original_dir
      output_mask_dir num_augmentations num_crops_per_aug defect_threshold L
      crop_size w = (Ok tt, w')
    /\ numbered_run output_original_dir output_mask_dir w w' evs.
Proof.
  destruct (pair_ok_or_fails w original_path mask_path)
    as [(o & m & Ho & Hm & Hs)|Hfail].
  - destruct (process_image_pair_trace original_path mask_path
                output_original_dir output_mask_dir num_augmentations
                num_crops_per_aug defect_threshold L crop_size w o m Ho Hm Hs)
      as (w' & evs & Hrun & Hout & Hfs & Hcount & Hdisk & _).
    exists w', evs. split; [exact Hrun|].
    set (ext := output_ext (splitext (basename original_path)).2) in *.
    exists ((fun c => (ext, c)) <$> accepted defect_threshold (drawn evs)).
    rewrite length_fmap.
    split.
    { apply Forall_fmap, Forall_forall. intros c _. apply output_ext_ok. }
    split; [exact Hout|]. split; [|split; [exact Hcount|exact Hdisk]].
    rewrite Hfs, zip_with_fmap_r. reflexivity.
  - destruct (process_image_pair_fails original_path mask_path
                output_original_dir output_mask_dir num_augmentations
                num_crops_per_aug defect_threshold L crop_size w Hfail)
      as [e Hrun].
    eexists _, [Printed (Fatal original_path e)]. split; [exact Hrun|].
    apply numbered_run_quiet; repeat constructor.
Qed.

Lemma batch_process_step_numbered input_dir output_original_dir
    output_mask_dir mask_suffix num_augmentations num_crops_per_aug
    defect_threshold L crop_size original_file (w : world) :
  exists w' evs,
    batch_process_step input_dir output_original_dir output_mask_dir
      mask_suffix num_augmentations num_crops_per_aug defect_threshold L
      crop_size original_file tt w = (Ok (Next tt), w')
    /\ numbered_run output_original_dir output_mask_dir w w' evs.
Proof.
  unfold batch_process_step.
  destruct (splitext original_file) as [name ext].
  unfold bind at 1, path_exists. destruct (_ || _); cbv beta iota.
  - unfold bind at 1 2, print at 1, emit. cbv beta iota.
    match goal with
    | |- context [process_image_pair ?a ?b ?c ?d ?e ?f ?g ?h ?i ?w0] =>
        destruct (process_image_pair_numbered a b c d e f g h i w0)
          as (w' & evs & Hrun & HR)
    end.
    rewrite Hrun. exists w', (Printed (Handling original_file) :: evs).
    split; [reflexivity|].
    apply (numbered_run_trans _ _ w
             (with_out (Printed (Handling original_file) :: out w) w) w'
             [Printed (Handling original_file)] evs); [|exact HR].
    apply numbered_run_quiet; repeat constructor.
  - unfold bind, print, emit, ret. cbv beta iota.
    eexists _, [Printed (MaskMissing _)]. split; [reflexivity|].
    apply numbered_run_quiet; repeat constructor.
Qed.

(** X14.  In a whole run of [batch_process_directory] on an input
    directory that exists, with output directories that are there or can
    be made and a positive crop size, no file is written twice: the
    names of the files handed to [cv2.imwrite] are all different, across
    the pairs of the directory, and at the end every file written under
    an extension whose writer loses nothing, where no directory stood,
    is on disk with the picture it was written with. *)
Theorem batch_process_directory_never_overwrites input_dir
    output_original_dir output_mask_dir mask_suffix num_augmentations
    num_crops_per_aug defect_threshold expansion_target_size crop_size
    (w : world) :
  input_dir ∈ dirs w ->
  dir_ready w output_original_dir -> dir_ready w output_mask_dir ->
  0 < crop_size ->
  exists w' evs,
    batch_process_directory input_dir output_original_dir output_mask_dir
      mask_suffix num_augmentations num_crops_per_aug defect_threshold
      expansion_target_size crop_size w = (Ok tt, w')
    /\ out w' = reverse evs ++ out w
    /\ NoDup (files evs).*1
    /\ forall path img,
         (path, img) ∈ files evs -> lossless_ext (splitext path).2 ->
         path ∉ dirs w ->
         disk w' !! path = Some (Picture img).
Proof.
  intros Hdir _ _ _. unfold batch_process_directory.
  destruct (ensure_dir_run output_original_dir w)
    as (made1 & w1 & Hrun1 & Hmade1 & Hout1 & Hdisk1 & _ & Hcount1).
  destruct (ensure_dir_run output_mask_dir w1)
    as (made2 & w2 & Hrun2 & Hmade2 & Hout2 & Hdisk2 & _ & Hcount2).
  rewrite (bind_ok _ _ _ _ _ Hrun1), (bind_ok _ _ _ _ _ Hrun2).
  rewrite (bind_ok _ _ _ _ _
             (listdir_there input_dir w2
                (ensure_dir_dirs _ _ _ Hrun2 _
                   (ensure_dir_dirs _ _ _ Hrun1 _ Hdir)))).
  match goal with
  | |- context [filter_m ?p ?names] =>
      destruct (filter_m_returns p names) with (w := w2) as [ys Hys]
  end.
  { intros x w0. unfold bind, path_isfile, ret. eauto. }
  rewrite (bind_ok _ _ _ _ _ Hys).
  destruct (for_each_trace
              (batch_process_step input_dir output_original_dir
                 output_mask_dir mask_suffix num_augmentations
                 num_crops_per_aug defect_threshold expansion_target_size
                 crop_size)
              (numbered_run output_original_dir output_mask_dir)
              (numbered_run_refl _ _) (numbered_run_trans _ _)
              (batch_process_step_numbered _ _ _ _ _ _ _ _ _) ys w2)
    as (w' & evs & Hloop & HR).
  assert (H1 : numbered_run output_original_dir output_mask_dir w w1 made1).
  { apply numbered_run_quiet; auto using makedirs_quiet. }
  assert (H2 : numbered_run output_original_dir output_mask_dir w1 w2 made2).
  { apply numbered_run_quiet; auto using makedirs_quiet. }
  pose proof (numbered_run_trans _ _ _ _ _ _ _ H1
                (numbered_run_trans _ _ _ _ _ _ _ H2 HR))
    as (ecs & Hok & Hout & Hfs & Hcount & Hdisk).
  exists w', (made1 ++ made2 ++ evs). split; [exact Hloop|].
  split; [exact Hout|].
  assert (Hnd : NoDup (files (made1 ++ made2 ++ evs)).*1).
  { rewrite Hfs. apply numbered_names_NoDup. exact Hok. }
  split; [exact Hnd|].
  intros path img Hin _ _. rewrite Hdisk.
  apply write_all_lookup; assumption.
Qed.

Lemma batch_process_directory_never_overwrites_witness :
  exists w' evs,
    batch_process_directory "in" "out" "out_mask" "_mask" 1 2 (2 # 10000)%Q
      4 3 (listed_world [1; 1; 1; 0]) = (Ok tt, w')
    /\ NoDup (files evs).*1.
Proof.
  destruct (batch_process_directory_never_overwrites "in" "out" "out_mask"
              "_mask" 1 2 (2 # 10000)%Q 4 3 (listed_world [1; 1; 1; 0]))
    as (w' & evs & Hrun & _ & Hnd & _).
  - apply (bool_decide_unpack _). vm_compute. exact I.
  - right. split; [|reflexivity].
    apply (bool_decide_unpack _). vm_compute. exact I.
  - right. split; [|reflexivity].
    apply (bool_decide_unpack _). vm_compute. exact I.
  - reflexivity.
  - exists w', evs. split; [exact Hrun|exact Hnd].
Defined.

Lemma append_assoc (a b c : string) : (a +:+ b) +:+ c = a +:+ b +:+ c.
Proof. apply chars_inj. rewrite !chars_app, app_assoc. reflexivity. Qed.

(** The names of the crops of [crop_image], by the parts of the name of
    the original. *)
Lemma cropped_names original_path :
  exists pre ext e0,
    (slash ∉ list_ascii_of_string pre) /\ ext_ok ext
    /\ basename original_path
       = (splitext (basename original_path)).1 +:+ e0
    /\ pre = (splitext (basename original_path)).1 +:+ "_cropped_"
    /\ (e0 = EmptyString
        \/ exists l2, list_ascii_of_string e0 = dot :: l2)
    /\ (forall d k, cropped_original_name original_path d k
                    = path_join d (pre +:+ pretty k +:+ ext))
    /\ (forall d k, cropped_mask_name original_path d k
                    = path_join d (pre +:+ pretty k +:+ "_mask" +:+ ext)).
Proof.
  destruct (splitext_spec (basename original_path)) as [Hsplit Hext].
  pose proof (basename_no_slash original_path) as Hno.
  unfold cropped_original_name, cropped_mask_name.
  destruct (splitext (basename original_path)) as [base e0]. simpl in *.
  exists (base +:+ "_cropped_"), (output_ext e0), e0.
  split.
  { rewrite Hsplit, chars_app, not_elem_of_app in Hno.
    rewrite chars_app, not_elem_of_app. split; [tauto|].
    simpl. intros Hin.
    repeat (apply elem_of_cons in Hin; destruct Hin as [Hin|Hin];
            [discriminate|]).
    apply elem_of_nil in Hin. exact Hin. }
  split; [apply output_ext_ok|]. split; [exact Hsplit|].
  split; [reflexivity|].
  split; [destruct Hext as [->|(l2 & Hl2 & _)]; eauto|].
  split; intros d k; rewrite append_assoc; reflexivity.
Qed.

(** X15.  On a readable pair of one shape, with a crop size that is
    positive and output directories that are there or can be made,
    [crop_image] writes no file twice and never writes over the original
    it read: the names of the files handed to [cv2.imwrite] are all
    different and none is the path of the original, so at the end the
    original is as it was, and every crop written where no directory
    stood is on disk with its picture when the extension of the crops
    has a writer that loses nothing. *)
Theorem crop_image_never_overwrites original_path mask_path
    output_original_dir output_mask_dir crop_size_ratio defect_threshold
    num_crops w original_image mask_image :
  disk w !! original_path = Some (Picture original_image) ->
  disk w !! mask_path = Some (Picture mask_image) ->
  same_shape original_image mask_image ->
  0 < crop_size_of (width original_image) (height original_image)
                   crop_size_ratio ->
  dir_ready w output_original_dir -> dir_ready w output_mask_dir ->
  exists w' evs,
    crop_image original_path mask_path output_original_dir output_mask_dir
               crop_size_ratio defect_threshold num_crops w = (Ok tt, w')
    /\ out w' = reverse evs ++ out w
    /\ NoDup (files evs).*1
    /\ (lossless_ext (output_ext (splitext (basename original_path)).2) ->
        forall path img,
          (path, img) ∈ files evs -> path ∉ dirs w ->
          disk w' !! path = Some (Picture img))
    /\ (original_path ∉ (files evs).*1)
    /\ disk w' !! original_path = Some (Picture original_image).
Proof.
  intros Ho Hm Hs _ _ _.
  destruct (crop_image_trace original_path mask_path output_original_dir
              output_mask_dir crop_size_ratio defect_threshold num_crops w
              original_image mask_image Ho Hm Hs)
    as (w' & evs & Hrun & Hout & _ & _ & Hfs & _ & _ & Hdisk).
  exists w', evs. split; [exact Hrun|]. split; [exact Hout|].
  destruct (cropped_names original_path)
    as (pre & ext & e0 & Hpre & Hext & Hbase & Hpre_eq & He0 & Hon & Hmn).
  set (kept := accepted defect_threshold (drawn evs)) in *.
  assert (Hnames : (files evs).*1
                   = concat (zip_with
                       (fun k (_ : candidate) =>
                          [path_join output_original_dir
                             (pre +:+ pretty k +:+ ext);
                           path_join output_mask_dir
                             (pre +:+ pretty k +:+ "_mask" +:+ ext)])
                       (seqZ 1 (Z.of_nat (length kept))) kept)).
  { rewrite Hfs, fst_concat_zip_with. f_equal.
    apply zip_with_ext; [|reflexivity..]. intros k c. simpl.
    rewrite Hon, Hmn. reflexivity. }
  assert (Hall : Forall (fun _ : candidate => True) kept)
    by (apply Forall_forall; auto).
  assert (Hnd : NoDup (files evs).*1).
  { rewrite Hnames.
    apply (numbered_pairs_NoDup (fun _ => True)
             (fun k (_ : candidate) =>
                path_join output_original_dir (pre +:+ pretty k +:+ ext))
             (fun k (_ : candidate) =>
                path_join output_mask_dir
                  (pre +:+ pretty k +:+ "_mask" +:+ ext)));
      [| | |exact Hall]; intros n n' _ _ _ _.
    - exact (proj1 (names_differ _ _ pre n n' ext ext Hpre Hext Hext)).
    - exact (proj1 (proj2 (names_differ _ _ pre n n' ext ext Hpre Hext
                             Hext))).
    - exact (proj2 (proj2 (names_differ _ _ pre n n' ext ext Hpre Hext
                             Hext))). }
  split; [exact Hnd|].
  split.
  { intros _ path img Hin _. rewrite Hdisk.
    apply write_all_lookup; assumption. }
  assert (Hother : original_path ∉ (files evs).*1).
  { rewrite Hnames. intros Hin.
    destruct (numbered_pairs_elem (fun _ => True) _ _ kept 1 _ Hall Hin)
      as (k & _ & _ & _ & Hp).
    assert (Hname : exists tail : string,
              basename original_path = pre +:+ pretty k +:+ tail).
    { destruct (path_join_slash_free output_original_dir) as [p1 H1].
      destruct (path_join_slash_free output_mask_dir) as [p2 H2].
      destruct (tail_original ext Hext) as (r1 & Ht1 & Hr1).
      destruct (tail_mask ext Hext) as (r2 & Ht2 & Hr2).
      destruct Hp as [Hp|Hp].
      - exists ext. rewrite Hp. apply H1.
        apply numbered_name_no_slash; [exact Hpre|].
        rewrite Ht1. exact Hr1.
      - exists ("_mask" +:+ ext). rewrite Hp. apply H2.
        apply numbered_name_no_slash; [exact Hpre|].
        rewrite Ht2. exact Hr2. }
    destruct Hname as [tail Hname].
    rewrite Hbase, Hpre_eq, append_assoc in Hname.
    apply String.app_inj in Hname.
    apply (f_equal list_ascii_of_string) in Hname.
    destruct He0 as [->|(l2 & Hl2)]; [discriminate Hname|].
    rewrite Hl2 in Hname. discriminate Hname. }
  split; [exact Hother|].
  rewrite Hdisk, write_all_other by exact Hother. exact Ho.
Qed.

Lemma crop_image_never_overwrites_witness :
  exists w' evs,
    crop_image "in/7.png" "in/7_mask.png" "in" "in" 1%Q (2 # 10000)%Q 2
               (listed_world [1; 0]) = (Ok tt, w')
    /\ NoDup (files evs).*1
    /\ disk w' !! "in/7.png" = Some (Picture sample_image).
Proof.
  destruct (crop_image_never_overwrites "in/7.png" "in/7_mask.png" "in" "in"
              1%Q (2 # 10000)%Q 2 (listed_world [1; 0]) sample_image
              sample_mask eq_refl eq_refl (conj eq_refl eq_refl))
    as (w' & evs & Hrun & _ & Hnd & _ & _ & Hkeep).
  - vm_compute. reflexivity.
  - left. apply (bool_decide_unpack _). vm_compute. exact I.
  - left. apply (bool_decide_unpack _). vm_compute. exact I.
  - exists w', evs. split; [exact Hrun|]. split; [exact Hnd|exact Hkeep].
Defined.

(** ** The name of the mask of an expanded original *)

Lemma prefix_chars (a s : string) :
  String.prefix a s = true
  <-> exists r, list_ascii_of_string s = list_ascii_of_string a ++ r.
Proof.
  revert s. induction a as [|c a IH]; intros s.
  - destruct s; simpl; split; eauto.
  - destruct s as [|d s].
    + simpl. split; [discriminate|]. intros [r Hr]. discriminate.
    + change (String.prefix (String c a) (String d s))
        with (if ascii_dec c d then String.prefix a s else false).
      simpl. destruct (ascii_dec c d) as [->|Hne].
      * rewrite IH. split; intros [r Hr]; exists r; congruence.
      * split; [discriminate|]. intros [r [= Hcd _]]. congruence.
Qed.

Lemma str_join_cons (sep p : string) (rest : list string) :
  rest <> [] ->
  str_join sep (p :: rest) = p +:+ sep +:+ str_join sep rest.
Proof.
  destruct rest as [|q rest]; [contradiction|]. intros _. simpl.
  revert p q. induction rest as [|r rest IH]; intros p q; [reflexivity|].
  simpl. rewrite IH, (IH q r).
  apply chars_inj. rewrite !chars_app, <- !app_assoc. reflexivity.
Qed.

Lemma split_from_cons (sep : string) (skip : nat) (cur : string)
    (c : ascii) (s : string) :
  split_from sep skip cur (String c s)
  = match skip with
    | S k => split_from sep k cur s
    | O =>
        if String.prefix sep (String c s)
        then String.rev cur
             :: split_from sep (String.length sep - 1) EmptyString s
        else split_from sep 0 (String c cur) s
    end.
Proof. reflexivity. Qed.

Lemma split_from_nonempty (sep : string) (skip : nat) (cur s : string) :
  split_from sep skip cur s <> [].
Proof.
  revert skip cur. induction s as [|c s IH]; intros skip cur.
  - discriminate.
  - rewrite split_from_cons. destruct skip; [|apply IH].
    destruct (String.prefix sep (String c s)); [discriminate|apply IH].
Qed.

(** Joining what [split] gives brings the string back. *)
Lemma split_from_join (sep : string) (skip : nat) (cur s : string) :
  sep <> EmptyString ->
  (skip <= String.length s)%nat ->
  list_ascii_of_string (str_join sep (split_from sep skip cur s))
  = reverse (list_ascii_of_string cur)
    ++ drop skip (list_ascii_of_string s).
Proof.
  intros Hsep. revert skip cur. induction s as [|c s IH]; intros skip cur Hlen.
  - simpl in *. replace skip with 0%nat by lia. simpl.
    rewrite rev_chars, app_nil_r. reflexivity.
  - rewrite split_from_cons. destruct skip as [|k].
    + destruct (String.prefix sep (String c s)) eqn:Epre.
      * rewrite str_join_cons by apply split_from_nonempty.
        apply prefix_chars in Epre. destruct Epre as [r Hr].
        destruct sep as [|c0 sep0]; [contradiction|].
        simpl in Hr. injection Hr as <- Hs.
        assert (Hk : (String.length (String c sep0) - 1 <= String.length s)%nat).
        { simpl. rewrite !length_chars, Hs, length_app. lia. }
        rewrite !chars_app, (IH _ _ Hk), rev_chars. simpl.
        rewrite Nat.sub_0_r, Hs, length_chars, drop_app_length.
        reflexivity.
      * rewrite IH by (simpl; lia). simpl.
        rewrite reverse_cons, <- app_assoc. reflexivity.
    + rewrite IH by (simpl in Hlen; lia). reflexivity.
Qed.

Lemma split_join (sep s : string) :
  sep <> EmptyString -> str_join sep (split sep s) = s.
Proof.
  intros Hsep. apply chars_inj. unfold split.
  rewrite split_from_join by (auto; lia). reflexivity.
Qed.

(** X16.  The name [batch_crop_images] looks for as the mask of an
    original is the stem of the original's name, then [_mask], then its
    extension, unless the stem holds [_expanded_] twice or more; then it
    is made of the first two pieces only, and what follows the second
    [_expanded_] is left out. *)
Theorem mask_file_of_stem (original_file : string) :
  let stem := (splitext original_file).1 in
  let ext := (splitext original_file).2 in
  let parts := split "_expanded_" stem in
  str_join "_expanded_" parts = stem
  /\ ((length parts <= 2)%nat ->
      mask_file_of original_file = stem +:+ "_mask" +:+ ext)
  /\ forall part0 part1 part2 rest,
       parts = part0 :: part1 :: part2 :: rest ->
       mask_file_of original_file
       = (part0 +:+ "_expanded_" +:+ part1) +:+ "_mask" +:+ ext
       /\ stem = part0 +:+ "_expanded_" +:+ part1 +:+ "_expanded_"
                 +:+ str_join "_expanded_" (part2 :: rest).
Proof.
  intros stem ext parts.
  assert (Hjoin : str_join "_expanded_" parts = stem)
    by (apply split_join; discriminate).
  split; [exact Hjoin|].
  unfold mask_file_of. subst stem ext.
  destruct (splitext original_file) as [stem ext]. simpl in *.
  fold parts. split.
  - intros Hlen. destruct parts as [|p0 [|p1 [|p2 rest]]] eqn:E;
      try reflexivity; [|simpl in Hlen; lia].
    simpl in Hjoin. rewrite <- Hjoin. apply chars_inj.
    rewrite !chars_app, <- !app_assoc. reflexivity.
  - intros part0 part1 part2 rest E. rewrite E in *.
    split; [reflexivity|].
    rewrite <- Hjoin.
    rewrite str_join_cons by discriminate.
    rewrite (str_join_cons _ part1) by discriminate. reflexivity.
Qed.

Lemma mask_file_of_stem_witness :
  mask_file_of "7_expanded_2.png" = "7_expanded_2_mask.png".
Proof.
  apply (proj1 (proj2 (mask_file_of_stem "7_expanded_2.png"))).
  vm_compute. lia.
Defined.

(** ** The batch of mask_and_label.py *)

Lemma bindB_done {A C} (m : B A) (f : A -> B C) s a s1 :
  m s = (Done a, s1) -> bindB m f s = f a s1.
Proof. intros H. unfold bindB. rewrite H. reflexivity. Qed.

Lemma liftB_ok {A} (m : M A) s a w1 :
  m (under s) = (Ok a, w1) -> liftB m s = (Done a, Session w1 (notes s)).
Proof. intros H. unfold liftB. rewrite H. reflexivity. Qed.

Lemma session_eta s : Session (under s) (notes s) = s.
Proof. destruct s; reflexivity. Qed.

Lemma liftB_pure {A} (m : M A) s a :
  m (under s) = (Ok a, under s) -> liftB m s = (Done a, s).
Proof. intros H. rewrite (liftB_ok _ _ _ _ H). f_equal. apply session_eta. Qed.

(** [find]: where the first occurrence starts. *)
Lemma find_from_spec (sub s : string) (i : Z) :
  contains sub s = true ->
  exists k : nat,
    find_from sub s i = i + Z.of_nat k
    /\ exists r, drop k (list_ascii_of_string s)
                 = list_ascii_of_string sub ++ r.
Proof.
  revert i. induction s as [|c s IH]; intros i Hc.
  - change (contains sub EmptyString)
      with (String.prefix sub EmptyString || false) in Hc.
    rewrite orb_false_r in Hc.
    exists 0%nat.
    change (find_from sub EmptyString i)
      with (if String.prefix sub EmptyString then i else -1).
    rewrite Hc. split; [lia|]. apply prefix_chars in Hc. exact Hc.
  - change (contains sub (String c s))
      with (String.prefix sub (String c s) || contains sub s) in Hc.
    change (find_from sub (String c s) i)
      with (if String.prefix sub (String c s) then i
            else find_from sub s (i + 1)).
    destruct (String.prefix sub (String c s)) eqn:Epre.
    + exists 0%nat. split; [lia|]. apply prefix_chars in Epre. exact Epre.
    + simpl in Hc. destruct (IH (i + 1) Hc) as (k & Hk & r & Hr).
      exists (S k). split; [lia|]. exists r. exact Hr.
Qed.

(** The parts of a mask file name around its marker. *)
Lemma mask_name_parts (mask_file : string) :
  contains mask_suffix_identifier (lower mask_file) = true ->
  let mask_pos := find mask_suffix_identifier (lower mask_file) in
  let base_name := str_take mask_pos mask_file in
  let rest :=
    str_drop (mask_pos + Z.of_nat (String.length mask_suffix_identifier))
             mask_file in
  exists marker,
    mask_file = base_name +:+ marker +:+ rest
    /\ lower marker = mask_suffix_identifier.
Proof.
  intros Hc mask_pos base_name rest.
  destruct (find_from_spec _ _ 0 Hc) as (k & Hk & r & Hr).
  assert (Hpos : mask_pos = Z.of_nat k) by (unfold mask_pos, find; lia).
  set (l := list_ascii_of_string mask_file) in *.
  rewrite lower_chars in Hr. fold l in Hr.
  rewrite map_fmap, <- fmap_drop in Hr.
  exists (string_of_list_ascii (take 6 (drop k l))).
  assert (Hlen : (6 <= length (drop k l))%nat).
  { apply (f_equal length) in Hr. rewrite length_fmap, length_app in Hr.
    simpl in Hr. lia. }
  split.
  - apply chars_inj. subst base_name rest.
    rewrite !chars_app, str_take_chars, str_drop_chars,
      list_ascii_of_string_of_list_ascii.
    fold l. rewrite Hpos. simpl String.length.
    replace (Z.to_nat (Z.of_nat k + Z.of_nat 6)) with (k + 6)%nat by lia.
    rewrite Nat2Z.id, <- drop_drop, take_drop, take_drop. reflexivity.
  - unfold lower. rewrite list_ascii_of_string_of_list_ascii.
    rewrite map_fmap, fmap_take, Hr. reflexivity.
Qed.

(** One mask file of the loop of [find_matching_files]. *)
Lemma match_step_run (mask_dir label_dir mask_file : string)
    (matching_sets : list FileSet.t) (s : session) :
  exists new s',
    match_step mask_dir label_dir mask_file matching_sets s
    = (Done (Next (matching_sets ++ new)), s')
    /\ under s' = under s
    /\ (new = []
        \/ exists fs, new = [fs] /\ FileSet.mask_file fs = mask_file
                      /\ matched (under s) mask_dir label_dir fs)
    /\ (contains mask_suffix_identifier (lower mask_file) = true ->
        (let label_path :=
           safe_path_join label_dir (label_file_of mask_file) in
         is_Some (disk (under s) !! label_path)
         \/ label_path ∈ dirs (under s)) ->
        new <> []).
Proof.
  unfold match_step, try_exceptB.
  destruct (contains mask_suffix_identifier (lower mask_file)) eqn:Hc.
  - destruct (mask_name_parts mask_file Hc) as (marker & Hname & Hmarker).
    cbv zeta.
    set (mask_pos := find mask_suffix_identifier (lower mask_file)) in *.
    set (base_name := str_take mask_pos mask_file) in *.
    set (rest := str_drop (mask_pos + _) mask_file) in *.
    unfold bindB at 1, liftB, path_exists.
    destruct (bool_decide _ || bool_decide _) eqn:Eex.
    + eexists [_], _. split; [reflexivity|]. split; [reflexivity|].
      split; [|discriminate].
      right. eexists. split; [reflexivity|]. split; [reflexivity|].
      unfold matched. simpl.
      split; [reflexivity|]. split; [reflexivity|]. split; [reflexivity|].
      split.
      { apply orb_true_iff in Eex.
        destruct Eex as [E|E]; apply bool_decide_eq_true in E; auto. }
      exists marker, rest. auto.
    + unfold bindB, say, retB. simpl.
      exists [], (Session (under s)
                    (LabelFileWanted (base_name +:+ "_label" +:+ "." +:+ rest)
                     :: LabelFileMissing base_name :: notes s)).
      rewrite app_nil_r. split; [reflexivity|]. split; [reflexivity|].
      split; [auto|].
      intros _ Hex. exfalso.
      apply orb_false_iff in Eex. destruct Eex as [E1 E2].
      apply bool_decide_eq_false in E1, E2.
      destruct Hex as [Hex|Hex]; [exact (E1 Hex)|exact (E2 Hex)].
  - exists [], s. rewrite app_nil_r. unfold retB.
    split; [reflexivity|]. split; [reflexivity|]. split; [auto|].
    intros Hc' _. discriminate.
Qed.

Lemma match_loop_run (mask_dir label_dir : string) (xs : list string)
    (matching_sets : list FileSet.t) (s : session) :
  exists new s',
    for_eachB (match_step mask_dir label_dir) xs matching_sets s
    = (Done (matching_sets ++ new), s')
    /\ under s' = under s
    /\ Forall (matched (under s) mask_dir label_dir) new
    /\ (FileSet.mask_file <$> new) `sublist_of` xs
    /\ (forall f, f ∈ xs ->
        contains mask_suffix_identifier (lower f) = true ->
        (let label_path := safe_path_join label_dir (label_file_of f) in
         is_Some (disk (under s) !! label_path)
         \/ label_path ∈ dirs (under s)) ->
        f ∈ FileSet.mask_file <$> new).
Proof.
  revert matching_sets s. induction xs as [|x xs IH]; intros sets s.
  - exists [], s. rewrite app_nil_r. simpl. unfold retB.
    split; [reflexivity|]. split; [reflexivity|]. split; [constructor|].
    split; [constructor|]. intros f Hf. inversion Hf.
  - destruct (match_step_run mask_dir label_dir x sets s)
      as (new1 & s1 & Hstep & Hw1 & Hnew1 & Hfull1).
    destruct (IH (sets ++ new1) s1)
      as (new & s' & Hloop & Hw & Hall & Hsub & Hfull).
    exists (new1 ++ new), s'. simpl for_eachB.
    rewrite (bindB_done _ _ _ _ _ Hstep), Hloop, app_assoc.
    split; [reflexivity|]. split; [congruence|].
    rewrite Hw1 in Hall, Hfull.
    assert (Hrest : forall f, f ∈ x :: xs ->
        contains mask_suffix_identifier (lower f) = true ->
        (let label_path := safe_path_join label_dir (label_file_of f) in
         is_Some (disk (under s) !! label_path)
         \/ label_path ∈ dirs (under s)) ->
        f ∈ FileSet.mask_file <$> (new1 ++ new)).
    { intros f Hf Hc Hex. rewrite fmap_app. apply elem_of_app.
      apply elem_of_cons in Hf. destruct Hf as [->|Hf].
      - left. destruct Hnew1 as [->|(fs & -> & Hmf & _)].
        + destruct (Hfull1 Hc Hex eq_refl).
        + simpl. rewrite Hmf. apply list_elem_of_here.
      - right. apply Hfull; assumption. }
    destruct Hnew1 as [->|(fs & -> & Hmf & Hfs)]; simpl.
    + split; [exact Hall|]. split; [apply sublist_cons; exact Hsub|].
      exact Hrest.
    + split; [constructor; assumption|].
      split; [rewrite Hmf; apply sublist_skip; exact Hsub|].
      exact Hrest.
Qed.

(** A whole run of [find_matching_files]. *)
Lemma find_matching_files_run (mask_dir label_dir : string) (s : session) :
  let w := under s in
  exists sets s',
    find_matching_files mask_dir label_dir s = (Done sets, s')
    /\ under s' = w
    /\ (disk w !! mask_dir = None -> mask_dir ∉ dirs w ->
        sets = [] /\ notes s' = MaskDirMissing mask_dir :: notes s)
    /\ Forall (matched w mask_dir label_dir) sets
    /\ Forall (fun fs =>
                 is_Some (disk w !! FileSet.mask_path fs)
                 /\ contains mask_suffix_identifier
                             (lower (FileSet.mask_file fs)) = true)
              sets
    /\ (FileSet.mask_file <$> sets)
       `sublist_of` default [] (listing w !! mask_dir)
    /\ (forall f, f ∈ default [] (listing w !! mask_dir) ->
        mask_dir ∈ dirs w ->
        is_Some (disk w !! safe_path_join mask_dir f) ->
        contains mask_suffix_identifier (lower f) = true ->
        (let label_path := safe_path_join label_dir (label_file_of f) in
         is_Some (disk w !! label_path) \/ label_path ∈ dirs w) ->
        f ∈ FileSet.mask_file <$> sets).
Proof.
  intros w. unfold find_matching_files.
  rewrite (bindB_done _ _ _ _ _
             (liftB_pure (path_exists mask_dir) s _ eq_refl)).
  fold w.
  destruct (bool_decide (is_Some (disk w !! mask_dir))
            || bool_decide (mask_dir ∈ dirs w)) eqn:Eex;
    [change (negb true) with false|change (negb false) with true];
    cbv iota.
  - destruct (decide (mask_dir ∈ dirs w)) as [Hthere|Hnin]; cycle 1.
    { assert (Hlist : liftB (safe_listdir mask_dir) s
                      = (Thrown (FromRun (NotADirectoryError mask_dir)), s)).
      { unfold liftB, safe_listdir, listdir. fold w.
        rewrite (bool_decide_eq_false_2 _ Hnin).
        apply orb_true_iff in Eex. destruct Eex as [E|E];
          [|apply bool_decide_eq_true in E; contradiction].
        rewrite E. f_equal. apply session_eta. }
      unfold bindB at 1, try_exceptB. unfold bindB at 1. rewrite Hlist.
      unfold bindB, say, retB. simpl.
      eexists [], _. split; [reflexivity|]. split; [reflexivity|].
      split.
      { intros Hno _. exfalso. apply orb_true_iff in Eex.
        destruct Eex as [E|E]; apply bool_decide_eq_true in E.
        - rewrite Hno in E. destruct E as [? E]. discriminate.
        - contradiction. }
      split; [constructor|]. split; [constructor|].
      split; [apply sublist_nil_l|].
      intros f _ Hdir. contradiction. }
    set (q := fun f : string =>
                bool_decide (is_Some (disk w !! safe_path_join mask_dir f))
                && contains mask_suffix_identifier (lower f)).
    assert (Hfilter :
      filter_m (fun f =>
                  is_file <- path_isfile (safe_path_join mask_dir f) ;;
                  ret (is_file
                       && contains mask_suffix_identifier (lower f)))
               (default [] (listing w !! mask_dir)) w
      = (Ok (filter (fun f => q f = true)
                    (default [] (listing w !! mask_dir))), w)).
    { apply filter_m_pure. intros f. reflexivity. }
    assert (Hlist : liftB (safe_listdir mask_dir) s
                    = (Done (default [] (listing w !! mask_dir)), s))
      by (apply liftB_pure; apply listdir_there; exact Hthere).
    unfold bindB at 1, try_exceptB.
    rewrite (bindB_done _ _ _ _ _ Hlist).
    rewrite (bindB_done _ _ _ _ _ (liftB_pure _ _ _ Hfilter)).
    unfold retB at 1. cbv beta iota.
    set (mask_files := filter (fun f => q f = true)
                              (default [] (listing w !! mask_dir))).
    destruct (match_loop_run mask_dir label_dir mask_files [] s)
      as (new & s' & Hloop & Hw & Hall & Hsub & Hfull).
    exists new, s'. split; [exact Hloop|]. split; [exact Hw|].
    split.
    { intros Hno Hnd. apply orb_true_iff in Eex.
      destruct Eex as [E|E]; apply bool_decide_eq_true in E.
      - rewrite Hno in E. destruct E as [? E]. discriminate.
      - contradiction. }
    split; [exact Hall|].
    split.
    + rewrite Forall_forall. intros fs Hin.
      assert (Hmf : FileSet.mask_file fs ∈ mask_files).
      { eapply elem_of_sublist; [|exact Hsub].
        apply list_elem_of_fmap. eauto. }
      apply list_elem_of_filter in Hmf. destruct Hmf as [Hq _].
      unfold q in Hq. apply andb_true_iff in Hq. destruct Hq as [Hf Hc].
      apply bool_decide_eq_true in Hf.
      rewrite Forall_forall in Hall. destruct (Hall fs Hin) as (-> & _).
      auto.
    + split; [etransitivity; [exact Hsub|]; apply sublist_filter|].
      intros f Hf _ Hfile Hc Hex. apply Hfull; [|exact Hc|exact Hex].
      apply list_elem_of_filter. split; [|exact Hf].
      unfold q. rewrite (bool_decide_eq_true_2 _ Hfile), Hc. reflexivity.
  - unfold bindB, say, retB. simpl.
    eexists [], _. split; [reflexivity|]. split; [reflexivity|].
    split; [auto|]. split; [constructor|]. split; [constructor|].
    split; [apply sublist_nil_l|].
    intros f _ Hdir. exfalso.
    apply orb_false_iff in Eex. destruct Eex as [E1 E2].
    apply bool_decide_eq_false in E2. exact (E2 Hdir).
Qed.

(** X17.  On a mask directory whose names are made of ASCII characters,
    [find_matching_files] changes nothing in the world.  It returns no
    set, with one line, when the mask directory does not exist.  Every
    set it returns is matched: its mask file is a file of the mask
    directory whose name holds [_mask.] in any case of letters, the name
    is cut around that marker, and the label file named after the first
    part exists.  The mask files of the sets follow the order of the
    listing of the mask directory, and when the mask directory is a
    directory no file of the listing that is a file, holds the marker
    and has its label file is left out.  (Outside ASCII a letter can
    change length when lowered, and the name is then cut beside the
    marker.) *)
Theorem find_matching_files_sets (mask_dir label_dir : string) (s : session) :
  let w := under s in
  Forall is_ascii (default [] (listing w !! mask_dir)) ->
  exists sets s',
    find_matching_files mask_dir label_dir s = (Done sets, s')
    /\ under s' = w
    /\ (disk w !! mask_dir = None -> mask_dir ∉ dirs w ->
        sets = [] /\ notes s' = MaskDirMissing mask_dir :: notes s)
    /\ Forall (matched w mask_dir label_dir) sets
    /\ Forall (fun fs =>
                 is_Some (disk w !! FileSet.mask_path fs)
                 /\ contains mask_suffix_identifier
                             (lower (FileSet.mask_file fs)) = true)
              sets
    /\ (FileSet.mask_file <$> sets)
       `sublist_of` default [] (listing w !! mask_dir)
    /\ (forall f, f ∈ default [] (listing w !! mask_dir) ->
        mask_dir ∈ dirs w ->
        is_Some (disk w !! safe_path_join mask_dir f) ->
        contains mask_suffix_identifier (lower f) = true ->
        (let label_path := safe_path_join label_dir (label_file_of f) in
         is_Some (disk w !! label_path) \/ label_path ∈ dirs w) ->
        f ∈ FileSet.mask_file <$> sets).
Proof. intros w _. apply find_matching_files_run. Qed.

Lemma find_matching_files_sets_witness :
  exists sets s',
    find_matching_files "m" "l" (Session dataset_world []) = (Done sets, s')
    /\ under s' = dataset_world
    /\ "a_mask.png" ∈ FileSet.mask_file <$> sets.
Proof.
  destruct (find_matching_files_sets "m" "l" (Session dataset_world []))
    as (sets & s' & Hrun & Hw & _ & _ & _ & _ & Hfull).
  { apply (bool_decide_unpack _). vm_compute. exact I. }
  exists sets, s'. split; [exact Hrun|]. split; [exact Hw|].
  apply Hfull.
  - apply (bool_decide_unpack _). vm_compute. exact I.
  - apply (bool_decide_unpack _). vm_compute. exact I.
  - exists (Picture [[(255, 255, 255); (0, 0, 0)]]). vm_compute. reflexivity.
  - vm_compute. reflexivity.
  - left. exists (Picture [[(3, 3, 3); (1, 1, 1)]]). vm_compute. reflexivity.
Defined.

(** ** Runs of [process_defect_masks] *)





(** The copy of the original, and the count it moves. *)
Lemma copy_original_run (source dest name dir : string) (c : counts)
    (s : session) :
  exists c' s',
    try_exceptB
      (shutil_copy2 source dest ~;;
       say (OriginalCopied name dir) ~;;
       retB (Counts (processed_count c) (skipped_count c) (error_count c)
                    (copied_originals_count c + 1)
                    (original_not_found_count c)))
      (fun e_copy => say (CopyFailed name e_copy) ~;; retB c) s
    = (Done c', s')
    /\ out (under s') = out (under s)
    /\ (exists new, notes s' = new ++ notes s)
    /\ processed_count c' = processed_count c
    /\ skipped_count c' = skipped_count c
    /\ error_count c' = error_count c
    /\ original_not_found_count c' = original_not_found_count c
    /\ copied_originals_count c <= copied_originals_count c'
       <= copied_originals_count c + 1.
Proof.
  unfold try_exceptB, bindB at 1, shutil_copy2.
  destruct (disk (under s) !! source) as [f|].
  - destruct (bool_decide _).
    + unfold bindB, say, retB. simpl.
      eexists c, _. split; [reflexivity|]. simpl.
      split; [reflexivity|]. split; [eexists [_]; reflexivity|].
      repeat split; lia.
    + unfold bindB, say, retB. simpl.
      eexists _, _. split; [reflexivity|]. simpl.
      split; [reflexivity|].
      split; [eexists [_; _]; reflexivity|]. repeat split; lia.
  - destruct (bool_decide _); unfold bindB, say, retB; simpl;
      (eexists c, _; split; [reflexivity|]); simpl;
      (split; [reflexivity|]);
      (split; [eexists [_]; reflexivity|]);
      repeat split; lia.
Qed.








(** ** One set of [process_defect_masks], image by image *)

(** [extract_defect_mask] on a readable pair of one shape. *)
Lemma extract_defect_mask_run (label_path mask_path : string)
    (defect_id : Z) (w : world) (label_img mask_img : image) :
  disk w !! label_path = Some (Picture label_img) ->
  disk w !! mask_path = Some (Picture mask_img) ->
  same_shape label_img mask_img ->
  let defect_mask :=
    np_all_eq label_img (defect_id, defect_id, defect_id) in
  extract_defect_mask label_path mask_path defect_id w
  = (Ok (if np_any defect_mask
         then Some (masked_copy (np_zeros_like mask_img) defect_mask mask_img)
         else None), w).
Proof.
  intros Hl Hm [Hh Hw] defect_mask.
  assert (Hrl : readable w label_path = Some label_img)
    by (unfold readable; rewrite Hl; reflexivity).
  assert (Hrm : readable w mask_path = Some mask_img)
    by (unfold readable; rewrite Hm; reflexivity).
  unfold extract_defect_mask, try_except.
  unfold bind at 1. rewrite (safe_imread_some _ _ _ Hrl). cbv beta iota.
  unfold bind at 1. rewrite (safe_imread_some _ _ _ Hrm). cbv beta iota.
  apply Z.eqb_eq in Hh, Hw. rewrite Hh, Hw. simpl. unfold ret.
  fold defect_mask. destruct (np_any defect_mask); reflexivity.
Qed.

(** The copy of the original in the two cases that leave no doubt: the
    original is missing, or it is a file and the copy lands beside. *)
Lemma copy_block_cases (source dest name dir : string) (c : counts)
    (s : session) :
  exists c1 s1,
    (if bool_decide (is_Some (disk (under s) !! source))
        || bool_decide (source ∈ dirs (under s))
     then
       try_exceptB
         (shutil_copy2 source dest ~;;
          say (OriginalCopied name dir) ~;;
          retB (Counts (processed_count c) (skipped_count c) (error_count c)
                       (copied_originals_count c + 1)
                       (original_not_found_count c)))
         (fun e_copy => say (CopyFailed name e_copy) ~;; retB c)
     else
       say (OriginalNotFound source) ~;;
       retB (Counts (processed_count c) (skipped_count c) (error_count c)
                    (copied_originals_count c)
                    (original_not_found_count c + 1))) s
    = (Done c1, s1)
    /\ out (under s1) = out (under s)
    /\ processed_count c1 = processed_count c
    /\ skipped_count c1 = skipped_count c
    /\ error_count c1 = error_count c
    /\ (disk (under s) !! source = None -> source ∉ dirs (under s) ->
        original_not_found_count c1 = original_not_found_count c + 1
        /\ copied_originals_count c1 = copied_originals_count c
        /\ disk (under s1) = disk (under s))
    /\ (forall f, disk (under s) !! source = Some f ->
        dest ∉ dirs (under s) -> source <> dest ->
        copied_originals_count c1 = copied_originals_count c + 1
        /\ original_not_found_count c1 = original_not_found_count c
        /\ disk (under s1) = <[dest := f]> (disk (under s))).
Proof.
  destruct (copy_original_run source dest name dir c s)
    as (c1 & s1 & Hrun & Hout & _ & Hp & Hs & He & Hnf & Hc).
  destruct (disk (under s) !! source) as [f|] eqn:Esrc.
  - rewrite bool_decide_eq_true_2 by eauto. cbn [orb].
    destruct (decide (dest ∈ dirs (under s))) as [Hd|Hd].
    { exists c1, s1. repeat split; auto; try discriminate;
        intros; contradiction. }
    destruct (decide (source = dest)) as [Heq|Hne].
    { exists c1, s1. repeat split; auto; try discriminate;
        intros; contradiction. }
    clear Hrun Hout Hp Hs He Hnf Hc c1 s1.
    unfold try_exceptB, bindB at 1, shutil_copy2. rewrite Esrc.
    rewrite (bool_decide_eq_false_2 _ Hd).
    rewrite (bool_decide_eq_false_2 _ Hne).
    unfold bindB, say, retB. simpl.
    eexists _, _. split; [reflexivity|]. simpl.
    repeat split; try discriminate.
    congruence.
  - rewrite bool_decide_eq_false_2 by (intros [? ?]; discriminate).
    cbn [orb].
    destruct (decide (source ∈ dirs (under s))) as [Hd|Hd].
    + rewrite (bool_decide_eq_true_2 _ Hd).
      exists c1, s1. repeat split; auto; try discriminate;
        intros; contradiction.
    + rewrite (bool_decide_eq_false_2 _ Hd).
      unfold bindB, say, retB. simpl.
      eexists _, _. split; [reflexivity|]. simpl.
      repeat split; try discriminate.
Qed.

(** X19.  One set of [process_defect_masks] whose label and mask are
    readable and of one shape.  When no pixel of the label has the
    defect id on its three channels, the set is skipped: the skipped
    count goes up by one and nothing else changes but the two lines.
    Otherwise, when the writer can succeed (the output directory is
    there, the mask file is a plain name that is no directory there, its
    extension has a writer and the mask has pixels), the processed count
    goes up by one and the extracted mask, its black turned gray, is
    handed to [cv2.imwrite] last, under the name of the mask file in the
    output directory, where it is found afterwards when the writer of
    the extension loses nothing; before that, an original that is
    missing is counted as not found and the disk is otherwise left
    alone, and an original that is a file is copied under its plain name
    into the directory of the originals, when that one is there, and
    counted. *)
Theorem defect_step_on_images (output_dir : string) (defect_id : Z)
    (original_image_dir output_original_image_dir : string)
    (file_set : FileSet.t) (c : counts) (s : session)
    (label_img mask_img : image) :
  let w := under s in
  let target : pixel := (defect_id, defect_id, defect_id) in
  let step := defect_step output_dir defect_id original_image_dir
                          output_original_image_dir file_set c s in
  let output_path :=
    safe_path_join output_dir (FileSet.mask_file file_set) in
  let original_image_name :=
    FileSet.base_name file_set +:+ FileSet.ext file_set in
  let source := safe_path_join original_image_dir original_image_name in
  let dest :=
    safe_path_join output_original_image_dir original_image_name in
  let new_mask :=
    masked_copy (np_zeros_like mask_img) (np_all_eq label_img target)
                mask_img in
  disk w !! FileSet.label_path file_set = Some (Picture label_img) ->
  disk w !! FileSet.mask_path file_set = Some (Picture mask_img) ->
  same_shape label_img mask_img ->
  ((forall i j, pixel_at label_img i j <> Some target) ->
   step = (Done (Next (Counts (processed_count c) (skipped_count c + 1)
                              (error_count c) (copied_originals_count c)
                              (original_not_found_count c))),
           Session w (SetSkipped defect_id (FileSet.base_name file_set)
                      :: SetHandled (FileSet.base_name file_set)
                      :: notes s)))
  /\ ((exists i j, pixel_at label_img i j = Some target) ->
      output_dir ∈ dirs w -> output_path ∉ dirs w ->
      plain_component (FileSet.mask_file file_set) ->
      has_pixels mask_img ->
      writable_ext (splitext output_path).2 ->
      exists c' s',
        step = (Done (Next c'), s')
        /\ processed_count c' = processed_count c + 1
        /\ skipped_count c' = skipped_count c
        /\ error_count c' = error_count c
        /\ out (under s')
           = Imwrite output_path (convert_to_gray_white new_mask) :: out w
        /\ (lossless_ext (splitext output_path).2 ->
            disk (under s') !! output_path
            = Some (Picture (convert_to_gray_white new_mask)))
        /\ (disk w !! source = None -> source ∉ dirs w ->
            original_not_found_count c' = original_not_found_count c + 1
            /\ copied_originals_count c' = copied_originals_count c
            /\ forall path, path <> output_path ->
                 disk (under s') !! path = disk w !! path)
        /\ (forall f, disk w !! source = Some f ->
            output_original_image_dir ∈ dirs w ->
            plain_component original_image_name -> dest ∉ dirs w ->
            source <> dest ->
            copied_originals_count c' = copied_originals_count c + 1
            /\ original_not_found_count c' = original_not_found_count c
            /\ (dest <> output_path -> disk (under s') !! dest = Some f))).
Proof.
  intros w target step output_path original_image_name source dest new_mask
    Hl Hm Hs.
  pose proof (extract_defect_mask_run _ _ defect_id w label_img mask_img
                Hl Hm Hs) as Hrun.
  cbv zeta in Hrun. fold target in Hrun.
  assert (Hstep : step
    = (processed_mask <~
         liftB (extract_defect_mask (FileSet.label_path file_set)
                  (FileSet.mask_path file_set) defect_id) ;;
       _)
        (Session w (SetHandled (FileSet.base_name file_set) :: notes s)))
    by reflexivity.
  rewrite Hstep. clear Hstep.
  rewrite (bindB_done _ _ _ _ _
             (liftB_ok _ (Session w (SetHandled _ :: notes s)) _ w Hrun)).
  split.
  - intros Hnone.
    assert (Hany : np_any (np_all_eq label_img target) = false).
    { destruct (np_any (np_all_eq label_img target)) eqn:E; [|reflexivity].
      apply np_any_all_eq in E. destruct E as (i & j & Hij).
      destruct (Hnone i j Hij). }
    rewrite Hany. reflexivity.
  - intros Hsome _ _ _ _ _. apply np_any_all_eq in Hsome. rewrite Hsome.
    fold new_mask. cbv zeta. fold original_image_name source dest output_path.
    rewrite (bindB_done _ _ _ _ _ (liftB_pure (path_exists source) _ _
                                     eq_refl)).
    set (s0 := Session w (SetHandled (FileSet.base_name file_set) :: notes s)).
    destruct (copy_block_cases source dest original_image_name
                output_original_image_dir c s0)
      as (c1 & s1 & Hrun1 & Hout1 & Hp & Hk & He & Hmiss & Hfile).
    change (under s0) with w in *.
    rewrite (bindB_done _ _ _ _ _ Hrun1).
    unfold try_exceptB, bindB at 1, safe_imwrite, try_exceptB.
    unfold bindB at 1, liftB, cv2_imwrite. cbv beta iota.
    unfold retB at 1. cbv beta iota. unfold bindB, say, retB. simpl.
    eexists _, _. split; [reflexivity|]. simpl.
    split; [lia|]. split; [exact Hk|]. split; [exact He|].
    split; [rewrite Hout1; reflexivity|].
    split; [intros _; apply lookup_insert_eq|].
    split.
    + intros Hnone Hnd. destruct (Hmiss Hnone Hnd) as (H1 & H2 & H3).
      split; [exact H1|]. split; [exact H2|].
      intros path Hne. rewrite lookup_insert_ne by auto.
      rewrite H3. reflexivity.
    + intros f Hf _ _ Hnd Hne.
      destruct (Hfile f Hf Hnd Hne) as (H1 & H2 & H3).
      split; [exact H1|]. split; [exact H2|].
      intros Hne2. rewrite lookup_insert_ne by auto.
      rewrite H3. apply lookup_insert_eq.
Qed.

Lemma defect_step_on_images_witness :
  exists c' s',
    defect_step "out" 3 "o" "oo"
      (FileSet.Make "a" "a_mask.png" "a_label.png" "m/a_mask.png"
                    "l/a_label.png" ".png")
      (Counts 0 0 0 0 0) (Session dataset_world [])
    = (Done (Next c'), s')
    /\ processed_count c' = 1
    /\ copied_originals_count c' = 1
    /\ disk (under s') !! "out/a_mask.png"
       = Some (Picture [[(255, 255, 255); (127, 127, 127)]])
    /\ disk (under s') !! "oo/a.png"
       = Some (Picture [[(9, 9, 9); (8, 8, 8)]]).
Proof.
  destruct (defect_step_on_images "out" 3 "o" "oo"
              (FileSet.Make "a" "a_mask.png" "a_label.png" "m/a_mask.png"
                            "l/a_label.png" ".png")
              (Counts 0 0 0 0 0) (Session dataset_world [])
              [[(3, 3, 3); (1, 1, 1)]] [[(255, 255, 255); (0, 0, 0)]]
              eq_refl eq_refl (conj eq_refl eq_refl)) as [_ Hfound].
  destruct Hfound as (c' & s' & Hrun & Hp & _ & _ & _ & Hmask & _ & Hfile).
  { exists 0, 0. reflexivity. }
  { apply (bool_decide_unpack _). vm_compute. exact I. }
  { apply (bool_decide_unpack _). vm_compute. exact I. }
  { apply (bool_decide_unpack _). vm_compute. exact I. }
  { split; reflexivity. }
  { apply (bool_decide_unpack _). vm_compute. exact I. }
  destruct (Hfile (Picture [[(9, 9, 9); (8, 8, 8)]]) eq_refl)
    as (Hc & _ & Hcopy).
  { apply (bool_decide_unpack _). vm_compute. exact I. }
  { apply (bool_decide_unpack _). vm_compute. exact I. }
  { apply (bool_decide_unpack _). vm_compute. exact I. }
  { apply (bool_decide_unpack _). vm_compute. exact I. }
  exists c', s'. split; [exact Hrun|]. split; [exact Hp|].
  split; [exact Hc|].
  split; [apply Hmask; apply (bool_decide_unpack _); vm_compute; exact I|].
  apply Hcopy. apply (bool_decide_unpack _). vm_compute. exact I.
Defined.

(** ** Paths made by [safe_path_join] *)

Lemma prefix_empty (s : string) : String.prefix EmptyString s = true.
Proof. destruct s; reflexivity. Qed.

Lemma rev_cons_app (c : ascii) (cur s : string) :
  String.rev (String c cur) +:+ s = String.rev cur +:+ String c s.
Proof.
  apply chars_inj. rewrite !chars_app, !rev_chars. simpl.
  rewrite reverse_cons, <- app_assoc. reflexivity.
Qed.

(** [split] on a piece without slash, and on a piece up to a slash. *)
Lemma split_from_plain (cur s : string) :
  slash ∉ list_ascii_of_string s ->
  split_from "/" 0 cur s = [String.rev cur +:+ s].
Proof.
  revert cur. induction s as [|c s IH]; intros cur Hno.
  - simpl. f_equal. apply chars_inj. rewrite chars_app, app_nil_r.
    reflexivity.
  - rewrite split_from_cons, (prefix_slash_free _ Hno).
    simpl in Hno. apply not_elem_of_cons in Hno. destruct Hno as [_ Hno].
    rewrite (IH _ Hno), rev_cons_app. reflexivity.
Qed.

Lemma split_from_slash (cur a t : string) :
  slash ∉ list_ascii_of_string a ->
  split_from "/" 0 cur (a +:+ String slash t)
  = (String.rev cur +:+ a) :: split_from "/" 0 EmptyString t.
Proof.
  revert cur. induction a as [|c a IH]; intros cur Hno.
  - change (EmptyString +:+ String slash t) with (String slash t).
    rewrite split_from_cons.
    change (String.prefix "/" (String slash t))
      with (if ascii_dec "/" slash then String.prefix EmptyString t
            else false).
    destruct (ascii_dec "/" slash) as [_|Hne]; [|destruct Hne; reflexivity].
    rewrite prefix_empty. simpl. f_equal. apply chars_inj.
    rewrite chars_app, app_nil_r. reflexivity.
  - change (String c a +:+ String slash t)
      with (String c (a +:+ String slash t)).
    rewrite split_from_cons.
    simpl in Hno. apply not_elem_of_cons in Hno. destruct Hno as [Hne Hno].
    change (String.prefix "/" (String c (a +:+ String slash t)))
      with (if ascii_dec "/" c
            then String.prefix EmptyString (a +:+ String slash t)
            else false).
    destruct (ascii_dec "/" c) as [<-|_]; [destruct Hne; reflexivity|].
    rewrite (IH _ Hno), rev_cons_app. reflexivity.
Qed.

(** Splitting what was joined gives the pieces back. *)
Lemma split_join_plain (comps : list string) :
  comps <> [] ->
  Forall (fun comp => slash ∉ list_ascii_of_string comp) comps ->
  split "/" (str_join "/" comps) = comps.
Proof.
  induction comps as [|p rest IH]; [contradiction|]. intros _ Hall.
  apply Forall_cons in Hall. destruct Hall as [Hp Hrest].
  destruct rest as [|q rest].
  - simpl. unfold split. rewrite (split_from_plain _ _ Hp). reflexivity.
  - rewrite str_join_cons by discriminate. unfold split.
    change ("/" +:+ str_join "/" (q :: rest))
      with (String slash (str_join "/" (q :: rest))).
    rewrite (split_from_slash _ _ _ Hp).
    change (String.rev EmptyString +:+ p) with p.
    f_equal. apply IH; [discriminate|exact Hrest].
Qed.

Lemma str_join_snoc (sep : string) (comps : list string) (q : string) :
  comps <> [] ->
  str_join sep (comps ++ [q]) = str_join sep comps +:+ sep +:+ q.
Proof.
  destruct comps as [|p rest]; [contradiction|]. intros _. simpl.
  rewrite foldl_app. reflexivity.
Qed.

Lemma normpath_steps_plain (n : nat) (acc comps : list string) :
  Forall plain_component comps ->
  foldl (normpath_step n) acc comps = acc ++ comps.
Proof.
  revert acc. induction comps as [|p rest IH]; intros acc Hall.
  - rewrite app_nil_r. reflexivity.
  - apply Forall_cons in Hall. destruct Hall as [(H1 & H2 & H3 & _) Hrest].
    change (foldl (normpath_step n) acc (p :: rest))
      with (foldl (normpath_step n) (normpath_step n acc p) rest).
    rewrite (IH _ Hrest). unfold normpath_step.
    rewrite (bool_decide_eq_false_2 _ H1), (bool_decide_eq_false_2 _ H2),
      (bool_decide_eq_false_2 _ H3).
    cbn [orb negb]. rewrite <- app_assoc. reflexivity.
Qed.

(** The characters of a joined path: it starts with its first piece. *)
Lemma str_join_chars (comps : list string) (p : string) :
  exists r, list_ascii_of_string (str_join "/" (p :: comps))
            = list_ascii_of_string p ++ r.
Proof.
  revert p. induction comps as [|q rest IH] using rev_ind; intros p.
  - exists []. simpl. rewrite app_nil_r. reflexivity.
  - destruct (IH p) as [r Hr].
    rewrite app_comm_cons, str_join_snoc by discriminate.
    rewrite !chars_app, Hr, <- app_assoc. eauto.
Qed.

(** A relative path of plain components is already normal. *)
Lemma normpath_plain (comps : list string) :
  comps <> [] -> Forall plain_component comps ->
  normpath (str_join "/" comps) = str_join "/" comps.
Proof.
  intros Hne Hall. unfold normpath.
  destruct comps as [|p rest]; [contradiction|].
  pose proof Hall as Hall'.
  apply Forall_cons in Hall'. destruct Hall' as [(Hp1 & _ & _ & Hp4) _].
  destruct (str_join_chars rest p) as [r Hr].
  set (path := str_join "/" (p :: rest)) in *.
  assert (Hfirst : exists c l, list_ascii_of_string path = c :: l
                               /\ c <> slash).
  { destruct p as [|c p]; [contradiction|]. simpl in Hr, Hp4.
    apply not_elem_of_cons in Hp4. destruct Hp4 as [Hc _].
    exists c, (list_ascii_of_string p ++ r). split; [exact Hr|].
    intros ->. apply Hc. reflexivity. }
  destruct Hfirst as (c & l & Hpath & Hc).
  assert (Hnonempty : path <> EmptyString).
  { intros E. rewrite E in Hpath. discriminate. }
  assert (Hpre : String.prefix "/" path = false).
  { destruct path as [|c' path']; [reflexivity|].
    simpl in Hpath. injection Hpath as -> _.
    change (String.prefix "/" (String c path'))
      with (if ascii_dec "/" c then String.prefix EmptyString path'
            else false).
    destruct (ascii_dec "/" c) as [<-|_]; [|reflexivity].
    destruct Hc. reflexivity. }
  rewrite (bool_decide_eq_false_2 _ Hnonempty), Hpre. cbv zeta.
  assert (Hsplit : split "/" path = p :: rest).
  { apply split_join_plain; [discriminate|].
    eapply Forall_impl; [exact Hall|]. intros x (_ & _ & _ & Hx). exact Hx. }
  rewrite Hsplit, normpath_steps_plain by exact Hall. simpl app.
  fold path.
  change (string_of_list_ascii (replicate 0 slash) +:+ path) with path.
  rewrite (bool_decide_eq_false_2 _ Hnonempty). reflexivity.
Qed.

(** X20.  [safe_path_join] of a relative directory made of plain
    components and a plain file name is the directory, a slash and the
    name: nothing is taken away by the normalisation, and the name is
    read back by [basename]. *)
Theorem safe_path_join_plain (comps : list string) (name : string) :
  comps <> [] -> Forall plain_component comps -> plain_component name ->
  let dir := str_join "/" comps in
  safe_path_join dir name = dir +:+ "/" +:+ name
  /\ basename (safe_path_join dir name) = name
  /\ split "/" (safe_path_join dir name) = comps ++ [name].
Proof.
  intros Hne Hall Hname dir.
  assert (Hall2 : Forall plain_component (comps ++ [name])).
  { apply Forall_app. split; [exact Hall|]. constructor; [exact Hname|].
    constructor. }
  assert (Hjoin : path_join dir name = str_join "/" (comps ++ [name])).
  { rewrite str_join_snoc by exact Hne. fold dir.
    destruct Hname as (_ & _ & _ & Hno).
    unfold path_join. rewrite (prefix_slash_free _ Hno).
    destruct comps as [|p rest] using rev_ind; [contradiction|].
    clear IHrest.
    assert (Hlast : exists l c, list_ascii_of_string dir = l ++ [c]
                                /\ c <> slash).
    { apply Forall_app in Hall. destruct Hall as [_ Hp].
      apply Forall_cons in Hp. destruct Hp as [(Hp1 & _ & _ & Hp4) _].
      assert (Hp : exists l c, list_ascii_of_string p = l ++ [c]
                               /\ c <> slash).
      { destruct (list_ascii_of_string p) as [|c0 l0] eqn:E using rev_ind.
        - destruct p; [contradiction|discriminate].
        - exists l0, c0. split; [reflexivity|].
          intros ->. apply Hp4. apply elem_of_app. right.
          apply list_elem_of_here. }
      destruct Hp as (l & c & Hp & Hc).
      destruct rest as [|q rest'].
      - exists l, c. split; [exact Hp|exact Hc].
      - unfold dir. rewrite str_join_snoc by discriminate.
        exists (list_ascii_of_string (str_join "/" (q :: rest') +:+ "/") ++ l),
          c.
        split; [|exact Hc].
        rewrite <- app_assoc, <- Hp, <- chars_app.
        f_equal. apply chars_inj. rewrite !chars_app, <- app_assoc.
        reflexivity. }
    destruct Hlast as (l & c & Hdir & Hc).
    assert (Hlen : (String.length dir =? 0)%nat = false).
    { apply Nat.eqb_neq. rewrite length_chars, Hdir, length_app. simpl. lia. }
    assert (Hend : ends_with_slash dir = false).
    { destruct (ends_with_slash dir) eqn:E; [|reflexivity].
      apply ends_with_slash_chars in E. destruct E as [l0 Hl0].
      rewrite Hdir in Hl0. apply app_inj_tail in Hl0.
      destruct Hl0 as [_ ->]. destruct Hc. reflexivity. }
    rewrite Hlen, Hend. reflexivity. }
  assert (Hsafe : safe_path_join dir name = str_join "/" (comps ++ [name])).
  { unfold safe_path_join. cbv zeta. rewrite Hjoin.
    apply normpath_plain; [|exact Hall2].
    destruct comps; discriminate. }
  split; [rewrite Hsafe; apply str_join_snoc; exact Hne|].
  split.
  - rewrite Hsafe, str_join_snoc by exact Hne.
    destruct Hname as (_ & _ & _ & Hno).
    apply chars_inj.
    apply (basename_last _ (list_ascii_of_string (str_join "/" comps))).
    + rewrite !chars_app. reflexivity.
    + exact Hno.
  - rewrite Hsafe. apply split_join_plain.
    + destruct comps; discriminate.
    + eapply Forall_impl; [exact Hall2|]. intros x (_ & _ & _ & Hx). exact Hx.
Qed.

Lemma safe_path_join_plain_witness :
  safe_path_join "data/masks" "a_mask.png" = "data/masks/a_mask.png"
  /\ basename (safe_path_join "data/masks" "a_mask.png") = "a_mask.png".
Proof.
  destruct (safe_path_join_plain ["data"; "masks"] "a_mask.png")
    as (H1 & H2 & _).
  - discriminate.
  - apply (bool_decide_unpack _). vm_compute. exact I.
  - apply (bool_decide_unpack _). vm_compute. exact I.
  - split; [exact H1|exact H2].
Defined.

(** ** A whole run of [batch_expand_images] *)










(** ** From [expand_image] to [batch_crop_images] *)

Lemma append_empty_r (s : string) : s +:+ EmptyString = s.
Proof. apply chars_inj. rewrite chars_app. apply app_nil_r. Qed.

Lemma prefix_append (s t : string) : String.prefix s (s +:+ t) = true.
Proof. apply prefix_chars. exists (list_ascii_of_string t). apply chars_app. Qed.

(** [split] with a separator of any length, on a piece that holds
    nowhere the first character of the separator. *)
Lemma split_from_skip (sep cur x t : string) :
  split_from sep (String.length x) cur (x +:+ t) = split_from sep 0 cur t.
Proof.
  induction x as [|c x IH]; [reflexivity|].
  change (String c x +:+ t) with (String c (x +:+ t)).
  rewrite split_from_cons. exact IH.
Qed.

Lemma split_from_free (c0 : ascii) (sep' cur s : string) :
  c0 ∉ list_ascii_of_string s ->
  split_from (String c0 sep') 0 cur s = [String.rev cur +:+ s].
Proof.
  revert cur. induction s as [|c s IH]; intros cur Hno.
  - simpl. rewrite append_empty_r. reflexivity.
  - rewrite split_from_cons.
    simpl in Hno. apply not_elem_of_cons in Hno. destruct Hno as [Hne Hno].
    change (String.prefix (String c0 sep') (String c s))
      with (if ascii_dec c0 c then String.prefix sep' s else false).
    destruct (ascii_dec c0 c) as [->|_]; [destruct Hne; reflexivity|].
    rewrite (IH _ Hno), rev_cons_app. reflexivity.
Qed.

Lemma split_from_at (c0 : ascii) (sep' cur a t : string) :
  c0 ∉ list_ascii_of_string a ->
  split_from (String c0 sep') 0 cur (a +:+ String c0 sep' +:+ t)
  = (String.rev cur +:+ a) :: split_from (String c0 sep') 0 EmptyString t.
Proof.
  revert cur. induction a as [|c a IH]; intros cur Hno.
  - change (EmptyString +:+ String c0 sep' +:+ t)
      with (String c0 (sep' +:+ t)).
    rewrite split_from_cons.
    change (String c0 (sep' +:+ t)) with (String c0 sep' +:+ t).
    rewrite prefix_append, append_empty_r.
    change (String.length (String c0 sep') - 1)%nat
      with (String.length sep' - 0)%nat.
    rewrite Nat.sub_0_r, split_from_skip. reflexivity.
  - change (String c a +:+ String c0 sep' +:+ t)
      with (String c (a +:+ String c0 sep' +:+ t)).
    rewrite split_from_cons.
    simpl in Hno. apply not_elem_of_cons in Hno. destruct Hno as [Hne Hno].
    change (String.prefix (String c0 sep')
                          (String c (a +:+ String c0 sep' +:+ t)))
      with (if ascii_dec c0 c
            then String.prefix sep' (a +:+ String c0 sep' +:+ t)
            else false).
    destruct (ascii_dec c0 c) as [->|_]; [destruct Hne; reflexivity|].
    rewrite (IH _ Hno), rev_cons_app. reflexivity.
Qed.

(** [splitext] of a name given by its two parts. *)
Lemma splitext_parts (stem ext : string) :
  stem <> EmptyString ->
  dot ∉ list_ascii_of_string stem -> slash ∉ list_ascii_of_string stem ->
  ext = EmptyString
  \/ (exists l2, list_ascii_of_string ext = dot :: l2
                 /\ (dot ∉ l2) /\ (slash ∉ l2)) ->
  splitext (stem +:+ ext) = (stem, ext).
Proof.
  intros Hne Hdot Hslash [->|(l2 & Hext & Hd2 & Hs2)].
  - rewrite append_empty_r. unfold splitext.
    rewrite (rfind_none _ _ Hdot), (rfind_none _ _ Hslash). reflexivity.
  - set (p := stem +:+ ext).
    assert (Hp : list_ascii_of_string p
                 = list_ascii_of_string stem ++ dot :: l2)
      by (unfold p; rewrite chars_app, Hext; reflexivity).
    assert (Hps : slash ∉ list_ascii_of_string p).
    { rewrite Hp. intros Hin. apply elem_of_app in Hin.
      destruct Hin as [Hin|Hin]; [exact (Hslash Hin)|].
      apply elem_of_cons in Hin. destruct Hin as [Hin|Hin];
        [discriminate|exact (Hs2 Hin)]. }
    unfold splitext. fold p.
    rewrite (rfind_none _ _ Hps), (rfind_last _ _ _ _ Hp Hd2).
    assert (Hlt : (-1 <? Z.of_nat (length (list_ascii_of_string stem)))
                  = true) by (apply Z.ltb_lt; lia).
    rewrite Hlt.
    assert (Hod : only_dots
                    (substring (Z.to_nat (-1 + 1))
                       (Z.to_nat (Z.of_nat (length (list_ascii_of_string
                                                      stem))
                                  - (-1 + 1))) p) = false).
    { unfold only_dots. rewrite substring_chars, Hp.
      replace (Z.to_nat (Z.of_nat (length (list_ascii_of_string stem))
                         - (-1 + 1)))
        with (length (list_ascii_of_string stem)) by lia.
      change (Z.to_nat (-1 + 1)) with 0%nat. rewrite drop_0.
      rewrite take_app_length.
      destruct stem as [|c stem]; [contradiction|]. simpl.
      simpl in Hdot. apply not_elem_of_cons in Hdot. destruct Hdot as [Hc _].
      destruct (Ascii.eqb c dot) eqn:E; [|reflexivity].
      apply Ascii.eqb_eq in E. subst c. destruct Hc. reflexivity. }
    rewrite Hod. f_equal; apply chars_inj.
    + rewrite str_take_chars, Hp, Nat2Z.id. apply take_app_length.
    + rewrite str_drop_chars, Hp, Nat2Z.id, drop_app_length. symmetry.
      exact Hext.
Qed.

(** The characters of numbers are none of [_], [.] and [/]. *)
Lemma digits_chars (s : string) :
  isdigit s = true ->
  s <> EmptyString
  /\ forall c, c ∈ list_ascii_of_string s ->
               (48 <= nat_of_ascii c <= 57)%nat.
Proof.
  unfold isdigit. intros H. apply andb_true_iff in H. destruct H as [Hlen Hall].
  split.
  - intros ->. discriminate.
  - rewrite forallb_forall in Hall. intros c Hc.
    apply list_elem_of_In in Hc. specialize (Hall c Hc).
    cbv beta zeta in Hall.
    apply andb_true_iff in Hall. destruct Hall as [H1 H2].
    apply Nat.leb_le in H1, H2. lia.
Qed.

Lemma num_char_code (c : ascii) :
  num_char c -> (nat_of_ascii c = 45 \/ 48 <= nat_of_ascii c <= 57)%nat.
Proof.
  unfold num_char. intros H. apply existsb_exists in H.
  destruct H as (d & Hin & Heq). apply Ascii.eqb_eq in Heq. subst d.
  simpl in Hin.
  repeat (destruct Hin as [<-|Hin]; [vm_compute; lia|]). destruct Hin.
Qed.

Lemma number_free (s : string) (c0 : ascii) :
  (forall c, c ∈ list_ascii_of_string s ->
             (nat_of_ascii c = 45 \/ 48 <= nat_of_ascii c <= 57)%nat) ->
  (nat_of_ascii c0 <> 45 /\ ~ (48 <= nat_of_ascii c0 <= 57))%nat ->
  c0 ∉ list_ascii_of_string s.
Proof. intros Hall Hc0 Hin. specialize (Hall c0 Hin). lia. Qed.

(** X22.  What [expand_image] writes, [batch_crop_images] pairs: for an
    original whose name without extension is a number, as
    [batch_expand_images] takes them, the mask that [batch_crop_images]
    looks for beside the expansion number [i] is the mask that
    [expand_image] wrote with it. *)
Theorem expanded_pair_is_cropped (original_path output_original_dir
    output_mask_dir : string) (i : Z) :
  isdigit (splitext (basename original_path)).1 = true ->
  let expanded_file :=
    basename (expanded_original_name original_path output_original_dir i) in
  mask_file_of expanded_file
  = basename (expanded_mask_name original_path output_mask_dir i)
  /\ path_join output_mask_dir (mask_file_of expanded_file)
     = expanded_mask_name original_path output_mask_dir i.
Proof.
  intros Hdigit.
  unfold expanded_original_name, expanded_mask_name.
  destruct (splitext_spec (basename original_path)) as [Hname Hext].
  pose proof (basename_no_slash original_path) as Hslash.
  destruct (splitext (basename original_path)) as [base_name ext].
  simpl in Hdigit, Hname, Hext.
  destruct (digits_chars _ Hdigit) as [Hne Hdigits].
  assert (Hnum : forall c, c ∈ list_ascii_of_string (pretty i) ->
                   (nat_of_ascii c = 45 \/ 48 <= nat_of_ascii c <= 57)%nat).
  { intros c Hc. apply num_char_code.
    pose proof (pretty_Z_num i) as Hall. rewrite Forall_forall in Hall.
    exact (Hall c Hc). }
  assert (Hbase : forall c, c ∈ list_ascii_of_string base_name ->
                   (nat_of_ascii c = 45 \/ 48 <= nat_of_ascii c <= 57)%nat).
  { intros c Hc. right. exact (Hdigits c Hc). }
  set (stem := base_name +:+ "_expanded_" +:+ pretty i).
  assert (Hstem : forall c0 : ascii,
            (nat_of_ascii c0 <> 45 /\ ~ (48 <= nat_of_ascii c0 <= 57))%nat ->
            c0 ∉ list_ascii_of_string "_expanded_" ->
            c0 ∉ list_ascii_of_string stem).
  { intros c0 Hc0 Hsep. unfold stem. rewrite !chars_app. intros Hin.
    apply elem_of_app in Hin. destruct Hin as [Hin|Hin];
      [exact (number_free _ _ Hbase Hc0 Hin)|].
    apply elem_of_app in Hin. destruct Hin as [Hin|Hin];
      [exact (Hsep Hin)|exact (number_free _ _ Hnum Hc0 Hin)]. }
  assert (Hsdot : dot ∉ list_ascii_of_string stem).
  { apply Hstem; [vm_compute; lia|].
    intros Hin. repeat (apply elem_of_cons in Hin;
                        destruct Hin as [Hin|Hin]; [discriminate|]).
    apply elem_of_nil in Hin. exact Hin. }
  assert (Hsslash : slash ∉ list_ascii_of_string stem).
  { apply Hstem; [vm_compute; lia|].
    intros Hin. repeat (apply elem_of_cons in Hin;
                        destruct Hin as [Hin|Hin]; [discriminate|]).
    apply elem_of_nil in Hin. exact Hin. }
  assert (Hsne : stem <> EmptyString).
  { unfold stem. destruct base_name; [contradiction|discriminate]. }
  assert (Hext' : ext = EmptyString
                  \/ exists l2, list_ascii_of_string ext = dot :: l2
                                /\ (dot ∉ l2) /\ (slash ∉ l2)).
  { destruct Hext as [->|(l2 & Hl2 & Hd2)]; [auto|]. right.
    exists l2. split; [exact Hl2|]. split; [exact Hd2|].
    intros Hin. apply Hslash. rewrite Hname, chars_app, Hl2.
    apply elem_of_app. right. apply list_elem_of_further. exact Hin. }
  assert (Hslash_ext : slash ∉ list_ascii_of_string ext).
  { intros Hin. apply Hslash. rewrite Hname, chars_app.
    apply elem_of_app. auto. }
  assert (Hfile_eq : base_name +:+ "_expanded_" +:+ pretty i +:+ ext
                     = stem +:+ ext)
    by (unfold stem; rewrite !append_assoc; reflexivity).
  assert (Hmask_eq : base_name +:+ "_expanded_" +:+ pretty i +:+ "_mask"
                     +:+ ext
                     = stem +:+ "_mask" +:+ ext)
    by (unfold stem; rewrite !append_assoc; reflexivity).
  assert (Hfile : slash ∉ list_ascii_of_string
                            (base_name +:+ "_expanded_" +:+ pretty i +:+ ext)).
  { rewrite Hfile_eq, chars_app.
    intros Hin. apply elem_of_app in Hin. destruct Hin; auto. }
  assert (Hmask : slash ∉ list_ascii_of_string
                            (base_name +:+ "_expanded_" +:+ pretty i
                             +:+ "_mask" +:+ ext)).
  { rewrite Hmask_eq, !chars_app. intros Hin.
    apply elem_of_app in Hin. destruct Hin as [Hin|Hin]; [auto|].
    apply elem_of_app in Hin. destruct Hin as [Hin|Hin]; [|auto].
    repeat (apply elem_of_cons in Hin;
            destruct Hin as [Hin|Hin]; [discriminate|]).
    apply elem_of_nil in Hin. exact Hin. }
  destruct (path_join_slash_free output_original_dir) as [pre1 Hj1].
  destruct (path_join_slash_free output_mask_dir) as [pre2 Hj2].
  cbv zeta. rewrite (proj2 (Hj1 _ Hfile)), (proj2 (Hj2 _ Hmask)).
  assert (Hmf : mask_file_of (base_name +:+ "_expanded_" +:+ pretty i +:+ ext)
                = base_name +:+ "_expanded_" +:+ pretty i +:+ "_mask" +:+ ext).
  { unfold mask_file_of. rewrite Hfile_eq, Hmask_eq.
    rewrite (splitext_parts stem ext Hsne Hsdot Hsslash Hext').
    unfold split, stem.
    rewrite (split_from_at "_" "expanded_" EmptyString base_name (pretty i)).
    2: { apply (number_free _ _ Hbase). vm_compute. lia. }
    rewrite (split_from_free "_" "expanded_" EmptyString (pretty i)).
    2: { apply (number_free _ _ Hnum). vm_compute. lia. }
    change (String.rev EmptyString +:+ base_name) with base_name.
    change (String.rev EmptyString +:+ pretty i) with (pretty i).
    cbv iota beta. reflexivity. }
  rewrite Hmf. split; reflexivity.
Qed.

Lemma expanded_pair_is_cropped_witness :
  path_join "em" (mask_file_of "7_expanded_2.png")
  = "em/7_expanded_2_mask.png".
Proof.
  exact (proj2 (expanded_pair_is_cropped "in/7.png" "eo" "em" 2 eq_refl)).
Defined.
